(** * A shallow embedding of Z3's sequence / regular-expression rewriter

    Source: [src/ast/rewriter/seq_rewriter.cpp].

    Terms are modelled the way the host represents them: an application of a
    declaration (a kind plus its parameters) to an ordered list of children,
    interned, so that pointer equality is structural equality.  The element
    sort of sequences is fixed to [Char] (strings), the instance the string
    rewrites are written for.  *)

From stdpp Require Import base numbers list option gmap.
From Stdlib Require Import ZArith Lia.
From Stdlib Require DecimalN.
From Stdlib Require Import Classical_Prop.

Local Open Scope Z_scope.

(** ** Terms *)

(** A [zstring] is a vector of unsigned code points. *)
Definition zstring := list Z.

Inductive sort :=
  | BoolSort | IntSort | CharSort | SeqSort | ReSort | BvSort | ArraySort.

(** Declaration kinds, with the parameters the declaration carries
    (the literal of a constant, the bounds of a loop). *)
Inductive decl_kind :=
  (* basic family *)
  | OP_TRUE | OP_FALSE | OP_EQ | OP_ITE | OP_AND | OP_OR | OP_NOT
  (* arithmetic *)
  | OP_NUM (n : Z) | OP_LE | OP_GE | OP_LT | OP_GT | OP_ADD | OP_SUB | OP_MUL
  (* characters *)
  | OP_CHAR_CONST (c : Z) | OP_CHAR_LE
  (* bit-vectors and arrays, as far as the rewriter builds them *)
  | OP_UBV2INT | OP_SELECT
  (* sequences and strings *)
  | OP_SEQ_UNIT | OP_SEQ_EMPTY | OP_STRING_CONST (s : zstring) | OP_SEQ_CONCAT
  | OP_SEQ_PREFIX | OP_SEQ_SUFFIX | OP_SEQ_CONTAINS | OP_SEQ_EXTRACT
  | OP_SEQ_REPLACE | OP_SEQ_AT | OP_SEQ_NTH | OP_SEQ_NTH_I | OP_SEQ_NTH_U
  | OP_SEQ_LENGTH | OP_SEQ_INDEX | OP_SEQ_LAST_INDEX
  | OP_SEQ_TO_RE | OP_SEQ_IN_RE
  | OP_STRING_ITOS | OP_STRING_STOI | OP_STRING_UBVTOS | OP_STRING_SBVTOS
  | OP_STRING_LT | OP_STRING_LE | OP_STRING_IS_DIGIT
  | OP_STRING_TO_CODE | OP_STRING_FROM_CODE
  (* regular expressions *)
  | OP_RE_PLUS | OP_RE_STAR | OP_RE_OPTION | OP_RE_RANGE | OP_RE_CONCAT
  | OP_RE_UNION | OP_RE_DIFF | OP_RE_INTERSECT | OP_RE_LOOP (ps : list Z)
  | OP_RE_POWER (n : Z) | OP_RE_COMPLEMENT | OP_RE_EMPTY_SET
  | OP_RE_FULL_SEQ_SET | OP_RE_FULL_CHAR_SET | OP_RE_OF_PRED | OP_RE_REVERSE
  | OP_RE_DERIVATIVE
  (* internal kinds *)
  | _OP_RE_ANTIMIROV_UNION | _OP_RE_IS_NULLABLE
  (* uninterpreted symbols *)
  | OP_UNINTERPRETED (name : Z) (range : sort).

#[local] Unset Elimination Schemes.
Inductive expr :=
  | app (d : decl_kind) (args : list expr)
  | var (idx : nat) (s : sort).
#[local] Set Elimination Schemes.

#[global] Instance sort_eq_dec : EqDecision sort.
Proof. solve_decision. Defined.

#[global] Instance decl_kind_eq_dec : EqDecision decl_kind.
Proof. solve_decision. Defined.

(** Interned terms are compared by pointer: structural equality. *)
Fixpoint expr_eqb (a b : expr) {struct a} : bool :=
  match a, b with
  | app d1 l1, app d2 l2 =>
      bool_decide (d1 = d2) &&
      (fix go (l1 l2 : list expr) {struct l1} : bool :=
         match l1, l2 with
         | [], [] => true
         | x :: l1', y :: l2' => expr_eqb x y && go l1' l2'
         | _, _ => false
         end) l1 l2
  | var i s, var j t => bool_decide (i = j) && bool_decide (s = t)
  | _, _ => false
  end.

Lemma expr_nested_ind (P : expr → Prop) :
  (∀ d args, Forall P args → P (app d args)) →
  (∀ i s, P (var i s)) →
  ∀ e, P e.
Proof.
  intros Happ Hvar. fix IH 1. intros [d args | i s].
  - apply Happ. induction args as [|a args IHargs]; constructor; auto.
  - apply Hvar.
Qed.

Lemma expr_eqb_eq (a b : expr) : expr_eqb a b = true ↔ a = b.
Proof.
  revert b. induction a as [d args IH | i s] using expr_nested_ind; intros [d' args' | j t]; simpl;
    try (split; [discriminate | congruence]).
  - rewrite andb_true_iff, bool_decide_eq_true.
    assert (Hl : ∀ l',
      (fix go (l1 l2 : list expr) {struct l1} : bool :=
         match l1, l2 with
         | [], [] => true
         | x :: l1', y :: l2' => expr_eqb x y && go l1' l2'
         | _, _ => false
         end) args l' = true ↔ args = l').
    { induction IH as [|x l Hx Hl IHl]; intros [|y l']; try (split; [discriminate | congruence]).
      - tauto.
      - rewrite andb_true_iff, Hx, IHl. split; [intros [-> ->]; reflexivity | intros [= -> ->]; auto]. }
    rewrite Hl. split; [intros [-> ->]; reflexivity | intros [= -> ->]; auto].
  - rewrite andb_true_iff, !bool_decide_eq_true. split; [intros [-> ->]; reflexivity | intros [= -> ->]; auto].
Qed.

Lemma expr_eqb_refl (a : expr) : expr_eqb a a = true.
Proof. apply expr_eqb_eq. reflexivity. Qed.

#[global] Instance expr_eq_dec : EqDecision expr.
Proof.
  intros a b. destruct (expr_eqb a b) eqn:E.
  - left. apply expr_eqb_eq. exact E.
  - right. intros H. apply expr_eqb_eq in H. congruence.
Defined.

(** Rewriter status; the result slot is left unset on [BR_FAILED]. *)
Inductive br_status :=
  | BR_FAILED | BR_DONE | BR_REWRITE1 | BR_REWRITE2 | BR_REWRITE3 | BR_REWRITE_FULL.

Definition rewrite_result : Type := br_status * option expr.

(** ** Recognizers and constructors of the term utilities

    The one-argument recognizers test the declaration kind; the ones that
    also bind the children test the arity as well. *)

Definition is_app_of (e : expr) (k : decl_kind) : bool :=
  match e with
  | app d _ => bool_decide (d = k)
  | var _ _ => false
  end.

Definition is_app_of1 (e : expr) (k : decl_kind) : option expr :=
  match e with
  | app d [a] => if bool_decide (d = k) then Some a else None
  | _ => None
  end.

Definition is_app_of2 (e : expr) (k : decl_kind) : option (expr * expr) :=
  match e with
  | app d [a; b] => if bool_decide (d = k) then Some (a, b) else None
  | _ => None
  end.

Definition is_app_of3 (e : expr) (k : decl_kind) : option (expr * expr * expr) :=
  match e with
  | app d [a; b; c] => if bool_decide (d = k) then Some (a, b, c) else None
  | _ => None
  end.

Definition get_args (e : expr) : list expr :=
  match e with
  | app _ args => args
  | var _ _ => []
  end.

(** *** Basic family *)
Definition mk_true : expr := app OP_TRUE [].
Definition mk_false : expr := app OP_FALSE [].
Definition mk_bool_val (b : bool) : expr := if b then mk_true else mk_false.
Definition mk_not (a : expr) : expr := app OP_NOT [a].
Definition mk_eq (a b : expr) : expr := app OP_EQ [a; b].
Definition mk_ite (c t e : expr) : expr := app OP_ITE [c; t; e].
Definition mk_and (args : list expr) : expr := app OP_AND args.
Definition mk_or (args : list expr) : expr := app OP_OR args.

Definition is_true (e : expr) : bool := is_app_of e OP_TRUE.
Definition is_false (e : expr) : bool := is_app_of e OP_FALSE.
Definition is_not (e : expr) : option expr := is_app_of1 e OP_NOT.
Definition is_eq (e : expr) : option (expr * expr) := is_app_of2 e OP_EQ.
Definition is_ite (e : expr) : option (expr * expr * expr) := is_app_of3 e OP_ITE.
Definition is_and (e : expr) : option (expr * expr) := is_app_of2 e OP_AND.
Definition is_or (e : expr) : option (expr * expr) := is_app_of2 e OP_OR.

Definition is_uninterp_const (e : expr) : bool :=
  match e with
  | app (OP_UNINTERPRETED _ _) [] => true
  | _ => false
  end.

(** *** Arithmetic *)
Definition mk_int (n : Z) : expr := app (OP_NUM n) [].
Definition mk_numeral (n : Z) : expr := app (OP_NUM n) [].
Definition zero : expr := mk_int 0.
Definition one : expr := mk_int 1.
Definition minus_one : expr := mk_int (-1).
Definition mk_ge (a b : expr) : expr := app OP_GE [a; b].
Definition mk_le (a b : expr) : expr := app OP_LE [a; b].
Definition mk_lt (a b : expr) : expr := app OP_LT [a; b].
Definition mk_add (args : list expr) : expr := app OP_ADD args.
Definition mk_mul (args : list expr) : expr := app OP_MUL args.
Definition mk_sub_raw (a b : expr) : expr := app OP_SUB [a; b].

Definition is_numeral (e : expr) : option Z :=
  match e with
  | app (OP_NUM n) _ => Some n
  | _ => None
  end.

(** *** Characters *)
Definition mk_char (c : Z) : expr := app (OP_CHAR_CONST c) [].

Definition is_const_char (e : expr) : option Z :=
  match e with
  | app (OP_CHAR_CONST c) _ => Some c
  | _ => None
  end.

Definition is_char_le (e : expr) : option (expr * expr) := is_app_of2 e OP_CHAR_LE.

(** *** Sequences: the utilities [str()] *)
Module str.
Definition mk_string (s : zstring) : expr := app (OP_STRING_CONST s) [].
Definition mk_empty : expr := app OP_SEQ_EMPTY [].
Definition mk_unit (c : expr) : expr := app OP_SEQ_UNIT [c].
Definition mk_concat (a b : expr) : expr := app OP_SEQ_CONCAT [a; b].
Definition mk_prefix (a b : expr) : expr := app OP_SEQ_PREFIX [a; b].
Definition mk_suffix (a b : expr) : expr := app OP_SEQ_SUFFIX [a; b].
Definition mk_contains (a b : expr) : expr := app OP_SEQ_CONTAINS [a; b].
Definition mk_length (a : expr) : expr := app OP_SEQ_LENGTH [a].
Definition mk_substr (a b c : expr) : expr := app OP_SEQ_EXTRACT [a; b; c].
Definition mk_nth_i (s i : expr) : expr := app OP_SEQ_NTH_I [s; i].
Definition mk_nth_c (s : expr) (i : Z) : expr := mk_nth_i s (mk_int i).
Definition mk_stoi (a : expr) : expr := app OP_STRING_STOI [a].
Definition mk_itos (a : expr) : expr := app OP_STRING_ITOS [a].
Definition mk_ubv2s (a : expr) : expr := app OP_STRING_UBVTOS [a].
Definition mk_ubv2int (a : expr) : expr := app OP_UBV2INT [a].
Definition mk_lex_lt (a b : expr) : expr := app OP_STRING_LT [a; b].
Definition mk_in_re (s r : expr) : expr := app OP_SEQ_IN_RE [s; r].
Definition mk_is_empty (s : expr) : expr := mk_eq s mk_empty.

Definition is_string (e : expr) : option zstring :=
  match e with
  | app (OP_STRING_CONST s) _ => Some s
  | _ => None
  end.

Definition is_string_b (e : expr) : bool :=
  match is_string e with Some _ => true | None => false end.

Definition is_empty (e : expr) : bool :=
  is_app_of e OP_SEQ_EMPTY ||
  match is_string e with
  | Some s => bool_decide (s = [])
  | None => false
  end.

Definition is_unit_b (e : expr) : bool := is_app_of e OP_SEQ_UNIT.
Definition is_unit (e : expr) : option expr := is_app_of1 e OP_SEQ_UNIT.
Definition is_concat_b (e : expr) : bool := is_app_of e OP_SEQ_CONCAT.
Definition is_concat (e : expr) : option (expr * expr) := is_app_of2 e OP_SEQ_CONCAT.
Definition is_at_b (e : expr) : bool := is_app_of e OP_SEQ_AT.
Definition is_at (e : expr) : option (expr * expr) := is_app_of2 e OP_SEQ_AT.
Definition is_extract (e : expr) : option (expr * expr * expr) := is_app_of3 e OP_SEQ_EXTRACT.
Definition is_length (e : expr) : option expr := is_app_of1 e OP_SEQ_LENGTH.
Definition is_itos (e : expr) : option expr := is_app_of1 e OP_STRING_ITOS.
Definition is_stoi (e : expr) : option expr := is_app_of1 e OP_STRING_STOI.
Definition is_ubv2s (e : expr) : option expr := is_app_of1 e OP_STRING_UBVTOS.
Definition is_in_re (e : expr) : option (expr * expr) := is_app_of2 e OP_SEQ_IN_RE.
Definition is_in_re_b (e : expr) : bool := is_app_of e OP_SEQ_IN_RE.

(** [mk_concat(n, es, s)]: the empty sequence, the single element, or the
    right-nested binary concatenation. *)
Fixpoint mk_concat_n (es : list expr) : expr :=
  match es with
  | [] => mk_empty
  | [e] => e
  | e :: es' => mk_concat e (mk_concat_n es')
  end.
End str.
Import str.

(** *** [zstring] operations *)
Definition UINT_MAX : Z := 2 ^ 32 - 1.
Definition wrap32 (n : Z) : Z := n mod 2 ^ 32.

Definition zlength (s : zstring) : Z := Z.of_nat (length s).
Definition zget (s : zstring) (i : nat) : Z := nth i s 0.

(** [s.extract(offset, len)], clamped at the end of [s]. *)
Definition zextract (s : zstring) (offset len : nat) : zstring :=
  take len (drop offset s).

Definition str_mk_char (s : zstring) (i : nat) : expr := mk_char (zget s i).

(** ** Host capabilities

    The rewriter consumes a few services of its host through narrow
    interfaces whose code is not part of this file's source: the alphabet
    bound, term identifiers, the Boolean rewriter, the regex info
    analysis.  They are taken as parameters. *)

Inductive lbool := l_false | l_undef | l_true.

#[global] Instance lbool_eq_dec : EqDecision lbool.
Proof. solve_decision. Defined.

Class Host := {
  (** [zstring::max_char()], the largest code point of the alphabet. *)
  max_char : Z;
  (** [expr::get_id()], the identifier of an interned term. *)
  get_id : expr → Z;
  (** [re().get_info(r).min_length] and [.nullable]. *)
  info_min_length : expr → Z;
  info_nullable : expr → lbool;
  (** [re().min_length(r)] and [re().max_length(r)], [UINT_MAX] for none. *)
  re_min_length : expr → Z;
  re_max_length : expr → Z;
  (** [str().min_length(s)] of the sequence utilities. *)
  str_min_length : expr → Z;
  (** [re().is_ground(r)]. *)
  re_is_ground : expr → bool;
  (** [str().get_concat(e, es)]: the elements [e] is a concatenation of. *)
  get_concat : expr → list expr;
  (** [expr_ref_vector::hash()]. *)
  exprs_hash : list expr → Z;
  (** The Boolean rewriter [m_br]. *)
  br_mk_and : expr → expr → expr;
  br_mk_or : expr → expr → expr;
  br_mk_not : expr → expr;
  br_mk_ite : expr → expr → expr → expr;
  br_mk_eq_rw : expr → expr → expr;
  (** [u().mk_le(c1, c2)] on characters. *)
  char_mk_le : expr → expr → expr;
  (** [flatten_and(cond, conds)]. *)
  flatten_and : expr → list expr;
  (** [u().is_char_const_range(x, e, l, u, negated)]. *)
  is_char_const_range : expr → expr → option (Z * Z * bool);
  (** [expr_safe_replace]: replace a term by another in a term. *)
  safe_replace : expr → expr → expr → expr;
  (** The configuration flag [m_coalesce_chars]. *)
  m_coalesce_chars : bool;
  (** [zstring::encode()], the printable form of a string. *)
  encode : zstring → zstring;
  (** [str().is_len_sub(s, l, u, k)]: [s] is the length term [l] of [u]
      minus [k]. *)
  is_len_sub : expr → option (expr * expr * Z);
  (** [m().are_distinct], [m().are_equal], [m().is_value]. *)
  are_distinct : expr → expr → bool;
  are_equal : expr → expr → bool;
  is_value : expr → bool;
}.

(** ** String comparisons and code conversions *)

Section Strings.
Context `{H : Host}.

(** The scan of [mk_str_lt] over the common prefix:
    [for (i = 0; i < sz; ++i)], started at [i] with [n] iterations left. *)
Fixpoint str_lt_scan (n : nat) (i : nat) (as_ bs : zstring) : option bool :=
  match n with
  | O => None
  | S n' =>
      if zget as_ i <? zget bs i then Some true
      else if zget as_ i >? zget bs i then Some false
      else str_lt_scan n' (S i) as_ bs
  end.

Definition mk_str_lt (a b : expr) : rewrite_result :=
  if is_empty b then (BR_DONE, Some mk_false)
  else if is_empty a then (BR_REWRITE1, Some (mk_not (mk_eq a b)))
  else
    match is_string a, is_string b with
    | Some as_, Some bs =>
        let sz := Nat.min (length as_) (length bs) in
        match str_lt_scan sz 0 as_ bs with
        | Some r => (BR_DONE, Some (mk_bool_val r))
        | None => (BR_DONE, Some (mk_bool_val (zlength as_ <? zlength bs)))
        end
    | _, _ => (BR_FAILED, None)
    end.

Definition mk_str_le (a b : expr) : rewrite_result :=
  (BR_REWRITE2, Some (mk_not (mk_lex_lt b a))).

Definition mk_str_from_code (a : expr) : rewrite_result :=
  match is_numeral a with
  | Some r =>
      if (r <? 0) || (r >? max_char) then (BR_DONE, Some (mk_string []))
      else (BR_DONE, Some (mk_string [r]))
  | None => (BR_FAILED, None)
  end.

Definition mk_str_to_code (a : expr) : rewrite_result :=
  match is_string a with
  | Some s =>
      if bool_decide (length s = 1%nat) then (BR_DONE, Some (mk_int (zget s 0)))
      else (BR_DONE, Some minus_one)
  | None => (BR_FAILED, None)
  end.

Definition mk_str_is_digit (a : expr) : rewrite_result :=
  match is_string a with
  | Some s =>
      if bool_decide (length s = 1%nat) && (48 <=? zget s 0) && (zget s 0 <=? 57)
      then (BR_DONE, Some mk_true)
      else (BR_DONE, Some mk_false)
  | None =>
      if is_empty a then (BR_DONE, Some mk_false) else (BR_FAILED, None)
  end.

End Strings.

(** ** Length analyzer *)

Fixpoint expr_size (e : expr) : nat :=
  match e with
  | app _ args =>
      S ((fix go (l : list expr) : nat :=
            match l with
            | [] => O
            | a :: l' => (expr_size a + go l')%nat
            end) args)
  | var _ _ => 1%nat
  end.

Definition exprs_size (es : list expr) : nat :=
  foldr (λ e n, (expr_size e + n)%nat) O es.

(** The lambda [visit] of [min_length] fills a memo table [cache] with one
    pair per sub-term, children before parents (the explicit stack [sub]
    drives this post-order walk over the term DAG).  [visit_val e] is the
    pair the table ends up holding for [e]. *)
Fixpoint visit_val (e : expr) {struct e} : bool * Z :=
  match e with
  | app d args =>
      if is_unit_b e then (true, 1)
      else if is_empty e then (true, 0)
      else
        match is_string e with
        | Some s => (true, zlength s)
        | None =>
            if bool_decide (d = OP_SEQ_CONCAT) then
              (fix go (l : list expr) (result : bool * Z) {struct l} : bool * Z :=
                 match l with
                 | [] => result
                 | arg :: l' =>
                     let r := visit_val arg in
                     go l' (result.1 && r.1, wrap32 (result.2 + r.2))
                 end) args (true, 0)
            else if bool_decide (d = OP_ITE) then
              match args with
              | [c; th; el] =>
                  let r1 := visit_val th in
                  let r2 := visit_val el in
                  (r1.1 && r2.1 && (r1.2 =? r2.2), Z.min r1.2 r2.2)
              | _ => (false, 0)
              end
            else (false, 0)
        end
  | var _ _ => (false, 0)
  end.

(** The main loop of [min_length(sz, ss)]: [es] is the work stack, its back
    at the head of the list; one unit of [fuel] per popped term. *)
Fixpoint min_length_loop (fuel : nat) (es : list expr) (bounded : bool) (len : Z)
  : bool * Z :=
  match fuel with
  | O => (bounded, len)
  | S fuel' =>
      match es with
      | [] => (bounded, len)
      | e :: es' =>
          if is_unit_b e then min_length_loop fuel' es' bounded (wrap32 (len + 1))
          else if is_empty e then min_length_loop fuel' es' bounded len
          else
            match is_string e with
            | Some s => min_length_loop fuel' es' bounded (wrap32 (len + zlength s))
            | None =>
                if is_concat_b e then
                  min_length_loop fuel' (rev_append (get_args e) es') bounded len
                else
                  match is_ite e with
                  | Some (c, th, el) =>
                      let '(bounded1, len1) := visit_val th in
                      let '(bounded2, len2) := visit_val el in
                      min_length_loop fuel' es'
                        (if negb bounded1 || negb bounded2 || negb (len1 =? len2)
                         then false else bounded)
                        (wrap32 (len + Z.min len1 len2))
                  | None => min_length_loop fuel' es' false len
                  end
            end
      end
  end.

Definition min_length_vec (ss : list expr) : bool * Z :=
  min_length_loop (exprs_size ss) (rev ss) true 0.

Definition min_length (e : expr) : bool * Z := min_length_vec [e].

(** The loop of [max_length]; the length is a rational and does not wrap. *)
Fixpoint max_length_loop (fuel : nat) (es : list expr) (len : Z) : bool * Z :=
  match fuel with
  | O => (false, len)
  | S fuel' =>
      match es with
      | [] => (true, len)
      | e :: es' =>
          if is_unit_b e then max_length_loop fuel' es' (len + 1)
          else if is_at_b e then max_length_loop fuel' es' (len + 1)
          else
            match is_string e with
            | Some s => max_length_loop fuel' es' (len + zlength s)
            | None =>
                match
                  match is_extract e with
                  | Some (s1, i, l) =>
                      match is_numeral l with
                      | Some n => if n <? 0 then None else Some n
                      | None => None
                      end
                  | None => None
                  end
                with
                | Some n => max_length_loop fuel' es' (len + n)
                | None =>
                    if is_empty e then max_length_loop fuel' es' len
                    else if is_concat_b e then
                      max_length_loop fuel' (rev_append (get_args e) es') len
                    else (false, len)
                end
            end
      end
  end.

Definition max_length (e : expr) : bool * Z :=
  max_length_loop (S (expr_size e)) [e] 0.

(** [max_length(e, len)]: the bounded flag, the length through [len]. *)
Definition max_length_le (e : expr) (k : Z) : bool :=
  let '(b, r) := max_length e in b && (r <=? k).

Definition eq_length (x y : expr) : lbool :=
  let '(bounded_x, xl) := min_length x in
  if negb bounded_x then l_undef
  else
    let '(bounded_y, yl) := min_length y in
    if negb bounded_y then l_undef
    else if xl =? yl then l_true else l_false.

(** ** Denotations

    An assignment interprets the uninterpreted symbols; it also supplies the
    value of every term whose operator the evaluators below do not
    interpret, so that what is proved for all assignments holds whatever
    those operators mean. *)

Record env := {
  env_seq : expr → list Z;
  env_char : expr → Z;
  env_int : expr → Z;
  env_bool : expr → bool;
  env_re : expr → list Z → Prop;
  (** the character predicate an array term stands for *)
  env_pred : expr → Z → bool;
}.

(** [str.substr s i n] and [str.at s i] of SMT-LIB. *)
Definition sem_extract (s : list Z) (i n : Z) : list Z :=
  if (0 <=? i) && (i <? Z.of_nat (length s)) && (0 <? n)
  then take (Z.to_nat n) (drop (Z.to_nat i) s)
  else [].

Definition sem_at (s : list Z) (i : Z) : list Z := sem_extract s i 1.

(** Decimal digits of a natural number, most significant first. *)
Fixpoint uint_codes (u : Decimal.uint) : zstring :=
  match u with
  | Decimal.Nil => []
  | Decimal.D0 u' => 48 :: uint_codes u'
  | Decimal.D1 u' => 49 :: uint_codes u'
  | Decimal.D2 u' => 50 :: uint_codes u'
  | Decimal.D3 u' => 51 :: uint_codes u'
  | Decimal.D4 u' => 52 :: uint_codes u'
  | Decimal.D5 u' => 53 :: uint_codes u'
  | Decimal.D6 u' => 54 :: uint_codes u'
  | Decimal.D7 u' => 55 :: uint_codes u'
  | Decimal.D8 u' => 56 :: uint_codes u'
  | Decimal.D9 u' => 57 :: uint_codes u'
  end.

(** [zstring(r)] for a non-negative integer [r]. *)
Definition zstring_of_int (r : Z) : zstring := uint_codes (N.to_uint (Z.to_N r)).

Definition is_digit_code (c : Z) : bool := (48 <=? c) && (c <=? 57).

(** [rational r(s)] for a string of decimal digits. *)
Definition parse_decimal (s : zstring) : Z :=
  fold_left (λ acc c, 10 * acc + (c - 48)) s 0.

Definition sem_itos (n : Z) : list Z := if n <? 0 then [] else zstring_of_int n.

Definition sem_stoi (s : list Z) : Z :=
  if bool_decide (s = []) then -1
  else if forallb is_digit_code s then parse_decimal s else -1.

Definition get_sort_of_kind (d : decl_kind) : option sort :=
  match d with
  | OP_TRUE | OP_FALSE | OP_EQ | OP_AND | OP_OR | OP_NOT
  | OP_LE | OP_GE | OP_LT | OP_GT | OP_CHAR_LE | OP_SELECT
  | OP_SEQ_PREFIX | OP_SEQ_SUFFIX | OP_SEQ_CONTAINS | OP_SEQ_IN_RE
  | OP_STRING_LT | OP_STRING_LE | OP_STRING_IS_DIGIT => Some BoolSort
  | OP_NUM _ | OP_ADD | OP_SUB | OP_MUL | OP_UBV2INT
  | OP_SEQ_LENGTH | OP_SEQ_INDEX | OP_SEQ_LAST_INDEX
  | OP_STRING_STOI | OP_STRING_TO_CODE => Some IntSort
  | OP_CHAR_CONST _ | OP_SEQ_NTH | OP_SEQ_NTH_I | OP_SEQ_NTH_U => Some CharSort
  | OP_SEQ_UNIT | OP_SEQ_EMPTY | OP_STRING_CONST _ | OP_SEQ_CONCAT
  | OP_SEQ_EXTRACT | OP_SEQ_REPLACE | OP_SEQ_AT
  | OP_STRING_ITOS | OP_STRING_UBVTOS | OP_STRING_SBVTOS
  | OP_STRING_FROM_CODE => Some SeqSort
  | OP_SEQ_TO_RE | OP_RE_PLUS | OP_RE_STAR | OP_RE_OPTION | OP_RE_RANGE
  | OP_RE_CONCAT | OP_RE_UNION | OP_RE_DIFF | OP_RE_INTERSECT | OP_RE_LOOP _
  | OP_RE_POWER _ | OP_RE_COMPLEMENT | OP_RE_EMPTY_SET | OP_RE_FULL_SEQ_SET
  | OP_RE_FULL_CHAR_SET | OP_RE_OF_PRED | OP_RE_REVERSE | OP_RE_DERIVATIVE
  | _OP_RE_ANTIMIROV_UNION => Some ReSort
  | _OP_RE_IS_NULLABLE => Some BoolSort
  | OP_UNINTERPRETED _ s => Some s
  | OP_ITE => None
  end.

(** [e->get_sort()]; an [ite] has the sort of its branches. *)
Fixpoint get_sort (e : expr) : sort :=
  match e with
  | app d args =>
      match get_sort_of_kind d with
      | Some s => s
      | None =>
          match args with
          | [_; t; _] => get_sort t
          | _ => BoolSort
          end
      end
  | var _ s => s
  end.

Fixpoint seq_val (ρ : env) (e : expr) {struct e} : list Z :=
  match e with
  | app d args =>
      match d with
      | OP_SEQ_EMPTY => []
      | OP_STRING_CONST s => s
      | OP_SEQ_UNIT =>
          [match args with c :: _ => char_val ρ c | [] => 0 end]
      | OP_SEQ_CONCAT =>
          (fix go (l : list expr) : list Z :=
             match l with
             | [] => []
             | a :: l' => seq_val ρ a ++ go l'
             end) args
      | OP_ITE =>
          match args with
          | [c; a; b] => if bool_val ρ c then seq_val ρ a else seq_val ρ b
          | _ => env_seq ρ e
          end
      | OP_SEQ_AT =>
          match args with
          | [s; i] => sem_at (seq_val ρ s) (int_val ρ i)
          | _ => []
          end
      | OP_SEQ_EXTRACT =>
          match args with
          | [s; i; l] => sem_extract (seq_val ρ s) (int_val ρ i) (int_val ρ l)
          | _ => env_seq ρ e
          end
      | OP_STRING_ITOS =>
          match args with
          | [n] => sem_itos (int_val ρ n)
          | _ => env_seq ρ e
          end
      | _ => env_seq ρ e
      end
  | var _ _ => env_seq ρ e
  end
with int_val (ρ : env) (e : expr) {struct e} : Z :=
  match e with
  | app d args =>
      match d with
      | OP_NUM n => n
      | OP_ADD =>
          (fix go (l : list expr) : Z :=
             match l with
             | [] => 0
             | a :: l' => int_val ρ a + go l'
             end) args
      | OP_MUL =>
          (fix go (l : list expr) : Z :=
             match l with
             | [] => 1
             | a :: l' => int_val ρ a * go l'
             end) args
      | OP_SUB =>
          match args with
          | [a; b] => int_val ρ a - int_val ρ b
          | _ => env_int ρ e
          end
      | OP_SEQ_LENGTH =>
          match args with
          | [s] => Z.of_nat (length (seq_val ρ s))
          | _ => env_int ρ e
          end
      | OP_STRING_STOI =>
          match args with
          | [s] => sem_stoi (seq_val ρ s)
          | _ => env_int ρ e
          end
      | OP_ITE =>
          match args with
          | [c; a; b] => if bool_val ρ c then int_val ρ a else int_val ρ b
          | _ => env_int ρ e
          end
      | _ => env_int ρ e
      end
  | var _ _ => env_int ρ e
  end
with char_val (ρ : env) (e : expr) {struct e} : Z :=
  match e with
  | app d args =>
      match d with
      | OP_CHAR_CONST c => c
      | OP_ITE =>
          match args with
          | [c; a; b] => if bool_val ρ c then char_val ρ a else char_val ρ b
          | _ => env_char ρ e
          end
      | _ => env_char ρ e
      end
  | var _ _ => env_char ρ e
  end
with bool_val (ρ : env) (e : expr) {struct e} : bool :=
  match e with
  | app d args =>
      match d with
      | OP_TRUE => true
      | OP_FALSE => false
      | OP_NOT =>
          match args with
          | [a] => negb (bool_val ρ a)
          | _ => env_bool ρ e
          end
      | OP_AND =>
          (fix go (l : list expr) : bool :=
             match l with
             | [] => true
             | a :: l' => bool_val ρ a && go l'
             end) args
      | OP_OR =>
          (fix go (l : list expr) : bool :=
             match l with
             | [] => false
             | a :: l' => bool_val ρ a || go l'
             end) args
      | OP_ITE =>
          match args with
          | [c; a; b] => if bool_val ρ c then bool_val ρ a else bool_val ρ b
          | _ => env_bool ρ e
          end
      | OP_CHAR_LE =>
          match args with
          | [a; b] => char_val ρ a <=? char_val ρ b
          | _ => env_bool ρ e
          end
      | OP_EQ =>
          match args with
          | [a; b] =>
              match get_sort a with
              | CharSort => char_val ρ a =? char_val ρ b
              | IntSort => int_val ρ a =? int_val ρ b
              | SeqSort => bool_decide (seq_val ρ a = seq_val ρ b)
              | BoolSort => eqb (bool_val ρ a) (bool_val ρ b)
              | _ => env_bool ρ e
              end
          | _ => env_bool ρ e
          end
      | OP_LE =>
          match args with
          | [a; b] => int_val ρ a <=? int_val ρ b
          | _ => env_bool ρ e
          end
      | OP_GE =>
          match args with
          | [a; b] => int_val ρ a >=? int_val ρ b
          | _ => env_bool ρ e
          end
      | OP_LT =>
          match args with
          | [a; b] => int_val ρ a <? int_val ρ b
          | _ => env_bool ρ e
          end
      | OP_GT =>
          match args with
          | [a; b] => int_val ρ a >? int_val ρ b
          | _ => env_bool ρ e
          end
      | OP_SELECT =>
          match args with
          | [p; c] => env_pred ρ p (char_val ρ c)
          | _ => env_bool ρ e
          end
      | _ => env_bool ρ e
      end
  | var _ _ => env_bool ρ e
  end.

(** The value of a vector of atoms read as a concatenation. *)
Definition seqs_val (ρ : env) (es : list expr) : list Z :=
  concat (map (seq_val ρ) es).

(** ** Integer / string conversions *)

Section Conversions.
Context `{H : Host}.

(** [str().get_concat_units(e, es)]: the leaves of a concatenation, string
    literals split into units, empty sequences dropped. *)
Fixpoint get_concat_units (e : expr) : list expr :=
  match e with
  | app OP_SEQ_CONCAT [e1; e2] => get_concat_units e1 ++ get_concat_units e2
  | _ =>
      match is_string e with
      | Some s => map (λ c, mk_unit (mk_char c)) s
      | None => if is_empty e then [] else [e]
      end
  end.

Definition mk_str_itos (a : expr) : rewrite_result :=
  match is_numeral a with
  | Some r =>
      if negb (r <? 0) then (BR_DONE, Some (mk_string (zstring_of_int r)))
      else (BR_DONE, Some (mk_string []))
  | None =>
      match is_stoi a with
      | Some b =>
          if max_length_le b 1 then
            let eqs := map (λ i, mk_eq b (mk_string [48 + Z.of_nat i])) (seq 0 10) in
            (BR_REWRITE2, Some (mk_ite (mk_or eqs) b (mk_string [])))
          else (BR_FAILED, None)
      | None => (BR_FAILED, None)
      end
  end.

Definition is_unit_const_char (a : expr) : option Z :=
  match is_unit a with
  | Some u => is_const_char u
  | None => None
  end.

Definition mk_str_stoi (a : expr) : rewrite_result :=
  match is_string a with
  | Some s =>
      let s1 := encode s in
      if bool_decide (length s1 = 0%nat) then (BR_DONE, Some minus_one)
      else if negb (forallb is_digit_code s1) then (BR_DONE, Some minus_one)
      else (BR_DONE, Some (mk_numeral (parse_decimal s1)))
  | None =>
  match is_itos a with
  | Some b => (BR_DONE, Some (mk_ite (mk_ge b zero) b minus_one))
  | None =>
  match is_ubv2s a with
  | Some b => (BR_DONE, Some (mk_ubv2int b))
  | None =>
  match is_ite a with
  | Some (c, t, e) => (BR_REWRITE_FULL, Some (mk_ite c (mk_stoi t) (mk_stoi e)))
  | None =>
  match is_unit_const_char a with
  | Some ch =>
      if is_digit_code ch then (BR_DONE, Some (mk_int (ch - 48)))
      else (BR_DONE, Some minus_one)
  | None =>
      let as_ := get_concat_units a in
      match last as_ with
      | None => (BR_DONE, Some minus_one)
      | Some back =>
          if is_unit_b back then
            let tail := mk_stoi back in
            let head := mk_concat_n (removelast as_) in
            let stoi_head := mk_stoi head in
            let result :=
              mk_ite (mk_ge stoi_head zero)
                (mk_add [mk_mul [mk_int 10; stoi_head]; tail]) minus_one in
            let result := mk_ite (mk_ge tail zero) result tail in
            let result := mk_ite (mk_is_empty head) tail result in
            (BR_REWRITE_FULL, Some result)
          else
            match is_unit_const_char (default mk_empty (head as_)) with
            | Some 48 =>
                let result := mk_concat_n (tl as_) in
                (BR_REWRITE_FULL,
                 Some (mk_ite (mk_is_empty result) zero (mk_stoi result)))
            | _ => (BR_FAILED, None)
            end
      end
  end end end end end.

(** The term in an argument position after a rewrite of that argument:
    the result, or the argument itself when no rule fired. *)
Definition rewritten (orig : expr) (r : rewrite_result) : expr :=
  default orig r.2.

End Conversions.


(** ** A reference host

    A small, executable implementation of the host interface.  It shows
    that what the model assumes of the host can be met, and instantiates
    the general statements at concrete inputs. *)

Fixpoint hex_codes (u : Hexadecimal.uint) : zstring :=
  match u with
  | Hexadecimal.Nil => []
  | Hexadecimal.D0 u' => 48 :: hex_codes u'
  | Hexadecimal.D1 u' => 49 :: hex_codes u'
  | Hexadecimal.D2 u' => 50 :: hex_codes u'
  | Hexadecimal.D3 u' => 51 :: hex_codes u'
  | Hexadecimal.D4 u' => 52 :: hex_codes u'
  | Hexadecimal.D5 u' => 53 :: hex_codes u'
  | Hexadecimal.D6 u' => 54 :: hex_codes u'
  | Hexadecimal.D7 u' => 55 :: hex_codes u'
  | Hexadecimal.D8 u' => 56 :: hex_codes u'
  | Hexadecimal.D9 u' => 57 :: hex_codes u'
  | Hexadecimal.Da u' => 97 :: hex_codes u'
  | Hexadecimal.Db u' => 98 :: hex_codes u'
  | Hexadecimal.Dc u' => 99 :: hex_codes u'
  | Hexadecimal.Dd u' => 100 :: hex_codes u'
  | Hexadecimal.De u' => 101 :: hex_codes u'
  | Hexadecimal.Df u' => 102 :: hex_codes u'
  end.

(** Printable form: characters outside the printable ASCII range, and a
    backslash that starts an escape, are written [\u{hex}]. *)
Fixpoint default_encode (s : zstring) : zstring :=
  match s with
  | [] => []
  | ch :: s' =>
      if (ch <? 32) || (ch >=? 128) ||
         ((ch =? 92) && match s' with c' :: _ => c' =? 117 | [] => false end)
      then [92; 117; 123] ++ hex_codes (N.to_hex_uint (Z.to_N ch)) ++ [125] ++ default_encode s'
      else ch :: default_encode s'
  end.

Definition default_br_mk_and (a b : expr) : expr :=
  if is_false a || is_false b then mk_false
  else if is_true a then b
  else if is_true b then a
  else if expr_eqb a b then a
  else mk_and [a; b].

Definition default_br_mk_or (a b : expr) : expr :=
  if is_true a || is_true b then mk_true
  else if is_false a then b
  else if is_false b then a
  else if expr_eqb a b then a
  else mk_or [a; b].

Definition default_br_mk_not (a : expr) : expr :=
  if is_true a then mk_false
  else if is_false a then mk_true
  else match is_not a with Some b => b | None => mk_not a end.

Definition default_br_mk_ite (c t e : expr) : expr :=
  if is_true c then t
  else if is_false c then e
  else if expr_eqb t e then t
  else mk_ite c t e.

Definition default_br_mk_eq_rw (a b : expr) : expr :=
  if expr_eqb a b then mk_true else mk_eq a b.

Definition default_char_mk_le (a b : expr) : expr :=
  if expr_eqb a b then mk_true
  else
    match is_const_char a, is_const_char b with
    | Some c1, Some c2 => mk_bool_val (c1 <=? c2)
    | _, _ => app OP_CHAR_LE [a; b]
    end.

(** Conjuncts of a conjunction, nested conjunctions opened, [true] dropped. *)
Fixpoint default_flatten_and (e : expr) : list expr :=
  match e with
  | app OP_AND args =>
      (fix go (l : list expr) : list expr :=
         match l with
         | [] => []
         | a :: l' => default_flatten_and a ++ go l'
         end) args
  | _ => if is_true e then [] else [e]
  end.

Definition default_is_char_const_range (x e : expr) : option (Z * Z * bool) :=
  let '(e1, negated) := match is_not e with Some e1 => (e1, true) | None => (e, false) end in
  match is_char_le e1 with
  | Some (a, b) =>
      if expr_eqb a x then
        match is_const_char b with Some u => Some (0, u, negated) | None => None end
      else if expr_eqb b x then
        match is_const_char a with Some l => Some (l, 196607, negated) | None => None end
      else None
  | None =>
      match is_eq e1 with
      | Some (a, b) =>
          if expr_eqb a x then
            match is_const_char b with Some l => Some (l, l, negated) | None => None end
          else None
      | None => None
      end
  end.

Fixpoint default_safe_replace (src dst e : expr) : expr :=
  if expr_eqb e src then dst
  else
    match e with
    | app d args => app d (map (default_safe_replace src dst) args)
    | var _ _ => e
    end.

Definition default_is_len_sub (s : expr) : option (expr * expr * Z) :=
  match is_length s with
  | Some u => Some (s, u, 0)
  | None =>
      match is_app_of2 s OP_SUB with
      | Some (l, x) =>
          match is_length l, is_numeral x with
          | Some u, Some v => if 0 <=? v then Some (l, u, v) else None
          | _, _ => None
          end
      | None => None
      end
  end.

Definition default_are_distinct (a b : expr) : bool :=
  match is_const_char a, is_const_char b with
  | Some c1, Some c2 => negb (c1 =? c2)
  | _, _ =>
      match is_unit a ≫= is_const_char, is_unit b ≫= is_const_char with
      | Some c1, Some c2 => negb (c1 =? c2)
      | _, _ => false
      end
  end.

Definition default_is_value (e : expr) : bool :=
  match e with
  | app (OP_CHAR_CONST _) _ | app (OP_NUM _) _ | app (OP_STRING_CONST _) _
  | app OP_SEQ_EMPTY _ | app OP_TRUE _ | app OP_FALSE _ => true
  | app OP_SEQ_UNIT [app (OP_CHAR_CONST _) []] => true
  | _ => false
  end.

(** The elements of a concatenation, the empty ones left out. *)
Fixpoint default_get_concat (e : expr) : list expr :=
  match e with
  | app OP_SEQ_CONCAT [e1; e2] => default_get_concat e1 ++ default_get_concat e2
  | _ => if is_empty e then [] else [e]
  end.

(** Length information of the simplest regexes; no information otherwise. *)
Definition default_info_min_length (r : expr) : Z :=
  match r with
  | app OP_SEQ_TO_RE [s] => match is_string s with Some w => zlength w | None => 0 end
  | app OP_RE_FULL_CHAR_SET _ => 1
  | _ => 0
  end.

Definition default_re_max_length (r : expr) : Z :=
  match r with
  | app OP_SEQ_TO_RE [s] => match is_string s with Some w => zlength w | None => UINT_MAX end
  | app OP_RE_FULL_CHAR_SET _ => 1
  | _ => UINT_MAX
  end.

Definition default_info_nullable (r : expr) : lbool :=
  match r with
  | app OP_SEQ_TO_RE [s] =>
      match is_string s with
      | Some w => if bool_decide (w = []) then l_true else l_false
      | None => if is_app_of s OP_SEQ_EMPTY then l_true else l_undef
      end
  | app OP_RE_FULL_CHAR_SET _ | app OP_RE_EMPTY_SET _ | app OP_RE_RANGE _ => l_false
  | app OP_RE_FULL_SEQ_SET _ | app OP_RE_STAR _ | app OP_RE_OPTION _ => l_true
  | _ => l_undef
  end.

(** Ground terms: no variable and no uninterpreted symbol. *)
Fixpoint default_is_ground (e : expr) : bool :=
  match e with
  | var _ _ => false
  | app (OP_UNINTERPRETED _ _) _ => false
  | app _ args => forallb default_is_ground args
  end.

Definition default_host : Host := {|
  max_char := 196607;
  get_id := λ e, Z.of_nat (expr_size e);
  info_min_length := default_info_min_length;
  info_nullable := default_info_nullable;
  re_min_length := default_info_min_length;
  re_max_length := default_re_max_length;
  str_min_length := λ s, (min_length s).2;
  re_is_ground := default_is_ground;
  get_concat := default_get_concat;
  exprs_hash := λ es, Z.of_nat (exprs_size es);
  br_mk_and := default_br_mk_and;
  br_mk_or := default_br_mk_or;
  br_mk_not := default_br_mk_not;
  br_mk_ite := default_br_mk_ite;
  br_mk_eq_rw := default_br_mk_eq_rw;
  char_mk_le := default_char_mk_le;
  flatten_and := default_flatten_and;
  is_char_const_range := default_is_char_const_range;
  safe_replace := default_safe_replace;
  m_coalesce_chars := true;
  encode := default_encode;
  is_len_sub := default_is_len_sub;
  are_distinct := default_are_distinct;
  are_equal := expr_eqb;
  is_value := default_is_value;
|}.

(** ** Operation cache

    [op_cache] memoizes results by the tuple [(op, a, b, c)] of a kind and
    up to three terms taken by identity (null allowed); a trail pins every
    term the table refers to.  Terms are abstract pointers here, kinds are
    the integers they are in the host. *)

Section OpCache.
Context {ptr : Type} `{Countable ptr}.

(** The cap [m_max_cache_size], a constant of the class declaration. *)
Variable m_max_cache_size : nat.

Record op_cache := {
  m_table : gmap (Z * option ptr * option ptr * option ptr) (option ptr);
  m_trail : list ptr;
}.

Definition op_cache_empty : op_cache := {| m_table := ∅; m_trail := [] |}.

(** [find]: the cached result, null when there is none. *)
Definition op_cache_find (op : Z) (a b c : option ptr) (cache : op_cache) : option ptr :=
  match m_table cache !! (op, a, b, c) with
  | Some r => r
  | None => None
  end.

Definition op_cache_cleanup (cache : op_cache) : op_cache :=
  if decide (m_max_cache_size ≤ size (m_table cache))%nat
  then {| m_table := ∅; m_trail := [] |}
  else cache.

(** [if (x) m_trail.push_back(x)] *)
Definition trail_push (x : option ptr) (trail : list ptr) : list ptr :=
  match x with
  | Some p => trail ++ [p]
  | None => trail
  end.

Definition op_cache_insert (op : Z) (a b c r : option ptr) (cache : op_cache) : op_cache :=
  let cache := op_cache_cleanup cache in
  {| m_table := <[(op, a, b, c) := r]> (m_table cache);
     m_trail := trail_push r (trail_push c (trail_push b (trail_push a (m_trail cache)))) |}.

(** The caches a run of inserts can produce from the empty cache. *)
Inductive op_cache_reachable : op_cache → Prop :=
  | reach_empty : op_cache_reachable op_cache_empty
  | reach_insert (op : Z) (a b c r : option ptr) (cache : op_cache) :
      op_cache_reachable cache →
      op_cache_reachable (op_cache_insert op a b c r cache).

End OpCache.

(** ** Regular expressions: the utilities [re()] *)

Module re.
Definition mk_to_re (s : expr) : expr := app OP_SEQ_TO_RE [s].
Definition mk_empty : expr := app OP_RE_EMPTY_SET [].
Definition mk_full_seq : expr := app OP_RE_FULL_SEQ_SET [].
Definition mk_full_char : expr := app OP_RE_FULL_CHAR_SET [].
(** [mk_epsilon]: the language of the empty sequence, [to_re] of the
    sequence [str.empty] (not of the empty regex declared above). *)
Definition mk_epsilon : expr := mk_to_re str.mk_empty.
Definition mk_concat (a b : expr) : expr := app OP_RE_CONCAT [a; b].
Definition mk_union (a b : expr) : expr := app OP_RE_UNION [a; b].
Definition mk_inter (a b : expr) : expr := app OP_RE_INTERSECT [a; b].
Definition mk_diff (a b : expr) : expr := app OP_RE_DIFF [a; b].
Definition mk_complement (a : expr) : expr := app OP_RE_COMPLEMENT [a].
Definition mk_star (a : expr) : expr := app OP_RE_STAR [a].
Definition mk_plus (a : expr) : expr := app OP_RE_PLUS [a].
Definition mk_opt (a : expr) : expr := app OP_RE_OPTION [a].
Definition mk_reverse (a : expr) : expr := app OP_RE_REVERSE [a].
Definition mk_range (lo hi : expr) : expr := app OP_RE_RANGE [lo; hi].
Definition mk_of_pred (p : expr) : expr := app OP_RE_OF_PRED [p].
Definition mk_derivative (e r : expr) : expr := app OP_RE_DERIVATIVE [e; r].
Definition mk_antimirov_union (a b : expr) : expr := app _OP_RE_ANTIMIROV_UNION [a; b].
Definition mk_loop (r : expr) (lo : Z) : expr := app (OP_RE_LOOP [lo]) [r].
Definition mk_loop2 (r : expr) (lo hi : Z) : expr := app (OP_RE_LOOP [lo; hi]) [r].

(** [mk_loop_proper]: no loop is built for the bounds [0,0] and [1,1]. *)
Definition mk_loop_proper (r : expr) (lo hi : Z) : expr :=
  if (lo =? 0) && (hi =? 0) then mk_epsilon
  else if (lo =? 1) && (hi =? 1) then r
  else mk_loop2 r lo hi.

Definition is_to_re (r : expr) : option expr := is_app_of1 r OP_SEQ_TO_RE.
Definition is_to_re_b (r : expr) : bool := is_app_of r OP_SEQ_TO_RE.
Definition is_empty (r : expr) : bool := is_app_of r OP_RE_EMPTY_SET.
Definition is_full_seq (r : expr) : bool := is_app_of r OP_RE_FULL_SEQ_SET.
Definition is_full_char (r : expr) : bool := is_app_of r OP_RE_FULL_CHAR_SET.
Definition is_concat (r : expr) : option (expr * expr) := is_app_of2 r OP_RE_CONCAT.
Definition is_union (r : expr) : option (expr * expr) := is_app_of2 r OP_RE_UNION.
Definition is_intersection (r : expr) : option (expr * expr) :=
  is_app_of2 r OP_RE_INTERSECT.
Definition is_diff (r : expr) : option (expr * expr) := is_app_of2 r OP_RE_DIFF.
Definition is_complement (r : expr) : option expr := is_app_of1 r OP_RE_COMPLEMENT.
Definition is_star (r : expr) : option expr := is_app_of1 r OP_RE_STAR.
Definition is_star_b (r : expr) : bool := is_app_of r OP_RE_STAR.
Definition is_plus (r : expr) : option expr := is_app_of1 r OP_RE_PLUS.
Definition is_plus_b (r : expr) : bool := is_app_of r OP_RE_PLUS.
Definition is_opt (r : expr) : option expr := is_app_of1 r OP_RE_OPTION.
Definition is_opt_b (r : expr) : bool := is_app_of r OP_RE_OPTION.
Definition is_reverse (r : expr) : option expr := is_app_of1 r OP_RE_REVERSE.
Definition is_range (r : expr) : option (expr * expr) := is_app_of2 r OP_RE_RANGE.
Definition is_range_b (r : expr) : bool := is_app_of r OP_RE_RANGE.
Definition is_of_pred (r : expr) : option expr := is_app_of1 r OP_RE_OF_PRED.
Definition is_of_pred_b (r : expr) : bool := is_app_of r OP_RE_OF_PRED.
Definition is_derivative (r : expr) : option (expr * expr) :=
  is_app_of2 r OP_RE_DERIVATIVE.
Definition is_antimirov_union (r : expr) : option (expr * expr) :=
  is_app_of2 r _OP_RE_ANTIMIROV_UNION.

(** [is_loop(n, body, lo)]: one argument and one parameter, read into an
    unsigned. *)
Definition is_loop1 (r : expr) : option (expr * Z) :=
  match r with
  | app (OP_RE_LOOP [lo]) [body] => Some (body, wrap32 lo)
  | _ => None
  end.

(** [is_loop(n, body, lo, hi)]: one argument and two parameters. *)
Definition is_loop2 (r : expr) : option (expr * Z * Z) :=
  match r with
  | app (OP_RE_LOOP [lo; hi]) [body] => Some (body, wrap32 lo, wrap32 hi)
  | _ => None
  end.

Definition is_epsilon (r : expr) : bool :=
  match is_to_re r with
  | Some s => str.is_empty s
  | None => false
  end.

(** [is_dot_plus]: [.+], or [.] next to [.*]. *)
Definition is_dot_plus (r : expr) : bool :=
  match is_plus r with
  | Some s => is_full_char s
  | None =>
      match is_concat r with
      | Some (s, t) =>
          (is_full_char s && is_full_seq t) || (is_full_char t && is_full_seq s)
      | None => false
      end
  end.

(** [mk_ite_simplify(c, t, e)] *)
Definition mk_ite_simplify (c t e : expr) : expr :=
  if is_true c || expr_eqb t e then t
  else if is_false c then e
  else mk_ite c t e.
End re.

(** ** Regex normalization: ordered merge of unions and intersections *)

Section Normalize.
Context `{H : Host}.

Definition are_complements (r1 r2 : expr) : bool :=
  match re.is_complement r1 with
  | Some r => expr_eqb r r2
  | None => false
  end
  ||
  match re.is_complement r2 with
  | Some r => expr_eqb r r1
  | None => false
  end.

(** The lambda [is_concat] of [is_subset]: [r = a ++ (b ++ c)]. *)
Definition is_concat3 (r : expr) : option (expr * expr * expr) :=
  match re.is_concat r with
  | Some (a, b) =>
      match re.is_concat b with
      | Some (b', c) => Some (a, b', c)
      | None => None
      end
  | None => None
  end.

(** The loop of [is_subset]; every [continue] replaces [r1] by a proper
    sub-term, which [fuel] counts. *)
Fixpoint is_subset_loop (fuel : nat) (r1 r2 : expr) : bool :=
  match fuel with
  | O => false
  | S fuel' =>
      if expr_eqb r1 r2 then true
      else if re.is_full_seq r2 then true
      else if re.is_dot_plus r2 && bool_decide (info_nullable r1 = l_false) then true
      else
        match
          match is_concat3 r1, is_concat3 r2 with
          | Some (ra1, ra2, ra3), Some (rb1, rb2, rb3) =>
              if expr_eqb ra1 rb1 && expr_eqb ra2 rb2 then Some (ra3, rb3) else None
          | _, _ => None
          end
        with
        | Some (ra3, rb3) => is_subset_loop fuel' ra3 rb3
        | None =>
            match
              match re.is_concat r1, re.is_concat r2 with
              | Some (ra1, ra2), Some (rb1, rb2) =>
                  if re.is_full_seq rb1 then Some ra2 else None
              | _, _ => None
              end
            with
            | Some ra2 => is_subset_loop fuel' ra2 r2
            | None =>
                match
                  match re.is_concat r1, re.is_concat r2 with
                  | Some (ra1, ra2), Some (rb1, rb2) =>
                      match re.is_loop2 ra1, re.is_loop2 rb1 with
                      | Some (ra3, la, ua), Some (rb3, lb, ub) =>
                          if expr_eqb ra3 rb3 && (lb <=? la) && (ua <=? ub)
                          then Some (ra2, rb2) else None
                      | _, _ => None
                      end
                  | _, _ => None
                  end
                with
                | Some (ra2, rb2) => is_subset_loop fuel' ra2 rb2
                | None =>
                    match re.is_loop2 r1, re.is_loop2 r2 with
                    | Some (ra3, la, ua), Some (rb3, lb, ub) =>
                        expr_eqb ra3 rb3 && (lb <=? la) && (ua <=? ub)
                    | _, _ => false
                    end
                end
            end
        end
  end.

(** [is_subset]: complements are compared through their bodies, the other
    way round. *)
Fixpoint is_subset_fuel (fuel : nat) (r1 r2 : expr) : bool :=
  match fuel with
  | O => false
  | S fuel' =>
      match re.is_complement r1, re.is_complement r2 with
      | Some ra1, Some rb1 => is_subset_fuel fuel' rb1 ra1
      | _, _ => is_subset_loop (expr_size r1) r1 r2
      end
  end.

Definition is_subset (r1 r2 : expr) : bool :=
  is_subset_fuel (expr_size r1 + expr_size r2) r1 r2.

(** The lambda [compare] of [merge_regex_sets]: 0 for the same term,
    otherwise the order of the identifiers, a complement standing for its
    body. *)
Definition merge_compare (x y : expr) : Z :=
  if expr_eqb x y then 0
  else
    let xid := match re.is_complement x with Some z => get_id z | None => get_id x end in
    let yid := match re.is_complement y with Some z => get_id z | None => get_id y end in
    if xid <? yid then -1 else 1.

Section Merge.
Variable unit : expr.
Variable test : expr → option (expr * expr).
Variable compose : expr → expr → expr.

(** [composeresult(suffix)]: fold [compose] over the prefix, last pushed
    first. *)
Definition composeresult (prefix : list expr) (suffix : expr) : expr :=
  foldr compose suffix prefix.

(** The loop of [merge_regex_sets]; [prefix] in the order pushed. *)
Fixpoint merge_regex_sets_loop (fuel : nat) (ar br : expr) (prefix : list expr)
  : option expr :=
  match fuel with
  | O => None
  | S fuel' =>
      if expr_eqb ar br then Some (composeresult prefix ar)
      else if are_complements ar br then Some unit
      else
        let '(ar, br) :=
          match test br, test ar with
          | Some _, None => (br, ar)
          | _, _ => (ar, br)
          end in
        match test br with
        | Some (b, br1) =>
            (* both [ar] and [br] are decomposable *)
            match test ar with
            | Some (a, ar1) =>
                if are_complements a b then Some unit
                else
                  let c := merge_compare a b in
                  if c =? 0 then merge_regex_sets_loop fuel' ar1 br1 (prefix ++ [a])
                  else if c =? -1 then merge_regex_sets_loop fuel' ar1 br (prefix ++ [a])
                  else merge_regex_sets_loop fuel' ar br1 (prefix ++ [b])
            | None => None
            end
        | None =>
            match test ar with
            | Some (a, ar1) =>
                if are_complements a br then Some unit
                else
                  let c := merge_compare a br in
                  if c =? 0 then Some (composeresult prefix ar)
                  else if c =? -1 then merge_regex_sets_loop fuel' ar1 br (prefix ++ [a])
                  else Some (composeresult (prefix ++ [br]) ar)
            | None =>
                let '(ar, br) :=
                  if merge_compare ar br =? -1 then (br, ar) else (ar, br) in
                Some (composeresult (prefix ++ [br]) ar)
            end
        end
  end.

Definition merge_regex_sets (r1 r2 : expr) : expr :=
  default unit (merge_regex_sets_loop (expr_size r1 + expr_size r2) r1 r2 []).

End Merge.

Definition union_compose (r1 r2 : expr) : expr :=
  if is_subset r1 r2 then r2 else if is_subset r2 r1 then r1 else re.mk_union r1 r2.

Definition inter_compose (r1 r2 : expr) : expr :=
  if is_subset r1 r2 then r1 else if is_subset r2 r1 then r2 else re.mk_inter r1 r2.

Definition mk_regex_union_normalize (r1 r2 : expr) : expr :=
  if expr_eqb r1 r2 || re.is_empty r2 || re.is_full_seq r1 then r1
  else if re.is_empty r1 || re.is_full_seq r2 then r2
  else if re.is_dot_plus r1 && (info_min_length r2 >? 0) then r1
  else if re.is_dot_plus r2 && (info_min_length r1 >? 0) then r2
  else merge_regex_sets re.mk_full_seq re.is_union union_compose r1 r2.

Definition mk_regex_inter_normalize (r1 r2 : expr) : expr :=
  let '(r1, r2) := if re.is_epsilon r2 then (r2, r1) else (r1, r2) in
  if expr_eqb r1 r2 || re.is_empty r1 || re.is_full_seq r2 then r1
  else if re.is_empty r2 || re.is_full_seq r1 then r2
  else if re.is_epsilon r1 then
    match info_nullable r2 with
    | l_true => r1
    | l_false => re.mk_empty
    | l_undef => merge_regex_sets re.mk_empty re.is_intersection inter_compose r1 r2
    end
  else if re.is_dot_plus r1 && (info_min_length r2 >? 0) then r2
  else if re.is_dot_plus r2 && (info_min_length r1 >? 0) then r1
  else merge_regex_sets re.mk_empty re.is_intersection inter_compose r1 r2.

End Normalize.

(** ** Languages of regular expressions *)

(** Words that split into [n] pieces of a language, for some [n] the
    predicate [ok] accepts. *)
Definition lang_iter (L : list Z → Prop) (ok : nat → Prop) (w : list Z) : Prop :=
  ∃ ws : list (list Z), w = concat ws ∧ Forall L ws ∧ ok (length ws).

Fixpoint lang (ρ : env) (r : expr) {struct r} : list Z → Prop :=
  match r with
  | app d args =>
      match d, args with
      | OP_RE_EMPTY_SET, _ => λ w, False
      | OP_RE_FULL_SEQ_SET, _ => λ w, True
      | OP_RE_FULL_CHAR_SET, _ => λ w, length w = 1%nat
      | OP_SEQ_TO_RE, [s] => λ w, w = seq_val ρ s
      | OP_RE_RANGE, [lo; hi] =>
          λ w, ∃ c l h, w = [c] ∧ seq_val ρ lo = [l] ∧ seq_val ρ hi = [h] ∧ l ≤ c ≤ h
      | OP_RE_CONCAT, [a; b] =>
          λ w, ∃ u v, w = u ++ v ∧ lang ρ a u ∧ lang ρ b v
      | OP_RE_UNION, [a; b] => λ w, lang ρ a w ∨ lang ρ b w
      | _OP_RE_ANTIMIROV_UNION, [a; b] => λ w, lang ρ a w ∨ lang ρ b w
      | OP_RE_INTERSECT, [a; b] => λ w, lang ρ a w ∧ lang ρ b w
      | OP_RE_DIFF, [a; b] => λ w, lang ρ a w ∧ ¬ lang ρ b w
      | OP_RE_COMPLEMENT, [a] => λ w, ¬ lang ρ a w
      | OP_RE_STAR, [a] => lang_iter (lang ρ a) (λ n, True)
      | OP_RE_PLUS, [a] => lang_iter (lang ρ a) (λ n, (1 ≤ n)%nat)
      | OP_RE_OPTION, [a] => λ w, w = [] ∨ lang ρ a w
      | OP_RE_LOOP [lo], [a] =>
          lang_iter (lang ρ a) (λ n, wrap32 lo ≤ Z.of_nat n)
      | OP_RE_LOOP [lo; hi], [a] =>
          lang_iter (lang ρ a) (λ n, wrap32 lo ≤ Z.of_nat n ≤ wrap32 hi)
      | OP_RE_POWER k, [a] =>
          lang_iter (lang ρ a) (λ n, Z.of_nat n = wrap32 k)
      | OP_RE_REVERSE, [a] => λ w, lang ρ a (rev w)
      | OP_RE_OF_PRED, [p] => λ w, ∃ c, w = [c] ∧ env_pred ρ p c = true
      | OP_RE_DERIVATIVE, [e; a] => λ w, lang ρ a (char_val ρ e :: w)
      | OP_ITE, [c; a; b] => λ w, if bool_val ρ c then lang ρ a w else lang ρ b w
      | _, _ => env_re ρ r
      end
  | var _ _ => env_re ρ r
  end.

(** What the model assumes of the host. *)
Class HostSound (H : Host) : Prop := {
  (** A string of decimal digits is its own printable form, and the
      printable form of any other string is not a string of digits. *)
  encode_digits : ∀ s, forallb is_digit_code s = true → encode s = s;
  encode_other : ∀ s, forallb is_digit_code s = false →
                      forallb is_digit_code (encode s) = false;
  (** The alphabet bound is an unsigned number. *)
  max_char_range : 0 ≤ max_char < 2 ^ 32;
  (** The regex info is sound: [min_length] is a lower bound of the length
      of every word of the language. *)
  info_min_length_sound : ∀ ρ r w,
    lang ρ r w → info_min_length r ≤ Z.of_nat (length w);
  (** [re().min_length] is a lower bound and [re().max_length], unless it
      is [UINT_MAX], an upper bound of the length of every word. *)
  re_min_length_sound : ∀ ρ r w,
    lang ρ r w → re_min_length r ≤ Z.of_nat (length w);
  re_max_length_sound : ∀ ρ r w,
    lang ρ r w → re_max_length r = UINT_MAX ∨ Z.of_nat (length w) ≤ re_max_length r;
  (** Terms [are_distinct] tells apart differ in value, and two different
      units that are values hold different characters. *)
  are_distinct_char : ∀ ρ a b,
    are_distinct a b = true → get_sort a = CharSort → char_val ρ a ≠ char_val ρ b;
  are_distinct_seq : ∀ ρ a b,
    are_distinct a b = true → get_sort a = SeqSort → seq_val ρ a ≠ seq_val ρ b;
  is_value_unit_inj : ∀ ρ u v a b,
    is_value u = true → is_value v = true →
    is_unit u = Some a → is_unit v = Some b →
    get_sort a = CharSort → get_sort b = CharSort →
    u ≠ v → char_val ρ a ≠ char_val ρ b;
  (** The Boolean rewriter preserves truth values. *)
  br_mk_and_sound : ∀ ρ a b, bool_val ρ (br_mk_and a b) = bool_val ρ a && bool_val ρ b;
  br_mk_or_sound : ∀ ρ a b, bool_val ρ (br_mk_or a b) = bool_val ρ a || bool_val ρ b;
  br_mk_not_sound : ∀ ρ a, bool_val ρ (br_mk_not a) = negb (bool_val ρ a);
}.

(** An assignment that maps every symbol to a default value. *)
Definition default_env : env := {|
  env_seq := λ _, [];
  env_char := λ _, 0;
  env_int := λ _, 0;
  env_bool := λ _, false;
  env_re := λ _ _, False;
  env_pred := λ _ _, false;
|}.

(** ** Sequence helpers of the derivative engine *)

Section SeqHelpers.
Context `{H : Host}.

Definition mk_seq_concat_core (a b : expr) : rewrite_result :=
  let isc1 := match is_string a with Some s1 => m_coalesce_chars | None => false end in
  let isc2 := match is_string b with Some s2 => m_coalesce_chars | None => false end in
  match is_string a, is_string b with
  | Some s1, Some s2 =>
      if isc1 && isc2 then (BR_DONE, Some (mk_string (s1 ++ s2)))
      else if str.is_empty a then (BR_DONE, Some b)
      else if str.is_empty b then (BR_DONE, Some a)
      else (BR_FAILED, None)
  | _, _ =>
      match is_concat a with
      | Some (c, d) => (BR_REWRITE2, Some (mk_concat c (mk_concat d b)))
      | None =>
          if str.is_empty a then (BR_DONE, Some b)
          else if str.is_empty b then (BR_DONE, Some a)
          else
            match is_string a, is_concat b with
            | Some s1, Some (c, d) =>
                match is_string c with
                | Some s2 =>
                    if isc1 then (BR_DONE, Some (mk_concat (mk_string (s1 ++ s2)) d))
                    else (BR_FAILED, None)
                | None => (BR_FAILED, None)
                end
            | _, _ => (BR_FAILED, None)
            end
      end
  end.

Definition mk_seq_concat (a b : expr) : expr :=
  rewritten (mk_concat a b) (mk_seq_concat_core a b).

(** [s = [head] + tail] *)
Fixpoint get_head_tail (s : expr) : option (expr * expr) :=
  match is_unit s with
  | Some h => Some (h, mk_empty)
  | None =>
      match is_string s with
      | Some (c :: s1) => Some (mk_char c, mk_string (zextract (c :: s1) 1 (length (c :: s1))))
      | _ =>
          match s with
          | app OP_SEQ_CONCAT [h; t] =>
              match get_head_tail h with
              | Some (head, tail) => Some (head, mk_seq_concat tail t)
              | None => None
              end
          | _ => None
          end
      end
  end.

(** [s = head + [tail]] *)
Fixpoint get_head_tail_reversed (s : expr) : option (expr * expr) :=
  match is_unit s with
  | Some t => Some (mk_empty, t)
  | None =>
      match is_string s with
      | Some (c :: s1) =>
          let s1 := c :: s1 in
          Some (mk_string (zextract s1 0 (length s1 - 1)), mk_char (zget s1 (length s1 - 1)))
      | _ =>
          match s with
          | app OP_SEQ_CONCAT [h; t] =>
              match get_head_tail_reversed t with
              | Some (head, tail) => Some (mk_seq_concat h head, tail)
              | None => None
              end
          | _ => None
          end
      end
  end.

Definition is_add2 (e : expr) : option (expr * expr) := is_app_of2 e OP_ADD.
Definition is_sub2 (e : expr) : option (expr * expr) := is_app_of2 e OP_SUB.

(** [mk_sub(a, n)]: [a - n], folded into a trailing or leading numeral. *)
Definition mk_sub (a : expr) (n : Z) : expr :=
  match
    match is_sub2 a with
    | Some (a1, a2) =>
        match is_numeral a2 with
        | Some k => Some (mk_sub_raw a1 (mk_int (k + n)))
        | None => None
        end
    | None => None
    end
  with
  | Some r => r
  | None =>
      match
        match is_add2 a with
        | Some (a1, a2) =>
            match is_numeral a2 with
            | Some k => Some (mk_add [a1; mk_int (k - n)])
            | None =>
                match is_numeral a1 with
                | Some k => Some (mk_add [a2; mk_int (k - n)])
                | None => None
                end
            end
        | None => None
        end
      with
      | Some r => r
      | None => mk_sub_raw a (mk_int n)
      end
  end.

Definition mk_seq_first (t : expr) : expr :=
  match is_extract t with
  | Some (s, j, k) => mk_nth_i s j
  | None => mk_nth_c t 0
  end.

Definition mk_seq_rest (t : expr) : expr :=
  match
    match is_extract t with
    | Some (s, j, k) =>
        match is_numeral j with
        | Some jv => if 0 <=? jv then Some (mk_substr s (mk_int (jv + 1)) (mk_sub k 1)) else None
        | None => None
        end
    | None => None
    end
  with
  | Some r => r
  | None => mk_substr t one (mk_sub (mk_length t) 1)
  end.

Definition mk_seq_last (t : expr) : expr :=
  match
    match is_extract t with
    | Some (s, j, k) =>
        match is_numeral j, is_len_sub k with
        | Some jv, Some (len_s, s_, i) =>
            if (0 <=? jv) && expr_eqb s s_ && (jv =? i)
            then Some (mk_nth_i s (mk_sub len_s 1)) else None
        | _, _ => None
        end
    | None => None
    end
  with
  | Some r => r
  | None => mk_nth_i t (mk_sub_raw (mk_length t) one)
  end.

Definition mk_seq_butlast (t : expr) : expr :=
  mk_substr t zero (mk_sub_raw (mk_length t) one).

(** [str().is_unit_string(s, c)]: a one-character literal or a unit. *)
Definition is_unit_string (s : expr) : option expr :=
  match is_string s with
  | Some [c] => Some (mk_char c)
  | Some _ => None
  | None => is_unit s
  end.

Definition re_and (cond r : expr) : expr :=
  if is_true cond then r
  else if is_false cond then re.mk_empty
  else mk_ite cond r re.mk_empty.

Definition re_predicate (cond : expr) : expr := re_and cond re.mk_epsilon.

(** Character comparisons decided on constants. *)
Definition lt_char (ch1 ch2 : expr) : bool :=
  match is_const_char ch1, is_const_char ch2 with
  | Some u1, Some u2 => u1 <? u2
  | _, _ => false
  end.
Definition eq_char (ch1 ch2 : expr) : bool := expr_eqb ch1 ch2.
Definition neq_char (ch1 ch2 : expr) : bool :=
  match is_const_char ch1, is_const_char ch2 with
  | Some u1, Some u2 => negb (u1 =? u2)
  | _, _ => false
  end.
Definition le_char (ch1 ch2 : expr) : bool := eq_char ch1 ch2 || lt_char ch1 ch2.

End SeqHelpers.

(** ** Basic regex rewrites used by the derivative engine *)

Section RegexRewrites.
Context `{H : Host}.

Fixpoint lift_str_from_to_re (r : expr) : option expr :=
  match re.is_to_re r with
  | Some s => Some s
  | None =>
      (* [lift_str_from_to_re_ite] *)
      match r with
      | app OP_ITE [cond; then_r; else_r] =>
          match lift_str_from_to_re then_r, lift_str_from_to_re else_r with
          | Some then_s, Some else_s => Some (mk_ite cond then_s else_s)
          | _, _ => None
          end
      | _ => None
      end
  end.

(** One pass of the two-round loop at the end of [mk_re_concat]. *)
Definition mk_re_concat_round (a b : expr) : option rewrite_result :=
  match
    match re.is_loop1 a, re.is_loop2 b with
    | Some (a1, lo1), Some (b1, lo2, hi2) =>
        if (lo2 <=? hi2) && expr_eqb a1 b1
        then Some (BR_DONE, Some (re.mk_loop a1 (wrap32 (lo1 + lo2)))) else None
    | _, _ => None
    end
  with
  | Some r => Some r
  | None =>
  match
    match re.is_loop2 a, re.is_star b with
    | Some (a1, lo1, hi1), Some b1 =>
        if expr_eqb a1 b1 then Some (BR_DONE, Some (re.mk_loop a1 lo1)) else None
    | _, _ => None
    end
  with
  | Some r => Some r
  | None =>
  match
    match re.is_loop1 a, re.is_star b with
    | Some (a1, lo1), Some b1 =>
        if expr_eqb a1 b1 then Some (BR_DONE, Some a) else None
    | _, _ => None
    end
  with
  | Some r => Some r
  | None =>
    match re.is_loop2 a with
    | Some (a1, lo1, hi1) =>
        if (lo1 <=? hi1) && expr_eqb a1 b
        then Some (BR_DONE, Some (re.mk_loop2 a1 (wrap32 (lo1 + 1)) (wrap32 (hi1 + 1))))
        else None
    | None => None
    end
  end end end.

Definition mk_re_concat (a b : expr) : rewrite_result :=
  if re.is_full_seq a && re.is_full_seq b then (BR_DONE, Some a)
  else if re.is_empty a then (BR_DONE, Some a)
  else if re.is_empty b then (BR_DONE, Some b)
  else if re.is_epsilon a then (BR_DONE, Some b)
  else if re.is_epsilon b then (BR_DONE, Some a)
  else if re.is_full_char a && re.is_full_seq b then (BR_DONE, Some (re.mk_plus a))
  else if re.is_full_char b && re.is_full_seq a then (BR_DONE, Some (re.mk_plus b))
  else
  match lift_str_from_to_re a, lift_str_from_to_re b with
  | Some a_str, Some b_str =>
      (BR_REWRITE2, Some (re.mk_to_re (mk_concat a_str b_str)))
  | _, _ =>
  match re.is_to_re a, re.is_to_re b with
  | Some a1, Some b1 => (BR_DONE, Some (re.mk_to_re (mk_concat a1 b1)))
  | _, _ =>
  match
    match re.is_star a, re.is_star b with
    | Some a1, Some b1 => if expr_eqb a1 b1 then Some (BR_DONE, Some a) else None
    | _, _ => None
    end
  with
  | Some r => r
  | None =>
  match
    match re.is_star a with
    | Some a1 => if expr_eqb a1 b then Some (BR_DONE, Some (re.mk_concat b a)) else None
    | None => None
    end
  with
  | Some r => r
  | None =>
  match
    match re.is_loop2 a, re.is_loop2 b with
    | Some (a1, lo1, hi1), Some (b1, lo2, hi2) =>
        if (lo1 <=? hi1) && (lo2 <=? hi2) && expr_eqb a1 b1
        then Some (BR_DONE,
                   Some (re.mk_loop_proper a1 (wrap32 (lo1 + lo2)) (wrap32 (hi1 + hi2))))
        else None
    | _, _ => None
    end
  with
  | Some r => r
  | None =>
  match
    match re.is_loop1 a, re.is_loop1 b with
    | Some (a1, lo1), Some (b1, lo2) =>
        if expr_eqb a1 b1 then Some (BR_DONE, Some (re.mk_loop a1 (wrap32 (lo1 + lo2))))
        else None
    | _, _ => None
    end
  with
  | Some r => r
  | None =>
      match mk_re_concat_round a b with
      | Some r => r
      | None =>
          match mk_re_concat_round b a with
          | Some r => r
          | None => (BR_FAILED, None)
          end
      end
  end end end end end end.

Definition mk_re_append (r s : expr) : expr :=
  rewritten (re.mk_concat r s) (mk_re_concat r s).

Definition mk_re_union0 (a b : expr) : rewrite_result :=
  if expr_eqb a b then (BR_DONE, Some a)
  else if re.is_empty a then (BR_DONE, Some b)
  else if re.is_empty b then (BR_DONE, Some a)
  else if re.is_full_seq a then (BR_DONE, Some a)
  else if re.is_full_seq b then (BR_DONE, Some b)
  else if re.is_star_b a && re.is_epsilon b then (BR_DONE, Some a)
  else if re.is_star_b b && re.is_epsilon a then (BR_DONE, Some b)
  else (BR_FAILED, None).

Definition mk_re_union (a b : expr) : rewrite_result :=
  (BR_DONE, Some (mk_regex_union_normalize a b)).

Definition mk_re_inter0 (a b : expr) : rewrite_result :=
  if expr_eqb a b then (BR_DONE, Some a)
  else if re.is_empty a then (BR_DONE, Some a)
  else if re.is_empty b then (BR_DONE, Some b)
  else if re.is_full_seq a then (BR_DONE, Some b)
  else if re.is_full_seq b then (BR_DONE, Some a)
  else (BR_FAILED, None).

Definition mk_re_inter (a b : expr) : rewrite_result :=
  (BR_DONE, Some (mk_regex_inter_normalize a b)).

Definition mk_re_diff (a b : expr) : rewrite_result :=
  (BR_REWRITE2, Some (mk_regex_inter_normalize a (re.mk_complement b))).

Definition mk_re_complement (a : expr) : rewrite_result :=
  match re.is_intersection a with
  | Some (e1, e2) =>
      (BR_REWRITE2, Some (re.mk_union (re.mk_complement e1) (re.mk_complement e2)))
  | None =>
  match re.is_union a with
  | Some (e1, e2) =>
      (BR_REWRITE2, Some (re.mk_inter (re.mk_complement e1) (re.mk_complement e2)))
  | None =>
      if re.is_empty a then (BR_DONE, Some re.mk_full_seq)
      else if re.is_full_seq a then (BR_DONE, Some re.mk_empty)
      else
        match re.is_complement a with
        | Some e1 => (BR_DONE, Some e1)
        | None =>
            if re.is_epsilon a then (BR_DONE, Some (re.mk_plus re.mk_full_char))
            else (BR_FAILED, None)
        end
  end end.

(** [mk_regex_concat]: right-associated concatenation with the unit and
    zero laws. *)
Fixpoint mk_regex_concat (r s : expr) {struct r} : expr :=
  if re.is_epsilon r || re.is_empty s then s
  else if re.is_epsilon s || re.is_empty r then r
  else if re.is_full_seq r && re.is_full_seq s then r
  else if re.is_full_char r && re.is_full_seq s then re.mk_plus re.mk_full_char
  else if re.is_full_seq r && re.is_full_char s then re.mk_plus re.mk_full_char
  else
    match r with
    | app OP_RE_CONCAT [r1; r2] => mk_regex_concat r1 (mk_regex_concat r2 s)
    | _ => re.mk_concat r s
    end.

(** [mk_regex_reverse]: push [reverse] to the leaves. *)
Fixpoint mk_regex_reverse (r : expr) {struct r} : expr :=
  if re.is_empty r || re.is_range_b r || re.is_epsilon r || re.is_full_seq r ||
     re.is_full_char r || re.is_dot_plus r || re.is_of_pred_b r
  then r
  else
    match r with
    | app d args =>
        match d, args with
        | OP_SEQ_TO_RE, _ => re.mk_reverse r
        | OP_RE_REVERSE, [r1] => r1
        | OP_RE_CONCAT, [r1; r2] =>
            mk_regex_concat (mk_regex_reverse r2) (mk_regex_reverse r1)
        | OP_ITE, [c; r1; r2] => mk_ite c (mk_regex_reverse r1) (mk_regex_reverse r2)
        | OP_RE_UNION, [r1; r2] =>
            re.mk_union (mk_regex_reverse r1) (mk_regex_reverse r2)
        | OP_RE_INTERSECT, [r1; r2] =>
            re.mk_inter (mk_regex_reverse r1) (mk_regex_reverse r2)
        | OP_RE_DIFF, [r1; r2] =>
            re.mk_diff (mk_regex_reverse r1) (mk_regex_reverse r2)
        | OP_RE_STAR, [r1] => re.mk_star (mk_regex_reverse r1)
        | OP_RE_PLUS, [r1] => re.mk_plus (mk_regex_reverse r1)
        | OP_RE_LOOP [lo], [r1] => re.mk_loop (mk_regex_reverse r1) (wrap32 lo)
        | OP_RE_LOOP [lo; hi], [r1] =>
            re.mk_loop_proper (mk_regex_reverse r1) (wrap32 lo) (wrap32 hi)
        | OP_RE_OPTION, [r1] => re.mk_opt (mk_regex_reverse r1)
        | OP_RE_COMPLEMENT, [r1] => re.mk_complement (mk_regex_reverse r1)
        | _, _ => re.mk_reverse r
        end
    | var _ _ => re.mk_reverse r
    end.

(** The loop of [is_nullable_symbolic_regex] over nested derivatives. *)
Fixpoint strip_derivatives (r1 elems : expr) {struct r1} : expr * expr :=
  match r1 with
  | app OP_RE_DERIVATIVE [elem; r2] =>
      strip_derivatives r2
        (if str.is_empty elems then mk_unit elem else mk_concat (mk_unit elem) elems)
  | _ => (r1, elems)
  end.

Definition is_nullable_symbolic_regex (r : expr) : expr :=
  let '(r1, elems) := strip_derivatives r mk_empty in
  match re.is_to_re r1 with
  | Some s => mk_eq elems s
  | None => mk_in_re mk_empty r
  end.

(** [is_nullable_rec]: a formula for "the empty word is in the language".
    The cases of the source are told apart by the kind of [r], which is how
    they are dispatched here; the memo table of [is_nullable] is left
    out. *)
Fixpoint is_nullable (r : expr) {struct r} : expr :=
  match r with
  | app d args =>
      match d, args with
      | OP_RE_CONCAT, [r1; r2] | OP_RE_INTERSECT, [r1; r2] =>
          br_mk_and (is_nullable r1) (is_nullable r2)
      | OP_RE_UNION, [r1; r2] | _OP_RE_ANTIMIROV_UNION, [r1; r2] =>
          br_mk_or (is_nullable r1) (is_nullable r2)
      | OP_RE_DIFF, [r1; r2] =>
          br_mk_and (br_mk_not (is_nullable r2)) (is_nullable r1)
      | OP_RE_STAR, _ | OP_RE_OPTION, _ | OP_RE_FULL_SEQ_SET, _ => mk_true
      | OP_RE_LOOP [lo], [r1] =>
          if wrap32 lo =? 0 then mk_true else is_nullable r1
      | OP_RE_LOOP [lo; hi], [r1] =>
          if wrap32 lo =? 0 then mk_true else is_nullable r1
      | OP_RE_FULL_CHAR_SET, _ | OP_RE_EMPTY_SET, _ | OP_RE_OF_PRED, _
      | OP_RE_RANGE, _ => mk_false
      | OP_RE_PLUS, [r1] | OP_RE_REVERSE, [r1] => is_nullable r1
      | OP_RE_COMPLEMENT, [r1] => br_mk_not (is_nullable r1)
      | OP_SEQ_TO_RE, [r1] =>
          if str.is_empty r1 then mk_true else is_nullable r1
      | OP_ITE, [cond; r1; r2] =>
          br_mk_ite cond (is_nullable r1) (is_nullable r2)
      | OP_SEQ_CONCAT, [r1; r2] =>
          if bool_decide (get_sort r = ReSort) then is_nullable_symbolic_regex r
          else br_mk_and (is_nullable r1) (is_nullable r2)
      | _, _ =>
          if bool_decide (get_sort r = ReSort) then is_nullable_symbolic_regex r
          else if str.is_empty r then mk_true
          else if is_unit_b r then mk_false
          else
            match is_string r with
            | Some s1 => mk_bool_val (bool_decide (length s1 = 0%nat))
            | None => mk_eq mk_empty r
            end
      end
  | var _ _ =>
      if bool_decide (get_sort r = ReSort) then is_nullable_symbolic_regex r
      else mk_eq mk_empty r
  end.

End RegexRewrites.

(** ** Path conditions *)

Section PathConditions.
Context `{H : Host}.

(** [intersect(lo, hi, ranges)]: clip the sorted ranges to [lo, hi]. *)
Fixpoint intersect (lo hi : Z) (ranges : list (Z * Z)) : list (Z * Z) :=
  match ranges with
  | [] => []
  | (lo1, hi1) :: rest =>
      if hi <? lo1 then []
      else if hi1 >=? lo then (Z.max lo1 lo, Z.min hi1 hi) :: intersect lo hi rest
      else intersect lo hi rest
  end.

(** The lambda [exclude_range] of [elim_condition]. *)
Definition exclude_range (lower upper : Z) (ranges : list (Z * Z)) : list (Z * Z) :=
  if lower =? 0 then
    if upper =? max_char then [] else intersect (upper + 1) max_char ranges
  else if upper =? max_char then intersect 0 (lower - 1) ranges
  else intersect 0 (lower - 1) ranges ++ intersect (upper + 1) max_char ranges.

Definition both_const_char (lhs rhs : expr) : option (Z * Z) :=
  match is_const_char lhs, is_const_char rhs with
  | Some ch, Some ch2 => Some (ch, ch2)
  | _, _ => None
  end.

(** The conjuncts [elim_condition] skips as trivially true. *)
Definition trivially_true (e : expr) : bool :=
  is_true e ||
  match is_eq e with Some (lhs, rhs) => expr_eqb lhs rhs | None => false end ||
  match is_not e with
  | Some e1 =>
      match is_eq e1 with
      | Some (lhs, rhs) =>
          match both_const_char lhs rhs with
          | Some (ch, ch2) => negb (ch =? ch2)
          | None => false
          end
      | None => false
      end
  | None => false
  end ||
  match is_char_le e with
  | Some (lhs, rhs) =>
      match both_const_char lhs rhs with
      | Some (ch, ch2) => ch <=? ch2
      | None => false
      end
  | None => false
  end ||
  match is_not e with
  | Some e1 =>
      match is_char_le e1 with
      | Some (lhs, rhs) =>
          match both_const_char lhs rhs with
          | Some (ch, ch2) => ch >? ch2
          | None => false
          end
      | None => false
      end
  | None => false
  end.

(** The conjuncts that empty the range set as trivially false. *)
Definition trivially_false (e : expr) : bool :=
  is_false e ||
  match is_not e with
  | Some e1 =>
      match is_eq e1 with Some (lhs, rhs) => expr_eqb lhs rhs | None => false end
  | None => false
  end ||
  match is_char_le e with
  | Some (lhs, rhs) =>
      match both_const_char lhs rhs with
      | Some (ch, ch2) => ch >? ch2
      | None => false
      end
  | None => false
  end ||
  match is_not e with
  | Some e1 =>
      match is_char_le e1 with
      | Some (lhs, rhs) =>
          match both_const_char lhs rhs with
          | Some (ch, ch2) => ch <=? ch2
          | None => false
          end
      | None => false
      end
  | None => false
  end.

(** The first loop of [elim_condition] over the conjuncts: the ranges left
    for [elem], the conjuncts that are ranges, and the flag [all_ranges]. *)
Fixpoint collect_ranges (elem : expr) (conds : list expr)
    (ranges : list (Z * Z)) (conds_range : list expr)
  : list (Z * Z) * list expr * bool :=
  match conds with
  | [] => (ranges, conds_range, true)
  | e :: conds' =>
      match is_char_const_range elem e with
      | Some (ch, ch2, negated) =>
          if (ch >? ch2) && negated then
            collect_ranges elem conds' ranges conds_range
          else
            let ranges :=
              if ch >? ch2 then []
              else if negated then exclude_range ch ch2 ranges
              else intersect ch ch2 ranges in
            let conds_range := conds_range ++ [e] in
            if bool_decide (ranges = []) then (ranges, conds_range, true)
            else collect_ranges elem conds' ranges conds_range
      | None =>
          if trivially_true e then collect_ranges elem conds' ranges conds_range
          else if trivially_false e then ([], conds_range, true)
          else (ranges, conds_range, false)
      end
  end.

(** The search for an equation [elem = solution] among the conjuncts. *)
Fixpoint find_solution (elem : expr) (conds : list expr) : option expr :=
  match conds with
  | [] => None
  | e :: conds' =>
      match is_eq e with
      | Some (lhs, rhs) =>
          let '(lhs, rhs) := if expr_eqb rhs elem then (rhs, lhs) else (lhs, rhs) in
          if expr_eqb lhs elem then Some rhs else find_solution elem conds'
      | None => find_solution elem conds'
      end
  end.

Definition elim_condition_tail (elem cond : expr) (conds : list expr) (all_ranges : bool)
  : expr :=
  match find_solution elem conds with
  | Some solution =>
      let cond := safe_replace elem solution cond in
      if negb (is_uninterp_const elem) then mk_and [mk_eq elem solution; cond] else cond
  | None =>
      if all_ranges then
        match conds with
        | [] => mk_true
        | [c] => c
        | _ => mk_and conds
        end
      else cond
  end.

Definition elim_condition (elem cond : expr) : expr :=
  let conds := flatten_and cond in
  if bool_decide (get_sort elem = CharSort) then
    let '(ranges, conds_range, all_ranges) :=
      collect_ranges elem conds [(0, max_char)] [] in
    if all_ranges then
      if bool_decide (ranges = []) then mk_false
      else if is_uninterp_const elem then mk_true
      else elim_condition_tail elem cond conds_range true
    else elim_condition_tail elem cond conds false
  else elim_condition_tail elem cond conds false.

Definition simplify_path (elem path : expr) : expr := elim_condition elem path.

End PathConditions.

(** ** Derivative normal form: combining conditional derivatives

    The recursive procedures below take [fuel] where the source recurses
    on terms it has just built; [None] means the fuel ran out.  The
    operation cache, which only memoizes these same results, is left out. *)

Section DerOps.
Context `{H : Host}.

Fixpoint pred_implies (fuel : nat) (a b : expr) : bool :=
  match fuel with
  | O => false
  | S fuel' =>
      match is_not a, is_not b with
      | Some nota, Some notb => pred_implies fuel' notb nota
      | _, _ =>
      match is_char_le a, is_char_le b with
      | Some (cha1, cha2), Some (chb1, chb2) => le_char chb1 cha1 && le_char cha2 chb2
      | _, _ =>
      match is_char_le a, is_not b ≫= is_char_le with
      | Some (cha1, cha2), Some (chb1, chb2) =>
          (le_char chb2 cha1 && lt_char cha2 chb1) ||
          (lt_char chb2 cha1 && le_char cha2 chb1)
      | _, _ =>
      match is_char_le b, is_not a ≫= is_char_le with
      | Some (chb1, chb2), Some (cha1, cha2) => le_char chb1 cha2 && le_char cha1 chb2
      | _, _ => false
      end end end end
  end.

(** The lambda [get_id] of [mk_der_op_rec]: the character bound of a
    condition [_ <= ch], else the identifier of the (un-negated) term. *)
Definition der_cond_id (e : expr) : Z :=
  match is_char_le e ≫= (λ p, is_const_char p.2) with
  | Some ch => ch
  | None => get_id (default e (is_not e))
  end.

(** The lambda [mk_ite] of [mk_der_op_rec]. *)
Definition der_mk_ite (c a b : expr) : expr :=
  if expr_eqb a b then a else mk_ite c a b.

Definition mk_der_op_rec (mk_der_op : decl_kind → expr → expr → option expr)
    (k : decl_kind) (a b : expr) : option expr :=
  let k :=
    if bool_decide (k = OP_RE_UNION) &&
       (is_app_of a _OP_RE_ANTIMIROV_UNION || is_app_of b _OP_RE_ANTIMIROV_UNION)
    then _OP_RE_ANTIMIROV_UNION else k in
  if bool_decide (k = _OP_RE_ANTIMIROV_UNION) then Some (re.mk_antimirov_union a b)
  else
  match re.is_antimirov_union a with
  | Some (a1, a2) =>
      r1 ← mk_der_op k a1 b; r2 ← mk_der_op k a2 b;
      Some (re.mk_antimirov_union r1 r2)
  | None =>
  match re.is_antimirov_union b with
  | Some (b1, b2) =>
      r1 ← mk_der_op k a b1; r2 ← mk_der_op k a b2;
      Some (re.mk_antimirov_union r1 r2)
  | None =>
  match is_ite a with
  | Some (ca, a1, a2) =>
      match is_ite b with
      | Some (cb, b1, b2) =>
          if expr_eqb ca cb then
            r1 ← mk_der_op k a1 b1; r2 ← mk_der_op k a2 b2;
            Some (der_mk_ite ca r1 r2)
          else
            let is_symmetric :=
              bool_decide (k = OP_RE_UNION) || bool_decide (k = OP_RE_INTERSECT) in
            let '(a, b, ca, cb, a1, a2, b1, b2) :=
              if is_symmetric && (der_cond_id ca <? der_cond_id cb)
              then (b, a, cb, ca, b1, b2, a1, a2)
              else (a, b, ca, cb, a1, a2, b1, b2) in
            let notca := mk_not ca in
            let notcb := mk_not cb in
            let n := (expr_size ca + expr_size cb + 2)%nat in
            r1 ←
              (if pred_implies n ca cb then mk_der_op k a1 b1
               else if pred_implies n ca notcb then mk_der_op k a1 b2
               else mk_der_op k a1 b);
            r2 ←
              (if pred_implies n notca cb then mk_der_op k a2 b1
               else if pred_implies n notca notcb then mk_der_op k a2 b2
               else mk_der_op k a2 b);
            Some (der_mk_ite ca r1 r2)
      | None =>
          r1 ← mk_der_op k a1 b; r2 ← mk_der_op k a2 b;
          Some (der_mk_ite ca r1 r2)
      end
  | None =>
  match is_ite b with
  | Some (cb, b1, b2) =>
      r1 ← mk_der_op k a b1; r2 ← mk_der_op k a b2;
      Some (der_mk_ite cb r1 r2)
  | None =>
      if bool_decide (k = OP_RE_INTERSECT) then
        Some (rewritten (re.mk_inter a b) (mk_re_inter a b))
      else if bool_decide (k = OP_RE_UNION) then
        Some (rewritten (re.mk_union a b) (mk_re_union a b))
      else if bool_decide (k = OP_RE_CONCAT) then
        Some (rewritten (re.mk_concat a b) (mk_re_concat a b))
      else None
  end end end end.

Fixpoint mk_der_op (fuel : nat) (k : decl_kind) (a b : expr) : option expr :=
  match fuel with
  | O => None
  | S fuel' =>
      let pre :=
        if bool_decide (k = OP_RE_INTERSECT) then mk_re_inter0 a b
        else if bool_decide (k = OP_RE_UNION) then mk_re_union0 a b
        else if bool_decide (k = OP_RE_CONCAT) then mk_re_concat a b
        else (BR_FAILED, None) in
      match pre with
      | (BR_FAILED, _) => mk_der_op_rec (mk_der_op fuel') k a b
      | (_, result) => result
      end
  end.

Definition mk_der_union (fuel : nat) (r1 r2 : expr) : option expr :=
  mk_der_op fuel OP_RE_UNION r1 r2.
Definition mk_der_inter (fuel : nat) (r1 r2 : expr) : option expr :=
  mk_der_op fuel OP_RE_INTERSECT r1 r2.
Definition mk_der_concat (fuel : nat) (r1 r2 : expr) : option expr :=
  mk_der_op fuel OP_RE_CONCAT r1 r2.

Fixpoint mk_der_compl (fuel : nat) (r : expr) {struct r} : option expr :=
  match r with
  | app _OP_RE_ANTIMIROV_UNION [r1; r2] =>
      res1 ← mk_der_compl fuel r1; res2 ← mk_der_compl fuel r2;
      mk_der_inter fuel res1 res2
  | app OP_ITE [c; r1; r2] =>
      res1 ← mk_der_compl fuel r1; res2 ← mk_der_compl fuel r2;
      Some (mk_ite c res1 res2)
  | _ => Some (rewritten (re.mk_complement r) (mk_re_complement r))
  end.

Fixpoint mk_der_cond (fuel : nat) (cond ele : expr) : option expr :=
  match fuel with
  | O => None
  | S fuel' =>
      match
        match is_eq cond with
        | Some (ch1, ch2) =>
            if bool_decide (get_sort ch1 = CharSort) then Some (ch1, ch2) else None
        | None => None
        end
      with
      | Some (ch1, ch2) =>
          r1 ← mk_der_cond fuel' (char_mk_le ch1 ch2) ele;
          r2 ← mk_der_cond fuel' (char_mk_le ch2 ch1) ele;
          mk_der_inter fuel' r1 r2
      | None =>
      match
        match is_char_le cond with
        | Some (ch1, ch2) =>
            match is_const_char ch1 with
            | Some ch => if expr_eqb ch2 ele then Some ch else None
            | None => None
            end
        | None => None
        end
      with
      | Some ch =>
          if ch >? 0 then
            mk_der_compl fuel' (re_predicate (char_mk_le ele (mk_char (ch - 1))))
          else Some (re_predicate mk_true)
      | None =>
      match is_not cond with
      | Some c1 => r ← mk_der_cond fuel' c1 ele; mk_der_compl fuel' r
      | None =>
      match is_and cond with
      | Some (c1, c2) =>
          r1 ← mk_der_cond fuel' c1 ele; r2 ← mk_der_cond fuel' c2 ele;
          mk_der_inter fuel' r1 r2
      | None =>
      match is_or cond with
      | Some (c1, c2) =>
          r1 ← mk_der_cond fuel' c1 ele; r2 ← mk_der_cond fuel' c2 ele;
          mk_der_union fuel' r1 r2
      | None => Some (re_predicate cond)
      end end end end end
  end.

End DerOps.

(** ** The symbolic derivative *)

Section Derivative.
Context `{H : Host}.

Fixpoint mk_antimirov_deriv_union (d1 d2 : expr) {struct d1} : expr :=
  match d1, is_ite d2 with
  | app OP_ITE [c1; t1; e1], Some (c2, t2, e2) =>
      if expr_eqb c1 c2 then
        mk_ite c1 (mk_antimirov_deriv_union t1 t2) (mk_antimirov_deriv_union e1 e2)
      else mk_regex_union_normalize d1 d2
  | _, _ => mk_regex_union_normalize d1 d2
  end.

Fixpoint mk_antimirov_deriv_concat (d r : expr) {struct d} : expr :=
  match d with
  | app OP_ITE [c; t; e] =>
      let r2 := mk_antimirov_deriv_concat e r in
      let r1 := mk_antimirov_deriv_concat t r in
      mk_ite c r1 r2
  | app OP_RE_UNION [t; e] =>
      mk_antimirov_deriv_union (mk_antimirov_deriv_concat t r) (mk_antimirov_deriv_concat e r)
  | _ => mk_re_append d r
  end.

Fixpoint mk_antimirov_deriv_restrict (e d cond : expr) {struct d} : expr :=
  if is_false cond then re.mk_empty
  else if re.is_empty d || is_true cond then d
  else
    match d with
    | app OP_ITE [c; a; b] =>
        let path_and_c := simplify_path e (mk_and [cond; c]) in
        let path_and_notc := simplify_path e (mk_and [cond; mk_not c]) in
        re.mk_ite_simplify c (mk_antimirov_deriv_restrict e a path_and_c)
          (mk_antimirov_deriv_restrict e b path_and_notc)
    | app OP_RE_UNION [a; b] =>
        let a1 := mk_antimirov_deriv_restrict e a cond in
        let b1 := mk_antimirov_deriv_restrict e b cond in
        mk_antimirov_deriv_union a1 b1
    | _ => d
    end.

Fixpoint mk_antimirov_deriv_intersection (fuel : nat) (e d1 d2 path : expr) : option expr :=
  match fuel with
  | O => None
  | S fuel' =>
      let inter := mk_antimirov_deriv_intersection fuel' e in
      if re.is_empty d1 then Some d1
      else if re.is_empty d2 then Some d2
      else
        match is_ite d1 with
        | Some (c, a, b) =>
            let path_and_c := simplify_path e (mk_and [path; c]) in
            let path_and_notc := simplify_path e (mk_and [path; mk_not c]) in
            if is_false path_and_c then inter b d2 path
            else if is_false path_and_notc then inter a d2 path
            else
              r1 ← inter a d2 path_and_c; r2 ← inter b d2 path_and_notc;
              Some (mk_ite c r1 r2)
        | None =>
            if is_app_of d2 OP_ITE then inter d2 d1 path
            else if expr_eqb d1 d2 || re.is_full_seq d2 then
              Some (mk_antimirov_deriv_restrict e d1 path)
            else if re.is_full_seq d1 then Some (mk_antimirov_deriv_restrict e d2 path)
            else
              match re.is_union d1 with
              | Some (a, b) =>
                  r1 ← inter a d2 path; r2 ← inter b d2 path;
                  Some (mk_antimirov_deriv_union r1 r2)
              | None =>
                  match re.is_union d2 with
                  | Some (a, b) =>
                      r1 ← inter d1 a path; r2 ← inter d1 b path;
                      Some (mk_antimirov_deriv_union r1 r2)
                  | None => Some (mk_regex_inter_normalize d1 d2)
                  end
              end
        end
  end.

Fixpoint mk_antimirov_deriv_negate (fuel : nat) (elem d : expr) {struct d} : option expr :=
  if re.is_empty d then Some re.mk_full_seq
  else if re.is_epsilon d then Some (re.mk_plus re.mk_full_char)
  else if re.is_full_seq d then Some re.mk_empty
  else if re.is_dot_plus d then Some re.mk_epsilon
  else
    match d with
    | app OP_ITE [c; t; e] =>
        r1 ← mk_antimirov_deriv_negate fuel elem t;
        r2 ← mk_antimirov_deriv_negate fuel elem e;
        Some (mk_ite c r1 r2)
    | app OP_RE_UNION [t; e] =>
        r1 ← mk_antimirov_deriv_negate fuel elem t;
        r2 ← mk_antimirov_deriv_negate fuel elem e;
        mk_antimirov_deriv_intersection fuel elem r1 r2 mk_true
    | app OP_RE_INTERSECT [t; e] =>
        r1 ← mk_antimirov_deriv_negate fuel elem t;
        r2 ← mk_antimirov_deriv_negate fuel elem e;
        Some (mk_antimirov_deriv_union r1 r2)
    | app OP_RE_COMPLEMENT [t] => Some t
    | _ => Some (re.mk_complement d)
    end.

(** The [range] case of [mk_antimirov_deriv_rec]: the condition under which
    [e] lies in the range, when the bounds have one of the four shapes. *)
Definition deriv_range_cond (e r1 r2 : expr) : option expr :=
  let len_eq_one r := mk_eq (mk_length r) one in
  let nth0 r := mk_nth_i r zero in
  match is_unit_string r1, is_unit_string r2 with
  | Some c1, Some c2 =>
      Some (simplify_path e (mk_and [char_mk_le c1 e; char_mk_le e c2]))
  | _, _ =>
  match is_string_b r1, is_unit_string r2 with
  | false, Some c2 =>
      Some (simplify_path e
              (mk_and [len_eq_one r1; mk_and [char_mk_le (nth0 r1) e; char_mk_le e c2]]))
  | _, _ =>
  match is_string_b r2, is_unit_string r1 with
  | false, Some c1 =>
      Some (simplify_path e
              (mk_and [len_eq_one r2; mk_and [char_mk_le c1 e; char_mk_le e (nth0 r2)]]))
  | _, _ =>
      if negb (is_string_b r1) && negb (is_string_b r2) then
        Some (simplify_path e
                (mk_and [len_eq_one r1;
                         mk_and [len_eq_one r2;
                                 mk_and [char_mk_le (nth0 r1) e; char_mk_le e (nth0 r2)]]]))
      else None
  end end end.

Fixpoint mk_antimirov_deriv (fuel : nat) (e r path : expr) : option expr :=
  match fuel with
  | O => None
  | S fuel' =>
  let deriv := mk_antimirov_deriv fuel' e in
  let nothing := re.mk_empty in
  let epsilon := re.mk_epsilon in
  let dotstar := re.mk_full_seq in
  if re.is_empty r || re.is_epsilon r then Some nothing
  else if re.is_full_seq r || re.is_dot_plus r then Some dotstar
  else if re.is_full_char r then Some epsilon
  else
  match re.is_to_re r with
  | Some r1 =>
      match get_head_tail r1 with
      | Some (h, t) =>
          if eq_char e h then Some (re.mk_to_re t)
          else if neq_char e h then Some nothing
          else Some (re.mk_ite_simplify (mk_eq e h) (re.mk_to_re t) nothing)
      | None =>
          let c1 := br_mk_and (mk_not (mk_eq r1 mk_empty)) (mk_eq (mk_seq_first r1) e) in
          let c2 := br_mk_and path c1 in
          if is_false c2 then Some nothing
          else Some (mk_ite c1 (re.mk_to_re (mk_seq_rest r1)) nothing)
      end
  | None =>
  match re.is_reverse r with
  | Some r2 =>
      match re.is_to_re r2 with
      | Some r1 =>
          let c1 := br_mk_and (mk_not (mk_eq r1 mk_empty)) (mk_eq (mk_seq_last r1) e) in
          let c2 := br_mk_and path c1 in
          if is_false c2 then Some nothing
          else Some (re.mk_ite_simplify c1
                       (re.mk_reverse (re.mk_to_re (mk_seq_butlast r1))) nothing)
      | None =>
          let result := mk_regex_reverse r2 in
          if expr_eqb result r then Some (re.mk_derivative e result)
          else deriv result path
      end
  | None =>
  match re.is_concat r with
  | Some (r1, r2) =>
      let r1nullable := is_nullable r1 in
      d1 ← deriv r1 path;
      let c1 := mk_antimirov_deriv_concat d1 r2 in
      let r1nullable_and_path := br_mk_and r1nullable path in
      if is_false r1nullable_and_path then Some c1
      else
        d2 ← deriv r2 path;
        Some (mk_antimirov_deriv_union c1 (re.mk_ite_simplify r1nullable d2 nothing))
  | None =>
  match is_ite r with
  | Some (c, r1, r2) =>
      let c1 := simplify_path e (mk_and [c; path]) in
      let c2 := simplify_path e (mk_and [mk_not c; path]) in
      if is_false c1 then deriv r2 c2
      else if is_false c2 then deriv r1 c1
      else d1 ← deriv r1 c1; d2 ← deriv r2 c2; Some (re.mk_ite_simplify c d1 d2)
  | None =>
  match re.is_range r with
  | Some (r1, r2) =>
      match deriv_range_cond e r1 r2 with
      | Some range =>
          let psi := simplify_path e (mk_and [path; range]) in
          if is_false psi then Some nothing
          else Some (re.mk_ite_simplify range epsilon nothing)
      | None => Some nothing
      end
  | None =>
  match re.is_union r with
  | Some (r1, r2) =>
      d1 ← deriv r1 path; d2 ← deriv r2 path; Some (mk_antimirov_deriv_union d1 d2)
  | None =>
  match re.is_intersection r with
  | Some (r1, r2) =>
      d1 ← deriv r1 path; d2 ← deriv r2 path;
      mk_antimirov_deriv_intersection fuel' e d1 d2 mk_true
  | None =>
  match
    match re.is_star r, re.is_plus r, re.is_loop1 r with
    | Some r1, _, _ => Some r1
    | None, Some r1, _ => Some r1
    | None, None, Some (r1, lo) => if lo <=? 1 then Some r1 else None
    | None, None, None => None
    end
  with
  | Some r1 => d1 ← deriv r1 path; Some (mk_antimirov_deriv_concat d1 (re.mk_star r1))
  | None =>
  match re.is_loop1 r with
  | Some (r1, lo) =>
      d1 ← deriv r1 path;
      Some (mk_antimirov_deriv_concat d1 (re.mk_loop r1 (wrap32 (lo - 1))))
  | None =>
  match re.is_loop2 r with
  | Some (r1, lo, hi) =>
      if ((lo =? 0) && (hi =? 0)) || (hi <? lo) then Some nothing
      else
        let t := re.mk_loop_proper r1 (if lo =? 0 then 0 else wrap32 (lo - 1))
                   (wrap32 (hi - 1)) in
        d1 ← deriv r1 path; Some (mk_antimirov_deriv_concat d1 t)
  | None =>
  match re.is_opt r with
  | Some r1 => deriv r1 path
  | None =>
  match re.is_complement r with
  | Some r1 => d1 ← deriv r1 path; mk_antimirov_deriv_negate fuel' e d1
  | None =>
  match re.is_diff r with
  | Some (r1, r2) =>
      d1 ← deriv r1 path; d2 ← deriv r2 path;
      n2 ← mk_antimirov_deriv_negate fuel' e d2;
      mk_antimirov_deriv_intersection fuel' e d1 n2 mk_true
  | None =>
  match re.is_of_pred r with
  | Some r1 => mk_der_cond fuel' (app OP_SELECT [r1; e]) e
  | None => Some (re.mk_derivative e r)
  end end end end end end end end end end end end end end
  end.

(** [mk_derivative(ele, r)]: the derivative under the path condition
    [true]. *)
Definition mk_derivative (fuel : nat) (ele r : expr) : option expr :=
  mk_antimirov_deriv fuel ele r mk_true.

(** [mk_re_loop] on the application of a loop to its body ([num_args]
    is 1); [ps] are the parameters of the declaration. *)
Definition mk_re_loop (ps : list Z) (arg : expr) : rewrite_result :=
  let np := length ps in
  let lo2 := if decide (0 < np)%nat then wrap32 (ps !!! 0%nat) else 0 in
  let hi2 := if decide (1 < np)%nat then wrap32 (ps !!! 1%nat) else lo2 in
  if bool_decide (np = 2%nat) && ((lo2 >? hi2) || (hi2 <? 0)) then
    (BR_DONE, Some re.mk_empty)
  else if bool_decide (np = 1%nat) && (lo2 <? 0) then (BR_DONE, Some re.mk_empty)
  else if bool_decide (np = 2%nat) && (lo2 =? 0) && (hi2 =? 0) then
    (BR_DONE, Some (re.mk_to_re mk_empty))
  else
    match (if bool_decide (np = 1%nat) then re.is_loop1 arg else None) with
    | Some (a, lo) => (BR_REWRITE1, Some (re.mk_loop a (wrap32 (lo2 * lo))))
    | None =>
    match
      match re.is_loop2 arg with
      | Some (a, lo, hi) =>
          if bool_decide (np = 2%nat) && (lo =? hi) && (lo2 =? hi2)
          then Some (a, lo, hi) else None
      | None => None
      end
    with
    | Some (a, lo, hi) =>
        (BR_REWRITE1, Some (re.mk_loop_proper a (wrap32 (lo2 * lo)) (wrap32 (hi2 * hi))))
    | None =>
        if bool_decide (np = 2%nat) && (lo2 =? 1) && (hi2 =? 1) then (BR_DONE, Some arg)
        else if bool_decide (np = 1%nat) && (lo2 =? 0) then (BR_DONE, Some (re.mk_star arg))
        else (BR_FAILED, None)
    end end.

End Derivative.

(** ** Membership in a regular expression *)

Section Membership.
Context `{H : Host}.

Fixpoint mk_in_antimirov (s d : expr) {struct d} : expr :=
  if re.is_full_seq d || ((str_min_length s >? 0) && re.is_dot_plus d) then mk_true
  else if re.is_empty d || ((str_min_length s >? 0) && re.is_epsilon d) then mk_false
  else
    match d with
    | app OP_ITE [c; d1; d2] =>
        re.mk_ite_simplify c (mk_in_antimirov s d1) (mk_in_antimirov s d2)
    | app OP_RE_UNION [d1; d2] => br_mk_or (mk_in_antimirov s d1) (mk_in_antimirov s d2)
    | _ => mk_in_re s d
    end.

Definition get_re_head_tail (r : expr) : option (expr * expr) :=
  match re.is_concat r with
  | Some (r1, r2) =>
      if negb (re_min_length r1 =? UINT_MAX) && (re_max_length r1 =? re_min_length r1)
      then Some (r1, r2) else None
  | None => None
  end.

Fixpoint get_re_head_tail_reversed (r : expr) : option (expr * expr) :=
  match r with
  | app OP_RE_CONCAT [r1; r2] =>
      let len := re_min_length r2 in
      if negb (len =? UINT_MAX) && (re_max_length r2 =? len) then
        match get_re_head_tail_reversed r1 with
        | Some (head, tail) => Some (head, mk_re_append tail r2)
        | None => Some (r1, r2)
        end
      else
        match get_re_head_tail_reversed r2 with
        | Some (head, tail) => Some (mk_re_append r1 head, tail)
        | None => None
        end
  | _ => None
  end.

(** The loop of [mk_str_in_regexp] over the characters of a string
    literal: [Some None] when an empty regex is met on the way. *)
Fixpoint derive_string (fuel : nat) (s : zstring) (r : expr) : option (option expr) :=
  match s with
  | [] => Some (Some r)
  | ch :: s' =>
      if re.is_empty r then Some None
      else new_r ← mk_derivative fuel (mk_char ch) r; derive_string fuel s' new_r
  end.

(** The case of a string literal and a ground regex; [Some None] when it
    does not decide. *)
Definition mk_str_in_regexp_ground (fuel : nat) (a b : expr)
    : option (option rewrite_result) :=
  match is_string a with
  | Some s =>
      if re_is_ground b then
        r ← derive_string fuel s b;
        match r with
        | None => Some (Some (BR_DONE, Some mk_false))
        | Some r =>
            match info_nullable r with
            | l_true => Some (Some (BR_DONE, Some mk_true))
            | l_false => Some (Some (BR_DONE, Some mk_false))
            | l_undef => Some None
            end
        end
      else Some None
  | None => Some None
  end.

(** [b] is [opt(b1)], [b1 | eps] or [eps | b1]. *)
Definition is_opt_or_union_epsilon (b : expr) : option expr :=
  match re.is_opt b with
  | Some b1 => Some b1
  | None =>
      match re.is_union b with
      | Some (x, y) =>
          if re.is_epsilon y then Some x
          else if re.is_epsilon x then Some y
          else None
      | None => None
      end
  end.

Definition mk_str_in_regexp (fuel : nat) (a b : expr) : option rewrite_result :=
  if re.is_empty b then Some (BR_DONE, Some mk_false)
  else if re.is_full_seq b then Some (BR_DONE, Some mk_true)
  else
  ground ← mk_str_in_regexp_ground fuel a b;
  match ground with
  | Some res => Some res
  | None =>
  match lift_str_from_to_re b with
  | Some b_s => Some (BR_REWRITE_FULL, Some (br_mk_eq_rw a b_s))
  | None =>
  match
    match re.is_concat b with
    | Some (c, d) =>
        match re.is_to_re c with
        | Some e => if re.is_full_seq d then Some e else None
        | None => None
        end
    | None => None
    end
  with
  | Some e => Some (BR_REWRITE1, Some (mk_prefix e a))
  | None =>
  match
    match re.is_concat b with
    | Some (c, d) =>
        match re.is_to_re d with
        | Some e => if re.is_full_seq c then Some e else None
        | None => None
        end
    | None => None
    end
  with
  | Some e => Some (BR_REWRITE1, Some (mk_suffix e a))
  | None =>
  match is_opt_or_union_epsilon b with
  | Some b1 =>
      Some (BR_REWRITE_FULL,
            Some (mk_ite (mk_eq (mk_length a) zero) mk_true (mk_in_re a b1)))
  | None =>
  if str.is_empty a then
    let result := is_nullable b in
    Some (if is_in_re_b result then BR_DONE else BR_REWRITE_FULL, Some result)
  else
  match get_head_tail a with
  | Some (hd, tl) =>
      d ← mk_antimirov_deriv fuel hd b mk_true;
      Some (BR_REWRITE_FULL, Some (mk_in_antimirov tl d))
  | None =>
  match get_head_tail_reversed a with
  | Some (hd, tl) =>
      Some (BR_REWRITE_FULL,
            Some (mk_in_re hd (re.mk_reverse (re.mk_derivative tl (re.mk_reverse b)))))
  | None =>
  match get_re_head_tail b with
  | Some (hd, tl) =>
      let len_hd := mk_int (re_min_length hd) in
      let len_a := mk_length a in
      let len_tl := mk_sub_raw len_a len_hd in
      Some (BR_REWRITE_FULL,
            Some (mk_and [mk_ge len_a len_hd;
                          mk_in_re (mk_substr a zero len_hd) hd;
                          mk_in_re (mk_substr a len_hd len_tl) tl]))
  | None =>
  match get_re_head_tail_reversed b with
  | Some (hd, tl) =>
      let len_tl := mk_int (re_min_length tl) in
      let len_a := mk_length a in
      let len_hd := mk_sub_raw len_a len_tl in
      Some (BR_REWRITE_FULL,
            Some (mk_and [mk_ge len_a len_tl;
                          mk_in_re (mk_substr a zero len_hd) hd;
                          match re.is_to_re tl with
                          | Some s => mk_eq s (mk_substr a len_hd len_tl)
                          | None => mk_in_re (mk_substr a len_hd len_tl) tl
                          end]))
  | None => Some (BR_FAILED, None)
  end end end end end end end end end.

End Membership.

(** ** Equation reducer

    [reduce_eq] simplifies an equation between two concatenations given as
    vectors of elements.  A pass either reports that the equation has no
    solution (the C++ function returns [false]) or leaves the vectors and
    the list of new equations for the next pass. *)

Inductive reduce_outcome :=
  | Unsat
  | Reduced (ls rs : list expr) (eqs : list (expr * expr)).

(** Run the next pass on what the previous one left. *)
Definition and_then (o : option reduce_outcome)
    (f : list expr → list expr → list (expr * expr) → option reduce_outcome)
    : option reduce_outcome :=
  match o with
  | Some (Reduced ls rs eqs) => f ls rs eqs
  | Some Unsat => Some Unsat
  | None => None
  end.

(** A pass called with the two sides exchanged. *)
Definition flip_sides (o : reduce_outcome) : reduce_outcome :=
  match o with
  | Reduced ls rs eqs => Reduced rs ls eqs
  | Unsat => Unsat
  end.

Section EquationReducer.
Context `{H : Host}.

Definition remove_empty_and_concats (es : list expr) : list expr :=
  let has_concat := existsb is_concat_b es in
  let es := List.filter (λ e, negb (is_empty e)) es in
  if has_concat then flat_map get_concat es else es.

Definition remove_leading (n : nat) (es : list expr) : list expr := drop n es.

(** The comparison loops of [reduce_back] and [reduce_front] on two string
    literals: some of the last (first) [min_l] characters differ. *)
Definition suffix_clash (s1 s2 : zstring) (min_l : nat) : bool :=
  existsb (λ i, negb (zget s1 (length s1 - i - 1) =? zget s2 (length s2 - i - 1)))
    (seq 0 min_l).

Definition prefix_clash (s1 s2 : zstring) (min_l : nat) : bool :=
  existsb (λ i, negb (zget s1 i =? zget s2 i)) (seq 0 min_l).

(** The loop of [reduce_back]; every round shortens one of the vectors.
    (On a unit against a string literal the source asserts that the literal
    is not empty.) *)
Fixpoint reduce_back_loop (fuel : nat) (ls rs : list expr) (new_eqs : list (expr * expr))
    : option reduce_outcome :=
  match fuel with
  | O => None
  | S fuel' =>
      match last ls, last rs with
      | Some l, Some r =>
          let '(l, r, ls, rs) :=
            if is_unit_b r && is_string_b l then (r, l, rs, ls) else (l, r, ls, rs) in
          if expr_eqb l r then
            reduce_back_loop fuel' (removelast ls) (removelast rs) new_eqs
          else
            match is_unit l, is_unit r with
            | Some a, Some b =>
                if are_distinct a b then Some Unsat
                else reduce_back_loop fuel' (removelast ls) (removelast rs)
                       (new_eqs ++ [(a, b)])
            | _, _ =>
            match is_unit l, is_string r with
            | Some a, Some s =>
                let ch := str_mk_char s (length s - 1) in
                let new_eqs := new_eqs ++ [(ch, a)] in
                let ls := removelast ls in
                if bool_decide (length s = 1%nat) then
                  reduce_back_loop fuel' ls (removelast rs) new_eqs
                else
                  let s2 := mk_string (zextract s 0 (length s - 1)) in
                  reduce_back_loop fuel' ls (<[(length rs - 1)%nat := s2]> rs) new_eqs
            | _, _ =>
            match is_string l, is_string r with
            | Some s1, Some s2 =>
                let min_l := (length s1 `min` length s2)%nat in
                if suffix_clash s1 s2 min_l then Some Unsat
                else
                  let ls := removelast ls in
                  let rs := removelast rs in
                  let ls :=
                    if (min_l <? length s1)%nat
                    then ls ++ [mk_string (zextract s1 0 (length s1 - min_l))] else ls in
                  let rs :=
                    if (min_l <? length s2)%nat
                    then rs ++ [mk_string (zextract s2 0 (length s2 - min_l))] else rs in
                  reduce_back_loop fuel' ls rs new_eqs
            | _, _ => Some (Reduced ls rs new_eqs)
            end end end
      | _, _ => Some (Reduced ls rs new_eqs)
      end
  end.

Definition reduce_back (ls rs : list expr) (new_eqs : list (expr * expr))
    : option reduce_outcome :=
  reduce_back_loop (S (length ls + length rs)) ls rs new_eqs.

(** The loop of [reduce_front], with the two read positions [head1] and
    [head2]; every round advances one of them. *)
Fixpoint reduce_front_loop (fuel : nat) (ls rs : list expr) (head1 head2 : nat)
    (new_eqs : list (expr * expr)) : option reduce_outcome :=
  match fuel with
  | O => None
  | S fuel' =>
      match ls !! head1, rs !! head2 with
      | Some l, Some r =>
          let '(l, r, ls, rs, head1, head2) :=
            if is_unit_b r && is_string_b l
            then (r, l, rs, ls, head2, head1) else (l, r, ls, rs, head1, head2) in
          if expr_eqb l r then
            reduce_front_loop fuel' ls rs (S head1) (S head2) new_eqs
          else
            match is_unit l, is_unit r with
            | Some a, Some b =>
                if are_distinct a b then Some Unsat
                else reduce_front_loop fuel' ls rs (S head1) (S head2)
                       (new_eqs ++ [(a, b)])
            | _, _ =>
            match is_unit l, is_string r with
            | Some a, Some s =>
                let ch := str_mk_char s 0 in
                let new_eqs := new_eqs ++ [(ch, a)] in
                if bool_decide (length s = 1%nat) then
                  reduce_front_loop fuel' ls rs (S head1) (S head2) new_eqs
                else
                  let s2 := mk_string (zextract s 1 (length s - 1)) in
                  reduce_front_loop fuel' ls (<[head2 := s2]> rs) (S head1) head2 new_eqs
            | _, _ =>
            match is_string l, is_string r with
            | Some s1, Some s2 =>
                let min_l := (length s1 `min` length s2)%nat in
                if prefix_clash s1 s2 min_l then Some Unsat
                else
                  let '(ls, head1) :=
                    if (min_l =? length s1)%nat then (ls, S head1)
                    else (<[head1 := mk_string (zextract s1 min_l (length s1 - min_l))]> ls,
                          head1) in
                  let '(rs, head2) :=
                    if (min_l =? length s2)%nat then (rs, S head2)
                    else (<[head2 := mk_string (zextract s2 min_l (length s2 - min_l))]> rs,
                          head2) in
                  reduce_front_loop fuel' ls rs head1 head2 new_eqs
            | _, _ =>
                Some (Reduced (remove_leading head1 ls) (remove_leading head2 rs) new_eqs)
            end end end
      | _, _ => Some (Reduced (remove_leading head1 ls) (remove_leading head2 rs) new_eqs)
      end
  end.

Definition reduce_front (ls rs : list expr) (new_eqs : list (expr * expr))
    : option reduce_outcome :=
  reduce_front_loop (S (length ls + length rs)) ls rs 0 0 new_eqs.

(** [is_string(n, es, s)]: the elements are string literals and units of
    character constants, [s] their concatenation. *)
Fixpoint is_string_vec (es : list expr) : option zstring :=
  match es with
  | [] => Some []
  | e :: es' =>
      match is_string e with
      | Some s1 => (λ s, s1 ++ s) <$> is_string_vec es'
      | None =>
          match is_unit_const_char e with
          | Some ch => (λ s, ch :: s) <$> is_string_vec es'
          | None => None
          end
      end
  end.

Definition reduce_itos (ls rs : list expr) (eqs : list (expr * expr)) : reduce_outcome :=
  match ls with
  | [l] =>
      match is_itos l, is_string_vec rs with
      | Some n, Some s =>
          let s1 := encode s in
          if negb (forallb is_digit_code s1) then Unsat
          else if (1 <? length s1)%nat && (zget s1 0 =? 48) then Unsat
          else
            let r := parse_decimal s1 in
            if bool_decide (s1 = zstring_of_int r)
            then Reduced [] [] (eqs ++ [(n, mk_numeral r)])
            else Reduced ls rs eqs
      | _, _ => Reduced ls rs eqs
      end
  | _ => Reduced ls rs eqs
  end.

(** The lambda [remove] of [reduce_value_clash]: the first occurrence of
    [r] is overwritten by the last element, which is popped. *)
Fixpoint remove_swap (r : expr) (es : list expr) : option (list expr) :=
  match es with
  | [] => None
  | e :: es' =>
      if expr_eqb r e then
        Some (match last es' with
              | Some b => b :: removelast es'
              | None => []
              end)
      else (λ t, e :: t) <$> remove_swap r es'
  end.

Definition is_unit_value (r : expr) : bool := is_value r && is_unit_b r.

(** The loop of [reduce_value_clash] over [rs]; [None] when it returns
    [true] from inside the loop. *)
Fixpoint value_clash_scan (rs es : list expr) : option (list expr) :=
  match rs with
  | [] => Some es
  | r :: rs' =>
      match remove_swap r es with
      | Some es' => value_clash_scan rs' es'
      | None => if is_unit_value r then value_clash_scan rs' es else None
      end
  end.

Definition reduce_value_clash (ls rs : list expr) (eqs : list (expr * expr)) : bool :=
  if bool_decide (ls = []) || bool_decide (rs = []) then true
  else
    match value_clash_scan rs ls with
    | None => true
    | Some es =>
        if bool_decide (es = []) then true
        else if existsb (λ e, negb (is_unit_value e)) es then true
        else false
    end.

End EquationReducer.

Section EquationReducerLengths.
Context `{H : Host}.

(** [set_empty(sz, es, all, eqs)]: [None] when it returns [false]. *)
Fixpoint set_empty (es : list expr) (all : bool) (eqs : list (expr * expr))
    : option (list (expr * expr)) :=
  match es with
  | [] => Some eqs
  | e :: es' =>
      let '(bounded, len) := min_length e in
      if len >? 0 then (if all then None else set_empty es' all eqs)
      else if bounded && (len =? 0) then set_empty es' all eqs
      else set_empty es' all (eqs ++ [(mk_empty, e)])
  end.

Definition has_var (es : list expr) : bool :=
  existsb (λ e, (min_length e).2 =? 0) es.

Definition concat_non_empty (es : list expr) : expr :=
  mk_concat_n
    (List.filter (λ e, is_unit_b e || is_string_b e || is_app_of e OP_ITE) es).

Definition reduce_by_length (ls rs : list expr) (eqs : list (expr * expr))
    : reduce_outcome :=
  if bool_decide (ls = []) && bool_decide (rs = []) then Reduced ls rs eqs
  else
    let '(bounded1, len1) := min_length_vec ls in
    let '(bounded2, len2) := min_length_vec rs in
    if bounded1 && (len1 <? len2) then Unsat
    else if bounded2 && (len2 <? len1) then Unsat
    else if bounded1 && (len1 =? len2) && (len1 >? 0) && has_var rs then
      match set_empty rs false eqs with
      | None => Unsat
      | Some eqs => Reduced [] [] (eqs ++ [(concat_non_empty ls, concat_non_empty rs)])
      end
    else if bounded2 && (len1 =? len2) && (len1 >? 0) && has_var ls then
      match set_empty ls false eqs with
      | None => Unsat
      | Some eqs => Reduced [] [] (eqs ++ [(concat_non_empty ls, concat_non_empty rs)])
      end
    else Reduced ls rs eqs.

(** The inner loop of [reduce_subsequence]: the first position of [rs], from
    [j] on, that is not taken and holds [x] or, for a unit [x], a unit. *)
Fixpoint subsequence_find (x : expr) (rs : list expr) (j : nat) (rpos : gset nat)
    : option nat :=
  match rs with
  | [] => None
  | y :: rs' =>
      if bool_decide (j ∉ rpos) && (expr_eqb x y || (is_unit_b x && is_unit_b y))
      then Some j
      else subsequence_find x rs' (S j) rpos
  end.

(** Its outer loop over [ls]; [None] when some element finds no place. *)
Fixpoint subsequence_match (ls rs : list expr) (rpos : gset nat) : option (gset nat) :=
  match ls with
  | [] => Some rpos
  | x :: ls' =>
      match subsequence_find x rs 0 rpos with
      | Some j => subsequence_match ls' rs ({[ j ]} ∪ rpos)
      | None => None
      end
  end.

(** The second loop: the elements at the taken positions are kept, the
    others are set to empty; [None] when one of them cannot be empty. *)
Fixpoint subsequence_keep (rs : list expr) (i : nat) (rpos : gset nat)
    (eqs : list (expr * expr)) : option (list expr * list (expr * expr)) :=
  match rs with
  | [] => Some ([], eqs)
  | y :: rs' =>
      if bool_decide (i ∈ rpos) then
        (λ p : list expr * list (expr * expr), (y :: p.1, p.2)) <$>
          subsequence_keep rs' (S i) rpos eqs
      else
        match set_empty [y] true eqs with
        | None => None
        | Some eqs => subsequence_keep rs' (S i) rpos eqs
        end
  end.

Definition reduce_subsequence (ls rs : list expr) (eqs : list (expr * expr))
    : reduce_outcome :=
  let '(ls, rs) := if (length rs <? length ls)%nat then (rs, ls) else (ls, rs) in
  if (length ls =? length rs)%nat then Reduced ls rs eqs
  else if bool_decide (ls = []) && (length rs =? 1)%nat then Reduced ls rs eqs
  else
    match subsequence_match ls rs ∅ with
    | None => Reduced ls rs eqs
    | Some rpos =>
        match subsequence_keep rs 0 rpos eqs with
        | None => Unsat
        | Some (kept, eqs) =>
            if (length kept =? length rs)%nat then Reduced ls rs eqs
            else if bool_decide (ls = []) then Reduced ls kept eqs
            else Reduced [] [] (eqs ++ [(mk_concat_n ls, mk_concat_n kept)])
        end
    end.

(** The lambda [can_overlap] of [non_overlap] on strings. *)
Definition can_overlap_string (s1 s2 : zstring) (start1 end1 start2 : nat) : bool :=
  forallb (λ i, zget s1 i =? zget s2 (start2 + i)) (seq start1 (end1 - start1)).

(** The three loops of [non_overlap] over a way [can_overlap] to compare. *)
Definition non_overlap_loops (can_overlap : nat → nat → nat → bool) (sz1 sz2 : nat) : bool :=
  negb (existsb (λ i, can_overlap i sz1 0%nat) (seq 1 (sz1 - 1))) &&
  negb (existsb (λ j, can_overlap 0%nat sz1 j) (seq 0 (sz2 - sz1))) &&
  negb (existsb (λ j, can_overlap 0%nat (sz2 - j)%nat j) (seq (sz2 - sz1) sz1)).

Definition non_overlap_string (s1 s2 : zstring) : bool :=
  let '(s1, s2) := if (length s2 <? length s1)%nat then (s2, s1) else (s1, s2) in
  non_overlap_loops (can_overlap_string s1 s2) (length s1) (length s2).

(** The lambda [can_overlap] of [non_overlap] on vectors of units. *)
Fixpoint can_overlap_walk (p1 p2 : list expr) (start2 : nat) (positions : list nat) : bool :=
  match positions with
  | [] => true
  | i :: positions' =>
      match p1 !! i, p2 !! (start2 + i)%nat with
      | Some x, Some y =>
          if are_distinct x y then false
          else if negb (are_equal x y) then true
          else can_overlap_walk p1 p2 start2 positions'
      | _, _ => true
      end
  end.

Definition can_overlap_exprs (p1 p2 : list expr) (start1 end1 start2 : nat) : bool :=
  can_overlap_walk p1 p2 start2 (seq start1 (end1 - start1)).

Definition non_overlap (p1 p2 : list expr) : bool :=
  let '(p1, p2) := if (length p2 <? length p1)%nat then (p2, p1) else (p1, p2) in
  let sz1 := length p1 in
  let sz2 := length p2 in
  if (sz1 =? 0)%nat || (sz2 =? 0)%nat then false
  else
    match
      (if (sz1 =? 1)%nat && (sz2 =? 1)%nat then
         match p1, p2 with
         | [e1], [e2] =>
             match is_string e1, is_string e2 with
             | Some s1, Some s2 => Some (s1, s2)
             | _, _ => None
             end
         | _, _ => None
         end
       else None)
    with
    | Some (s1, s2) => non_overlap_string s1 s2
    | None =>
        if negb (forallb is_unit_b p1) then false
        else if negb (forallb is_unit_b p2) then false
        else non_overlap_loops (can_overlap_exprs p1 p2) sz1 sz2
    end.

(** The loop of [reduce_non_overlap] over [ls], with the run of units
    collected so far; [false] when a run cannot overlap [rs]. *)
Fixpoint non_overlap_scan (ls pattern rs : list expr) : bool :=
  match ls with
  | [] => negb (negb (bool_decide (pattern = [])) && non_overlap pattern rs)
  | x :: ls' =>
      if is_unit_b x then non_overlap_scan ls' (pattern ++ [x]) rs
      else if negb (bool_decide (pattern = [])) then
        if non_overlap pattern rs then false
        else non_overlap_scan ls' [] rs
      else non_overlap_scan ls' pattern rs
  end.

Definition reduce_non_overlap (ls rs : list expr) (eqs : list (expr * expr)) : bool :=
  if negb (forallb is_unit_b rs) then true
  else non_overlap_scan ls [] rs.

(** A pass that only answers, as a step of the chain. *)
Definition check_pass (ok : bool) (ls rs : list expr) (eqs : list (expr * expr))
    : option reduce_outcome :=
  if ok then Some (Reduced ls rs eqs) else Some Unsat.

(** [reduce_eq(ls, rs, eqs, change)]: the passes in the order of the
    conjunction, and the flag [change] of what is left. *)
Definition reduce_eq_passes (ls rs : list expr) (eqs : list (expr * expr))
    : option reduce_outcome :=
  let ls := remove_empty_and_concats ls in
  let rs := remove_empty_and_concats rs in
  and_then (reduce_back ls rs eqs) (λ ls rs eqs,
  and_then (reduce_front ls rs eqs) (λ ls rs eqs,
  and_then (Some (reduce_itos ls rs eqs)) (λ ls rs eqs,
  and_then (Some (flip_sides (reduce_itos rs ls eqs))) (λ ls rs eqs,
  and_then (check_pass (reduce_value_clash ls rs eqs) ls rs eqs) (λ ls rs eqs,
  and_then (Some (reduce_by_length ls rs eqs)) (λ ls rs eqs,
  and_then (Some (reduce_subsequence ls rs eqs)) (λ ls rs eqs,
  and_then (check_pass (reduce_non_overlap ls rs eqs) ls rs eqs) (λ ls rs eqs,
  check_pass (reduce_non_overlap rs ls eqs) ls rs eqs)))))))).

Definition reduce_eq (ls rs : list expr) (eqs : list (expr * expr))
    : option (reduce_outcome * bool) :=
  let hash_l := exprs_hash ls in
  let hash_r := exprs_hash rs in
  let sz_eqs := length eqs in
  match reduce_eq_passes ls rs eqs with
  | Some (Reduced ls' rs' eqs') =>
      let change :=
        negb (hash_l =? exprs_hash ls') || negb (hash_r =? exprs_hash rs') ||
        negb (length eqs' =? sz_eqs)%nat in
      Some (Reduced ls' rs' eqs', change)
  | Some Unsat => Some (Unsat, false)
  | None => None
  end.

End EquationReducerLengths.

(** ** What the reducer is checked against *)

(** An element of a flattened side: not a concatenation, not the empty
    sequence, and, if a unit, the unit of a character. *)
Definition wf_elem (e : expr) : Prop :=
  is_concat_b e = false ∧ str.is_empty e = false ∧
  (is_unit_b e = true → ∃ a, is_unit e = Some a ∧ get_sort a = CharSort).

(** The sides as given to [reduce_eq]: flattened, empty elements allowed. *)
Definition flat_elem (e : expr) : Prop :=
  is_concat_b e = false ∧
  (is_unit_b e = true → ∃ a, is_unit e = Some a ∧ get_sort a = CharSort).

(** What a pass owes: when it reports no solution, the two sides differ
    under the assignment (for sequences shorter than [2^32], the range of
    the length analyzer); otherwise what it leaves is well-formed, and equal
    and no longer whenever the sides it was given are equal. *)
Definition pass_ok (ρ : env) (ls rs : list expr) (o : reduce_outcome) : Prop :=
  match o with
  | Unsat =>
      ¬ (seqs_val ρ ls = seqs_val ρ rs ∧ Z.of_nat (length (seqs_val ρ ls)) < 2 ^ 32)
  | Reduced ls' rs' _ =>
      Forall wf_elem ls' ∧ Forall wf_elem rs' ∧
      (seqs_val ρ ls = seqs_val ρ rs →
       seqs_val ρ ls' = seqs_val ρ rs' ∧
       (length (seqs_val ρ ls') ≤ length (seqs_val ρ ls))%nat)
  end.

(** Occurrences of a character in a word. *)
Definition occurrences (c : Z) (w : list Z) : nat := length (List.filter (Z.eqb c) w).

(** The length the elements at the positions of [rpos] have, counted from
    position [j]. *)
Fixpoint taken_length (ρ : env) (rs : list expr) (j : nat) (rpos : gset nat) : nat :=
  match rs with
  | [] => 0
  | y :: rs' =>
      ((if bool_decide (j ∈ rpos) then length (seq_val ρ y) else 0) +
       taken_length ρ rs' (S j) rpos)%nat
  end.

(** ** What the trail of the operation cache is for *)

Section OpCachePins.
Context {ptr : Type} `{Countable ptr}.

(** The terms an entry of the table refers to: the non-null ones among its
    three arguments and its result. *)
Definition entry_terms (k : Z * option ptr * option ptr * option ptr) (r : option ptr)
    : list ptr :=
  let '(_, a, b, c) := k in
  option_list a ++ option_list b ++ option_list c ++ option_list r.

(** Every term the table refers to is held by the trail. *)
Definition op_cache_pinned (cache : op_cache (ptr := ptr)) : Prop :=
  ∀ k r p, m_table cache !! k = Some r → p ∈ entry_terms k r → p ∈ m_trail cache.

End OpCachePins.

(** ** The order [str.<] stands for

    The strict lexicographic order on strings, by structural recursion: the
    reference [mk_str_lt] is compared with. *)
Fixpoint lex_ltb (s t : zstring) : bool :=
  match s, t with
  | _, [] => false
  | [], _ :: _ => true
  | a :: s', b :: t' =>
      if a <? b then true else if b <? a then false else lex_ltb s' t'
  end.

(** ** What the reducer preserves

    [mk_eq_core] turns every pair the reducer emits into an equality atom;
    a pair holds under an assignment when that atom is true. *)
Definition eq_holds (ρ : env) (p : expr * expr) : Prop :=
  bool_val ρ (mk_eq p.1 p.2) = true.

(** An element of a side of a well-sorted equation between sequences: a
    flattened, non-empty element of sequence sort; the argument of a
    [str.from_int] is an integer. *)
Definition seq_elem (e : expr) : Prop :=
  wf_elem e ∧ get_sort e = SeqSort ∧ (∀ n, is_itos e = Some n → get_sort n = IntSort).

(** Both sides shorter than [2^32], the range of the length analyzer. *)
Definition short_sides (ρ : env) (ls rs : list expr) : Prop :=
  Z.of_nat (length (seqs_val ρ ls)) < 2 ^ 32 ∧ Z.of_nat (length (seqs_val ρ rs)) < 2 ^ 32.

(** A pass preserves the solutions: when it reports none there is none;
    otherwise the equations it adds to [eqs], with the equation of the sides
    it leaves, hold exactly when the sides it was given are equal. *)
Definition pass_equiv (ρ : env) (ls rs : list expr) (eqs : list (expr * expr))
    (o : reduce_outcome) : Prop :=
  match o with
  | Unsat => seqs_val ρ ls ≠ seqs_val ρ rs
  | Reduced ls' rs' eqs' =>
      Forall seq_elem ls' ∧ Forall seq_elem rs' ∧ short_sides ρ ls' rs' ∧
      ∃ new, eqs' = eqs ++ new ∧
        (seqs_val ρ ls = seqs_val ρ rs ↔
         seqs_val ρ ls' = seqs_val ρ rs' ∧ Forall (eq_holds ρ) new)
  end.

(** The pairs [set_empty] adds for a vector it accepts: one pair
    [(empty, e)] for every element that is neither of positive minimal length
    nor known to be empty. *)
Definition set_empty_added (es : list expr) : list (expr * expr) :=
  flat_map (λ e, let '(bounded, len) := min_length e in
                 if (len >? 0) || (bounded && (len =? 0)) then [] else [(mk_empty, e)]) es.

(** The elements [set_empty] passes over without a pair. *)
Definition settled (e : expr) : bool :=
  ((min_length e).2 >? 0) || ((min_length e).1 && ((min_length e).2 =? 0)).

(** The elements [concat_non_empty] keeps. *)
Definition kept_non_empty (e : expr) : bool :=
  is_unit_b e || is_string_b e || is_app_of e OP_ITE.

(** A side as given to [reduce_eq] in a well-sorted equation: flattened,
    empty elements allowed, every element of sequence sort. *)
Definition flat_seq_elem (e : expr) : Prop :=
  flat_elem e ∧ get_sort e = SeqSort ∧ (∀ n, is_itos e = Some n → get_sort n = IntSort).

(** ** Character ranges

    [elim_condition] keeps the characters a path condition allows as a
    vector of closed ranges, sorted by their lower bounds. *)
Definition in_ranges (c : Z) (ranges : list (Z * Z)) : Prop :=
  Exists (λ p, p.1 ≤ c ≤ p.2) ranges.

Fixpoint ranges_sorted (ranges : list (Z * Z)) : Prop :=
  match ranges with
  | [] => True
  | p :: rest => Forall (λ q : Z * Z, p.1 ≤ q.1) rest ∧ ranges_sorted rest
  end.

(** ** Arities of the regex declarations

    The terms the rewriter is given are built by the host and respect the
    arities of the declarations: a character range has two arguments and a
    predicate regex one, at every position of the term. *)

Fixpoint re_arity_ok (r : expr) : bool :=
  match r with
  | app d args =>
      match d, args with
      | OP_RE_RANGE, [_; _] => forallb re_arity_ok args
      | OP_RE_RANGE, _ => false
      | OP_RE_OF_PRED, [_] => forallb re_arity_ok args
      | OP_RE_OF_PRED, _ => false
      | _, _ => forallb re_arity_ok args
      end
  | var _ _ => true
  end.

(** What a merge of regex sets computes on the languages of its operands:
    their union when [disj] is set, their intersection otherwise. *)
Definition lang_join (disj : bool) (P Q : Prop) : Prop :=
  if disj then P ∨ Q else P ∧ Q.

(** ** The terms [is_nullable] decides by itself

    Regexes built with the constructors [is_nullable_rec] recurses through,
    over sequence terms, with the arities and the sorts of the
    declarations and with loops whose bounds are in order; no symbolic
    regex (a variable, a derivative, a power), for which the procedure
    returns a membership constraint instead of deciding. *)

Fixpoint nullable_decided (r : expr) : bool :=
  match r with
  | app d args =>
      match d, args with
      | OP_RE_CONCAT, [r1; r2] | OP_RE_INTERSECT, [r1; r2] | OP_RE_UNION, [r1; r2]
      | _OP_RE_ANTIMIROV_UNION, [r1; r2] | OP_RE_DIFF, [r1; r2] =>
          bool_decide (get_sort r1 = ReSort) && bool_decide (get_sort r2 = ReSort) &&
          nullable_decided r1 && nullable_decided r2
      | OP_RE_STAR, [_] | OP_RE_OPTION, [_] | OP_RE_FULL_SEQ_SET, _
      | OP_RE_FULL_CHAR_SET, _ | OP_RE_EMPTY_SET, _ | OP_RE_OF_PRED, [_]
      | OP_RE_RANGE, [_; _] => true
      | OP_RE_LOOP [lo], [r1] =>
          (wrap32 lo =? 0) || (bool_decide (get_sort r1 = ReSort) && nullable_decided r1)
      | OP_RE_LOOP [lo; hi], [r1] =>
          (wrap32 lo =? 0) ||
          ((wrap32 lo <=? wrap32 hi) && bool_decide (get_sort r1 = ReSort) &&
           nullable_decided r1)
      | OP_RE_PLUS, [r1] | OP_RE_REVERSE, [r1] | OP_RE_COMPLEMENT, [r1] =>
          bool_decide (get_sort r1 = ReSort) && nullable_decided r1
      | OP_SEQ_TO_RE, [s] => bool_decide (get_sort s = SeqSort) && nullable_decided s
      | OP_ITE, [c; r1; r2] =>
          bool_decide (get_sort r1 = get_sort r2) &&
          (bool_decide (get_sort r1 = ReSort) || bool_decide (get_sort r1 = SeqSort)) &&
          nullable_decided r1 && nullable_decided r2
      | OP_SEQ_CONCAT, [s1; s2] =>
          bool_decide (get_sort s1 = SeqSort) && bool_decide (get_sort s2 = SeqSort) &&
          nullable_decided s1 && nullable_decided s2
      | _, _ => bool_decide (get_sort r = SeqSort)
      end
  | var _ s => bool_decide (s = SeqSort)
  end.

(** * Part II: properties of the rewriter *)

(** ** Length analyzer: the values it computes and their soundness *)

Section LengthFacts.

Definition visit_step (result r : bool * Z) : bool * Z :=
  (result.1 && r.1, wrap32 (result.2 + r.2)).

Lemma visit_val_app (d : decl_kind) (args : list expr) :
  visit_val (app d args) =
    if is_unit_b (app d args) then (true, 1)
    else if is_empty (app d args) then (true, 0)
    else
      match is_string (app d args) with
      | Some s => (true, zlength s)
      | None =>
          if bool_decide (d = OP_SEQ_CONCAT) then
            fold_left visit_step (map visit_val args) (true, 0)
          else if bool_decide (d = OP_ITE) then
            match args with
            | [c; th; el] =>
                ((visit_val th).1 && (visit_val el).1 && ((visit_val th).2 =? (visit_val el).2),
                  Z.min (visit_val th).2 (visit_val el).2)
            | _ => (false, 0)
            end
          else (false, 0)
      end.
Proof.
  cbn [visit_val].
  destruct (is_unit_b (app d args)); [reflexivity|].
  destruct (is_empty (app d args)); [reflexivity|].
  destruct (is_string (app d args)); [reflexivity|].
  destruct (bool_decide (d = OP_SEQ_CONCAT)); [|reflexivity].
  generalize (true, 0). induction args as [|a args IH]; intros acc; [reflexivity|].
  cbn [map fold_left]. rewrite <- IH. reflexivity.
Qed.

Lemma wrap32_range (n : Z) : 0 ≤ wrap32 n < 2 ^ 32.
Proof. unfold wrap32. apply Z.mod_pos_bound. lia. Qed.

Lemma wrap32_le (n : Z) : 0 ≤ n → wrap32 n ≤ n.
Proof. intros Hn. unfold wrap32. apply Z.mod_le; lia. Qed.

Lemma wrap32_small (n : Z) : 0 ≤ n < 2 ^ 32 → wrap32 n = n.
Proof. intros Hn. unfold wrap32. apply Z.mod_small. exact Hn. Qed.

Lemma wrap32_add_l (a b : Z) : wrap32 (wrap32 a + b) = wrap32 (a + b).
Proof. unfold wrap32. apply Zplus_mod_idemp_l. Qed.

Lemma wrap32_add_r (a b : Z) : wrap32 (a + wrap32 b) = wrap32 (a + b).
Proof. unfold wrap32. apply Zplus_mod_idemp_r. Qed.

Lemma zlength_nonneg (s : zstring) : 0 ≤ zlength s.
Proof. unfold zlength. lia. Qed.

(** The sum the concatenation case folds, before wrapping. *)
Definition visit_sum (es : list expr) : Z :=
  foldr (λ e n, (visit_val e).2 + n) 0 es.

Definition visit_all_bounded (es : list expr) : bool :=
  forallb (λ e, (visit_val e).1) es.

Lemma fold_visit_step (es : list expr) (acc : bool * Z) :
  fold_left visit_step (map visit_val es) acc =
    (acc.1 && visit_all_bounded es,
     if es is [] then acc.2 else wrap32 (acc.2 + visit_sum es)).
Proof.
  revert acc. induction es as [|e es IH]; intros [b l]; cbn [map fold_left].
  - simpl. rewrite andb_true_r. reflexivity.
  - rewrite IH. unfold visit_step. cbn [fst snd visit_all_bounded forallb visit_sum foldr].
    f_equal; [symmetry; apply andb_assoc|].
    destruct es as [|e' es]; [simpl; f_equal; lia|].
    rewrite wrap32_add_l. f_equal. fold (visit_sum (e' :: es)). lia.
Qed.

Lemma visit_val_nonneg (e : expr) : 0 ≤ (visit_val e).2.
Proof.
  induction e as [d args IH | i s] using expr_nested_ind; [|simpl; lia].
  rewrite visit_val_app.
  destruct (is_unit_b _); [simpl; lia|].
  destruct (is_empty _); [simpl; lia|].
  destruct (is_string _); [simpl; apply zlength_nonneg|].
  destruct (bool_decide (d = OP_SEQ_CONCAT)).
  { rewrite fold_visit_step. simpl. destruct args; [lia|apply wrap32_range]. }
  destruct (bool_decide (d = OP_ITE)); [|simpl; lia].
  destruct args as [|c [|th [|el [|? ?]]]]; try (simpl; lia).
  cbn [snd]. inversion IH as [|? ? _ IH1]; subst. inversion IH1 as [|? ? Hth IH2]; subst.
  inversion IH2 as [|? ? Hel _]; subst. lia.
Qed.

Lemma visit_sum_nonneg (es : list expr) : 0 ≤ visit_sum es.
Proof.
  induction es as [|e es IH]; simpl; [lia|]. pose proof (visit_val_nonneg e). lia.
Qed.

Lemma visit_sum_app (xs ys : list expr) :
  visit_sum (xs ++ ys) = visit_sum xs + visit_sum ys.
Proof. induction xs as [|x xs IH]; simpl; lia. Qed.

Lemma visit_sum_rev (xs : list expr) : visit_sum (rev xs) = visit_sum xs.
Proof.
  induction xs as [|x xs IH]; [reflexivity|].
  simpl rev. rewrite visit_sum_app. simpl. lia.
Qed.

Lemma visit_all_bounded_app (xs ys : list expr) :
  visit_all_bounded (xs ++ ys) = visit_all_bounded xs && visit_all_bounded ys.
Proof. apply forallb_app. Qed.

Lemma visit_all_bounded_rev (xs : list expr) :
  visit_all_bounded (rev xs) = visit_all_bounded xs.
Proof.
  induction xs as [|x xs IH]; [reflexivity|].
  simpl rev. rewrite visit_all_bounded_app, IH. simpl.
  rewrite andb_true_r. apply andb_comm.
Qed.

Lemma exprs_size_app (xs ys : list expr) :
  exprs_size (xs ++ ys) = (exprs_size xs + exprs_size ys)%nat.
Proof. induction xs as [|x xs IH]; simpl; lia. Qed.

Lemma exprs_size_rev (xs : list expr) : exprs_size (rev xs) = exprs_size xs.
Proof.
  induction xs as [|x xs IH]; [reflexivity|].
  simpl rev. rewrite exprs_size_app. simpl. lia.
Qed.

Lemma expr_size_app (d : decl_kind) (args : list expr) :
  expr_size (app d args) = S (exprs_size args).
Proof.
  reflexivity.
Qed.

Lemma exprs_size_cons (e : expr) (es : list expr) :
  exprs_size (e :: es) = (expr_size e + exprs_size es)%nat.
Proof. reflexivity. Qed.

Lemma expr_size_pos (e : expr) : (1 ≤ expr_size e)%nat.
Proof. destruct e; [rewrite expr_size_app|simpl]; lia. Qed.

(** With one unit of fuel per node the main loop runs to completion, and
    it returns the conjunction of the flags and the wrapped sum of the
    values [visit] would cache for the stacked terms. *)
Lemma min_length_loop_spec (fuel : nat) (es : list expr) (bounded : bool) (len : Z) :
  (exprs_size es ≤ fuel)%nat →
  0 ≤ len < 2 ^ 32 →
  min_length_loop fuel es bounded len =
    (bounded && visit_all_bounded es, wrap32 (len + visit_sum es)).
Proof.
  revert es bounded len. induction fuel as [|fuel IH]; intros es bounded len Hf Hl.
  - destruct es as [|e es]; [|pose proof (expr_size_pos e); rewrite exprs_size_cons in Hf; lia].
    simpl. rewrite andb_true_r, Z.add_0_r, wrap32_small by exact Hl. reflexivity.
  - destruct es as [|e es].
    { simpl. rewrite andb_true_r, Z.add_0_r, wrap32_small by exact Hl. reflexivity. }
    cbn [min_length_loop visit_all_bounded forallb visit_sum foldr].
    fold (visit_all_bounded es). fold (visit_sum es).
    destruct e as [d args | i s].
    2:{ cbn. rewrite IH; [|rewrite exprs_size_cons in Hf; simpl in Hf; lia|exact Hl].
        rewrite andb_false_r. simpl. reflexivity. }
    rewrite visit_val_app.
    assert (Hes : (exprs_size es ≤ fuel)%nat).
    { rewrite exprs_size_cons in Hf. pose proof (expr_size_pos (app d args)). lia. }
    destruct (is_unit_b (app d args)) eqn:Hu.
    { rewrite IH; [|exact Hes|apply wrap32_range].
      cbn [fst snd]. rewrite wrap32_add_l. f_equal. f_equal. lia. }
    destruct (is_empty (app d args)) eqn:He.
    { rewrite IH; [|exact Hes|exact Hl]. reflexivity. }
    destruct (is_string (app d args)) as [s|] eqn:Hs.
    { rewrite IH; [|exact Hes|apply wrap32_range].
      cbn [fst snd]. rewrite wrap32_add_l. f_equal. f_equal. lia. }
    unfold is_concat_b, is_app_of.
    destruct (bool_decide (d = OP_SEQ_CONCAT)) eqn:Hc.
    { rewrite rev_append_rev. cbn [get_args].
      rewrite IH; [| |exact Hl].
      2:{ rewrite exprs_size_app, exprs_size_rev.
          rewrite exprs_size_cons, expr_size_app in Hf. lia. }
      rewrite fold_visit_step, visit_all_bounded_app, visit_all_bounded_rev,
        visit_sum_app, visit_sum_rev.
      cbn [fst snd].
      apply pair_equal_spec; split;
        [destruct bounded, (visit_all_bounded args), (visit_all_bounded es); reflexivity|].
      destruct args as [|a args]; [simpl; f_equal; lia|].
      rewrite Z.add_0_l.
      replace (len + (wrap32 (visit_sum (a :: args)) + visit_sum es))
        with (wrap32 (visit_sum (a :: args)) + (len + visit_sum es)) by lia.
      rewrite wrap32_add_l. f_equal. lia. }
    apply bool_decide_eq_false in Hc.
    destruct (bool_decide (d = OP_ITE)) eqn:Hi.
    + apply bool_decide_eq_true in Hi. subst d.
      destruct args as [|c [|th [|el [|? ?]]]];
        try (cbn; rewrite IH by (first [exact Hes | exact Hl]);
             rewrite andb_false_r; reflexivity).
      cbn [is_ite is_app_of3]. rewrite bool_decide_true by reflexivity.
      destruct (visit_val th) as [b1 l1] eqn:E1. destruct (visit_val el) as [b2 l2] eqn:E2.
      rewrite IH; [|exact Hes|apply wrap32_range].
      cbn [fst snd]. rewrite wrap32_add_l. f_equal; [|f_equal; lia].
      destruct b1, b2, (l1 =? l2), bounded; reflexivity.
    + apply bool_decide_eq_false in Hi.
      assert (Hn : is_ite (app d args) = None).
      { unfold is_ite, is_app_of3. destruct args as [|? [|? [|? [|? ?]]]]; try reflexivity.
        rewrite bool_decide_false by exact Hi. reflexivity. }
      rewrite Hn. rewrite IH; [|exact Hes|exact Hl].
      cbn [fst snd andb]. rewrite andb_false_r, Z.add_0_l. reflexivity.
Qed.

Lemma min_length_vec_spec (ss : list expr) :
  min_length_vec ss = (visit_all_bounded ss, wrap32 (visit_sum ss)).
Proof.
  unfold min_length_vec. rewrite min_length_loop_spec.
  - rewrite visit_all_bounded_rev, visit_sum_rev. reflexivity.
  - rewrite exprs_size_rev. lia.
  - lia.
Qed.

Lemma min_length_spec (e : expr) :
  min_length e = ((visit_val e).1, wrap32 (visit_val e).2).
Proof.
  unfold min_length. rewrite min_length_vec_spec. simpl.
  rewrite andb_true_r, Z.add_0_r. reflexivity.
Qed.

End LengthFacts.

Section LengthSoundness.
Variable ρ : env.

Lemma seq_val_concat_n (args : list expr) :
  seq_val ρ (app OP_SEQ_CONCAT args) = seqs_val ρ args.
Proof.
  cbn [seq_val]. unfold seqs_val.
  induction args as [|a args IH]; [reflexivity|].
  cbn [map concat]. rewrite <- IH. reflexivity.
Qed.

Lemma seqs_val_cons (e : expr) (es : list expr) :
  seqs_val ρ (e :: es) = seq_val ρ e ++ seqs_val ρ es.
Proof. reflexivity. Qed.

Lemma seqs_val_app (xs ys : list expr) :
  seqs_val ρ (xs ++ ys) = seqs_val ρ xs ++ seqs_val ρ ys.
Proof. unfold seqs_val. rewrite map_app, concat_app. reflexivity. Qed.

Lemma seqs_val_length_rev (xs : list expr) :
  length (seqs_val ρ (rev xs)) = length (seqs_val ρ xs).
Proof.
  induction xs as [|x xs IH]; [reflexivity|].
  simpl rev. rewrite seqs_val_app, !seqs_val_cons, !length_app, IH.
  change (seqs_val ρ []) with (@nil Z). simpl length. lia.
Qed.

Lemma is_unit_b_val (e : expr) :
  is_unit_b e = true → length (seq_val ρ e) = 1%nat.
Proof.
  destruct e as [d args|]; [|discriminate]. unfold is_unit_b, is_app_of.
  intros Hd. apply bool_decide_eq_true in Hd. subst d. reflexivity.
Qed.

Lemma is_empty_val (e : expr) : is_empty e = true → seq_val ρ e = [].
Proof.
  destruct e as [d args|]; [|discriminate]. unfold is_empty, is_app_of, is_string.
  destruct d; simpl; try discriminate; [reflexivity|].
  intros Hs. apply bool_decide_eq_true in Hs. exact Hs.
Qed.

Lemma is_string_val (e : expr) (s : zstring) :
  is_string e = Some s → seq_val ρ e = s.
Proof.
  destruct e as [d args|]; [|discriminate]. unfold is_string.
  destruct d; try discriminate. intros [= ->]. reflexivity.
Qed.

Lemma is_numeral_val (e : expr) (n : Z) : is_numeral e = Some n → int_val ρ e = n.
Proof.
  destruct e as [d args|]; [|discriminate]. unfold is_numeral.
  destruct d; try discriminate. intros [= ->]. reflexivity.
Qed.

Lemma sem_extract_length (s : list Z) (i n : Z) :
  Z.of_nat (length (sem_extract s i n)) ≤ Z.max n 0.
Proof.
  unfold sem_extract. destruct (_ && _) eqn:E; [|simpl; lia].
  rewrite length_take. lia.
Qed.

Lemma is_at_b_val (e : expr) :
  is_at_b e = true → Z.of_nat (length (seq_val ρ e)) ≤ 1.
Proof.
  destruct e as [d args|]; [|discriminate]. unfold is_at_b, is_app_of.
  intros Hd. apply bool_decide_eq_true in Hd. subst d. cbn [seq_val].
  destruct args as [|s [|i [|? ?]]]; try (simpl; lia).
  unfold sem_at. pose proof (sem_extract_length (seq_val ρ s) (int_val ρ i) 1). lia.
Qed.

Lemma is_app_of3_inv (e : expr) (k : decl_kind) (a b c : expr) :
  is_app_of3 e k = Some (a, b, c) → e = app k [a; b; c].
Proof.
  destruct e as [d [|x [|y [|z [|? ?]]]]|]; try discriminate. unfold is_app_of3.
  destruct (bool_decide (d = k)) eqn:Hd; [|discriminate].
  apply bool_decide_eq_true in Hd. intros [= -> -> ->]. subst. reflexivity.
Qed.

Lemma is_app_of2_inv (e : expr) (k : decl_kind) (a b : expr) :
  is_app_of2 e k = Some (a, b) → e = app k [a; b].
Proof.
  destruct e as [d [|x [|y [|? ?]]]|]; try discriminate. unfold is_app_of2.
  destruct (bool_decide (d = k)) eqn:Hd; [|discriminate].
  apply bool_decide_eq_true in Hd. intros [= -> ->]. subst. reflexivity.
Qed.

Lemma is_app_of1_inv (e : expr) (k : decl_kind) (a : expr) :
  is_app_of1 e k = Some a → e = app k [a].
Proof.
  destruct e as [d [|x [|? ?]]|]; try discriminate. unfold is_app_of1.
  destruct (bool_decide (d = k)) eqn:Hd; [|discriminate].
  apply bool_decide_eq_true in Hd. intros [= ->]. subst. reflexivity.
Qed.

Lemma is_app_of_inv (e : expr) (k : decl_kind) :
  is_app_of e k = true → ∃ args, e = app k args.
Proof.
  destruct e as [d args|]; [|discriminate]. unfold is_app_of.
  intros Hd. apply bool_decide_eq_true in Hd. subst. eauto.
Qed.

(** The value [visit] caches for a term is a lower bound of the length of
    its denotation, wrap-around included. *)
Lemma visit_val_sound (e : expr) :
  (visit_val e).2 ≤ Z.of_nat (length (seq_val ρ e)).
Proof.
  induction e as [d args IH | i s] using expr_nested_ind; [|simpl; lia].
  rewrite visit_val_app.
  destruct (is_unit_b (app d args)) eqn:Hu.
  { rewrite (is_unit_b_val _ Hu). simpl. lia. }
  destruct (is_empty (app d args)) eqn:He; [simpl; lia|].
  destruct (is_string (app d args)) as [s|] eqn:Hs.
  { rewrite (is_string_val _ _ Hs). unfold zlength. simpl. lia. }
  destruct (bool_decide (d = OP_SEQ_CONCAT)) eqn:Hc.
  { apply bool_decide_eq_true in Hc. subst d.
    rewrite fold_visit_step, seq_val_concat_n. cbn [fst snd].
    assert (Hsum : visit_sum args ≤ Z.of_nat (length (seqs_val ρ args))).
    { clear Hu He Hs. induction IH as [|a args Ha _ IHargs]; [simpl; lia|].
      rewrite seqs_val_cons, length_app. cbn [visit_sum foldr].
      fold (visit_sum args). lia. }
    destruct args as [|a args]; [simpl; lia|].
    rewrite Z.add_0_l. pose proof (wrap32_le _ (visit_sum_nonneg (a :: args))). lia. }
  destruct (bool_decide (d = OP_ITE)) eqn:Hi; [|simpl; lia].
  apply bool_decide_eq_true in Hi. subst d.
  destruct args as [|c [|th [|el [|? ?]]]]; try (simpl; lia).
  inversion IH as [|? ? _ IH1]; subst. inversion IH1 as [|? ? Hth IH2]; subst.
  inversion IH2 as [|? ? Hel _]; subst.
  cbn [snd seq_val]. destruct (bool_val ρ c); lia.
Qed.

Lemma visit_sum_sound (es : list expr) :
  visit_sum es ≤ Z.of_nat (length (seqs_val ρ es)).
Proof.
  induction es as [|e es IH]; [simpl; lia|].
  rewrite seqs_val_cons, length_app. cbn [visit_sum foldr]. fold (visit_sum es).
  pose proof (visit_val_sound e). lia.
Qed.

Lemma min_length_vec_sound (es : list expr) :
  (min_length_vec es).2 ≤ Z.of_nat (length (seqs_val ρ es)).
Proof.
  rewrite min_length_vec_spec. cbn [snd].
  pose proof (wrap32_le _ (visit_sum_nonneg es)). pose proof (visit_sum_sound es). lia.
Qed.

Lemma min_length_sound (e : expr) :
  (min_length e).2 ≤ Z.of_nat (length (seq_val ρ e)).
Proof.
  pose proof (min_length_vec_sound [e]) as Hm. unfold seqs_val in Hm. simpl in Hm.
  rewrite app_nil_r in Hm. exact Hm.
Qed.

Lemma max_length_loop_sound (fuel : nat) (es : list expr) (len r : Z) :
  max_length_loop fuel es len = (true, r) →
  len + Z.of_nat (length (seqs_val ρ es)) ≤ r.
Proof.
  revert es len. induction fuel as [|fuel IH]; intros es len; [discriminate|].
  destruct es as [|e es]; cbn [max_length_loop].
  { intros [= <-]. simpl. lia. }
  rewrite seqs_val_cons, length_app.
  destruct (is_unit_b e) eqn:Hu.
  { intros Hr. apply IH in Hr. rewrite (is_unit_b_val _ Hu). lia. }
  destruct (is_at_b e) eqn:Ha.
  { intros Hr. apply IH in Hr. pose proof (is_at_b_val _ Ha). lia. }
  destruct (is_string e) as [s|] eqn:Hs.
  { intros Hr. apply IH in Hr. rewrite (is_string_val _ _ Hs). unfold zlength in Hr. lia. }
  destruct (is_extract e) as [[[s1 i] l]|] eqn:Hx.
  - apply is_app_of3_inv in Hx.
    destruct (is_numeral l) as [n|] eqn:Hn.
    + destruct (n <? 0) eqn:Hneg.
      * subst e. cbn. intros [=].
      * intros Hr. apply IH in Hr. subst e. cbn [seq_val].
        rewrite (is_numeral_val _ _ Hn).
        pose proof (sem_extract_length (seq_val ρ s1) (int_val ρ i) n). lia.
    + subst e. cbn. intros [=].
  - destruct (is_empty e) eqn:He.
    { intros Hr. apply IH in Hr. rewrite (is_empty_val _ He). simpl. lia. }
    destruct (is_concat_b e) eqn:Hc; [|intros [=]].
    apply is_app_of_inv in Hc as [args ->]. cbn [get_args].
    intros Hr. apply IH in Hr. rewrite rev_append_rev, seqs_val_app, length_app in Hr.
    rewrite seqs_val_length_rev in Hr. rewrite seq_val_concat_n. lia.
Qed.

Lemma max_length_sound (e : expr) (r : Z) :
  max_length e = (true, r) → Z.of_nat (length (seq_val ρ e)) ≤ r.
Proof.
  intros Hr. apply max_length_loop_sound in Hr. unfold seqs_val in Hr. simpl in Hr.
  rewrite app_nil_r in Hr. lia.
Qed.

(** C5 (length soundness).  For every term and every assignment, the value
    [min_length] returns is at most the length of the denoted sequence, and
    whenever [max_length] reports a bound, the length is at most that
    bound; an unbounded answer promises nothing. *)
Theorem length_analyzer_soundness (e : expr) :
  (min_length e).2 ≤ Z.of_nat (length (seq_val ρ e)) ∧
  ((max_length e).1 = true → Z.of_nat (length (seq_val ρ e)) ≤ (max_length e).2).
Proof.
  split; [apply min_length_sound|].
  destruct (max_length e) as [b r] eqn:Hm. cbn [fst snd]. intros ->.
  apply max_length_sound. exact Hm.
Qed.

End LengthSoundness.

(** The fuel [max_length] starts with is never exhausted: more fuel does
    not change its answer. *)
Lemma max_length_loop_stable (fuel : nat) (es : list expr) (len : Z) :
  (S (exprs_size es) ≤ fuel)%nat →
  max_length_loop (S fuel) es len = max_length_loop fuel es len.
Proof.
  revert es len. induction fuel as [|fuel IH]; intros es len Hf; [lia|].
  destruct es as [|e es]; [reflexivity|].
  rewrite exprs_size_cons in Hf. pose proof (expr_size_pos e) as Hp.
  assert (Hes : (S (exprs_size es) ≤ fuel)%nat) by lia.
  cbn [max_length_loop].
  destruct (is_unit_b e); [apply IH; exact Hes|].
  destruct (is_at_b e); [apply IH; exact Hes|].
  destruct (is_string e); [apply IH; exact Hes|].
  destruct (match is_extract e with Some _ => _ | None => _ end); [apply IH; exact Hes|].
  destruct (is_empty e); [apply IH; exact Hes|].
  destruct (is_concat_b e) eqn:Hc; [|reflexivity].
  apply is_app_of_inv in Hc as [args ->]. cbn [get_args]. apply IH.
  rewrite rev_append_rev, exprs_size_app, exprs_size_rev. rewrite expr_size_app in Hf. lia.
Qed.

(** ** The reference host meets the assumptions *)

Lemma default_encode_digits (s : zstring) :
  forallb is_digit_code s = true → default_encode s = s.
Proof.
  induction s as [|ch s IH]; [reflexivity|].
  cbn [forallb default_encode]. intros Hd. apply andb_true_iff in Hd as [Hch Hs].
  unfold is_digit_code in Hch. apply andb_true_iff in Hch as [H1 H2].
  replace (ch <? 32) with false by lia. replace (ch >=? 128) with false by lia.
  replace (ch =? 92) with false by lia. cbn [orb andb]. rewrite IH by exact Hs. reflexivity.
Qed.

Lemma default_encode_other (s : zstring) :
  forallb is_digit_code s = false → forallb is_digit_code (default_encode s) = false.
Proof.
  induction s as [|ch s IH]; [discriminate|].
  cbn [forallb default_encode]. intros Hd.
  destruct (_ || _); [reflexivity|].
  cbn [forallb]. destruct (is_digit_code ch); [|reflexivity].
  cbn [andb] in *. apply IH. exact Hd.
Qed.

Lemma default_info_min_length_sound (ρ : env) (r : expr) (w : list Z) :
  lang ρ r w → default_info_min_length r ≤ Z.of_nat (length w).
Proof.
  destruct r as [d args|]; [|simpl; lia].
  destruct d; try (simpl; lia).
  destruct args as [|s [|? ?]]; try (simpl; lia).
    cbn [default_info_min_length lang]. destruct (is_string s) as [w'|] eqn:E; [|lia].
    intros ->. rewrite (is_string_val _ _ _ E). unfold zlength. lia.
Qed.

Lemma default_re_max_length_sound (ρ : env) (r : expr) (w : list Z) :
  lang ρ r w →
  default_re_max_length r = UINT_MAX ∨ Z.of_nat (length w) ≤ default_re_max_length r.
Proof.
  destruct r as [d args|]; [|left; reflexivity].
  destruct d; try (left; reflexivity).
  - destruct args as [|s [|? ?]]; try (left; reflexivity).
    cbn [default_re_max_length lang].
    destruct (is_string s) as [w'|] eqn:E; [|left; reflexivity].
    intros ->. right. rewrite (is_string_val _ _ _ E). unfold zlength. lia.
  - cbn [default_re_max_length lang]. intros ->. right. lia.
Qed.

Lemma is_const_char_val (ρ : env) (a : expr) (c : Z) :
  is_const_char a = Some c → char_val ρ a = c ∧ get_sort a = CharSort.
Proof.
  destruct a as [d args|]; [|discriminate]. unfold is_const_char.
  destruct d; try discriminate. intros [= ->]. split; reflexivity.
Qed.

Lemma is_unit_val (ρ : env) (e a : expr) :
  is_unit e = Some a → seq_val ρ e = [char_val ρ a] ∧ get_sort e = SeqSort.
Proof. intros He. apply is_app_of1_inv in He. subst e. split; reflexivity. Qed.

Lemma default_are_distinct_char (ρ : env) (a b : expr) :
  default_are_distinct a b = true → get_sort a = CharSort → char_val ρ a ≠ char_val ρ b.
Proof.
  unfold default_are_distinct. intros Hd Hs.
  destruct (is_const_char a) as [c1|] eqn:Ha.
  - destruct (is_const_char b) as [c2|] eqn:Hb.
    + destruct (is_const_char_val ρ a c1 Ha) as [-> _].
      destruct (is_const_char_val ρ b c2 Hb) as [-> _].
      apply negb_true_iff in Hd. lia.
    + destruct (is_unit a) as [x|] eqn:Hu; [|discriminate].
      destruct (is_unit_val ρ a x Hu) as [_ Hsort]. congruence.
  - destruct (is_unit a) as [x|] eqn:Hu.
    + destruct (is_unit_val ρ a x Hu) as [_ Hsort]. congruence.
    + destruct (is_const_char b); discriminate.
Qed.

Lemma default_are_distinct_seq (ρ : env) (a b : expr) :
  default_are_distinct a b = true → get_sort a = SeqSort → seq_val ρ a ≠ seq_val ρ b.
Proof.
  unfold default_are_distinct. intros Hd Hs.
  destruct (is_const_char a) as [c1|] eqn:Ha.
  { destruct (is_const_char_val ρ a c1 Ha) as [_ Hsort]. congruence. }
  assert (Hu : match is_unit a ≫= is_const_char, is_unit b ≫= is_const_char with
               | Some c1, Some c2 => negb (c1 =? c2)
               | _, _ => false
               end = true).
  { destruct (is_const_char b); exact Hd. }
  clear Hd. destruct (is_unit a) as [x|] eqn:Hua; [|discriminate].
  destruct (is_unit b) as [y|] eqn:Hub; cbn in Hu.
  2:{ destruct (is_const_char x); discriminate. }
  destruct (is_const_char x) as [c1|] eqn:Hx; [|discriminate].
  destruct (is_const_char y) as [c2|] eqn:Hy; [|discriminate].
  destruct (is_unit_val ρ a x Hua) as [-> _]. destruct (is_unit_val ρ b y Hub) as [-> _].
  destruct (is_const_char_val ρ x c1 Hx) as [-> _].
  destruct (is_const_char_val ρ y c2 Hy) as [-> _].
  apply negb_true_iff in Hu. intros [= ?]. lia.
Qed.

Lemma default_is_value_unit (u a : expr) :
  default_is_value u = true → is_unit u = Some a → ∃ c, a = app (OP_CHAR_CONST c) [].
Proof.
  intros Hv Hu. apply is_app_of1_inv in Hu. subst u. cbn in Hv.
  destruct a as [d args|]; [|discriminate]. destruct d; try discriminate.
  destruct args; [|discriminate]. eauto.
Qed.

Lemma default_is_value_unit_inj (ρ : env) (u v a b : expr) :
  default_is_value u = true → default_is_value v = true →
  is_unit u = Some a → is_unit v = Some b →
  get_sort a = CharSort → get_sort b = CharSort →
  u ≠ v → char_val ρ a ≠ char_val ρ b.
Proof.
  intros Hu Hv Ha Hb _ _ Hne.
  destruct (default_is_value_unit u a Hu Ha) as [c1 ->].
  destruct (default_is_value_unit v b Hv Hb) as [c2 ->].
  apply is_app_of1_inv in Ha, Hb. subst u v. cbn. intros ->. apply Hne. reflexivity.
Qed.

Lemma is_true_val (ρ : env) (a : expr) : is_true a = true → bool_val ρ a = true.
Proof. intros Ha. apply is_app_of_inv in Ha as [args ->]. reflexivity. Qed.

Lemma is_false_val (ρ : env) (a : expr) : is_false a = true → bool_val ρ a = false.
Proof. intros Ha. apply is_app_of_inv in Ha as [args ->]. reflexivity. Qed.

Lemma default_br_mk_and_sound (ρ : env) (a b : expr) :
  bool_val ρ (default_br_mk_and a b) = bool_val ρ a && bool_val ρ b.
Proof.
  unfold default_br_mk_and.
  destruct (is_false a) eqn:Hfa.
  { rewrite (is_false_val ρ a Hfa). reflexivity. }
  destruct (is_false b) eqn:Hfb.
  { rewrite (is_false_val ρ b Hfb), andb_false_r. reflexivity. }
  cbn [orb].
  destruct (is_true a) eqn:Hta.
  { rewrite (is_true_val ρ a Hta). reflexivity. }
  destruct (is_true b) eqn:Htb.
  { rewrite (is_true_val ρ b Htb), andb_true_r. reflexivity. }
  destruct (expr_eqb a b) eqn:E.
  { apply expr_eqb_eq in E. subst b. destruct (bool_val ρ a); reflexivity. }
  cbn. rewrite andb_true_r. reflexivity.
Qed.

Lemma default_br_mk_or_sound (ρ : env) (a b : expr) :
  bool_val ρ (default_br_mk_or a b) = bool_val ρ a || bool_val ρ b.
Proof.
  unfold default_br_mk_or.
  destruct (is_true a) eqn:Hta.
  { rewrite (is_true_val ρ a Hta). reflexivity. }
  destruct (is_true b) eqn:Htb.
  { cbn [orb]. rewrite (is_true_val ρ b Htb), orb_true_r. reflexivity. }
  cbn [orb].
  destruct (is_false a) eqn:Hfa.
  { rewrite (is_false_val ρ a Hfa). reflexivity. }
  destruct (is_false b) eqn:Hfb.
  { rewrite (is_false_val ρ b Hfb), orb_false_r. reflexivity. }
  destruct (expr_eqb a b) eqn:E.
  { apply expr_eqb_eq in E. subst b. destruct (bool_val ρ a); reflexivity. }
  cbn. rewrite orb_false_r. reflexivity.
Qed.

Lemma default_br_mk_not_sound (ρ : env) (a : expr) :
  bool_val ρ (default_br_mk_not a) = negb (bool_val ρ a).
Proof.
  unfold default_br_mk_not.
  destruct (is_true a) eqn:Hta.
  { rewrite (is_true_val ρ a Hta). reflexivity. }
  destruct (is_false a) eqn:Hfa.
  { rewrite (is_false_val ρ a Hfa). reflexivity. }
  destruct (is_not a) as [b|] eqn:Hn; [|reflexivity].
  apply is_app_of1_inv in Hn. subst a. cbn. rewrite negb_involutive. reflexivity.
Qed.

Lemma default_host_sound : HostSound default_host.
Proof.
  constructor.
  - exact default_encode_digits.
  - exact default_encode_other.
  - cbn. lia.
  - exact default_info_min_length_sound.
  - exact default_info_min_length_sound.
  - exact default_re_max_length_sound.
  - exact default_are_distinct_char.
  - exact default_are_distinct_seq.
  - exact default_is_value_unit_inj.
  - exact default_br_mk_and_sound.
  - exact default_br_mk_or_sound.
  - exact default_br_mk_not_sound.
Qed.

(** ** Code conversions and comparison with the empty string *)

Section StringFacts.
Context `{HS : HostSound}.

(** C7 (from_code, numeric out of range).  For an integer numeral [r]
    below zero or above [max_char] the rewrite of [from_code(r)] is the empty
    string literal, with status done (no error); for [r] within the
    alphabet it is the one-character string with code [r]. *)
Theorem mk_str_from_code_numeral (r : Z) :
  (r < 0 ∨ r > max_char → mk_str_from_code (mk_int r) = (BR_DONE, Some (mk_string []))) ∧
  (0 ≤ r ≤ max_char → mk_str_from_code (mk_int r) = (BR_DONE, Some (mk_string [r]))).
Proof.
  unfold mk_str_from_code. cbn [is_numeral mk_int]. split; intros Hr.
  - replace ((r <? 0) || (r >? max_char)) with true; [reflexivity|].
    symmetry. apply orb_true_iff. lia.
  - replace ((r <? 0) || (r >? max_char)) with false; [reflexivity|].
    symmetry. apply orb_false_iff. lia.
Qed.

(** C9 (to_code on string literals).  On a string literal the rewrite is
    total: the code point of the single character when the length is 1, and
    -1 for every other length, the empty string included; an argument that
    is not a string literal is left alone. *)
Theorem mk_str_to_code_total (a : expr) (s : zstring) :
  (length s = 1%nat →
     mk_str_to_code (mk_string s) = (BR_DONE, Some (mk_int (zget s 0)))) ∧
  (length s ≠ 1%nat → mk_str_to_code (mk_string s) = (BR_DONE, Some minus_one)) ∧
  mk_str_to_code (mk_string []) = (BR_DONE, Some minus_one) ∧
  (is_string a = None → mk_str_to_code a = (BR_FAILED, None)).
Proof.
  unfold mk_str_to_code. cbn [is_string mk_string]. split; [|split; [|split]].
  - intros Hl. rewrite bool_decide_true by exact Hl. reflexivity.
  - intros Hl. rewrite bool_decide_false by exact Hl. reflexivity.
  - reflexivity.
  - intros ->. reflexivity.
Qed.

(** C10, as amended.  Comparison against the empty string is decided
    without looking at constants: [mk_str_lt(a, b)] is [false] whenever [b]
    is the empty sequence, and when [a] is empty and [b] is not
    (syntactically) empty it is the negation of the equality [a = b]. *)
Theorem mk_str_lt_empty (a b : expr) :
  (is_empty b = true → mk_str_lt a b = (BR_DONE, Some mk_false)) ∧
  (is_empty a = true → is_empty b = false →
     mk_str_lt a b = (BR_REWRITE1, Some (mk_not (mk_eq a b)))).
Proof.
  unfold mk_str_lt. split.
  - intros ->. reflexivity.
  - intros -> ->. reflexivity.
Qed.

(** C6 (stoi / itos).  [stoi(itos(x))] rewrites to [ite(x >= 0, x, -1)] for
    every term [x]; on constants, [stoi("07")] is 7, and rewriting the
    argument first, [stoi(itos(-3))] is -1 and [itos(stoi("a"))] is the
    empty string. *)
Theorem mk_str_stoi_itos (x : expr) :
  mk_str_stoi (mk_itos x) = (BR_DONE, Some (mk_ite (mk_ge x zero) x minus_one)) ∧
  mk_str_stoi (mk_string [48; 55]) = (BR_DONE, Some (mk_int 7)) ∧
  mk_str_stoi (rewritten (mk_itos (mk_int (-3))) (mk_str_itos (mk_int (-3))))
    = (BR_DONE, Some (mk_int (-1))) ∧
  mk_str_itos (rewritten (mk_stoi (mk_string [97])) (mk_str_stoi (mk_string [97])))
    = (BR_DONE, Some (mk_string [])).
Proof.
  split; [|split; [|split]].
  - reflexivity.
  - unfold mk_str_stoi. cbn [mk_string is_string]. rewrite encode_digits by reflexivity.
    reflexivity.
  - cbn. unfold mk_str_stoi. cbn [mk_string is_string].
    rewrite encode_digits by reflexivity. reflexivity.
  - unfold mk_str_stoi at 1. cbn [mk_string is_string].
    pose proof (encode_other [97] eq_refl) as He.
    destruct (encode [97]) as [|c s] eqn:E; [discriminate He|].
    rewrite bool_decide_false by discriminate. rewrite He. reflexivity.
Qed.

End StringFacts.

Lemma mk_str_from_code_numeral_witness :
  (200000 < 0 ∨ 200000 > @max_char default_host →
     @mk_str_from_code default_host (mk_int 200000) = (BR_DONE, Some (mk_string []))) ∧
  (0 ≤ 97 ≤ @max_char default_host →
     @mk_str_from_code default_host (mk_int 97) = (BR_DONE, Some (mk_string [97]))).
Proof.
  split.
  - apply (@mk_str_from_code_numeral default_host 200000).
  - apply (@mk_str_from_code_numeral default_host 97).
Defined.

Lemma mk_str_to_code_total_witness :
  mk_str_to_code (mk_string [97]) = (BR_DONE, Some (mk_int 97)) ∧
  mk_str_to_code (mk_string [97; 98]) = (BR_DONE, Some minus_one) ∧
  mk_str_to_code (mk_unit (mk_char 97)) = (BR_FAILED, None).
Proof.
  split; [|split].
  - apply (mk_str_to_code_total mk_empty [97]); reflexivity.
  - apply (mk_str_to_code_total mk_empty [97; 98]); simpl; lia.
  - apply (mk_str_to_code_total (mk_unit (mk_char 97)) []); reflexivity.
Defined.

Lemma mk_str_lt_empty_witness :
  mk_str_lt (mk_string [97]) mk_empty = (BR_DONE, Some mk_false) ∧
  mk_str_lt mk_empty (mk_string [97])
    = (BR_REWRITE1, Some (mk_not (mk_eq mk_empty (mk_string [97])))).
Proof.
  split.
  - apply (mk_str_lt_empty (mk_string [97]) mk_empty); reflexivity.
  - apply (mk_str_lt_empty mk_empty (mk_string [97])); reflexivity.
Defined.

(** C10 as stated fails when both arguments are the empty string: the first
    rule wins and the result is [false], not the negated equality. *)
Lemma mk_str_lt_empty_empty :
  mk_str_lt (mk_string []) (mk_string []) = (BR_DONE, Some mk_false) ∧
  mk_str_lt (mk_string []) (mk_string [])
    ≠ (BR_REWRITE1, Some (mk_not (mk_eq (mk_string []) (mk_string [])))).
Proof. split; [reflexivity|discriminate]. Qed.

Lemma mk_str_stoi_itos_witness :
  @mk_str_stoi default_host (mk_itos (mk_int 5))
    = (BR_DONE, Some (mk_ite (mk_ge (mk_int 5) zero) (mk_int 5) minus_one)) ∧
  @mk_str_stoi default_host (mk_string [48; 55]) = (BR_DONE, Some (mk_int 7)) ∧
  @mk_str_stoi default_host (rewritten (mk_itos (mk_int (-3))) (mk_str_itos (mk_int (-3))))
    = (BR_DONE, Some (mk_int (-1))) ∧
  mk_str_itos (rewritten (mk_stoi (mk_string [97])) (@mk_str_stoi default_host (mk_string [97])))
    = (BR_DONE, Some (mk_string [])).
Proof. exact (@mk_str_stoi_itos default_host default_host_sound (mk_int 5)). Defined.

(** ** Operation cache: reset on overflow *)

Section OpCacheFacts.
Context {ptr : Type} `{Countable ptr}.
Variable m_max_cache_size : nat.

Lemma op_cache_insert_full (op : Z) (a b c r : option ptr) (cache : @op_cache ptr _ _) :
  (m_max_cache_size ≤ size (m_table cache))%nat →
  op_cache_insert m_max_cache_size op a b c r cache =
    {| m_table := {[ (op, a, b, c) := r ]};
       m_trail := trail_push r (trail_push c (trail_push b (trail_push a []))) |}.
Proof.
  intros Hfull. unfold op_cache_insert, op_cache_cleanup.
  rewrite decide_True by exact Hfull. cbn [m_table m_trail].
  rewrite insert_empty. reflexivity.
Qed.

Lemma op_cache_insert_lookup (op : Z) (a b c r : option ptr) (cache : @op_cache ptr _ _) :
  m_table (op_cache_insert m_max_cache_size op a b c r cache) !! (op, a, b, c) = Some r.
Proof. unfold op_cache_insert. cbn [m_table]. apply lookup_insert_eq. Qed.

Lemma op_cache_insert_size (op : Z) (a b c r : option ptr) (cache : @op_cache ptr _ _) :
  (1 ≤ m_max_cache_size)%nat →
  (size (m_table (op_cache_insert m_max_cache_size op a b c r cache)) ≤ m_max_cache_size)%nat.
Proof.
  intros Hpos. unfold op_cache_insert, op_cache_cleanup. cbn [m_table].
  destruct (decide (m_max_cache_size ≤ size (m_table cache))%nat) as [Hfull|Hroom];
    cbn [m_table].
  - rewrite insert_empty, map_size_singleton. exact Hpos.
  - destruct (m_table cache !! (op, a, b, c)) eqn:E.
    + rewrite map_size_insert_Some by eauto. lia.
    + rewrite map_size_insert_None by exact E. lia.
Qed.

(** C8 (operation-cache reset).  With a positive cap: an [insert] into a
    table that has reached the cap first clears the table and the trail
    completely, so that afterwards the table holds the new entry alone and
    the trail only the terms of that entry; after every [insert] the key
    [(op, a, b, c)] maps to [r] (and [find] returns it), and the size of the
    table is at most the cap. *)
Theorem op_cache_insert_reset (op : Z) (a b c r : option ptr) (cache : @op_cache ptr _ _) :
  (1 ≤ m_max_cache_size)%nat →
  ((m_max_cache_size ≤ size (m_table cache))%nat →
     m_table (op_cache_insert m_max_cache_size op a b c r cache) = {[ (op, a, b, c) := r ]} ∧
     m_trail (op_cache_insert m_max_cache_size op a b c r cache)
       = trail_push r (trail_push c (trail_push b (trail_push a [])))) ∧
  m_table (op_cache_insert m_max_cache_size op a b c r cache) !! (op, a, b, c) = Some r ∧
  op_cache_find op a b c (op_cache_insert m_max_cache_size op a b c r cache) = r ∧
  (size (m_table (op_cache_insert m_max_cache_size op a b c r cache)) ≤ m_max_cache_size)%nat.
Proof.
  intros Hpos. split; [|split; [|split]].
  - intros Hfull. rewrite op_cache_insert_full by exact Hfull. split; reflexivity.
  - apply op_cache_insert_lookup.
  - unfold op_cache_find. rewrite op_cache_insert_lookup. reflexivity.
  - apply op_cache_insert_size. exact Hpos.
Qed.

(** The cap holds along every run of inserts from the empty cache. *)
Lemma op_cache_size_invariant (cache : @op_cache ptr _ _) :
  (1 ≤ m_max_cache_size)%nat →
  op_cache_reachable m_max_cache_size cache →
  (size (m_table cache) ≤ m_max_cache_size)%nat.
Proof.
  intros Hpos Hr. induction Hr as [|op a b c r cache _ _].
  - cbn. rewrite map_size_empty. lia.
  - apply op_cache_insert_size. exact Hpos.
Qed.

End OpCacheFacts.

Lemma op_cache_insert_reset_witness :
  let full : op_cache (ptr := positive) :=
    {| m_table := {[ (1, Some 1%positive, None, None) := Some 2%positive ]} ∪
                  {[ (1, Some 3%positive, None, None) := Some 4%positive ]};
       m_trail := [1; 2; 3; 4]%positive |} in
  let next := op_cache_insert 2 7 (Some 5%positive) None None (Some 6%positive) full in
  (1 ≤ 2)%nat ∧
  ((2 ≤ size (m_table full))%nat →
     m_table next = {[ (7, Some 5%positive, None, None) := Some 6%positive ]} ∧
     m_trail next = [5; 6]%positive) ∧
  m_table next !! (7, Some 5%positive, None, None) = Some (Some 6%positive) ∧
  op_cache_find 7 (Some 5%positive) None None next = Some 6%positive ∧
  (size (m_table next) ≤ 2)%nat.
Proof.
  intros full next. split; [lia|].
  apply (op_cache_insert_reset 2 7 (Some 5%positive) None None (Some 6%positive) full). lia.
Defined.

(** ** Normalized union and intersection with [.+] *)

Section NormalizeFacts.
Context `{HS : HostSound}.

Lemma is_dot_plus_shape (r : expr) :
  re.is_dot_plus r = true →
  (∃ s, r = re.mk_plus s) ∨ (∃ s t, r = re.mk_concat s t).
Proof.
  unfold re.is_dot_plus. destruct (re.is_plus r) as [s|] eqn:Hp.
  { intros _. left. exists s. apply is_app_of1_inv in Hp. exact Hp. }
  destruct (re.is_concat r) as [[s t]|] eqn:Hc; [|discriminate].
  intros _. right. exists s, t. apply is_app_of2_inv in Hc. exact Hc.
Qed.

Lemma is_dot_plus_not_others (r : expr) :
  re.is_dot_plus r = true →
  re.is_empty r = false ∧ re.is_full_seq r = false ∧ re.is_epsilon r = false.
Proof.
  intros Hr. destruct (is_dot_plus_shape r Hr) as [[s ->]|[s [t ->]]]; repeat split.
Qed.

Lemma min_length_pos_not_nullable (ρ : env) (X : expr) :
  info_min_length X > 0 → ¬ lang ρ X [].
Proof.
  intros Hpos Hnil. apply info_min_length_sound in Hnil. simpl in Hnil. lia.
Qed.

Lemma min_length_pos_not_full_seq (X : expr) :
  info_min_length X > 0 → re.is_full_seq X = false.
Proof.
  intros Hpos. destruct (re.is_full_seq X) eqn:E; [|reflexivity].
  exfalso. apply (min_length_pos_not_nullable default_env X Hpos).
  apply is_app_of_inv in E as [args ->]. exact I.
Qed.

Lemma min_length_pos_not_epsilon (X : expr) :
  info_min_length X > 0 → re.is_epsilon X = false.
Proof.
  intros Hpos. destruct (re.is_epsilon X) eqn:E; [|reflexivity].
  exfalso. apply (min_length_pos_not_nullable default_env X Hpos).
  unfold re.is_epsilon in E. destruct (re.is_to_re X) as [s|] eqn:Ht; [|discriminate].
  apply is_app_of1_inv in Ht. subst X. cbn [lang].
  symmetry. apply is_empty_val. exact E.
Qed.

(** C4, as amended.  For [.+] (in any of its forms) and a regex [X] whose
    minimal length is at least 1, the normalized union of [.+] and [X] is
    [.+], and the normalized intersection of [.+] and [X] is [X]. *)
Theorem mk_regex_normalize_dot_plus (r1 X : expr) :
  re.is_dot_plus r1 = true →
  info_min_length X > 0 →
  mk_regex_union_normalize r1 X = r1 ∧ mk_regex_inter_normalize r1 X = X.
Proof.
  intros Hr1 Hpos.
  destruct (is_dot_plus_not_others r1 Hr1) as (He1 & Hf1 & Hp1).
  pose proof (min_length_pos_not_full_seq X Hpos) as HfX.
  pose proof (min_length_pos_not_epsilon X Hpos) as HpX.
  assert (Hgt : (info_min_length X >? 0) = true) by lia.
  split.
  - unfold mk_regex_union_normalize. rewrite Hf1, He1, HfX, Hr1, Hgt.
    destruct (expr_eqb r1 X || re.is_empty X || false); reflexivity.
  - unfold mk_regex_inter_normalize. rewrite HpX, He1, HfX, Hf1, Hp1, Hr1, Hgt.
    destruct (expr_eqb r1 X) eqn:E; [apply expr_eqb_eq in E; exact E|].
    cbn [orb]. destruct (re.is_empty X); reflexivity.
Qed.

End NormalizeFacts.

Lemma mk_regex_normalize_dot_plus_witness :
  let dot_plus := re.mk_plus re.mk_full_char in
  let X := re.mk_to_re (mk_string [97]) in
  @mk_regex_union_normalize default_host dot_plus X = dot_plus ∧
  @mk_regex_inter_normalize default_host dot_plus X = X.
Proof.
  intros dot_plus X.
  apply (@mk_regex_normalize_dot_plus default_host default_host_sound dot_plus X).
  - reflexivity.
  - vm_compute. reflexivity.
Defined.

(** C4 as stated fails: the normalized union of [.+] and [to_re("a")],
    whose minimal length is 1, is [.+] and not [to_re("a")]. *)
Lemma mk_regex_union_normalize_dot_plus_not_X :
  @info_min_length default_host (re.mk_to_re (mk_string [97])) > 0 ∧
  @mk_regex_union_normalize default_host
     (re.mk_plus re.mk_full_char) (re.mk_to_re (mk_string [97]))
    ≠ re.mk_to_re (mk_string [97]).
Proof. split; [vm_compute; reflexivity|vm_compute; discriminate]. Qed.

(** ** The derivative on a loop whose bounds are out of order *)

Section DerivativeFacts.
Context `{HS : HostSound}.

Lemma br_mk_and_true_not_false :
  is_false (br_mk_and mk_true mk_true) = false.
Proof.
  destruct (is_false (br_mk_and mk_true mk_true)) eqn:E; [|reflexivity].
  apply (is_false_val default_env) in E. rewrite br_mk_and_sound in E. discriminate.
Qed.

Lemma lang_iter_out_of_order (L : list Z → Prop) (lo hi : Z) (w : list Z) :
  hi < lo → ¬ lang_iter L (λ n, lo ≤ Z.of_nat n ≤ hi) w.
Proof. intros Hlt (ws & _ & _ & Hn). lia. Qed.

(** C1 at a loop with bounds out of order.  Let [R] be
    [loop(star(to_re "a"), 2, 1) . to_re "b"].  The loop denotes the empty
    language ([mk_re_loop] rewrites it to the empty regex), so the word
    "b" is not in the language of [R]; yet the derivative of [R] by the
    character 'b' is [to_re ""], which accepts the empty word. *)
Theorem mk_derivative_loop_out_of_order (fuel : nat) (ρ : env) :
  (3 ≤ fuel)%nat →
  let body := re.mk_star (re.mk_to_re (mk_string [97])) in
  let R := re.mk_concat (re.mk_loop2 body 2 1) (re.mk_to_re (mk_string [98])) in
  mk_re_loop [2; 1] body = (BR_DONE, Some re.mk_empty) ∧
  ¬ lang ρ R [98] ∧
  mk_derivative fuel (mk_char 98) R = Some (re.mk_to_re (mk_string [])) ∧
  lang ρ (re.mk_to_re (mk_string [])) [].
Proof.
  intros Hfuel body R. split; [reflexivity|]. split; [|split].
  - intros (u & v & _ & Hu & _). revert Hu. apply lang_iter_out_of_order.
    reflexivity.
  - destruct fuel as [|[|[|fuel]]]; try lia.
    unfold mk_derivative, R, body.
    pose proof br_mk_and_true_not_false as Hand.
    vm_compute in Hand. vm_compute. rewrite Hand. reflexivity.
  - reflexivity.
Qed.

End DerivativeFacts.

Lemma mk_derivative_loop_out_of_order_witness :
  let body := re.mk_star (re.mk_to_re (mk_string [97])) in
  let R := re.mk_concat (re.mk_loop2 body 2 1) (re.mk_to_re (mk_string [98])) in
  (3 ≤ 3)%nat ∧
  ¬ lang default_env R [98] ∧
  @mk_derivative default_host 3 (mk_char 98) R = Some (re.mk_to_re (mk_string [])).
Proof.
  intros body R. split; [lia|].
  destruct (@mk_derivative_loop_out_of_order default_host default_host_sound 3 default_env)
    as (_ & Hnot & Hd & _); [lia|].
  split; [exact Hnot|exact Hd].
Defined.

(** ** Membership: the prefix and suffix patterns *)

Section MembershipFacts.
Context `{HS : HostSound}.

(** A regex that has words of every length from some length on has no
    maximal length. *)
Lemma re_max_length_unbounded (ρ : env) (r : expr) (n : nat) :
  (∀ k : nat, ∃ w, lang ρ r w ∧ length w = (n + k)%nat) →
  re_max_length r = UINT_MAX.
Proof.
  intros Hw. destruct (Hw (Z.to_nat (re_max_length r) + 1)%nat) as (w & Hl & Hlen).
  destruct (re_max_length_sound ρ r w Hl) as [Hmax|Hmax]; [exact Hmax|lia].
Qed.

Lemma replicate_length_lang_full_seq (ρ : env) (k : nat) :
  lang ρ re.mk_full_seq (replicate k 0) ∧ length (replicate k 0) = k.
Proof. split; [exact I|apply length_replicate]. Qed.

Lemma re_lengths_full_seq :
  re_max_length re.mk_full_seq = UINT_MAX ∧ re_min_length re.mk_full_seq ≠ UINT_MAX.
Proof.
  split.
  - apply (re_max_length_unbounded default_env _ 0). intros k.
    exists (replicate k 0). apply replicate_length_lang_full_seq.
  - pose proof (re_min_length_sound default_env re.mk_full_seq [] I) as Hmin.
    cbn in Hmin. unfold UINT_MAX. lia.
Qed.

Lemma re_lengths_literal_full_seq (s : zstring) :
  zlength s < UINT_MAX →
  re_max_length (re.mk_concat (re.mk_to_re (mk_string s)) re.mk_full_seq) = UINT_MAX ∧
  re_min_length (re.mk_concat (re.mk_to_re (mk_string s)) re.mk_full_seq) ≠ UINT_MAX.
Proof.
  intros Hs. split.
  - apply (re_max_length_unbounded default_env _ (length s)). intros k.
    exists (s ++ replicate k 0). split.
    + exists s, (replicate k 0). repeat split.
    + rewrite length_app, length_replicate. reflexivity.
  - assert (Hl : lang default_env
                   (re.mk_concat (re.mk_to_re (mk_string s)) re.mk_full_seq) s).
    { exists s, []. repeat split. rewrite app_nil_r. reflexivity. }
    apply re_min_length_sound in Hl. unfold zlength in Hs. lia.
Qed.

Lemma re_lengths_full_seq_literal (s : zstring) :
  zlength s < UINT_MAX →
  re_max_length (re.mk_concat re.mk_full_seq (re.mk_to_re (mk_string s))) = UINT_MAX ∧
  re_min_length (re.mk_concat re.mk_full_seq (re.mk_to_re (mk_string s))) ≠ UINT_MAX.
Proof.
  intros Hs. split.
  - apply (re_max_length_unbounded default_env _ (length s)). intros k.
    exists (replicate k 0 ++ s). split.
    + exists (replicate k 0), s. repeat split.
    + rewrite length_app, length_replicate. lia.
  - assert (Hl : lang default_env
                   (re.mk_concat re.mk_full_seq (re.mk_to_re (mk_string s))) s).
    { exists [], s. repeat split. }
    apply re_min_length_sound in Hl. unfold zlength in Hs. lia.
Qed.

Lemma fixed_length_test_false (r : expr) :
  re_max_length r = UINT_MAX → re_min_length r ≠ UINT_MAX →
  negb (re_min_length r =? UINT_MAX) && (re_max_length r =? re_min_length r) = false.
Proof.
  intros Hmax Hmin. rewrite Hmax. apply andb_false_iff. right. lia.
Qed.

Lemma get_re_head_tail_concat (r1 r2 : expr) :
  get_re_head_tail (re.mk_concat r1 r2) =
    if negb (re_min_length r1 =? UINT_MAX) && (re_max_length r1 =? re_min_length r1)
    then Some (r1, r2) else None.
Proof. reflexivity. Qed.

Lemma get_re_head_tail_reversed_concat (r1 r2 : expr) :
  get_re_head_tail_reversed (re.mk_concat r1 r2) =
    if negb (re_min_length r2 =? UINT_MAX) && (re_max_length r2 =? re_min_length r2) then
      match get_re_head_tail_reversed r1 with
      | Some (head, tail) => Some (head, mk_re_append tail r2)
      | None => Some (r1, r2)
      end
    else
      match get_re_head_tail_reversed r2 with
      | Some (head, tail) => Some (mk_re_append r1 head, tail)
      | None => None
      end.
Proof. reflexivity. Qed.

(** No split at a fixed length for the two forms of [.* u .*]. *)
Lemma get_re_head_tail_contains_pattern (s : zstring) :
  zlength s < UINT_MAX →
  let u := re.mk_to_re (mk_string s) in
  let all := re.mk_full_seq in
  get_re_head_tail (re.mk_concat all (re.mk_concat u all)) = None ∧
  get_re_head_tail_reversed (re.mk_concat all (re.mk_concat u all)) = None ∧
  get_re_head_tail (re.mk_concat (re.mk_concat all u) all) = None ∧
  get_re_head_tail_reversed (re.mk_concat (re.mk_concat all u) all) = None.
Proof.
  intros Hs u all.
  destruct re_lengths_full_seq as [Hmax Hmin].
  destruct (re_lengths_literal_full_seq s Hs) as [Hmax1 Hmin1].
  destruct (re_lengths_full_seq_literal s Hs) as [Hmax2 Hmin2].
  pose proof (fixed_length_test_false _ Hmax Hmin) as Hall.
  pose proof (fixed_length_test_false _ Hmax1 Hmin1) as Hul.
  pose proof (fixed_length_test_false _ Hmax2 Hmin2) as Hlu.
  subst u all. repeat split.
  - rewrite get_re_head_tail_concat, Hall. reflexivity.
  - rewrite !get_re_head_tail_reversed_concat, Hul, Hall. reflexivity.
  - rewrite get_re_head_tail_concat, Hlu. reflexivity.
  - rewrite get_re_head_tail_reversed_concat, Hall. reflexivity.
Qed.

(** C2, as amended.  For a sequence term [a] that is not a string literal
    and every sequence term [u], the membership of [a] in [to_re(u) .*]
    rewrites to [prefix(u, a)] and the membership in [.* to_re(u)] to
    [suffix(u, a)].  The membership in [.* to_re(u) .*] is not rewritten to
    [contains]: when [a] moreover is not empty and has no first or last
    element to split off (a variable, say), and [u] is a string literal,
    the rewriter fails on either way of nesting the concatenation. *)
Theorem mk_str_in_regexp_patterns (fuel : nat) (a u : expr) (s : zstring) :
  is_string a = None →
  let all := re.mk_full_seq in
  mk_str_in_regexp fuel a (re.mk_concat (re.mk_to_re u) all)
    = Some (BR_REWRITE1, Some (mk_prefix u a)) ∧
  mk_str_in_regexp fuel a (re.mk_concat all (re.mk_to_re u))
    = Some (BR_REWRITE1, Some (mk_suffix u a)) ∧
  (str.is_empty a = false → get_head_tail a = None → get_head_tail_reversed a = None →
   zlength s < UINT_MAX →
   mk_str_in_regexp fuel a (re.mk_concat all (re.mk_concat (re.mk_to_re (mk_string s)) all))
     = Some (BR_FAILED, None) ∧
   mk_str_in_regexp fuel a (re.mk_concat (re.mk_concat all (re.mk_to_re (mk_string s))) all)
     = Some (BR_FAILED, None)).
Proof.
  intros Ha all. subst all. split; [|split].
  - unfold mk_str_in_regexp, mk_str_in_regexp_ground. rewrite Ha. reflexivity.
  - unfold mk_str_in_regexp, mk_str_in_regexp_ground. rewrite Ha. reflexivity.
  - intros He Hht Hhtr Hs.
    destruct (get_re_head_tail_contains_pattern s Hs) as (H1 & H2 & H3 & H4).
    split.
    + unfold mk_str_in_regexp, mk_str_in_regexp_ground.
      rewrite Ha, He, Hht, Hhtr, H1, H2. reflexivity.
    + unfold mk_str_in_regexp, mk_str_in_regexp_ground.
      rewrite Ha, He, Hht, Hhtr, H3, H4. reflexivity.
Qed.

End MembershipFacts.

Lemma mk_str_in_regexp_patterns_witness :
  let x := app (OP_UNINTERPRETED 1 SeqSort) [] in
  let u := mk_string [97; 98] in
  is_string x = None ∧
  @mk_str_in_regexp default_host 1 x (re.mk_concat (re.mk_to_re u) re.mk_full_seq)
    = Some (BR_REWRITE1, Some (mk_prefix u x)) ∧
  @mk_str_in_regexp default_host 1 x (re.mk_concat re.mk_full_seq (re.mk_to_re u))
    = Some (BR_REWRITE1, Some (mk_suffix u x)).
Proof.
  intros x u. split; [reflexivity|].
  destruct (@mk_str_in_regexp_patterns default_host default_host_sound 1 x u [97; 98])
    as (Hp & Hs & _); [reflexivity|].
  split; [exact Hp|exact Hs].
Defined.

(** C2 as stated fails in its first part: for a sequence variable [x] the
    membership of [x] in [.* to_re("ab") .*] is not rewritten at all. *)
Lemma mk_str_in_regexp_contains_not_rewritten :
  @mk_str_in_regexp default_host 1 (app (OP_UNINTERPRETED 1 SeqSort) [])
     (re.mk_concat re.mk_full_seq
        (re.mk_concat (re.mk_to_re (mk_string [97; 98])) re.mk_full_seq))
    ≠ Some (BR_REWRITE1,
            Some (mk_contains (app (OP_UNINTERPRETED 1 SeqSort) []) (mk_string [97; 98]))) ∧
  @mk_str_in_regexp default_host 1 (app (OP_UNINTERPRETED 1 SeqSort) [])
     (re.mk_concat re.mk_full_seq
        (re.mk_concat (re.mk_to_re (mk_string [97; 98])) re.mk_full_seq))
    = Some (BR_FAILED, None).
Proof. split; [vm_compute; discriminate|vm_compute; reflexivity]. Qed.

(** ** The equation reducer: soundness of the passes *)

Section ListFacts.
Context {A : Type}.

Lemma last_removelast (l : list A) (x : A) :
  last l = Some x → l = removelast l ++ [x].
Proof.
  intros Hl. apply last_Some in Hl as [l' ->]. rewrite removelast_last. reflexivity.
Qed.

Lemma insert_last_snoc (l : list A) (x y : A) :
  <[(length (l ++ [x]) - 1)%nat := y]> (l ++ [x]) = l ++ [y].
Proof.
  rewrite length_app. simpl. replace (length l + 1 - 1)%nat with (length l + 0)%nat by lia.
  rewrite insert_app_r. reflexivity.
Qed.

Lemma nonempty_snoc (s : list A) (d : A) :
  s ≠ [] → s = take (length s - 1) s ++ [nth (length s - 1) s d].
Proof.
  intros Hs. destruct (decide (s = [])) as [|_]; [contradiction|].
  induction s as [|x s IH] using rev_ind; [contradiction|].
  rewrite length_app. simpl. replace (length s + 1 - 1)%nat with (length s) by lia.
  rewrite take_app_length. rewrite app_nth2 by lia. rewrite Nat.sub_diag. reflexivity.
Qed.

Lemma nonempty_cons (s : list A) (d : A) :
  s ≠ [] → s = nth 0 s d :: take (length s - 1) (drop 1 s).
Proof.
  destruct s as [|x s]; [contradiction|]. intros _. simpl.
  rewrite Nat.sub_0_r, drop_0, firstn_all. reflexivity.
Qed.

(** Two words with the same end agree at every position counted from the
    end. *)
Lemma common_suffix_nth (X Y s1 s2 : list A) (d : A) (i : nat) :
  X ++ s1 = Y ++ s2 → (i < length s1)%nat → (i < length s2)%nat →
  nth (length s1 - i - 1) s1 d = nth (length s2 - i - 1) s2 d.
Proof.
  intros Heq H1 H2. apply (f_equal (@rev A)) in Heq. rewrite !rev_app_distr in Heq.
  apply (f_equal (λ l, nth i l d)) in Heq.
  rewrite !app_nth1 in Heq by (rewrite length_rev; lia).
  rewrite !rev_nth in Heq by lia.
  replace (length s1 - i - 1)%nat with (length s1 - S i)%nat by lia.
  replace (length s2 - i - 1)%nat with (length s2 - S i)%nat by lia. exact Heq.
Qed.

Lemma common_suffix_take (X Y s1 s2 : list A) (m : nat) :
  X ++ s1 = Y ++ s2 → (m ≤ length s1)%nat → (m ≤ length s2)%nat →
  X ++ take (length s1 - m) s1 = Y ++ take (length s2 - m) s2.
Proof.
  intros Heq H1 H2.
  assert (Hlen : (length X + length s1 = length Y + length s2)%nat).
  { apply (f_equal length) in Heq. rewrite !length_app in Heq. exact Heq. }
  assert (HX : take (length X + (length s1 - m)) (X ++ s1) = X ++ take (length s1 - m) s1).
  { rewrite take_app_add'; reflexivity. }
  assert (HY : take (length Y + (length s2 - m)) (Y ++ s2) = Y ++ take (length s2 - m) s2).
  { rewrite take_app_add'; reflexivity. }
  rewrite <- HX, <- HY, Heq. f_equal. lia.
Qed.

Lemma common_prefix_nth (X Y s1 s2 : list A) (d : A) (i : nat) :
  s1 ++ X = s2 ++ Y → (i < length s1)%nat → (i < length s2)%nat →
  nth i s1 d = nth i s2 d.
Proof.
  intros Heq H1 H2. apply (f_equal (λ l, nth i l d)) in Heq.
  rewrite !app_nth1 in Heq by lia. exact Heq.
Qed.

Lemma common_prefix_drop (X Y s1 s2 : list A) (m : nat) :
  s1 ++ X = s2 ++ Y → (m ≤ length s1)%nat → (m ≤ length s2)%nat →
  drop m s1 ++ X = drop m s2 ++ Y.
Proof.
  intros Heq H1 H2. apply (f_equal (drop m)) in Heq.
  rewrite !drop_app_le in Heq by lia. exact Heq.
Qed.

End ListFacts.

Section ReducerSoundness.
Context `{HS : HostSound}.
Variable ρ : env.

Lemma wf_elem_string (s : zstring) : s ≠ [] → wf_elem (mk_string s).
Proof.
  intros Hs. split; [reflexivity|]. split; [|discriminate].
  unfold str.is_empty. cbn. apply bool_decide_eq_false. exact Hs.
Qed.

Lemma wf_elem_unit_sort (e a : expr) :
  wf_elem e → is_unit e = Some a → get_sort a = CharSort.
Proof.
  intros (_ & _ & Hu) Ha. destruct Hu as (a' & Ha' & Hs).
  - apply is_app_of1_inv in Ha. subst e. reflexivity.
  - congruence.
Qed.

Lemma wf_elem_string_nonempty (e : expr) (s : zstring) :
  wf_elem e → is_string e = Some s → s ≠ [].
Proof.
  intros (_ & He & _) Hs ->. unfold str.is_empty in He. rewrite Hs in He.
  rewrite bool_decide_true in He by reflexivity. rewrite orb_true_r in He. discriminate.
Qed.

Lemma seqs_val_snoc (es : list expr) (e : expr) :
  seqs_val ρ (es ++ [e]) = seqs_val ρ es ++ seq_val ρ e.
Proof.
  rewrite seqs_val_app. unfold seqs_val at 2. simpl. rewrite app_nil_r. reflexivity.
Qed.

Lemma pass_ok_sym (ls rs : list expr) (o : reduce_outcome) :
  pass_ok ρ ls rs o → pass_ok ρ rs ls o.
Proof.
  destruct o as [|ls' rs' eqs]; cbn.
  - intros Hno [Heq Hlen]. apply Hno. split; [symmetry; exact Heq|]. rewrite <- Heq. exact Hlen.
  - intros (Hl & Hr & Hs). split; [exact Hl|]. split; [exact Hr|].
    intros Heq. rewrite Heq. apply Hs. symmetry. exact Heq.
Qed.

(** A round that keeps equal sides equal and no longer, then a pass. *)
Lemma pass_ok_step (ls rs ls1 rs1 : list expr) (o : reduce_outcome) :
  (seqs_val ρ ls = seqs_val ρ rs →
   seqs_val ρ ls1 = seqs_val ρ rs1 ∧
   (length (seqs_val ρ ls1) ≤ length (seqs_val ρ ls))%nat) →
  pass_ok ρ ls1 rs1 o → pass_ok ρ ls rs o.
Proof.
  intros Hstep. destruct o as [|ls' rs' eqs]; cbn.
  - intros Hno [Heq Hlen]. destruct (Hstep Heq) as [Heq1 Hle]. apply Hno.
    split; [exact Heq1|lia].
  - intros (Hl & Hr & Hs). split; [exact Hl|]. split; [exact Hr|].
    intros Heq. destruct (Hstep Heq) as [Heq1 Hle]. destruct (Hs Heq1) as [Heq' Hle'].
    split; [exact Heq'|lia].
Qed.

Lemma pass_ok_flip (ls rs : list expr) (o : reduce_outcome) :
  pass_ok ρ rs ls o → pass_ok ρ ls rs (flip_sides o).
Proof.
  destruct o as [|ls' rs' eqs]; cbn.
  - intros Hno [Heq Hlen]. apply Hno. split; [symmetry; exact Heq|]. rewrite <- Heq. exact Hlen.
  - intros (Hl & Hr & Hs). split; [exact Hr|]. split; [exact Hl|].
    intros Heq. symmetry in Heq. destruct (Hs Heq) as [Heq' Hle]. split; [symmetry; exact Heq'|].
    rewrite <- Heq', <- Heq. exact Hle.
Qed.

Lemma pass_ok_same (ls rs : list expr) (eqs : list (expr * expr)) :
  Forall wf_elem ls → Forall wf_elem rs → pass_ok ρ ls rs (Reduced ls rs eqs).
Proof. intros Hl Hr. cbn. split; [exact Hl|]. split; [exact Hr|]. intros Heq. split; [exact Heq|lia]. Qed.

Lemma pass_ok_reset (ls rs : list expr) (eqs : list (expr * expr)) :
  pass_ok ρ ls rs (Reduced [] [] eqs).
Proof.
  cbn. split; [constructor|]. split; [constructor|]. intros _. split; [reflexivity|].
  cbn. lia.
Qed.

Lemma suffix_clash_differ (X Y s1 s2 : zstring) :
  suffix_clash s1 s2 (length s1 `min` length s2) = true → X ++ s1 ≠ Y ++ s2.
Proof.
  unfold suffix_clash. intros Hc Heq. apply existsb_exists in Hc as (i & Hi & Hne).
  apply in_seq in Hi. apply negb_true_iff, Z.eqb_neq in Hne. apply Hne.
  unfold zget. apply (common_suffix_nth X Y); [exact Heq|lia|lia].
Qed.

Lemma prefix_clash_differ (X Y s1 s2 : zstring) :
  prefix_clash s1 s2 (length s1 `min` length s2) = true → s1 ++ X ≠ s2 ++ Y.
Proof.
  unfold prefix_clash. intros Hc Heq. apply existsb_exists in Hc as (i & Hi & Hne).
  apply in_seq in Hi. apply negb_true_iff, Z.eqb_neq in Hne. apply Hne.
  unfold zget. apply (common_prefix_nth X Y); [exact Heq|lia|lia].
Qed.

(** One round of [reduce_back], the sides already exchanged if need be:
    [rec] is the rest of the loop. *)
Lemma reduce_back_round (rec : list expr → list expr → list (expr * expr) → option reduce_outcome)
    (ls0 rs0 : list expr) (l r : expr) (new_eqs : list (expr * expr)) (o : reduce_outcome) :
  (∀ ls rs eqs o, Forall wf_elem ls → Forall wf_elem rs →
     rec ls rs eqs = Some o → pass_ok ρ ls rs o) →
  Forall wf_elem (ls0 ++ [l]) → Forall wf_elem (rs0 ++ [r]) →
  (let ls := ls0 ++ [l] in
   let rs := rs0 ++ [r] in
   if expr_eqb l r then rec (removelast ls) (removelast rs) new_eqs
   else
     match is_unit l, is_unit r with
     | Some a, Some b =>
         if are_distinct a b then Some Unsat
         else rec (removelast ls) (removelast rs) (new_eqs ++ [(a, b)])
     | _, _ =>
     match is_unit l, is_string r with
     | Some a, Some s =>
         let ch := str_mk_char s (length s - 1) in
         let new_eqs := new_eqs ++ [(ch, a)] in
         let ls := removelast ls in
         if bool_decide (length s = 1%nat) then rec ls (removelast rs) new_eqs
         else
           let s2 := mk_string (zextract s 0 (length s - 1)) in
           rec ls (<[(length rs - 1)%nat := s2]> rs) new_eqs
     | _, _ =>
     match is_string l, is_string r with
     | Some s1, Some s2 =>
         let min_l := (length s1 `min` length s2)%nat in
         if suffix_clash s1 s2 min_l then Some Unsat
         else
           let ls := removelast ls in
           let rs := removelast rs in
           let ls :=
             if (min_l <? length s1)%nat
             then ls ++ [mk_string (zextract s1 0 (length s1 - min_l))] else ls in
           let rs :=
             if (min_l <? length s2)%nat
             then rs ++ [mk_string (zextract s2 0 (length s2 - min_l))] else rs in
           rec ls rs new_eqs
     | _, _ => Some (Reduced ls rs new_eqs)
     end end end) = Some o →
  pass_ok ρ (ls0 ++ [l]) (rs0 ++ [r]) o.
Proof.
  intros IH Hwl Hwr. cbn zeta. rewrite !removelast_last.
  apply Forall_app in Hwl as [Hwl0 Hwl1]. apply Forall_app in Hwr as [Hwr0 Hwr1].
  apply Forall_inv in Hwl1, Hwr1.
  destruct (expr_eqb l r) eqn:Elr.
  { apply expr_eqb_eq in Elr. subst r. intros Hrec.
    apply (pass_ok_step _ _ ls0 rs0); [|apply (IH _ _ _ _ Hwl0 Hwr0 Hrec)].
    rewrite !seqs_val_snoc. intros Heq. apply app_inv_tail in Heq.
    split; [exact Heq|rewrite length_app; lia]. }
  destruct (is_unit l) as [a|] eqn:Hul.
  - destruct (is_unit_val ρ l a Hul) as [Hlv _].
    destruct (is_unit r) as [b|] eqn:Hur.
    + destruct (is_unit_val ρ r b Hur) as [Hrv _].
      destruct (are_distinct a b) eqn:Hd.
      * intros [= <-]. cbn. rewrite !seqs_val_snoc, Hlv, Hrv. intros [Heq _].
        apply app_inj_tail in Heq as [_ Heq].
        revert Heq. apply are_distinct_char; [exact Hd|].
        exact (wf_elem_unit_sort l a Hwl1 Hul).
      * intros Hrec.
        apply (pass_ok_step _ _ ls0 rs0); [|apply (IH _ _ _ _ Hwl0 Hwr0 Hrec)].
        rewrite !seqs_val_snoc, Hlv, Hrv. intros Heq. apply app_inj_tail in Heq as [Heq _].
        split; [exact Heq|rewrite length_app; lia].
    + destruct (is_string r) as [s|] eqn:Hsr.
      * pose proof (wf_elem_string_nonempty r s Hwr1 Hsr) as Hne.
        pose proof (is_string_val ρ r s Hsr) as Hrv.
        pose proof (nonempty_snoc s 0 Hne) as Hsplit.
        destruct (bool_decide (length s = 1%nat)) eqn:Hlen.
        -- apply bool_decide_eq_true in Hlen. intros Hrec.
           apply (pass_ok_step _ _ ls0 rs0); [|apply (IH _ _ _ _ Hwl0 Hwr0 Hrec)].
           rewrite !seqs_val_snoc, Hlv, Hrv. intros Heq.
           rewrite Hsplit, Hlen in Heq. cbn in Heq. apply app_inj_tail in Heq as [Heq _].
           split; [exact Heq|rewrite length_app; lia].
        -- apply bool_decide_eq_false in Hlen. rewrite insert_last_snoc. intros Hrec.
           assert (Hlong : (2 ≤ length s)%nat).
           { destruct s as [|? [|? ?]]; cbn in *; [contradiction|lia|lia]. }
           assert (Hw : Forall wf_elem (rs0 ++ [mk_string (zextract s 0 (length s - 1))])).
           { apply Forall_app. split; [exact Hwr0|]. apply Forall_singleton.
             apply wf_elem_string. unfold zextract. rewrite drop_0.
             intros Ht. apply (f_equal length) in Ht. rewrite length_take in Ht.
             cbn in Ht. lia. }
           apply (pass_ok_step _ _ ls0 (rs0 ++ [mk_string (zextract s 0 (length s - 1))]));
             [|apply (IH _ _ _ _ Hwl0 Hw Hrec)].
           rewrite !seqs_val_snoc, Hlv, Hrv. cbn [seq_val mk_string].
           unfold zextract. rewrite drop_0. intros Heq.
           rewrite Hsplit in Heq at 1. rewrite app_assoc in Heq.
           apply app_inj_tail in Heq as [Heq _].
           split; [exact Heq|rewrite length_app; lia].
      * destruct (is_string l); intros [= <-]; apply pass_ok_same; apply Forall_app; split;
          try assumption; apply Forall_singleton; assumption.
  - destruct (is_string l) as [s1|] eqn:Hsl.
    + destruct (is_string r) as [s2|] eqn:Hsr.
      * pose proof (is_string_val ρ l s1 Hsl) as Hlv.
        pose proof (is_string_val ρ r s2 Hsr) as Hrv.
        destruct (suffix_clash s1 s2 (length s1 `min` length s2)) eqn:Hc.
        -- intros [= <-]. cbn. rewrite !seqs_val_snoc, Hlv, Hrv. intros [Heq _].
           revert Heq. apply suffix_clash_differ. exact Hc.
        -- intros Hrec.
           set (m := (length s1 `min` length s2)%nat) in *.
           set (ls1 := if (m <? length s1)%nat
                       then ls0 ++ [mk_string (zextract s1 0 (length s1 - m))] else ls0) in *.
           set (rs1 := if (m <? length s2)%nat
                       then rs0 ++ [mk_string (zextract s2 0 (length s2 - m))] else rs0) in *.
           assert (Hside : ∀ (es0 : list expr) (s : zstring), Forall wf_elem es0 →
                     (m ≤ length s)%nat →
                     let es1 := if (m <? length s)%nat
                                then es0 ++ [mk_string (zextract s 0 (length s - m))]
                                else es0 in
                     Forall wf_elem es1 ∧
                     seqs_val ρ es1 = seqs_val ρ es0 ++ take (length s - m) s).
           { intros es0 s Hw0 Hm. cbn zeta. destruct (m <? length s)%nat eqn:Hlt.
             - apply Nat.ltb_lt in Hlt. unfold zextract. rewrite drop_0. split.
               + apply Forall_app. split; [exact Hw0|]. apply Forall_singleton.
                 apply wf_elem_string. intros Ht. apply (f_equal length) in Ht.
                 rewrite length_take in Ht. cbn in Ht. lia.
               + rewrite seqs_val_snoc. reflexivity.
             - apply Nat.ltb_ge in Hlt. split; [exact Hw0|].
               replace (length s - m)%nat with 0%nat by lia. rewrite take_0, app_nil_r.
               reflexivity. }
           destruct (Hside ls0 s1 Hwl0 ltac:(lia)) as [Hw1 Hv1].
           destruct (Hside rs0 s2 Hwr0 ltac:(lia)) as [Hw2 Hv2].
           apply (pass_ok_step _ _ ls1 rs1); [|apply (IH _ _ _ _ Hw1 Hw2 Hrec)].
           rewrite !seqs_val_snoc, Hlv, Hrv. intros Heq. subst ls1 rs1.
           rewrite Hv1, Hv2. split.
           ++ apply common_suffix_take; [exact Heq|lia|lia].
           ++ rewrite !length_app, length_take. lia.
      * intros [= <-]. apply pass_ok_same; apply Forall_app; split;
          try assumption; apply Forall_singleton; assumption.
    + intros [= <-]. apply pass_ok_same; apply Forall_app; split;
        try assumption; apply Forall_singleton; assumption.
Qed.

Lemma reduce_back_loop_sound (fuel : nat) (ls rs : list expr) (eqs : list (expr * expr))
    (o : reduce_outcome) :
  Forall wf_elem ls → Forall wf_elem rs →
  reduce_back_loop fuel ls rs eqs = Some o → pass_ok ρ ls rs o.
Proof.
  revert ls rs eqs o. induction fuel as [|fuel IH]; intros ls rs eqs o Hwl Hwr; [discriminate|].
  cbn [reduce_back_loop].
  destruct (last ls) as [l|] eqn:Hl; [|intros [= <-]; apply pass_ok_same; assumption].
  destruct (last rs) as [r|] eqn:Hr; [|intros [= <-]; apply pass_ok_same; assumption].
  apply last_Some in Hl as [ls0 ->]. apply last_Some in Hr as [rs0 ->].
  destruct (is_unit_b r && is_string_b l).
  - intros Hbody. apply pass_ok_sym. revert Hbody.
    apply (reduce_back_round (reduce_back_loop fuel)); [exact IH|exact Hwr|exact Hwl].
  - apply (reduce_back_round (reduce_back_loop fuel)); [exact IH|exact Hwl|exact Hwr].
Qed.

Lemma drop_insert_head (es : list expr) (h : nat) (e v : expr) :
  es !! h = Some e → drop h (<[h := v]> es) = v :: drop (S h) es.
Proof.
  intros He. pose proof (lookup_lt_Some _ _ _ He) as Hlt.
  rewrite (drop_S (<[h := v]> es) v h) by (apply list_lookup_insert_eq; exact Hlt).
  rewrite drop_insert_lt by lia. reflexivity.
Qed.

Lemma Forall_wf_insert (es : list expr) (h : nat) (s : zstring) :
  Forall wf_elem es → s ≠ [] → Forall wf_elem (<[h := mk_string s]> es).
Proof. intros Hw Hs. apply Forall_insert; [exact Hw|apply wf_elem_string; exact Hs]. Qed.

(** One round of [reduce_front], the sides already exchanged if need be. *)
Lemma reduce_front_round
    (rec : list expr → list expr → nat → nat → list (expr * expr) → option reduce_outcome)
    (ls rs : list expr) (head1 head2 : nat) (l r : expr)
    (new_eqs : list (expr * expr)) (o : reduce_outcome) :
  (∀ ls rs h1 h2 eqs o, Forall wf_elem ls → Forall wf_elem rs →
     rec ls rs h1 h2 eqs = Some o → pass_ok ρ (drop h1 ls) (drop h2 rs) o) →
  Forall wf_elem ls → Forall wf_elem rs →
  ls !! head1 = Some l → rs !! head2 = Some r →
  (if expr_eqb l r then rec ls rs (S head1) (S head2) new_eqs
   else
     match is_unit l, is_unit r with
     | Some a, Some b =>
         if are_distinct a b then Some Unsat
         else rec ls rs (S head1) (S head2) (new_eqs ++ [(a, b)])
     | _, _ =>
     match is_unit l, is_string r with
     | Some a, Some s =>
         let ch := str_mk_char s 0 in
         let new_eqs := new_eqs ++ [(ch, a)] in
         if bool_decide (length s = 1%nat) then rec ls rs (S head1) (S head2) new_eqs
         else
           let s2 := mk_string (zextract s 1 (length s - 1)) in
           rec ls (<[head2 := s2]> rs) (S head1) head2 new_eqs
     | _, _ =>
     match is_string l, is_string r with
     | Some s1, Some s2 =>
         let min_l := (length s1 `min` length s2)%nat in
         if prefix_clash s1 s2 min_l then Some Unsat
         else
           let '(ls, head1) :=
             if (min_l =? length s1)%nat then (ls, S head1)
             else (<[head1 := mk_string (zextract s1 min_l (length s1 - min_l))]> ls,
                   head1) in
           let '(rs, head2) :=
             if (min_l =? length s2)%nat then (rs, S head2)
             else (<[head2 := mk_string (zextract s2 min_l (length s2 - min_l))]> rs,
                   head2) in
           rec ls rs head1 head2 new_eqs
     | _, _ =>
         Some (Reduced (remove_leading head1 ls) (remove_leading head2 rs) new_eqs)
     end end end) = Some o →
  pass_ok ρ (drop head1 ls) (drop head2 rs) o.
Proof.
  intros IH Hwl Hwr Hl Hr. cbn zeta.
  pose proof (proj1 (Forall_lookup _ _) Hwl _ _ Hl) as Hwl1.
  pose proof (proj1 (Forall_lookup _ _) Hwr _ _ Hr) as Hwr1.
  rewrite (drop_S ls l head1 Hl), (drop_S rs r head2 Hr).
  assert (Hstop : pass_ok ρ (l :: drop (S head1) ls) (r :: drop (S head2) rs)
            (Reduced (remove_leading head1 ls) (remove_leading head2 rs) new_eqs)).
  { unfold remove_leading. rewrite (drop_S ls l head1 Hl), (drop_S rs r head2 Hr).
    rewrite <- (drop_S ls l head1 Hl), <- (drop_S rs r head2 Hr).
    apply pass_ok_same; apply Forall_drop; assumption. }
  destruct (expr_eqb l r) eqn:Elr.
  { apply expr_eqb_eq in Elr. subst r. intros Hrec.
    apply (pass_ok_step _ _ (drop (S head1) ls) (drop (S head2) rs));
      [|apply (IH _ _ _ _ _ _ Hwl Hwr Hrec)].
    rewrite !seqs_val_cons. intros Heq. apply app_inv_head in Heq.
    split; [exact Heq|rewrite length_app; lia]. }
  destruct (is_unit l) as [a|] eqn:Hul.
  - destruct (is_unit_val ρ l a Hul) as [Hlv _].
    destruct (is_unit r) as [b|] eqn:Hur.
    + destruct (is_unit_val ρ r b Hur) as [Hrv _].
      destruct (are_distinct a b) eqn:Hd.
      * intros [= <-]. cbn [pass_ok]. rewrite !seqs_val_cons, Hlv, Hrv. intros [Heq _].
        injection Heq as Heq _. revert Heq. apply are_distinct_char; [exact Hd|].
        exact (wf_elem_unit_sort l a Hwl1 Hul).
      * intros Hrec.
        apply (pass_ok_step _ _ (drop (S head1) ls) (drop (S head2) rs));
          [|apply (IH _ _ _ _ _ _ Hwl Hwr Hrec)].
        rewrite !seqs_val_cons, Hlv, Hrv. intros Heq. injection Heq as _ Heq.
        split; [exact Heq|rewrite length_app; lia].
    + destruct (is_string r) as [s|] eqn:Hsr.
      * pose proof (wf_elem_string_nonempty r s Hwr1 Hsr) as Hne.
        pose proof (is_string_val ρ r s Hsr) as Hrv.
        pose proof (nonempty_cons s 0 Hne) as Hsplit.
        destruct (bool_decide (length s = 1%nat)) eqn:Hlen.
        -- apply bool_decide_eq_true in Hlen. intros Hrec.
           apply (pass_ok_step _ _ (drop (S head1) ls) (drop (S head2) rs));
             [|apply (IH _ _ _ _ _ _ Hwl Hwr Hrec)].
           rewrite !seqs_val_cons, Hlv, Hrv. intros Heq.
           rewrite Hsplit, Hlen in Heq. cbn in Heq. injection Heq as _ Heq.
           split; [exact Heq|rewrite length_app; lia].
        -- apply bool_decide_eq_false in Hlen. intros Hrec.
           assert (Hlong : (2 ≤ length s)%nat).
           { destruct s as [|? [|? ?]]; cbn in *; [contradiction|lia|lia]. }
           assert (Hs2 : zextract s 1 (length s - 1) ≠ []).
           { unfold zextract. intros Ht. apply (f_equal length) in Ht.
             rewrite length_take, length_drop in Ht. cbn in Ht. lia. }
           pose proof (Forall_wf_insert rs head2 _ Hwr Hs2) as Hw.
           pose proof (IH _ _ _ _ _ _ Hwl Hw Hrec) as Hok.
           rewrite (drop_insert_head rs head2 r _ Hr) in Hok.
           refine (pass_ok_step _ _ _ _ _ _ Hok).
           rewrite !seqs_val_cons, Hlv, Hrv. cbn [seq_val mk_string].
           unfold zextract. intros Heq.
           rewrite Hsplit in Heq at 1. injection Heq as _ Heq.
           split; [exact Heq|rewrite length_app; lia].
      * destruct (is_string l); intros [= <-]; exact Hstop.
  - destruct (is_string l) as [s1|] eqn:Hsl; [|intros [= <-]; exact Hstop].
    destruct (is_string r) as [s2|] eqn:Hsr; [|intros [= <-]; exact Hstop].
    pose proof (is_string_val ρ l s1 Hsl) as Hlv.
    pose proof (is_string_val ρ r s2 Hsr) as Hrv.
    destruct (prefix_clash s1 s2 (length s1 `min` length s2)) eqn:Hc.
    { intros [= <-]. cbn [pass_ok]. rewrite !seqs_val_cons, Hlv, Hrv. intros [Heq _].
      revert Heq. apply prefix_clash_differ. exact Hc. }
    set (m := (length s1 `min` length s2)%nat) in *.
    assert (Hside : ∀ (es : list expr) (h : nat) (e : expr) (s : zstring),
              Forall wf_elem es → es !! h = Some e → (m ≤ length s)%nat →
              let p := if (m =? length s)%nat then (es, S h)
                       else (<[h := mk_string (zextract s m (length s - m))]> es, h) in
              Forall wf_elem p.1 ∧
              seqs_val ρ (drop p.2 p.1) = drop m s ++ seqs_val ρ (drop (S h) es)).
    { intros es h e s Hw He Hm. cbn zeta. destruct (m =? length s)%nat eqn:Hlt.
      - apply Nat.eqb_eq in Hlt. cbn [fst snd]. split; [exact Hw|].
        rewrite Hlt, drop_all. reflexivity.
      - apply Nat.eqb_neq in Hlt. cbn [fst snd].
        assert (Hd : zextract s m (length s - m) = drop m s).
        { unfold zextract. apply take_ge. rewrite length_drop. lia. }
        rewrite Hd. split.
        + apply Forall_wf_insert; [exact Hw|]. intros Ht. apply (f_equal length) in Ht.
          rewrite length_drop in Ht. cbn in Ht. lia.
        + rewrite (drop_insert_head es h e _ He), seqs_val_cons. reflexivity. }
    destruct (Hside ls head1 l s1 Hwl Hl ltac:(lia)) as [Hw1 Hv1].
    destruct (Hside rs head2 r s2 Hwr Hr ltac:(lia)) as [Hw2 Hv2].
    destruct (if (m =? length s1)%nat then (ls, S head1)
              else (<[head1 := mk_string (zextract s1 m (length s1 - m))]> ls, head1))
      as [ls1 h1'].
    destruct (if (m =? length s2)%nat then (rs, S head2)
              else (<[head2 := mk_string (zextract s2 m (length s2 - m))]> rs, head2))
      as [rs1 h2'].
    cbn [fst snd] in *. intros Hrec.
    apply (pass_ok_step _ _ (drop h1' ls1) (drop h2' rs1));
      [|apply (IH _ _ _ _ _ _ Hw1 Hw2 Hrec)].
    rewrite !seqs_val_cons, Hlv, Hrv, Hv1, Hv2. intros Heq. split.
    + apply common_prefix_drop; [exact Heq|lia|lia].
    + rewrite !length_app, length_drop. lia.
Qed.

Lemma reduce_front_loop_sound (fuel : nat) (ls rs : list expr) (head1 head2 : nat)
    (eqs : list (expr * expr)) (o : reduce_outcome) :
  Forall wf_elem ls → Forall wf_elem rs →
  reduce_front_loop fuel ls rs head1 head2 eqs = Some o →
  pass_ok ρ (drop head1 ls) (drop head2 rs) o.
Proof.
  revert ls rs head1 head2 eqs o.
  induction fuel as [|fuel IH]; intros ls rs head1 head2 eqs o Hwl Hwr; [discriminate|].
  cbn [reduce_front_loop].
  assert (Hstop : pass_ok ρ (drop head1 ls) (drop head2 rs)
            (Reduced (remove_leading head1 ls) (remove_leading head2 rs) eqs)).
  { apply pass_ok_same; apply Forall_drop; assumption. }
  destruct (ls !! head1) as [l|] eqn:Hl; [|intros [= <-]; exact Hstop].
  destruct (rs !! head2) as [r|] eqn:Hr; [|intros [= <-]; exact Hstop].
  destruct (is_unit_b r && is_string_b l).
  - intros Hbody. apply pass_ok_sym. revert Hbody.
    apply (reduce_front_round (reduce_front_loop fuel)); assumption.
  - apply (reduce_front_round (reduce_front_loop fuel)); assumption.
Qed.

(** *** [reduce_itos] *)

Lemma uint_codes_digits (u : Decimal.uint) : forallb is_digit_code (uint_codes u) = true.
Proof. induction u; cbn [uint_codes forallb]; try rewrite IHu; reflexivity. Qed.

Lemma nzhead_not_D0 (d d' : Decimal.uint) : Decimal.nzhead d ≠ Decimal.D0 d'.
Proof. induction d; cbn; try discriminate. exact IHd. Qed.

Lemma to_uint_no_leading_zero (n : N) (d : Decimal.uint) :
  N.to_uint n = Decimal.D0 d → d = Decimal.Nil.
Proof.
  intros Hn. pose proof (DecimalN.Unsigned.to_of (N.to_uint n)) as Hnorm.
  rewrite DecimalN.Unsigned.of_to, Hn in Hnorm. unfold Decimal.unorm in Hnorm.
  destruct (Decimal.nzhead (Decimal.D0 d)) eqn:Hz; try discriminate.
  - injection Hnorm as <-. reflexivity.
  - exfalso. apply (nzhead_not_D0 (Decimal.D0 d) u). exact Hz.
Qed.

Lemma uint_codes_head_zero (u : Decimal.uint) (t : zstring) :
  uint_codes u = 48 :: t → ∃ d, u = Decimal.D0 d ∧ t = uint_codes d.
Proof. destruct u; cbn; intros [= <-]. eauto. Qed.

Lemma uint_codes_nil (u : Decimal.uint) : uint_codes u = [] → u = Decimal.Nil.
Proof. destruct u; cbn; try discriminate. reflexivity. Qed.

Lemma sem_itos_digits (n : Z) : forallb is_digit_code (sem_itos n) = true.
Proof.
  unfold sem_itos. destruct (n <? 0); [reflexivity|]. apply uint_codes_digits.
Qed.

Lemma sem_itos_no_leading_zero (n : Z) (t : zstring) : sem_itos n = 48 :: t → t = [].
Proof.
  unfold sem_itos, zstring_of_int. destruct (n <? 0); [discriminate|]. intros Hc.
  apply uint_codes_head_zero in Hc as (d & Hd & ->).
  apply to_uint_no_leading_zero in Hd. subst d. reflexivity.
Qed.

Lemma is_string_vec_val (es : list expr) (s : zstring) :
  is_string_vec es = Some s → seqs_val ρ es = s.
Proof.
  revert s. induction es as [|e es IH]; intros s; cbn [is_string_vec].
  { intros [= <-]. reflexivity. }
  rewrite seqs_val_cons. destruct (is_string e) as [s1|] eqn:Hs.
  - destruct (is_string_vec es) as [s'|]; [|discriminate]. cbn. intros [= <-].
    rewrite (is_string_val ρ e s1 Hs), (IH s' eq_refl). reflexivity.
  - unfold is_unit_const_char. destruct (is_unit e) as [a|] eqn:Hu; [|discriminate].
    destruct (is_const_char a) as [ch|] eqn:Hc; [|discriminate].
    destruct (is_string_vec es) as [s'|]; [|discriminate]. cbn. intros [= <-].
    destruct (is_unit_val ρ e a Hu) as [-> _].
    destruct (is_const_char_val ρ a ch Hc) as [-> _]. rewrite (IH s' eq_refl). reflexivity.
Qed.

Lemma reduce_itos_sound (ls rs : list expr) (eqs : list (expr * expr)) :
  Forall wf_elem ls → Forall wf_elem rs → pass_ok ρ ls rs (reduce_itos ls rs eqs).
Proof.
  intros Hwl Hwr. unfold reduce_itos.
  destruct ls as [|l [|? ?]]; try (apply pass_ok_same; assumption).
  destruct (is_itos l) as [n|] eqn:Hn; [|apply pass_ok_same; assumption].
  destruct (is_string_vec rs) as [s|] eqn:Hs; [|apply pass_ok_same; assumption].
  apply is_app_of1_inv in Hn. subst l. apply is_string_vec_val in Hs.
  assert (Hl : seqs_val ρ [app OP_STRING_ITOS [n]] = sem_itos (int_val ρ n)).
  { unfold seqs_val. cbn. apply app_nil_r. }
  destruct (forallb is_digit_code (encode s)) eqn:Hd; cbn [negb].
  2:{ cbn [pass_ok]. rewrite Hl, Hs. intros [Heq _].
      destruct (forallb is_digit_code s) eqn:Hds.
      - rewrite (encode_digits s Hds) in Hd. congruence.
      - rewrite <- Heq, sem_itos_digits in Hds. discriminate. }
  assert (Hsd : forallb is_digit_code s = true).
  { destruct (forallb is_digit_code s) eqn:Hds; [reflexivity|].
    rewrite (encode_other s Hds) in Hd. discriminate. }
  rewrite (encode_digits s Hsd).
  destruct ((1 <? length s)%nat && (zget s 0 =? 48)) eqn:Hz.
  { cbn [pass_ok]. rewrite Hl, Hs. intros [Heq _].
    apply andb_true_iff in Hz as [Hlen Hz0]. apply Nat.ltb_lt in Hlen.
    destruct s as [|c t]; [cbn in Hlen; lia|]. cbn in Hz0. apply Z.eqb_eq in Hz0. subst c.
    apply sem_itos_no_leading_zero in Heq. subst t. cbn in Hlen. lia. }
  destruct (bool_decide (s = zstring_of_int (parse_decimal s)));
    [apply pass_ok_reset|apply pass_ok_same; assumption].
Qed.

(** *** [reduce_value_clash] *)

Lemma occurrences_app (c : Z) (u v : list Z) :
  occurrences c (u ++ v) = (occurrences c u + occurrences c v)%nat.
Proof. unfold occurrences. rewrite List.filter_app, length_app. reflexivity. Qed.

Lemma occurrences_perm (c : Z) (es es' : list expr) :
  es ≡ₚ es' → occurrences c (seqs_val ρ es) = occurrences c (seqs_val ρ es').
Proof.
  induction 1 as [|x l l' _ IH|x y l|l l' l'' _ IH1 _ IH2].
  - reflexivity.
  - rewrite !seqs_val_cons, !occurrences_app, IH. reflexivity.
  - rewrite !seqs_val_cons, !occurrences_app. lia.
  - rewrite IH1. exact IH2.
Qed.

Lemma remove_swap_perm (r : expr) (es es' : list expr) :
  remove_swap r es = Some es' → es ≡ₚ r :: es'.
Proof.
  revert es'. induction es as [|e es IH]; intros es'; [discriminate|].
  cbn [remove_swap]. destruct (expr_eqb r e) eqn:E.
  - apply expr_eqb_eq in E. subst e. intros [= <-]. constructor.
    destruct (last es) as [b|] eqn:Hl.
    + rewrite (last_removelast es b Hl) at 1. symmetry. apply Permutation_cons_append.
    + apply last_None in Hl. subst es. reflexivity.
  - destruct (remove_swap r es) as [t|]; [|discriminate]. cbn. intros [= <-].
    rewrite (IH t eq_refl). apply Permutation_swap.
Qed.

Lemma remove_swap_None (r : expr) (es : list expr) :
  remove_swap r es = None → r ∉ es.
Proof.
  induction es as [|e es IH]; cbn [remove_swap]; [intros _; apply not_elem_of_nil|].
  destruct (expr_eqb r e) eqn:E; [discriminate|].
  destruct (remove_swap r es); [discriminate|]. intros _.
  apply not_elem_of_cons. split; [|apply IH; reflexivity].
  intros ->. rewrite expr_eqb_refl in E. discriminate.
Qed.

(** What the loop over [rs] leaves: [es] without the elements matched, and
    every element of [rs] not matched is a unit value that is not left. *)
Lemma value_clash_scan_spec (rs es rest : list expr) :
  value_clash_scan rs es = Some rest →
  ∃ matched others,
    es ≡ₚ matched ++ rest ∧ rs ≡ₚ matched ++ others ∧
    Forall (λ d, is_unit_value d = true ∧ d ∉ rest) others.
Proof.
  revert es. induction rs as [|r rs IH]; intros es; cbn [value_clash_scan].
  { intros [= <-]. exists [], []. split; [reflexivity|]. split; [reflexivity|constructor]. }
  destruct (remove_swap r es) as [es'|] eqn:Hrm.
  - intros Hscan. destruct (IH es' Hscan) as (M & D & Hes & Hrs & HD).
    exists (r :: M), D. split; [|split; [|exact HD]].
    + rewrite (remove_swap_perm r es es' Hrm), Hes. reflexivity.
    + rewrite Hrs. reflexivity.
  - destruct (is_unit_value r) eqn:Hv; [|discriminate].
    intros Hscan. destruct (IH es Hscan) as (M & D & Hes & Hrs & HD).
    exists M, (r :: D). split; [exact Hes|]. split.
    + rewrite Hrs. apply Permutation_middle.
    + constructor; [|exact HD]. split; [exact Hv|].
      intros Hin. apply (remove_swap_None r es Hrm). rewrite Hes.
      apply elem_of_app. right. exact Hin.
Qed.

Lemma unit_value_char (e : expr) :
  wf_elem e → is_unit_value e = true →
  ∃ a, is_unit e = Some a ∧ get_sort a = CharSort ∧ is_value e = true ∧
       seq_val ρ e = [char_val ρ a].
Proof.
  intros (_ & _ & Hu) Hv. unfold is_unit_value in Hv. apply andb_true_iff in Hv as [Hv Hb].
  destruct (Hu Hb) as (a & Ha & Hs). exists a. repeat split; try assumption.
  apply (is_unit_val ρ e a Ha).
Qed.

Lemma occurrences_others (c : Z) (e a : expr) (others rest : list expr) :
  e ∈ rest → is_value e = true → is_unit e = Some a → get_sort a = CharSort →
  c = char_val ρ a →
  Forall wf_elem others →
  Forall (λ d, is_unit_value d = true ∧ d ∉ rest) others →
  occurrences c (seqs_val ρ others) = 0%nat.
Proof.
  intros He Hv Ha Hs -> Hw HD. induction HD as [|d D [Hd Hnot] _ IH]; [reflexivity|].
  apply Forall_cons in Hw as [Hwd HwD].
  rewrite seqs_val_cons, occurrences_app, (IH HwD), Nat.add_0_r.
  destruct (unit_value_char d Hwd Hd) as (b & Hb & Hsb & Hvd & ->).
  unfold occurrences. cbn. destruct (char_val ρ a =? char_val ρ b) eqn:E; [|reflexivity].
  exfalso. apply Z.eqb_eq in E. revert E.
  apply (is_value_unit_inj ρ e d a b); try assumption.
  intros ->. contradiction.
Qed.

Lemma reduce_value_clash_sound (ls rs : list expr) (eqs : list (expr * expr)) :
  Forall wf_elem ls → Forall wf_elem rs →
  reduce_value_clash ls rs eqs = false → seqs_val ρ ls ≠ seqs_val ρ rs.
Proof.
  intros Hwl Hwr. unfold reduce_value_clash.
  destruct (bool_decide (ls = []) || bool_decide (rs = [])); [discriminate|].
  destruct (value_clash_scan rs ls) as [rest|] eqn:Hscan; [|discriminate].
  destruct (bool_decide (rest = [])) eqn:Hne; [discriminate|].
  apply bool_decide_eq_false in Hne.
  destruct (existsb (λ e, negb (is_unit_value e)) rest) eqn:Hall; [discriminate|].
  intros _ Heq.
  destruct (value_clash_scan_spec rs ls rest Hscan) as (M & D & Hls & Hrs & HD).
  destruct rest as [|e rest']; [contradiction|].
  assert (Hwe : wf_elem e).
  { apply (proj1 (Forall_forall _ _) Hwl). rewrite Hls. apply elem_of_app. right. left. }
  assert (Hve : is_unit_value e = true).
  { cbn in Hall. apply orb_false_iff in Hall as [Hall _]. apply negb_false_iff in Hall.
    exact Hall. }
  destruct (unit_value_char e Hwe Hve) as (a & Ha & Hs & Hv & Hval).
  assert (HwD : Forall wf_elem D).
  { apply Forall_forall. intros d Hd. apply (proj1 (Forall_forall _ _) Hwr).
    rewrite Hrs. apply elem_of_app. right. exact Hd. }
  pose proof (occurrences_others (char_val ρ a) e a D (e :: rest')
                ltac:(left) Hv Ha Hs eq_refl HwD HD) as HoD.
  pose proof (occurrences_perm (char_val ρ a) _ _ Hls) as Hol.
  pose proof (occurrences_perm (char_val ρ a) _ _ Hrs) as Hor.
  rewrite Heq, Hor in Hol. rewrite !seqs_val_app, !occurrences_app, HoD in Hol.
  rewrite seqs_val_cons, occurrences_app, Hval in Hol.
  unfold occurrences at 3 in Hol. cbn in Hol. rewrite Z.eqb_refl in Hol. cbn in Hol. lia.
Qed.

(** *** [reduce_by_length] *)

Lemma wrap32_add_congr (a a' b b' : Z) :
  wrap32 a = wrap32 a' → wrap32 b = wrap32 b' → wrap32 (a + b) = wrap32 (a' + b').
Proof.
  intros Ha Hb. rewrite <- wrap32_add_l, <- wrap32_add_r, Ha, Hb, wrap32_add_l, wrap32_add_r.
  reflexivity.
Qed.

Lemma wrap32_idemp (a : Z) : wrap32 (wrap32 a) = wrap32 a.
Proof. apply wrap32_small, wrap32_range. Qed.

(** A bounded term has exactly the length the analyzer found, up to the
    wrap-around of its sums. *)
Lemma visit_val_exact (e : expr) :
  (visit_val e).1 = true →
  wrap32 (Z.of_nat (length (seq_val ρ e))) = wrap32 (visit_val e).2.
Proof.
  induction e as [d args IH | i s] using expr_nested_ind; [|cbn; discriminate].
  rewrite visit_val_app.
  destruct (is_unit_b (app d args)) eqn:Hu.
  { rewrite (is_unit_b_val _ _ Hu). reflexivity. }
  destruct (is_empty (app d args)) eqn:He.
  { rewrite (is_empty_val _ _ He). reflexivity. }
  destruct (is_string (app d args)) as [s|] eqn:Hs.
  { rewrite (is_string_val _ _ _ Hs). reflexivity. }
  destruct (bool_decide (d = OP_SEQ_CONCAT)) eqn:Hc.
  { apply bool_decide_eq_true in Hc. subst d.
    rewrite fold_visit_step, seq_val_concat_n. cbn [fst snd andb]. intros Hb.
    assert (Hsum : wrap32 (Z.of_nat (length (seqs_val ρ args))) = wrap32 (visit_sum args)).
    { clear Hu He Hs. induction IH as [|a args Ha _ IHargs]; [reflexivity|].
      cbn [visit_all_bounded forallb] in Hb. apply andb_true_iff in Hb as [Hba Hbs].
      rewrite seqs_val_cons, length_app, Nat2Z.inj_add. cbn [visit_sum foldr].
      fold (visit_sum args). apply wrap32_add_congr; [apply Ha; exact Hba|].
      apply IHargs. exact Hbs. }
    destruct args as [|a args]; [reflexivity|].
    rewrite Z.add_0_l, wrap32_idemp. exact Hsum. }
  destruct (bool_decide (d = OP_ITE)) eqn:Hi; [|cbn; discriminate].
  apply bool_decide_eq_true in Hi. subst d.
  destruct args as [|c [|th [|el [|? ?]]]]; try (cbn; discriminate).
  inversion IH as [|? ? _ IH1]; subst. inversion IH1 as [|? ? Hth IH2]; subst.
  inversion IH2 as [|? ? Hel _]; subst.
  cbn [fst snd seq_val]. intros Hb. apply andb_true_iff in Hb as [Hb Heq].
  apply andb_true_iff in Hb as [Hb1 Hb2]. apply Z.eqb_eq in Heq.
  rewrite <- Heq, Z.min_id. destruct (bool_val ρ c).
  - apply Hth. exact Hb1.
  - rewrite Heq. apply Hel. exact Hb2.
Qed.

Lemma visit_sum_exact (es : list expr) :
  visit_all_bounded es = true →
  wrap32 (Z.of_nat (length (seqs_val ρ es))) = wrap32 (visit_sum es).
Proof.
  induction es as [|e es IH]; [reflexivity|].
  cbn [visit_all_bounded forallb]. intros Hb. apply andb_true_iff in Hb as [Hbe Hbs].
  rewrite seqs_val_cons, length_app, Nat2Z.inj_add. cbn [visit_sum foldr].
  fold (visit_sum es). apply wrap32_add_congr; [apply visit_val_exact; exact Hbe|].
  apply IH. exact Hbs.
Qed.

Lemma min_length_vec_exact (es : list expr) (len : Z) :
  min_length_vec es = (true, len) →
  Z.of_nat (length (seqs_val ρ es)) < 2 ^ 32 →
  Z.of_nat (length (seqs_val ρ es)) = len.
Proof.
  rewrite min_length_vec_spec. intros [= Hb <-] Hsmall.
  rewrite <- (visit_sum_exact es Hb). symmetry. apply wrap32_small. lia.
Qed.

Lemma set_empty_some (es : list expr) (eqs : list (expr * expr)) :
  ∃ eqs', set_empty es false eqs = Some eqs'.
Proof.
  revert eqs. induction es as [|e es IH]; intros eqs; cbn [set_empty]; [eauto|].
  destruct (min_length e) as [bounded len]. destruct (len >? 0); [apply IH|].
  destruct (bounded && (len =? 0)); apply IH.
Qed.

Lemma reduce_by_length_sound (ls rs : list expr) (eqs : list (expr * expr)) :
  Forall wf_elem ls → Forall wf_elem rs → pass_ok ρ ls rs (reduce_by_length ls rs eqs).
Proof.
  intros Hwl Hwr. unfold reduce_by_length.
  destruct (bool_decide (ls = []) && bool_decide (rs = [])); [apply pass_ok_same; assumption|].
  destruct (min_length_vec ls) as [bounded1 len1] eqn:H1.
  destruct (min_length_vec rs) as [bounded2 len2] eqn:H2.
  pose proof (min_length_vec_sound ρ ls) as Hlo1. rewrite H1 in Hlo1. cbn [snd] in Hlo1.
  pose proof (min_length_vec_sound ρ rs) as Hlo2. rewrite H2 in Hlo2. cbn [snd] in Hlo2.
  destruct (bounded1 && (len1 <? len2)) eqn:Hc1.
  { apply andb_true_iff in Hc1 as [-> Hlt]. cbn [pass_ok]. intros [Heq Hsmall].
    pose proof (min_length_vec_exact ls len1 H1 Hsmall) as Hex. rewrite Heq in Hex. lia. }
  destruct (bounded2 && (len2 <? len1)) eqn:Hc2.
  { apply andb_true_iff in Hc2 as [-> Hlt]. cbn [pass_ok]. intros [Heq Hsmall].
    rewrite Heq in Hsmall. pose proof (min_length_vec_exact rs len2 H2 Hsmall) as Hex.
    rewrite <- Heq in Hex. lia. }
  destruct (bounded1 && (len1 =? len2) && (len1 >? 0) && has_var rs).
  { destruct (set_empty_some rs eqs) as [eqs' ->]. apply pass_ok_reset. }
  destruct (bounded2 && (len1 =? len2) && (len1 >? 0) && has_var ls).
  { destruct (set_empty_some ls eqs) as [eqs' ->]. apply pass_ok_reset. }
  apply pass_ok_same; assumption.
Qed.

(** *** [reduce_subsequence] *)

Lemma taken_length_empty (rs : list expr) (j : nat) : taken_length ρ rs j ∅ = 0%nat.
Proof.
  revert j. induction rs as [|y rs IH]; intros j; [reflexivity|].
  cbn [taken_length]. rewrite IH, bool_decide_false by set_solver. reflexivity.
Qed.

Lemma taken_length_le (rs : list expr) (j : nat) (rpos : gset nat) :
  (taken_length ρ rs j rpos ≤ length (seqs_val ρ rs))%nat.
Proof.
  revert j. induction rs as [|y rs IH]; intros j; [reflexivity|].
  cbn [taken_length]. rewrite seqs_val_cons, length_app. specialize (IH (S j)).
  destruct (bool_decide (j ∈ rpos)); lia.
Qed.

Lemma taken_length_insert_lt (rs : list expr) (j k : nat) (rpos : gset nat) :
  (k < j)%nat → taken_length ρ rs j ({[ k ]} ∪ rpos) = taken_length ρ rs j rpos.
Proof.
  revert j. induction rs as [|y rs IH]; intros j Hk; [reflexivity|].
  cbn [taken_length]. rewrite IH by lia.
  rewrite (bool_decide_ext (j ∈ {[ k ]} ∪ rpos) (j ∈ rpos)); [reflexivity|].
  rewrite elem_of_union, elem_of_singleton. split; [intros [?|?]; [lia|assumption]|auto].
Qed.

Lemma subsequence_find_ge (x : expr) (rs : list expr) (j k : nat) (rpos : gset nat) :
  subsequence_find x rs j rpos = Some k → (j ≤ k)%nat.
Proof.
  revert j. induction rs as [|y rs IH]; intros j; cbn [subsequence_find]; [discriminate|].
  destruct (_ && _); [intros [= <-]; lia|]. intros Hf. apply IH in Hf. lia.
Qed.

Lemma subsequence_find_taken (x : expr) (rs : list expr) (j k : nat) (rpos : gset nat) :
  subsequence_find x rs j rpos = Some k →
  taken_length ρ rs j ({[ k ]} ∪ rpos) =
    (taken_length ρ rs j rpos + length (seq_val ρ x))%nat.
Proof.
  revert j. induction rs as [|y rs IH]; intros j; cbn [subsequence_find]; [discriminate|].
  destruct (bool_decide (j ∉ rpos) && (expr_eqb x y || is_unit_b x && is_unit_b y)) eqn:Hc.
  - intros [= <-]. apply andb_true_iff in Hc as [Hj Hm]. apply bool_decide_eq_true in Hj.
    cbn [taken_length]. rewrite taken_length_insert_lt by lia.
    rewrite bool_decide_true by set_solver. rewrite bool_decide_false by exact Hj.
    assert (Hlen : length (seq_val ρ y) = length (seq_val ρ x)).
    { apply orb_true_iff in Hm as [Hm|Hm].
      - apply expr_eqb_eq in Hm. subst y. reflexivity.
      - apply andb_true_iff in Hm as [Hx Hy].
        rewrite (is_unit_b_val ρ x Hx), (is_unit_b_val ρ y Hy). reflexivity. }
    lia.
  - intros Hf. pose proof (subsequence_find_ge _ _ _ _ _ Hf) as Hge.
    cbn [taken_length]. rewrite (IH _ Hf).
    rewrite (bool_decide_ext (j ∈ {[ k ]} ∪ rpos) (j ∈ rpos)); [lia|].
    rewrite elem_of_union, elem_of_singleton. split; [intros [?|?]; [lia|assumption]|auto].
Qed.

Lemma subsequence_match_taken (ls rs : list expr) (rpos0 rpos : gset nat) :
  subsequence_match ls rs rpos0 = Some rpos →
  taken_length ρ rs 0 rpos =
    (taken_length ρ rs 0 rpos0 + length (seqs_val ρ ls))%nat.
Proof.
  revert rpos0. induction ls as [|x ls IH]; intros rpos0; cbn [subsequence_match].
  { intros [= <-]. cbn. lia. }
  destruct (subsequence_find x rs 0 rpos0) as [k|] eqn:Hf; [|discriminate].
  intros Hm. rewrite (IH _ Hm), (subsequence_find_taken _ _ _ _ _ Hf).
  rewrite seqs_val_cons, length_app. lia.
Qed.

Lemma set_empty_one_none (y : expr) (eqs : list (expr * expr)) :
  set_empty [y] true eqs = None → (0 < length (seq_val ρ y))%nat.
Proof.
  cbn [set_empty]. pose proof (min_length_sound ρ y) as Hm.
  destruct (min_length y) as [bounded len]. cbn [snd] in Hm.
  destruct (len >? 0) eqn:Hpos; [intros _; lia|].
  destruct (bounded && (len =? 0)); discriminate.
Qed.

Lemma subsequence_keep_none (rs : list expr) (i : nat) (rpos : gset nat)
    (eqs : list (expr * expr)) :
  subsequence_keep rs i rpos eqs = None →
  (taken_length ρ rs i rpos < length (seqs_val ρ rs))%nat.
Proof.
  revert i eqs. induction rs as [|y rs IH]; intros i eqs; cbn [subsequence_keep];
    [discriminate|].
  cbn [taken_length]. rewrite seqs_val_cons, length_app.
  destruct (bool_decide (i ∈ rpos)).
  - destruct (subsequence_keep rs (S i) rpos eqs) eqn:Hk; [discriminate|].
    intros _. specialize (IH _ _ Hk). lia.
  - destruct (set_empty [y] true eqs) as [eqs'|] eqn:Hs.
    + intros Hk. specialize (IH _ _ Hk). lia.
    + intros _. apply set_empty_one_none in Hs.
      pose proof (taken_length_le rs (S i) rpos). lia.
Qed.

Lemma subsequence_keep_empty (rs : list expr) (i : nat) (eqs eqs' : list (expr * expr))
    (kept : list expr) :
  subsequence_keep rs i ∅ eqs = Some (kept, eqs') → kept = [].
Proof.
  revert i eqs. induction rs as [|y rs IH]; intros i eqs; cbn [subsequence_keep].
  { intros [= <- _]. reflexivity. }
  rewrite bool_decide_false by set_solver.
  destruct (set_empty [y] true eqs); [apply IH|discriminate].
Qed.

Lemma reduce_subsequence_sound (ls rs : list expr) (eqs : list (expr * expr)) :
  Forall wf_elem ls → Forall wf_elem rs → pass_ok ρ ls rs (reduce_subsequence ls rs eqs).
Proof.
  assert (Hcore : ∀ ls rs, Forall wf_elem ls → Forall wf_elem rs →
            pass_ok ρ ls rs
              (if (length ls =? length rs)%nat then Reduced ls rs eqs
               else if bool_decide (ls = []) && (length rs =? 1)%nat then Reduced ls rs eqs
               else
                 match subsequence_match ls rs ∅ with
                 | None => Reduced ls rs eqs
                 | Some rpos =>
                     match subsequence_keep rs 0 rpos eqs with
                     | None => Unsat
                     | Some (kept, eqs) =>
                         if (length kept =? length rs)%nat then Reduced ls rs eqs
                         else if bool_decide (ls = []) then Reduced ls kept eqs
                         else Reduced [] [] (eqs ++ [(mk_concat_n ls, mk_concat_n kept)])
                     end
                 end)).
  { clear ls rs. intros ls rs Hwl Hwr.
    destruct (length ls =? length rs)%nat; [apply pass_ok_same; assumption|].
    destruct (bool_decide (ls = []) && (length rs =? 1)%nat);
      [apply pass_ok_same; assumption|].
    destruct (subsequence_match ls rs ∅) as [rpos|] eqn:Hm;
      [|apply pass_ok_same; assumption].
    destruct (subsequence_keep rs 0 rpos eqs) as [[kept eqs']|] eqn:Hk.
    - destruct (length kept =? length rs)%nat; [apply pass_ok_same; assumption|].
      destruct (bool_decide (ls = [])) eqn:Hnil; [|apply pass_ok_reset].
      apply bool_decide_eq_true in Hnil. subst ls. cbn in Hm. injection Hm as <-.
      apply subsequence_keep_empty in Hk. subst kept. apply pass_ok_reset.
    - cbn [pass_ok]. intros [Heq _].
      pose proof (subsequence_match_taken _ _ _ _ Hm) as Ht.
      rewrite taken_length_empty in Ht.
      pose proof (subsequence_keep_none _ _ _ _ Hk) as Hlt. rewrite Heq in Ht. lia. }
  intros Hwl Hwr. unfold reduce_subsequence.
  destruct (length rs <? length ls)%nat.
  - apply pass_ok_sym. apply Hcore; assumption.
  - apply Hcore; assumption.
Qed.

(** *** [reduce_non_overlap] *)

Lemma existsb_false_inv {A : Type} (f : A → bool) (l : list A) (x : A) :
  existsb f l = false → In x l → f x = false.
Proof.
  intros He Hin. destruct (f x) eqn:Hf; [|reflexivity].
  rewrite <- He. symmetry. apply existsb_exists. eauto.
Qed.

(** A run that cannot overlap is found nowhere inside: not at any offset
    the run fits at. *)
Lemma non_overlap_loops_inside (can_overlap : nat → nat → nat → bool) (sz1 sz2 j : nat) :
  non_overlap_loops can_overlap sz1 sz2 = true →
  (1 ≤ sz1)%nat → (sz1 ≤ sz2)%nat → (j ≤ sz2 - sz1)%nat →
  can_overlap 0%nat sz1 j = false.
Proof.
  unfold non_overlap_loops. intros Hl H1 H12 Hj.
  apply andb_true_iff in Hl as [Hl H3]. apply andb_true_iff in Hl as [_ H2].
  apply negb_true_iff in H2, H3.
  destruct (decide (j < sz2 - sz1)%nat) as [Hlt|Hge].
  - apply (existsb_false_inv _ _ j H2). apply in_seq. lia.
  - assert (j = (sz2 - sz1)%nat) as -> by lia.
    pose proof (existsb_false_inv _ _ (sz2 - sz1)%nat H3) as Hf. cbn beta in Hf.
    replace (sz2 - (sz2 - sz1))%nat with sz1 in Hf by lia. apply Hf. apply in_seq. lia.
Qed.

Lemma can_overlap_walk_false (p1 p2 : list expr) (start2 : nat) (positions : list nat) :
  can_overlap_walk p1 p2 start2 positions = false →
  ∃ i x y, In i positions ∧ p1 !! i = Some x ∧ p2 !! (start2 + i)%nat = Some y ∧
           are_distinct x y = true.
Proof.
  induction positions as [|i positions IH]; cbn [can_overlap_walk]; [discriminate|].
  destruct (p1 !! i) as [x|] eqn:Hx; [|discriminate].
  destruct (p2 !! (start2 + i)%nat) as [y|] eqn:Hy; [|discriminate].
  destruct (are_distinct x y) eqn:Hd.
  - intros _. exists i, x, y. repeat split; try assumption. left. reflexivity.
  - destruct (negb (are_equal x y)); [discriminate|]. intros Hw.
    destruct (IH Hw) as (i' & x' & y' & Hin & Hrest). exists i', x', y'.
    split; [right; exact Hin|exact Hrest].
Qed.

Lemma units_val (us : list expr) :
  forallb is_unit_b us = true →
  length (seqs_val ρ us) = length us ∧
  ∀ i u, us !! i = Some u → seq_val ρ u = [nth i (seqs_val ρ us) 0].
Proof.
  induction us as [|u us IH]; cbn [forallb].
  { intros _. split; [reflexivity|]. intros i u Hu. discriminate. }
  intros Hb. apply andb_true_iff in Hb as [Hu Hus]. destruct (IH Hus) as [Hlen Hnth].
  pose proof (is_unit_b_val ρ u Hu) as H1. rewrite seqs_val_cons.
  destruct (seq_val ρ u) as [|c [|? ?]] eqn:Hv; try discriminate.
  split; [cbn; rewrite Hlen; reflexivity|].
  intros [|i] v Hv'; cbn in Hv'.
  - injection Hv' as <-. exact Hv.
  - cbn. apply Hnth. exact Hv'.
Qed.

Lemma is_unit_b_sort (e : expr) : is_unit_b e = true → get_sort e = SeqSort.
Proof. intros He. apply is_app_of_inv in He as [args ->]. reflexivity. Qed.

(** The run [pat] of units inside one side, the other side all units. *)
Lemma non_overlap_differ (A pat B rs : list expr) :
  forallb is_unit_b pat = true → forallb is_unit_b rs = true →
  non_overlap pat rs = true →
  seqs_val ρ (A ++ pat ++ B) ≠ seqs_val ρ rs.
Proof.
  intros Hup Hur Hno Heq.
  destruct (units_val pat Hup) as [Hlp Hnp]. destruct (units_val rs Hur) as [Hlr Hnr].
  rewrite !seqs_val_app in Heq.
  assert (Hlen : (length (seqs_val ρ A) + length pat + length (seqs_val ρ B)
                  = length rs)%nat).
  { apply (f_equal length) in Heq. rewrite !length_app, Hlp, Hlr in Heq. lia. }
  unfold non_overlap in Hno.
  destruct (length rs <? length pat)%nat eqn:Hsw; [apply Nat.ltb_lt in Hsw; lia|].
  apply Nat.ltb_ge in Hsw.
  destruct ((length pat =? 0)%nat || (length rs =? 0)%nat) eqn:Hz; [discriminate|].
  apply orb_false_iff in Hz as [Hz1 _]. apply Nat.eqb_neq in Hz1.
  assert (Hnostr : (if (length pat =? 1)%nat && (length rs =? 1)%nat
            then match pat, rs with
                 | [e1], [e2] =>
                     match is_string e1, is_string e2 with
                     | Some s1, Some s2 => Some (s1, s2)
                     | _, _ => None
                     end
                 | _, _ => None
                 end
            else None) = None).
  { destruct (_ && _); [|reflexivity]. destruct pat as [|e1 [|? ?]]; try reflexivity.
    destruct rs as [|e2 [|? ?]]; try reflexivity. cbn in Hup.
    rewrite andb_true_r in Hup. apply is_app_of_inv in Hup as [args ->]. reflexivity. }
  rewrite Hnostr, Hup, Hur in Hno. cbn [negb] in Hno.
  pose proof (non_overlap_loops_inside _ _ _ (length (seqs_val ρ A)) Hno
                ltac:(lia) Hsw ltac:(lia)) as Hin.
  unfold can_overlap_exprs in Hin. rewrite Nat.sub_0_r in Hin.
  apply can_overlap_walk_false in Hin as (i & x & y & Hi & Hx & Hy & Hd).
  apply in_seq in Hi.
  pose proof (Hnp _ _ Hx) as Hvx. pose proof (Hnr _ _ Hy) as Hvy.
  assert (Hsame : nth (length (seqs_val ρ A) + i) (seqs_val ρ rs) 0
                  = nth i (seqs_val ρ pat) 0).
  { rewrite <- Heq. rewrite app_nth2 by lia.
    replace (length (seqs_val ρ A) + i - length (seqs_val ρ A))%nat with i by lia.
    apply app_nth1. rewrite Hlp. lia. }
  rewrite Hsame in Hvy. rewrite <- Hvy in Hvx. revert Hvx.
  apply are_distinct_seq; [exact Hd|]. apply is_unit_b_sort.
  apply (proj1 (forallb_forall _ _) Hup). apply (list_elem_of_In pat x).
  apply (list_elem_of_lookup_2 pat i x Hx).
Qed.

Lemma non_overlap_scan_false (ls pattern rs : list expr) :
  forallb is_unit_b pattern = true →
  non_overlap_scan ls pattern rs = false →
  ∃ A pat B, pattern ++ ls = A ++ pat ++ B ∧ forallb is_unit_b pat = true ∧
             non_overlap pat rs = true.
Proof.
  revert pattern. induction ls as [|x ls IH]; intros pattern Hp; cbn [non_overlap_scan].
  - intros Hs. apply negb_false_iff, andb_true_iff in Hs as [_ Hno].
    exists [], pattern, []. rewrite !app_nil_r. auto.
  - destruct (is_unit_b x) eqn:Hx.
    + intros Hs. destruct (IH (pattern ++ [x])) as (A & pat & B & Heq & Hrest).
      { rewrite forallb_app, Hp. cbn. rewrite Hx. reflexivity. }
      { exact Hs. }
      exists A, pat, B. rewrite <- Heq, <- app_assoc. auto.
    + destruct (negb (bool_decide (pattern = []))) eqn:Hne.
      * destruct (non_overlap pattern rs) eqn:Hno.
        -- intros _. exists [], pattern, (x :: ls). auto.
        -- intros Hs. destruct (IH [] eq_refl Hs) as (A & pat & B & Heq & Hrest).
           exists (pattern ++ x :: A), pat, B. cbn in Heq. rewrite Heq, <- app_assoc. auto.
      * apply negb_false_iff, bool_decide_eq_true in Hne. subst pattern.
        intros Hs. destruct (IH [] eq_refl Hs) as (A & pat & B & Heq & Hrest).
        exists (x :: A), pat, B. cbn in Heq. cbn. rewrite Heq. auto.
Qed.

Lemma reduce_non_overlap_sound (ls rs : list expr) (eqs : list (expr * expr)) :
  reduce_non_overlap ls rs eqs = false → seqs_val ρ ls ≠ seqs_val ρ rs.
Proof.
  unfold reduce_non_overlap. destruct (forallb is_unit_b rs) eqn:Hur; [|discriminate].
  cbn [negb]. intros Hs.
  destruct (non_overlap_scan_false ls [] rs eq_refl Hs) as (A & pat & B & Heq & Hup & Hno).
  cbn in Heq. rewrite Heq. apply non_overlap_differ; assumption.
Qed.

End ReducerSoundness.

(** ** The equation reducer returns *)

Section ReducerTotal.
Context `{H : Host}.

Lemma reduce_back_loop_total (fuel : nat) (ls rs : list expr) (eqs : list (expr * expr)) :
  (length ls + length rs < fuel)%nat → ∃ o, reduce_back_loop fuel ls rs eqs = Some o.
Proof.
  revert ls rs eqs. induction fuel as [|fuel IH]; intros ls rs eqs Hf; [lia|].
  cbn [reduce_back_loop].
  destruct (last ls) as [l|] eqn:Hl; [|eauto]. destruct (last rs) as [r|] eqn:Hr; [|eauto].
  apply last_Some in Hl as [ls0 ->]. apply last_Some in Hr as [rs0 ->].
  rewrite !length_app in Hf. cbn in Hf.
  assert (Hround : ∀ (l r : expr) (ls0 rs0 : list expr),
            (length ls0 + length rs0 + 2 ≤ fuel)%nat →
            ∃ o,
              (let ls := ls0 ++ [l] in
               let rs := rs0 ++ [r] in
               if expr_eqb l r then reduce_back_loop fuel (removelast ls) (removelast rs) eqs
               else
                 match is_unit l, is_unit r with
                 | Some a, Some b =>
                     if are_distinct a b then Some Unsat
                     else reduce_back_loop fuel (removelast ls) (removelast rs)
                            (eqs ++ [(a, b)])
                 | _, _ =>
                 match is_unit l, is_string r with
                 | Some a, Some s =>
                     let ch := str_mk_char s (length s - 1) in
                     let new_eqs := eqs ++ [(ch, a)] in
                     let ls := removelast ls in
                     if bool_decide (length s = 1%nat)
                     then reduce_back_loop fuel ls (removelast rs) new_eqs
                     else
                       let s2 := mk_string (zextract s 0 (length s - 1)) in
                       reduce_back_loop fuel ls (<[(length rs - 1)%nat := s2]> rs) new_eqs
                 | _, _ =>
                 match is_string l, is_string r with
                 | Some s1, Some s2 =>
                     let min_l := (length s1 `min` length s2)%nat in
                     if suffix_clash s1 s2 min_l then Some Unsat
                     else
                       let ls := removelast ls in
                       let rs := removelast rs in
                       let ls :=
                         if (min_l <? length s1)%nat
                         then ls ++ [mk_string (zextract s1 0 (length s1 - min_l))]
                         else ls in
                       let rs :=
                         if (min_l <? length s2)%nat
                         then rs ++ [mk_string (zextract s2 0 (length s2 - min_l))]
                         else rs in
                       reduce_back_loop fuel ls rs eqs
                 | _, _ => Some (Reduced ls rs eqs)
                 end end end) = Some o).
  { clear Hf l r ls0 rs0. intros l r ls0 rs0 Hf. cbn zeta. rewrite !removelast_last.
    destruct (expr_eqb l r); [apply IH; lia|].
    destruct (is_unit l) as [a|].
    - destruct (is_unit r) as [b|].
      + destruct (are_distinct a b); [eauto|apply IH; lia].
      + destruct (is_string r) as [s|].
        * destruct (bool_decide (length s = 1%nat)); apply IH;
            rewrite ?length_insert, ?length_app; cbn; lia.
        * destruct (is_string l); eauto.
    - destruct (is_string l) as [s1|]; [|eauto]. destruct (is_string r) as [s2|]; [|eauto].
      destruct (suffix_clash _ _ _); [eauto|]. apply IH.
      destruct (Nat.ltb_spec (length s1 `min` length s2) (length s1));
        destruct (Nat.ltb_spec (length s1 `min` length s2) (length s2));
        rewrite ?length_app; cbn; lia. }
  destruct (is_unit_b r && is_string_b l); apply Hround; lia.
Qed.

Lemma reduce_front_loop_total (fuel : nat) (ls rs : list expr) (head1 head2 : nat)
    (eqs : list (expr * expr)) :
  ((length ls - head1) + (length rs - head2) < fuel)%nat →
  ∃ o, reduce_front_loop fuel ls rs head1 head2 eqs = Some o.
Proof.
  revert ls rs head1 head2 eqs.
  induction fuel as [|fuel IH]; intros ls rs head1 head2 eqs Hf; [lia|].
  cbn [reduce_front_loop].
  destruct (ls !! head1) as [l|] eqn:Hl; [|eauto].
  destruct (rs !! head2) as [r|] eqn:Hr; [|eauto].
  apply lookup_lt_Some in Hl, Hr.
  assert (Hround : ∀ (l r : expr) (ls rs : list expr) (head1 head2 : nat),
            (head1 < length ls)%nat → (head2 < length rs)%nat →
            ((length ls - head1) + (length rs - head2) ≤ fuel)%nat →
            ∃ o,
              (if expr_eqb l r then reduce_front_loop fuel ls rs (S head1) (S head2) eqs
               else
                 match is_unit l, is_unit r with
                 | Some a, Some b =>
                     if are_distinct a b then Some Unsat
                     else reduce_front_loop fuel ls rs (S head1) (S head2)
                            (eqs ++ [(a, b)])
                 | _, _ =>
                 match is_unit l, is_string r with
                 | Some a, Some s =>
                     let ch := str_mk_char s 0 in
                     let new_eqs := eqs ++ [(ch, a)] in
                     if bool_decide (length s = 1%nat)
                     then reduce_front_loop fuel ls rs (S head1) (S head2) new_eqs
                     else
                       let s2 := mk_string (zextract s 1 (length s - 1)) in
                       reduce_front_loop fuel ls (<[head2 := s2]> rs) (S head1) head2 new_eqs
                 | _, _ =>
                 match is_string l, is_string r with
                 | Some s1, Some s2 =>
                     let min_l := (length s1 `min` length s2)%nat in
                     if prefix_clash s1 s2 min_l then Some Unsat
                     else
                       let '(ls, head1) :=
                         if (min_l =? length s1)%nat then (ls, S head1)
                         else (<[head1 := mk_string
                                            (zextract s1 min_l (length s1 - min_l))]> ls,
                               head1) in
                       let '(rs, head2) :=
                         if (min_l =? length s2)%nat then (rs, S head2)
                         else (<[head2 := mk_string
                                            (zextract s2 min_l (length s2 - min_l))]> rs,
                               head2) in
                       reduce_front_loop fuel ls rs head1 head2 eqs
                 | _, _ =>
                     Some (Reduced (remove_leading head1 ls) (remove_leading head2 rs) eqs)
                 end end end) = Some o).
  { clear Hf Hl Hr l r ls rs head1 head2. intros l r ls rs head1 head2 H1 H2 Hf. cbn zeta.
    destruct (expr_eqb l r); [apply IH; lia|].
    destruct (is_unit l) as [a|].
    - destruct (is_unit r) as [b|].
      + destruct (are_distinct a b); [eauto|apply IH; lia].
      + destruct (is_string r) as [s|].
        * destruct (bool_decide (length s = 1%nat)); apply IH;
            rewrite ?length_insert; lia.
        * destruct (is_string l); eauto.
    - destruct (is_string l) as [s1|]; [|eauto]. destruct (is_string r) as [s2|]; [|eauto].
      destruct (prefix_clash _ _ _); [eauto|].
      destruct (Nat.eqb_spec (length s1 `min` length s2) (length s1));
        destruct (Nat.eqb_spec (length s1 `min` length s2) (length s2));
        apply IH; rewrite ?length_insert; lia. }
  destruct (is_unit_b r && is_string_b l); apply Hround; lia.
Qed.

Lemma and_then_total (x : option reduce_outcome)
    (f : list expr → list expr → list (expr * expr) → option reduce_outcome) :
  (∃ o, x = Some o) → (∀ ls rs eqs, ∃ o, f ls rs eqs = Some o) →
  ∃ o, and_then x f = Some o.
Proof. intros [[|ls rs eqs] ->] Hf; cbn; eauto. Qed.

Lemma check_pass_total (ok : bool) (ls rs : list expr) (eqs : list (expr * expr)) :
  ∃ o, check_pass ok ls rs eqs = Some o.
Proof. destruct ok; cbn; eauto. Qed.

Lemma reduce_eq_passes_total (ls rs : list expr) (eqs : list (expr * expr)) :
  ∃ o, reduce_eq_passes ls rs eqs = Some o.
Proof.
  unfold reduce_eq_passes.
  apply and_then_total; [apply reduce_back_loop_total; lia|]. intros ls1 rs1 eqs1.
  apply and_then_total; [apply reduce_front_loop_total; lia|]. intros ls2 rs2 eqs2.
  apply and_then_total; [eauto|]. intros ls3 rs3 eqs3.
  apply and_then_total; [eauto|]. intros ls4 rs4 eqs4.
  apply and_then_total; [apply check_pass_total|]. intros ls5 rs5 eqs5.
  apply and_then_total; [eauto|]. intros ls6 rs6 eqs6.
  apply and_then_total; [eauto|]. intros ls7 rs7 eqs7.
  apply and_then_total; [apply check_pass_total|]. intros ls8 rs8 eqs8.
  apply check_pass_total.
Qed.

End ReducerTotal.

(** ** The equation reducer: what its answer means *)

Section ReduceEq.
Context `{HS : HostSound}.
Variable ρ : env.

Lemma remove_empty_and_concats_flat (es : list expr) :
  Forall flat_elem es →
  Forall wf_elem (remove_empty_and_concats es) ∧
  seqs_val ρ (remove_empty_and_concats es) = seqs_val ρ es.
Proof.
  intros Hf. unfold remove_empty_and_concats.
  assert (Hnc : existsb is_concat_b es = false).
  { induction Hf as [|e es [He _] _ IH]; [reflexivity|]. cbn. rewrite He, IH. reflexivity. }
  rewrite Hnc. induction Hf as [|e es [Hc Hu] _ IH]; [split; [constructor|reflexivity]|].
  cbn in Hnc. apply orb_false_iff in Hnc as [_ Hnc]. destruct (IH Hnc) as [Hw Hv].
  cbn [List.filter]. rewrite (seqs_val_cons ρ e es). destruct (is_empty e) eqn:He; cbn [negb].
  - rewrite (is_empty_val ρ e He). split; [exact Hw|exact Hv].
  - split; [constructor; [repeat split; assumption|exact Hw]|].
    rewrite seqs_val_cons, Hv. reflexivity.
Qed.

Lemma and_then_sound (ls rs : list expr) (x : option reduce_outcome)
    (f : list expr → list expr → list (expr * expr) → option reduce_outcome)
    (o : reduce_outcome) :
  (∀ o1, x = Some o1 → pass_ok ρ ls rs o1) →
  (∀ ls1 rs1 eqs1 o', Forall wf_elem ls1 → Forall wf_elem rs1 →
     f ls1 rs1 eqs1 = Some o' → pass_ok ρ ls1 rs1 o') →
  and_then x f = Some o → pass_ok ρ ls rs o.
Proof.
  intros Hx Hf. destruct x as [[|ls1 rs1 eqs1]|]; cbn [and_then]; [| |discriminate].
  - intros [= <-]. apply Hx. reflexivity.
  - intros Ho. destruct (Hx _ eq_refl) as (Hwl & Hwr & Hstep).
    apply (pass_ok_step ρ ls rs ls1 rs1); [exact Hstep|]. apply (Hf _ _ _ _ Hwl Hwr Ho).
Qed.

Lemma check_pass_sound (ok : bool) (ls rs : list expr) (eqs : list (expr * expr))
    (o : reduce_outcome) :
  Forall wf_elem ls → Forall wf_elem rs →
  (ok = false → seqs_val ρ ls ≠ seqs_val ρ rs) →
  check_pass ok ls rs eqs = Some o → pass_ok ρ ls rs o.
Proof.
  intros Hwl Hwr Hok. destruct ok; cbn; intros [= <-].
  - apply pass_ok_same; assumption.
  - cbn. intros [Heq _]. exact (Hok eq_refl Heq).
Qed.

Lemma reduce_eq_passes_sound (ls rs : list expr) (eqs : list (expr * expr))
    (o : reduce_outcome) :
  Forall flat_elem ls → Forall flat_elem rs →
  reduce_eq_passes ls rs eqs = Some o → pass_ok ρ ls rs o.
Proof.
  intros Hfl Hfr. unfold reduce_eq_passes.
  destruct (remove_empty_and_concats_flat ls Hfl) as [Hwl Hvl].
  destruct (remove_empty_and_concats_flat rs Hfr) as [Hwr Hvr].
  intros Ho.
  assert (Hok : pass_ok ρ (remove_empty_and_concats ls) (remove_empty_and_concats rs) o).
  { revert Ho. apply and_then_sound.
    { intros o1. apply reduce_back_loop_sound; assumption. }
    intros ls1 rs1 eqs1 o1 Hw1 Hw1'. apply and_then_sound.
    { intros o2 Ho2. apply (reduce_front_loop_sound ρ _ ls1 rs1 0 0 eqs1 o2 Hw1 Hw1' Ho2). }
    intros ls2 rs2 eqs2 o2 Hw2 Hw2'. apply and_then_sound.
    { intros o3 [= <-]. apply reduce_itos_sound; assumption. }
    intros ls3 rs3 eqs3 o3 Hw3 Hw3'. apply and_then_sound.
    { intros o4 [= <-]. apply pass_ok_flip. apply reduce_itos_sound; assumption. }
    intros ls4 rs4 eqs4 o4 Hw4 Hw4'. apply and_then_sound.
    { intros o5. apply check_pass_sound; try assumption.
      apply reduce_value_clash_sound; assumption. }
    intros ls5 rs5 eqs5 o5 Hw5 Hw5'. apply and_then_sound.
    { intros o6 [= <-]. apply reduce_by_length_sound; assumption. }
    intros ls6 rs6 eqs6 o6 Hw6 Hw6'. apply and_then_sound.
    { intros o7 [= <-]. apply reduce_subsequence_sound; assumption. }
    intros ls7 rs7 eqs7 o7 Hw7 Hw7'. apply and_then_sound.
    { intros o8. apply check_pass_sound; try assumption. apply reduce_non_overlap_sound. }
    intros ls8 rs8 eqs8 o8 Hw8 Hw8'. apply check_pass_sound; try assumption.
    intros Hno Heq. symmetry in Heq. revert Heq. apply (reduce_non_overlap_sound ρ _ _ eqs8).
    exact Hno. }
  destruct o as [|ls' rs' eqs']; cbn [pass_ok] in *.
  - rewrite <- Hvl, <- Hvr. exact Hok.
  - rewrite <- Hvl, <- Hvr. exact Hok.
Qed.

(** C3, as amended.  On flattened sides of atomic terms [reduce_eq]
    returns, and when it returns [false] the two concatenations differ
    under every assignment that gives them fewer than [2^32] elements (the
    range of the unsigned lengths the reducer computes with). *)
Theorem reduce_eq_false_sound (ls rs : list expr) (eqs : list (expr * expr)) :
  Forall flat_elem ls → Forall flat_elem rs →
  (∃ r, reduce_eq ls rs eqs = Some r) ∧
  (∀ change, reduce_eq ls rs eqs = Some (Unsat, change) →
     Z.of_nat (length (seqs_val ρ ls)) < 2 ^ 32 →
     seqs_val ρ ls ≠ seqs_val ρ rs).
Proof.
  intros Hfl Hfr. split.
  - unfold reduce_eq. destruct (reduce_eq_passes_total ls rs eqs) as [[|ls' rs' eqs'] ->]; eauto.
  - intros change. unfold reduce_eq.
    destruct (reduce_eq_passes ls rs eqs) as [[|ls' rs' eqs']|] eqn:Hp; try discriminate.
    intros _ Hsmall Heq.
    apply (reduce_eq_passes_sound ls rs eqs Unsat Hfl Hfr Hp). split; assumption.
Qed.

End ReduceEq.

Lemma reduce_eq_false_sound_witness :
  let x := app (OP_UNINTERPRETED 1 SeqSort) [] in
  let ls := [mk_unit (mk_char 97); x] in
  let rs := [x; mk_unit (mk_char 98)] in
  Forall flat_elem ls ∧ Forall flat_elem rs ∧
  @reduce_eq default_host ls rs [] = Some (Unsat, false) ∧
  seqs_val default_env ls ≠ seqs_val default_env rs.
Proof.
  intros x ls rs.
  assert (Hx : flat_elem x).
  { split; [reflexivity|]. intros Hu. discriminate Hu. }
  assert (Hu : ∀ c, flat_elem (mk_unit (mk_char c))).
  { intros c. split; [reflexivity|]. intros _. exists (mk_char c). split; reflexivity. }
  assert (Hls : Forall flat_elem ls) by (repeat constructor; [apply Hu|apply Hx]).
  assert (Hrs : Forall flat_elem rs) by (repeat constructor; [apply Hx|apply Hu]).
  split; [exact Hls|]. split; [exact Hrs|]. split; [vm_compute; reflexivity|].
  destruct (@reduce_eq_false_sound default_host default_host_sound default_env ls rs []
              Hls Hrs) as [_ Hsound].
  apply (Hsound false); [vm_compute; reflexivity|vm_compute; reflexivity].
Defined.

(** C3 as stated fails from right to left: the equation [x x = "a"] has no
    solution (the left side has even length), and [reduce_eq] returns
    [true] on it. *)
Lemma reduce_eq_incomplete :
  (∃ ls' rs' eqs' change,
     @reduce_eq default_host
       [app (OP_UNINTERPRETED 1 SeqSort) []; app (OP_UNINTERPRETED 1 SeqSort) []]
       [mk_string [97]] [] = Some (Reduced ls' rs' eqs', change)) ∧
  (∀ ρ, seqs_val ρ [app (OP_UNINTERPRETED 1 SeqSort) []; app (OP_UNINTERPRETED 1 SeqSort) []]
        ≠ seqs_val ρ [mk_string [97]]).
Proof.
  split.
  - vm_compute. eauto.
  - intros ρ Heq. apply (f_equal length) in Heq. unfold seqs_val in Heq. cbn in Heq.
    rewrite !length_app in Heq. cbn in Heq. lia.
Qed.

(** ** The reference host at work *)

Example mk_derivative_star_then_literal :
  @mk_derivative default_host 4 (mk_char 97)
    (re.mk_concat (re.mk_star (re.mk_to_re (mk_string [97]))) (re.mk_to_re (mk_string [97; 98])))
  = Some (re.mk_union (re.mk_to_re (mk_string [98]))
            (re.mk_concat (re.mk_star (re.mk_to_re (mk_string [97])))
               (re.mk_to_re (mk_string [97; 98])))).
Proof. vm_compute. reflexivity. Qed.

Example mk_str_in_regexp_literal :
  @mk_str_in_regexp default_host 4 (mk_string [97; 98])
    (re.mk_concat (re.mk_to_re (mk_string [97])) re.mk_full_seq)
  = Some (BR_DONE, Some mk_true).
Proof. vm_compute. reflexivity. Qed.

Example reduce_eq_strings_clash :
  @reduce_eq default_host
    [app (OP_UNINTERPRETED 1 SeqSort) []; mk_string [97; 98]]
    [app (OP_UNINTERPRETED 2 SeqSort) []; mk_string [99; 98]] []
  = Some (Unsat, false).
Proof. vm_compute. reflexivity. Qed.

Example reduce_eq_run_of_units :
  let x := app (OP_UNINTERPRETED 1 SeqSort) [] in
  let y := app (OP_UNINTERPRETED 2 SeqSort) [] in
  let u c := mk_unit (mk_char c) in
  @reduce_eq default_host [x; u 97; u 98; y] [u 99; u 100; u 101] [] = Some (Unsat, false).
Proof. vm_compute. reflexivity. Qed.

Example reduce_eq_itos_numeral :
  @reduce_eq default_host [mk_itos (var 0 IntSort)] [mk_string [49; 50]] []
  = Some (Reduced [] [] [(var 0 IntSort, mk_numeral 12)], true).
Proof. vm_compute. reflexivity. Qed.

Example reduce_eq_front_and_back :
  let x := app (OP_UNINTERPRETED 1 SeqSort) [] in
  @reduce_eq default_host [mk_string [97]; x; mk_string [99]] [mk_string [97; 98; 99]] []
  = Some (Reduced [x] [mk_string [98]] [], true).
Proof. vm_compute. reflexivity. Qed.

(** * Part III: the functions one by one *)

(** ** Length analyzer: the flag [bounded] and [eq_length] *)

Section LengthExact.
Variable ρ : env.

Lemma min_length_exact (e : expr) (len : Z) :
  min_length e = (true, len) →
  Z.of_nat (length (seq_val ρ e)) < 2 ^ 32 →
  Z.of_nat (length (seq_val ρ e)) = len.
Proof.
  intros Hmin Hsmall.
  assert (Hv : seqs_val ρ [e] = seq_val ρ e).
  { unfold seqs_val. cbn. apply app_nil_r. }
  rewrite <- Hv in *. apply min_length_vec_exact; assumption.
Qed.

(** [min_length], 5800-5893.  When the analyzer reports a term as bounded,
    the number it returns is not only a lower bound: it is the length of the
    sequence under every assignment (that gives it fewer than [2^32]
    elements, the range of the unsigned counter). *)
Theorem min_length_bounded_exact (e : expr) (len : Z) :
  min_length e = (true, len) →
  Z.of_nat (length (seq_val ρ e)) < 2 ^ 32 →
  Z.of_nat (length (seq_val ρ e)) = len.
Proof. apply min_length_exact. Qed.

(** [eq_length], 5784-5792.  The three-valued comparison is sound both
    ways: [l_true] only for sequences of the same length, [l_false] only for
    sequences of different lengths, under every assignment that keeps the two
    sequences shorter than [2^32]. *)
Theorem eq_length_sound (x y : expr) :
  Z.of_nat (length (seq_val ρ x)) < 2 ^ 32 →
  Z.of_nat (length (seq_val ρ y)) < 2 ^ 32 →
  (eq_length x y = l_true → length (seq_val ρ x) = length (seq_val ρ y)) ∧
  (eq_length x y = l_false → length (seq_val ρ x) ≠ length (seq_val ρ y)).
Proof.
  intros Hx Hy. unfold eq_length.
  destruct (min_length x) as [bx xl] eqn:Ex. destruct (min_length y) as [by_ yl] eqn:Ey.
  destruct bx; cbn [negb]; [|split; discriminate].
  destruct by_; cbn [negb]; [|split; discriminate].
  pose proof (min_length_exact x xl Ex Hx) as Hxl.
  pose proof (min_length_exact y yl Ey Hy) as Hyl.
  destruct (xl =? yl) eqn:E; split; try discriminate; intros _.
  - apply Z.eqb_eq in E. lia.
  - apply Z.eqb_neq in E. lia.
Qed.

End LengthExact.

Lemma min_length_bounded_exact_witness :
  let e := mk_concat (mk_string [97; 98]) (mk_ite (var 0 BoolSort) (mk_unit (var 1 CharSort)) (mk_string [99])) in
  min_length e = (true, 3) ∧ Z.of_nat (length (seq_val default_env e)) = 3.
Proof.
  intros e. split; [vm_compute; reflexivity|].
  apply (min_length_bounded_exact default_env e 3); vm_compute; reflexivity.
Defined.

Lemma eq_length_sound_witness :
  let x := mk_concat (mk_string [97; 98]) (mk_unit (var 1 CharSort)) in
  let y := mk_string [100; 101; 102] in
  let z := mk_unit (var 2 CharSort) in
  length (seq_val default_env x) = length (seq_val default_env y) ∧
  length (seq_val default_env x) ≠ length (seq_val default_env z).
Proof.
  intros x y z. split.
  - apply (eq_length_sound default_env x y); vm_compute; reflexivity.
  - apply (eq_length_sound default_env x z); vm_compute; reflexivity.
Defined.

(** ** Operation cache: the trail, and the entries an insert leaves alone *)

Section OpCachePinFacts.
Context {ptr : Type} `{Countable ptr}.
Variable m_max_cache_size : nat.

Lemma trail_push_mono (x : option ptr) (trail : list ptr) (p : ptr) :
  p ∈ trail → p ∈ trail_push x trail.
Proof. destruct x; cbn; [|auto]. intros Hp. apply elem_of_app. left. exact Hp. Qed.

Lemma trail_push_elem (x : option ptr) (trail : list ptr) (p : ptr) :
  p ∈ option_list x → p ∈ trail_push x trail.
Proof.
  destruct x as [q|]; cbn; intros Hp.
  - apply elem_of_app. right. exact Hp.
  - apply elem_of_nil in Hp. contradiction.
Qed.

Lemma op_cache_cleanup_pinned (cache : op_cache (ptr := ptr)) :
  op_cache_pinned cache → op_cache_pinned (op_cache_cleanup m_max_cache_size cache).
Proof.
  intros Hp. unfold op_cache_cleanup.
  destruct (decide (m_max_cache_size ≤ size (m_table cache))%nat); [|exact Hp].
  intros k r p Hk. cbn in Hk. rewrite lookup_empty in Hk. discriminate.
Qed.

(** [op_cache::insert] and [cleanup], 6226-6243.  Along every run of
    inserts from the empty cache the trail holds every term the table
    refers to, as an argument or as a result: the cache never keeps a term
    it has not pinned, also across the resets at the cap. *)
Theorem op_cache_trail_pins (cache : op_cache (ptr := ptr)) :
  op_cache_reachable m_max_cache_size cache → op_cache_pinned cache.
Proof.
  induction 1 as [|op a b c r cache _ IH].
  - intros k r p Hk. cbn in Hk. rewrite lookup_empty in Hk. discriminate.
  - apply op_cache_cleanup_pinned in IH. unfold op_cache_insert.
    set (cache' := op_cache_cleanup m_max_cache_size cache) in *.
    intros k r' p Hk Hp. cbn [m_table m_trail] in *.
    destruct (decide (k = (op, a, b, c))) as [->|Hne].
    + rewrite lookup_insert_eq in Hk. injection Hk as <-.
      cbn in Hp. rewrite !elem_of_app in Hp.
      destruct Hp as [Hp|[Hp|[Hp|Hp]]].
      * do 3 apply trail_push_mono. apply trail_push_elem. exact Hp.
      * do 2 apply trail_push_mono. apply trail_push_elem. exact Hp.
      * apply trail_push_mono. apply trail_push_elem. exact Hp.
      * apply trail_push_elem. exact Hp.
    + rewrite lookup_insert_ne in Hk by congruence.
      do 4 apply trail_push_mono. exact (IH k r' p Hk Hp).
Qed.

(** [op_cache::insert] and [find], 6219-6233.  An insert never changes what
    is cached under another key, except by forgetting it: below the cap
    [find] on any other key answers as before, at the cap it answers null. *)
Theorem op_cache_insert_other (op op' : Z) (a b c r a' b' c' : option ptr)
    (cache : op_cache (ptr := ptr)) :
  (op', a', b', c') ≠ (op, a, b, c) →
  op_cache_find op' a' b' c' (op_cache_insert m_max_cache_size op a b c r cache) =
    if decide (m_max_cache_size ≤ size (m_table cache))%nat then None
    else op_cache_find op' a' b' c' cache.
Proof.
  intros Hne. unfold op_cache_find, op_cache_insert, op_cache_cleanup. cbn [m_table].
  rewrite lookup_insert_ne by congruence.
  destruct (decide (m_max_cache_size ≤ size (m_table cache))%nat); [|reflexivity].
  cbn. rewrite lookup_empty. reflexivity.
Qed.

End OpCachePinFacts.

Lemma op_cache_trail_pins_witness :
  let c1 := op_cache_insert 2 7 (Some 5%positive) None None (Some 6%positive) op_cache_empty in
  let c2 := op_cache_insert 2 8 (Some 6%positive) (Some 9%positive) None None c1 in
  let c3 := op_cache_insert 2 9 (Some 1%positive) None None (Some 2%positive) c2 in
  op_cache_reachable 2 c3 ∧ op_cache_pinned c3.
Proof.
  intros c1 c2 c3.
  assert (Hr : op_cache_reachable 2 c3) by (repeat constructor).
  split; [exact Hr|]. exact (op_cache_trail_pins 2 c3 Hr).
Defined.

Lemma op_cache_insert_other_witness :
  let c1 := op_cache_insert 2 7 (Some 5%positive) None None (Some 6%positive) op_cache_empty in
  let c2 := op_cache_insert 2 8 (Some 6%positive) None None (Some 3%positive) c1 in
  op_cache_find 7 (Some 5%positive) None None c2 = Some 6%positive ∧
  op_cache_find 7 (Some 5%positive) None None
    (op_cache_insert 2 9 (Some 1%positive) None None (Some 2%positive) c2) = None.
Proof.
  intros c1 c2. split.
  - unfold c2. rewrite (op_cache_insert_other 2 8 7) by discriminate. vm_compute. reflexivity.
  - rewrite (op_cache_insert_other 2 9 7) by discriminate. vm_compute. reflexivity.
Defined.

(** ** Sequence helpers: the values of the terms they build *)

Section SeqHelperFacts.
Context `{H : Host}.
Variable ρ : env.

Lemma seq_val_mk_concat (a b : expr) :
  seq_val ρ (mk_concat a b) = seq_val ρ a ++ seq_val ρ b.
Proof. cbn. rewrite app_nil_r. reflexivity. Qed.

Lemma is_concat_val (e a b : expr) :
  is_concat e = Some (a, b) → seq_val ρ e = seq_val ρ a ++ seq_val ρ b.
Proof. intros He. apply is_app_of2_inv in He. subst e. apply seq_val_mk_concat. Qed.

Lemma mk_seq_concat_core_value (a b r : expr) (st : br_status) :
  mk_seq_concat_core a b = (st, Some r) → seq_val ρ r = seq_val ρ a ++ seq_val ρ b.
Proof.
  unfold mk_seq_concat_core.
  destruct (is_string a) as [s1|] eqn:Ea; destruct (is_string b) as [s2|] eqn:Eb.
  - rewrite (is_string_val ρ a s1 Ea), (is_string_val ρ b s2 Eb).
    destruct (m_coalesce_chars && m_coalesce_chars).
    { intros [= _ <-]. reflexivity. }
    destruct (str.is_empty a) eqn:Eea.
    { intros [= _ <-]. rewrite <- (is_string_val ρ a s1 Ea), (is_empty_val ρ a Eea).
      rewrite (is_string_val ρ b s2 Eb). reflexivity. }
    destruct (str.is_empty b) eqn:Eeb; [|discriminate].
    intros [= _ <-]. rewrite <- (is_string_val ρ b s2 Eb), (is_empty_val ρ b Eeb).
    rewrite app_nil_r. apply (is_string_val ρ a s1 Ea).
  - assert (Hc : is_concat a = None).
    { destruct (is_concat a) as [[c d]|] eqn:Ec; [|reflexivity].
      apply is_app_of2_inv in Ec. subst a. discriminate. }
    rewrite Hc. destruct (str.is_empty a) eqn:Eea.
    { intros [= _ <-]. rewrite (is_empty_val ρ a Eea). reflexivity. }
    destruct (str.is_empty b) eqn:Eeb.
    { intros [= _ <-]. rewrite (is_empty_val ρ b Eeb), app_nil_r. reflexivity. }
    destruct (is_concat b) as [[c d]|] eqn:Ecb; [|discriminate].
    destruct (is_string c) as [s2|] eqn:Ec; [|discriminate].
    destruct m_coalesce_chars; [|discriminate].
    intros [= _ <-]. rewrite seq_val_mk_concat, (is_concat_val b c d Ecb).
    rewrite (is_string_val ρ a s1 Ea), (is_string_val ρ c s2 Ec).
    change (seq_val ρ (mk_string (s1 ++ s2))) with (s1 ++ s2).
    rewrite <- app_assoc. reflexivity.
  - destruct (is_concat a) as [[c d]|] eqn:Eca.
    { intros [= _ <-]. rewrite !seq_val_mk_concat, (is_concat_val a c d Eca), <- app_assoc.
      reflexivity. }
    destruct (str.is_empty a) eqn:Eea.
    { intros [= _ <-]. rewrite (is_empty_val ρ a Eea). reflexivity. }
    destruct (str.is_empty b) eqn:Eeb; [|discriminate].
    intros [= _ <-]. rewrite (is_empty_val ρ b Eeb), app_nil_r. reflexivity.
  - destruct (is_concat a) as [[c d]|] eqn:Eca.
    { intros [= _ <-]. rewrite !seq_val_mk_concat, (is_concat_val a c d Eca), <- app_assoc.
      reflexivity. }
    destruct (str.is_empty a) eqn:Eea.
    { intros [= _ <-]. rewrite (is_empty_val ρ a Eea). reflexivity. }
    destruct (str.is_empty b) eqn:Eeb; [|discriminate].
    intros [= _ <-]. rewrite (is_empty_val ρ b Eeb), app_nil_r. reflexivity.
Qed.

Lemma mk_seq_concat_val (a b : expr) :
  seq_val ρ (mk_seq_concat a b) = seq_val ρ a ++ seq_val ρ b.
Proof.
  unfold mk_seq_concat, rewritten.
  destruct (mk_seq_concat_core a b) as [st [r|]] eqn:E; cbn [snd default].
  - exact (mk_seq_concat_core_value a b r st E).
  - apply seq_val_mk_concat.
Qed.

(** [mk_seq_concat], 795-827.  Whatever rule fires (literals merged, the
    concatenation re-associated, an empty side dropped, a literal merged into
    the head of the right side) or none, the term built denotes the
    concatenation of the two arguments under every assignment. *)
Theorem mk_seq_concat_value (a b : expr) :
  seq_val ρ (mk_seq_concat a b) = seq_val ρ a ++ seq_val ρ b ∧
  ∀ st r, mk_seq_concat_core a b = (st, Some r) →
          seq_val ρ r = seq_val ρ (mk_concat a b).
Proof.
  split; [apply mk_seq_concat_val|].
  intros st r E. rewrite seq_val_mk_concat. exact (mk_seq_concat_core_value a b r st E).
Qed.

Lemma get_head_tail_eq (s : expr) :
  get_head_tail s =
    match is_unit s with
    | Some h => Some (h, mk_empty)
    | None =>
        match is_string s with
        | Some (c :: s1) => Some (mk_char c, mk_string (zextract (c :: s1) 1 (length (c :: s1))))
        | _ =>
            match s with
            | app OP_SEQ_CONCAT [h; t] =>
                match get_head_tail h with
                | Some (head, tail) => Some (head, mk_seq_concat tail t)
                | None => None
                end
            | _ => None
            end
        end
    end.
Proof. destruct s; reflexivity. Qed.

Lemma get_head_tail_val (s : expr) :
  ∀ h t, get_head_tail s = Some (h, t) → seq_val ρ s = char_val ρ h :: seq_val ρ t.
Proof.
  induction s as [d args IH|i srt] using expr_nested_ind; intros h t; rewrite get_head_tail_eq.
  - destruct (is_unit (app d args)) as [u|] eqn:Eu.
    { intros [= <- <-]. apply (is_unit_val ρ) in Eu as [-> _]. reflexivity. }
    assert (Hcat : match app d args with
                   | app OP_SEQ_CONCAT [h0; t0] =>
                       match get_head_tail h0 with
                       | Some (head, tail) => Some (head, mk_seq_concat tail t0)
                       | None => None
                       end
                   | _ => None
                   end = Some (h, t) →
                   seq_val ρ (app d args) = char_val ρ h :: seq_val ρ t).
    { destruct d; try discriminate.
      destruct args as [|x [|y [|]]]; try discriminate.
      destruct (get_head_tail x) as [[head tail]|] eqn:Ex; [|discriminate].
      intros [= <- <-]. apply Forall_inv in IH.
      change (app OP_SEQ_CONCAT [x; y]) with (mk_concat x y). rewrite seq_val_mk_concat.
      rewrite (IH head tail Ex), mk_seq_concat_val. reflexivity. }
    destruct (is_string (app d args)) as [[|c s1]|] eqn:Es; try exact Hcat.
    intros [= <- <-]. rewrite (is_string_val ρ _ _ Es). cbn. rewrite drop_0, take_ge by lia. reflexivity.
  - cbn. discriminate.
Qed.

(** [get_head_tail], 2799-2820.  When it succeeds on [s], the sequence is
    the head character followed by the tail, under every assignment. *)
Theorem get_head_tail_value (s h t : expr) :
  get_head_tail s = Some (h, t) → seq_val ρ s = char_val ρ h :: seq_val ρ t.
Proof. apply get_head_tail_val. Qed.

Lemma get_head_tail_reversed_eq (s : expr) :
  get_head_tail_reversed s =
    match is_unit s with
    | Some t => Some (mk_empty, t)
    | None =>
        match is_string s with
        | Some (c :: s1) =>
            let s1 := c :: s1 in
            Some (mk_string (zextract s1 0 (length s1 - 1)), mk_char (zget s1 (length s1 - 1)))
        | _ =>
            match s with
            | app OP_SEQ_CONCAT [h; t] =>
                match get_head_tail_reversed t with
                | Some (head, tail) => Some (mk_seq_concat h head, tail)
                | None => None
                end
            | _ => None
            end
        end
    end.
Proof. destruct s; reflexivity. Qed.

Lemma get_head_tail_reversed_val (s : expr) :
  ∀ h t, get_head_tail_reversed s = Some (h, t) →
         seq_val ρ s = seq_val ρ h ++ [char_val ρ t].
Proof.
  induction s as [d args IH|i srt] using expr_nested_ind; intros h t;
    rewrite get_head_tail_reversed_eq.
  - destruct (is_unit (app d args)) as [u|] eqn:Eu.
    { intros [= <- <-]. apply (is_unit_val ρ) in Eu as [-> _]. reflexivity. }
    assert (Hcat : match app d args with
                   | app OP_SEQ_CONCAT [h0; t0] =>
                       match get_head_tail_reversed t0 with
                       | Some (head, tail) => Some (mk_seq_concat h0 head, tail)
                       | None => None
                       end
                   | _ => None
                   end = Some (h, t) →
                   seq_val ρ (app d args) = seq_val ρ h ++ [char_val ρ t]).
    { destruct d; try discriminate.
      destruct args as [|x [|y [|]]]; try discriminate.
      destruct (get_head_tail_reversed y) as [[head tail]|] eqn:Ey; [|discriminate].
      intros [= <- <-]. apply Forall_inv_tail, Forall_inv in IH.
      change (app OP_SEQ_CONCAT [x; y]) with (mk_concat x y). rewrite seq_val_mk_concat.
      rewrite (IH head tail Ey), mk_seq_concat_val, <- app_assoc. reflexivity. }
    destruct (is_string (app d args)) as [[|c s1]|] eqn:Es; try exact Hcat.
    intros [= <- <-]. rewrite (is_string_val ρ _ _ Es).
    cbn -[take nth length]. unfold zextract, zget.
    exact (nonempty_snoc (c :: s1) 0 ltac:(discriminate)).
  - cbn. discriminate.
Qed.

(** [get_head_tail_reversed], 2822-2840.  When it succeeds on [s], the
    sequence is the head followed by the last character, under every
    assignment. *)
Theorem get_head_tail_reversed_value (s h t : expr) :
  get_head_tail_reversed s = Some (h, t) → seq_val ρ s = seq_val ρ h ++ [char_val ρ t].
Proof. apply get_head_tail_reversed_val. Qed.

End SeqHelperFacts.

Lemma get_head_tail_value_witness :
  let x := app (OP_UNINTERPRETED 1 SeqSort) [] in
  let s := mk_concat (mk_concat (mk_string [97; 98]) x) (mk_unit (var 0 CharSort)) in
  ∃ h t, @get_head_tail default_host s = Some (h, t) ∧
         seq_val default_env s = char_val default_env h :: seq_val default_env t.
Proof.
  intros x s. eexists _, _. split; [vm_compute; reflexivity|].
  apply (@get_head_tail_value default_host default_env). vm_compute. reflexivity.
Defined.

Lemma get_head_tail_reversed_value_witness :
  let x := app (OP_UNINTERPRETED 1 SeqSort) [] in
  let s := mk_concat x (mk_concat (mk_unit (var 0 CharSort)) (mk_string [97; 98])) in
  ∃ h t, @get_head_tail_reversed default_host s = Some (h, t) ∧
         seq_val default_env s = seq_val default_env h ++ [char_val default_env t].
Proof.
  intros x s. eexists _, _. split; [vm_compute; reflexivity|].
  apply (@get_head_tail_reversed_value default_host default_env). vm_compute. reflexivity.
Defined.

(** ** Sequence helpers: index arithmetic and the rest of a sequence *)

Section SeqRestFacts.
Variable ρ : env.

Lemma int_val_mk_sub (a : expr) (n : Z) : int_val ρ (mk_sub a n) = int_val ρ a - n.
Proof.
  unfold mk_sub.
  destruct (is_sub2 a) as [[a1 a2]|] eqn:Es.
  - apply is_app_of2_inv in Es. subst a.
    destruct (is_numeral a2) as [k|] eqn:Ek.
    + cbn. rewrite (is_numeral_val ρ a2 k Ek). lia.
    + reflexivity.
  - destruct (is_add2 a) as [[a1 a2]|] eqn:Ea; [|reflexivity].
    apply is_app_of2_inv in Ea. subst a.
    destruct (is_numeral a2) as [k|] eqn:Ek.
    + cbn. rewrite (is_numeral_val ρ a2 k Ek). lia.
    + destruct (is_numeral a1) as [k|] eqn:Ek1; [|reflexivity].
      cbn. rewrite (is_numeral_val ρ a1 k Ek1). lia.
Qed.

(** [mk_sub], 917-933.  The term built for [a - n], with [n] folded into a
    numeral at the end of a difference or a sum, has the value of [a] minus
    [n] under every assignment. *)
Theorem mk_sub_value (a : expr) (n : Z) : int_val ρ (mk_sub a n) = int_val ρ a - n.
Proof. apply int_val_mk_sub. Qed.

Lemma drop_1_take {A : Type} (k : nat) (l : list A) :
  drop 1 (take k l) = take (k - 1) (drop 1 l).
Proof. destruct k, l; cbn; rewrite ?Nat.sub_0_r, ?take_nil; reflexivity. Qed.

Lemma sem_extract_rest (s : list Z) (j k : Z) :
  0 ≤ j → drop 1 (sem_extract s j k) = sem_extract s (j + 1) (k - 1).
Proof.
  intros Hj. unfold sem_extract.
  destruct ((0 <=? j) && (j <? Z.of_nat (length s)) && (0 <? k)) eqn:E1;
    destruct ((0 <=? j + 1) && (j + 1 <? Z.of_nat (length s)) && (0 <? k - 1)) eqn:E2.
  - rewrite drop_1_take, drop_drop. f_equal; [lia|]. f_equal. lia.
  - rewrite drop_1_take, drop_drop.
    rewrite !andb_true_iff in E1. destruct E1 as [[_ E1] E3].
    apply Z.ltb_lt in E1, E3.
    rewrite !andb_false_iff in E2. destruct E2 as [[E2|E2]|E2].
    + apply Z.leb_gt in E2. lia.
    + apply Z.ltb_ge in E2. rewrite drop_ge by lia. apply take_nil.
    + apply Z.ltb_ge in E2. replace (Z.to_nat k - 1)%nat with 0%nat by lia. reflexivity.
  - rewrite !andb_true_iff in E2. destruct E2 as [[_ E2] E3].
    apply Z.ltb_lt in E2, E3.
    rewrite !andb_false_iff in E1. destruct E1 as [[E1|E1]|E1].
    + apply Z.leb_gt in E1. lia.
    + apply Z.ltb_ge in E1. lia.
    + apply Z.ltb_ge in E1. lia.
  - reflexivity.
Qed.

(** [mk_seq_rest] and [mk_seq_butlast], 935-974.  The term [mk_seq_rest]
    builds denotes the sequence without its first element, also when the
    argument is a [substr] whose offset it advances; the term
    [mk_seq_butlast] builds denotes the sequence without its last element. *)
Theorem mk_seq_rest_butlast_value (t : expr) :
  seq_val ρ (mk_seq_rest t) = drop 1 (seq_val ρ t) ∧
  seq_val ρ (mk_seq_butlast t) = removelast (seq_val ρ t).
Proof.
  split.
  - unfold mk_seq_rest.
    assert (Hdefault :
      seq_val ρ (mk_substr t one (mk_sub (mk_length t) 1)) = drop 1 (seq_val ρ t)).
    { change (seq_val ρ (mk_substr t one (mk_sub (mk_length t) 1)))
        with (sem_extract (seq_val ρ t) 1 (int_val ρ (mk_sub (mk_length t) 1))).
      rewrite int_val_mk_sub.
      change (int_val ρ (mk_length t)) with (Z.of_nat (length (seq_val ρ t))).
      unfold sem_extract.
      destruct ((0 <=? 1) && (1 <? Z.of_nat (length (seq_val ρ t))) &&
                (0 <? Z.of_nat (length (seq_val ρ t)) - 1)) eqn:E.
      - apply take_ge. rewrite length_drop. lia.
      - rewrite !andb_false_iff in E. symmetry. apply drop_ge.
        destruct E as [[E|E]|E]; [discriminate|apply Z.ltb_ge in E; lia|apply Z.ltb_ge in E; lia]. }
    destruct (is_extract t) as [[[s j] k]|] eqn:Ee; [|exact Hdefault].
    destruct (is_numeral j) as [jv|] eqn:Ej; [|exact Hdefault].
    destruct (0 <=? jv) eqn:Ejv; [|exact Hdefault].
    apply Z.leb_le in Ejv. apply is_app_of3_inv in Ee. subst t.
    change (seq_val ρ (app OP_SEQ_EXTRACT [s; j; k]))
      with (sem_extract (seq_val ρ s) (int_val ρ j) (int_val ρ k)).
    change (seq_val ρ (mk_substr s (mk_int (jv + 1)) (mk_sub k 1)))
      with (sem_extract (seq_val ρ s) (jv + 1) (int_val ρ (mk_sub k 1))).
    rewrite int_val_mk_sub, (is_numeral_val ρ j jv Ej). symmetry.
    apply sem_extract_rest. exact Ejv.
  - change (seq_val ρ (mk_seq_butlast t))
      with (sem_extract (seq_val ρ t) 0 (Z.of_nat (length (seq_val ρ t)) - 1)).
    unfold sem_extract. rewrite removelast_firstn_len.
    destruct ((0 <=? 0) && (0 <? Z.of_nat (length (seq_val ρ t))) &&
              (0 <? Z.of_nat (length (seq_val ρ t)) - 1)) eqn:E.
    + rewrite drop_0. f_equal. lia.
    + rewrite !andb_false_iff in E. symmetry.
      replace (Init.Nat.pred (length (seq_val ρ t))) with 0%nat; [reflexivity|].
      destruct E as [[E|E]|E]; [discriminate|apply Z.ltb_ge in E; lia|apply Z.ltb_ge in E; lia].
Qed.

End SeqRestFacts.

(** ** String comparison and conversions: what the rewrites compute *)

Section StringOrderFacts.
Context `{H : Host}.

Lemma drop_cons_nth (l : list Z) (i : nat) :
  (i < length l)%nat → drop i l = nth i l 0 :: drop (S i) l.
Proof.
  revert i. induction l as [|x l IH]; intros [|i] Hi; cbn in *; try lia.
  - rewrite drop_0. reflexivity.
  - apply IH. lia.
Qed.

Lemma str_lt_scan_lex (n i : nat) (s t : zstring) :
  (i ≤ length s)%nat → (i ≤ length t)%nat →
  n = ((length s - i) `min` (length t - i))%nat →
  match str_lt_scan n i s t with
  | Some r => r
  | None => zlength s <? zlength t
  end = lex_ltb (drop i s) (drop i t).
Proof.
  revert i. induction n as [|n IH]; intros i Hs Ht Hn.
  - cbn [str_lt_scan]. unfold zlength.
    destruct (decide (length t ≤ i)%nat) as [Hti|Hti].
    + rewrite (drop_ge t) by lia. destruct (drop i s); cbn; apply Z.ltb_ge; lia.
    + rewrite (drop_ge s) by lia. rewrite (drop_cons_nth t i) by lia. cbn. apply Z.ltb_lt. lia.
  - cbn [str_lt_scan]. rewrite (drop_cons_nth s i), (drop_cons_nth t i) by lia.
    cbn [lex_ltb]. unfold zget.
    destruct (nth i s 0 <? nth i t 0) eqn:E1; [reflexivity|].
    rewrite Z.gtb_ltb. destruct (nth i t 0 <? nth i s 0) eqn:E2; [reflexivity|].
    apply IH; lia.
Qed.

(** [mk_str_lt], 2481-2507.  On two string literals the rewrite always
    fires, and the term it returns evaluates, under every assignment, to the
    strict lexicographic order of the two literals. *)
Theorem mk_str_lt_literals (ρ : env) (s t : zstring) :
  ∃ st r, mk_str_lt (mk_string s) (mk_string t) = (st, Some r) ∧
          bool_val ρ r = lex_ltb s t.
Proof.
  unfold mk_str_lt.
  destruct (is_empty (mk_string t)) eqn:Et.
  { eexists _, _. split; [reflexivity|].
    unfold is_empty in Et. cbn in Et. apply bool_decide_eq_true in Et. subst t.
    destruct s; reflexivity. }
  assert (Ht : t ≠ []).
  { unfold is_empty in Et. cbn in Et. apply bool_decide_eq_false in Et. exact Et. }
  destruct (is_empty (mk_string s)) eqn:Es.
  { eexists _, _. split; [reflexivity|].
    unfold is_empty in Es. cbn in Es. apply bool_decide_eq_true in Es. subst s.
    cbn. rewrite bool_decide_false by congruence. destruct t; [congruence|reflexivity]. }
  cbn [is_string mk_string].
  pose proof (str_lt_scan_lex (length s `min` length t) 0 s t) as Hscan.
  rewrite !drop_0 in Hscan.
  destruct (str_lt_scan (length s `min` length t) 0 s t) as [r|];
    eexists _, _; (split; [reflexivity|]);
    rewrite <- Hscan by lia.
  - destruct r; reflexivity.
  - destruct (zlength s <? zlength t); reflexivity.
Qed.

(** [mk_str_from_code] and [mk_str_to_code], 2509-2535.  Converting a
    numeral to a string and back gives the numeral again when it is a code
    point of the alphabet, and [-1] otherwise; converting a one-character
    literal over the alphabet to its code and back gives the literal. *)
Theorem mk_str_code_round_trip (r : Z) :
  mk_str_to_code (rewritten (app OP_STRING_FROM_CODE [mk_int r]) (mk_str_from_code (mk_int r)))
    = (BR_DONE, Some (mk_int (if (r <? 0) || (r >? max_char) then -1 else r))) ∧
  (0 ≤ r ≤ max_char →
   mk_str_from_code (rewritten (app OP_STRING_TO_CODE [mk_string [r]])
                       (mk_str_to_code (mk_string [r])))
     = (BR_DONE, Some (mk_string [r]))).
Proof.
  split.
  - unfold mk_str_from_code. cbn [is_numeral mk_int].
    destruct ((r <? 0) || (r >? max_char)); reflexivity.
  - intros [Hlo Hhi]. unfold mk_str_to_code. cbn [is_string mk_string length].
    rewrite bool_decide_true by reflexivity.
    change (rewritten (app OP_STRING_TO_CODE [mk_string [r]]) (BR_DONE, Some (mk_int (zget [r] 0))))
      with (mk_int r).
    unfold mk_str_from_code. cbn [is_numeral mk_int].
    destruct (r <? 0) eqn:E1; [apply Z.ltb_lt in E1; lia|].
    rewrite Z.gtb_ltb. destruct (max_char <? r) eqn:E2; [apply Z.ltb_lt in E2; lia|].
    reflexivity.
Qed.

End StringOrderFacts.

Lemma mk_str_code_round_trip_witness :
  @mk_str_to_code (rewritten (app OP_STRING_FROM_CODE [mk_int 200000])
                     (@mk_str_from_code default_host (mk_int 200000)))
    = (BR_DONE, Some (mk_int (-1))) ∧
  @mk_str_from_code default_host
     (rewritten (app OP_STRING_TO_CODE [mk_string [97]]) (mk_str_to_code (mk_string [97])))
    = (BR_DONE, Some (mk_string [97])).
Proof.
  split.
  - exact (proj1 (@mk_str_code_round_trip default_host 200000)).
  - apply (proj2 (@mk_str_code_round_trip default_host 97)). vm_compute. split; discriminate.
Defined.

(** ** Decimal numerals: printing, parsing and the two conversions *)

Section DecimalFacts.

Lemma parse_decimal_acc (d : Decimal.uint) (acc : positive) :
  Z.pos (Pos.of_uint_acc d acc) =
    fold_left (λ a c, 10 * a + (c - 48)) (uint_codes d) (Z.pos acc).
Proof.
  revert acc. induction d as [|d IH|d IH|d IH|d IH|d IH|d IH|d IH|d IH|d IH|d IH];
    intros acc; cbn [Pos.of_uint_acc uint_codes fold_left]; [reflexivity|..];
    rewrite IH; f_equal; lia.
Qed.

Lemma parse_decimal_of_uint (d : Decimal.uint) :
  parse_decimal (uint_codes d) = Z.of_N (N.of_uint d).
Proof.
  unfold parse_decimal, N.of_uint.
  induction d as [|d IH|d IH|d IH|d IH|d IH|d IH|d IH|d IH|d IH|d IH];
    cbn [Pos.of_uint uint_codes fold_left]; [reflexivity|exact IH|..];
    cbn [Z.of_N]; rewrite parse_decimal_acc; reflexivity.
Qed.

(** Printing a natural number and parsing the digits gives the number. *)
Lemma parse_decimal_zstring_of_int (n : Z) : 0 ≤ n → parse_decimal (zstring_of_int n) = n.
Proof.
  intros Hn. unfold zstring_of_int.
  rewrite parse_decimal_of_uint, DecimalN.Unsigned.of_to. lia.
Qed.

Lemma zstring_of_int_nonempty (n : Z) : zstring_of_int n ≠ [].
Proof.
  unfold zstring_of_int. intros Hnil. apply uint_codes_nil in Hnil.
  destruct (Z.to_N n) as [|p]; [discriminate Hnil|].
  exact (DecimalPos.Unsigned.to_uint_nonnil p Hnil).
Qed.

Lemma zstring_of_int_digits (n : Z) : forallb is_digit_code (zstring_of_int n) = true.
Proof. apply uint_codes_digits. Qed.

Lemma parse_decimal_snoc (s : zstring) (c : Z) :
  parse_decimal (s ++ [c]) = 10 * parse_decimal s + (c - 48).
Proof. unfold parse_decimal. rewrite fold_left_app. reflexivity. Qed.

Lemma parse_decimal_nonneg_acc (s : zstring) (acc : Z) :
  forallb is_digit_code s = true → 0 ≤ acc →
  0 ≤ fold_left (λ a c, 10 * a + (c - 48)) s acc.
Proof.
  revert acc. induction s as [|c s IH]; intros acc Hd Hacc; cbn in *; [exact Hacc|].
  apply andb_true_iff in Hd as [Hc Hs]. apply IH; [exact Hs|].
  unfold is_digit_code in Hc. apply andb_true_iff in Hc as [H1 H2].
  apply Z.leb_le in H1, H2. lia.
Qed.

Lemma parse_decimal_nonneg (s : zstring) :
  forallb is_digit_code s = true → 0 ≤ parse_decimal s.
Proof. intros Hd. apply parse_decimal_nonneg_acc; [exact Hd|lia]. Qed.

(** [str.to_int] of the digits of a number, and of no number. *)
Lemma sem_stoi_itos (n : Z) : sem_stoi (sem_itos n) = if n <? 0 then -1 else n.
Proof.
  unfold sem_itos. destruct (n <? 0) eqn:E; [reflexivity|].
  apply Z.ltb_ge in E. unfold sem_stoi.
  rewrite bool_decide_false by apply zstring_of_int_nonempty.
  rewrite zstring_of_int_digits. apply parse_decimal_zstring_of_int. exact E.
Qed.

Lemma sem_stoi_nonneg (s : zstring) :
  0 ≤ sem_stoi s ↔ s ≠ [] ∧ forallb is_digit_code s = true.
Proof.
  unfold sem_stoi. case_bool_decide as E.
  - split; [lia|]. intros [Hne _]. contradiction.
  - destruct (forallb is_digit_code s) eqn:Ed.
    + split; [auto|]. intros _. apply parse_decimal_nonneg. exact Ed.
    + split; [lia|]. intros [_ Hf]. discriminate.
Qed.

Lemma sem_stoi_snoc (h : zstring) (c : Z) :
  sem_stoi (h ++ [c]) =
    if bool_decide (h = []) then sem_stoi [c]
    else if sem_stoi [c] >=? 0 then
      (if sem_stoi h >=? 0 then 10 * sem_stoi h + sem_stoi [c] else -1)
    else sem_stoi [c].
Proof.
  case_bool_decide as Eh.
  { subst h. reflexivity. }
  assert (Hc : sem_stoi [c] = if is_digit_code c then c - 48 else -1).
  { unfold sem_stoi. cbn. destruct (is_digit_code c); reflexivity. }
  assert (Hne : h ++ [c] ≠ []) by (destruct h; discriminate).
  unfold sem_stoi at 1. rewrite bool_decide_false by exact Hne.
  rewrite forallb_app. cbn [forallb]. rewrite andb_true_r, Hc.
  destruct (is_digit_code c) eqn:Ec.
  - unfold is_digit_code in Ec. apply andb_true_iff in Ec as [H1 H2].
    apply Z.leb_le in H1, H2.
    replace (c - 48 >=? 0) with true by (symmetry; apply Z.geb_le; lia).
    unfold sem_stoi. rewrite bool_decide_false by exact Eh.
    destruct (forallb is_digit_code h) eqn:Ed; cbn [andb].
    + pose proof (parse_decimal_nonneg h Ed) as Hp.
      replace (parse_decimal h >=? 0) with true by (symmetry; apply Z.geb_le; lia).
      apply parse_decimal_snoc.
    + reflexivity.
  - rewrite andb_false_r. reflexivity.
Qed.

Lemma sem_stoi_zero_cons (t : zstring) :
  sem_stoi (48 :: t) = if bool_decide (t = []) then 0 else sem_stoi t.
Proof.
  case_bool_decide as Et.
  { subst t. reflexivity. }
  unfold sem_stoi.
  rewrite bool_decide_false by discriminate. rewrite bool_decide_false by exact Et.
  cbn [forallb]. change (is_digit_code 48) with true. cbn [andb].
  destruct (forallb is_digit_code t); reflexivity.
Qed.

End DecimalFacts.

Section ConversionFacts.
Context `{HS : HostSound}.
Variable ρ : env.

Lemma encode_nil : encode [] = [].
Proof. apply encode_digits. reflexivity. Qed.

(** [mk_str_itos] then [mk_str_stoi], 2592-2711.  Converting a numeral to
    its string and that string back to an integer is the identity on the
    natural numbers and gives [-1] on the negative ones: printing and
    parsing decimals agree. *)
Theorem mk_str_stoi_itos_numeral (n : Z) :
  mk_str_stoi (rewritten (mk_itos (mk_int n)) (mk_str_itos (mk_int n)))
    = (BR_DONE, Some (mk_numeral (if n <? 0 then -1 else n))).
Proof.
  unfold mk_str_itos. cbn [is_numeral mk_int].
  assert (Hrw : ∀ o x, rewritten o (BR_DONE, Some x) = x) by reflexivity.
  destruct (n <? 0) eqn:E; cbn [negb]; rewrite Hrw;
    unfold mk_str_stoi; cbn [is_string mk_string].
  - rewrite encode_nil. reflexivity.
  - apply Z.ltb_ge in E.
    rewrite (encode_digits (zstring_of_int n)) by apply zstring_of_int_digits.
    rewrite bool_decide_false.
    2:{ intros Hl. apply (zstring_of_int_nonempty n). destruct (zstring_of_int n); [reflexivity|discriminate]. }
    rewrite zstring_of_int_digits. cbn [negb].
    rewrite parse_decimal_zstring_of_int by exact E. reflexivity.
Qed.

Lemma digit_string (c : Z) : is_digit_code c = true → zstring_of_int (c - 48) = [c].
Proof.
  unfold is_digit_code. intros Hc. apply andb_true_iff in Hc as [H1 H2].
  apply Z.leb_le in H1, H2.
  assert (Hcases : c = 48 ∨ c = 49 ∨ c = 50 ∨ c = 51 ∨ c = 52 ∨ c = 53 ∨ c = 54 ∨ c = 55 ∨
                   c = 56 ∨ c = 57) by lia.
  repeat (destruct Hcases as [->|Hcases]; [reflexivity|]). subst c. reflexivity.
Qed.

(** [mk_str_itos], 2592-2618.  Whenever the rewrite fires, the term it
    returns has the value of [str.from_int a] under every assignment: on a
    numeral the decimal digits (the empty string for a negative one), on
    [str.to_int b] with [b] of length at most one the sequence [b] itself if
    it is a digit and the empty string if not. *)
Theorem mk_str_itos_value (a r : expr) (st : br_status) :
  (∀ b, is_stoi a = Some b → get_sort b = SeqSort) →
  mk_str_itos a = (st, Some r) →
  seq_val ρ r = seq_val ρ (mk_itos a).
Proof.
  intros Hsort. unfold mk_str_itos.
  change (seq_val ρ (mk_itos a)) with (sem_itos (int_val ρ a)).
  destruct (is_numeral a) as [n|] eqn:En.
  { rewrite (is_numeral_val ρ a n En). unfold sem_itos.
    destruct (n <? 0); intros [= _ <-]; reflexivity. }
  destruct (is_stoi a) as [b|] eqn:Eb; [|discriminate].
  destruct (max_length_le b 1) eqn:Emax; [|discriminate].
  intros Heq. apply (f_equal snd) in Heq. cbn [snd] in Heq. apply (inj Some) in Heq.
  subst r. specialize (Hsort b eq_refl).
  apply is_app_of1_inv in Eb. subst a.
  change (int_val ρ (app OP_STRING_STOI [b])) with (sem_stoi (seq_val ρ b)).
  assert (Hlen : (length (seq_val ρ b) ≤ 1)%nat).
  { unfold max_length_le in Emax. destruct (max_length b) as [bd k] eqn:Em.
    apply andb_true_iff in Emax as [-> Hk]. apply Z.leb_le in Hk.
    pose proof (max_length_sound ρ b k Em). lia. }
  assert (Hor : bool_val ρ (mk_or (map (λ i, mk_eq b (mk_string [48 + Z.of_nat i])) (seq 0 10)))
                = existsb (λ i, bool_decide (seq_val ρ b = [48 + Z.of_nat i])) (seq 0 10)).
  { cbn [seq map existsb mk_or mk_eq bool_val]. rewrite Hsort. reflexivity. }
  set (C := mk_or (map (λ i, mk_eq b (mk_string [48 + Z.of_nat i])) (seq 0 10))) in *.
  change (seq_val ρ (mk_ite C b (mk_string [])))
    with (if bool_val ρ C then seq_val ρ b else []).
  rewrite Hor. clear Hor C.
  destruct (seq_val ρ b) as [|c [|c' B]] eqn:EB; [| |cbn in Hlen; lia].
  - reflexivity.
  - destruct (is_digit_code c) eqn:Ec.
    + replace (existsb (λ i, bool_decide ([c] = [48 + Z.of_nat i])) (seq 0 10)) with true.
      * unfold sem_stoi. cbn. rewrite Ec. cbn [andb].
        unfold parse_decimal. cbn [fold_left]. unfold sem_itos.
        unfold is_digit_code in Ec. apply andb_true_iff in Ec as [H1 H2].
        apply Z.leb_le in H1, H2.
        replace (10 * 0 + (c - 48) <? 0) with false by (symmetry; apply Z.ltb_ge; lia).
        replace (10 * 0 + (c - 48)) with (c - 48) by lia. symmetry. apply digit_string.
        unfold is_digit_code. apply andb_true_iff. split; apply Z.leb_le; lia.
      * symmetry. apply existsb_exists. exists (Z.to_nat (c - 48)).
        unfold is_digit_code in Ec. apply andb_true_iff in Ec as [H1 H2].
        apply Z.leb_le in H1, H2. split; [apply in_seq; lia|].
        apply bool_decide_eq_true. f_equal. lia.
    + replace (existsb (λ i, bool_decide ([c] = [48 + Z.of_nat i])) (seq 0 10)) with false.
      * unfold sem_stoi. cbn. rewrite Ec. reflexivity.
      * symmetry. apply not_true_is_false. intros Hex.
        apply existsb_exists in Hex as (i & Hi & Hc). apply in_seq in Hi.
        apply bool_decide_eq_true in Hc. injection Hc as ->.
        unfold is_digit_code in Ec. apply andb_false_iff in Ec as [Ec|Ec].
        -- apply Z.leb_gt in Ec. lia.
        -- apply Z.leb_gt in Ec. lia.
Qed.

End ConversionFacts.

Lemma mk_str_itos_value_witness :
  let b := app (OP_UNINTERPRETED 1 SeqSort) [] in
  let a := mk_stoi (mk_substr b zero one) in
  ∃ st r, mk_str_itos a = (st, Some r) ∧
          seq_val default_env r = seq_val default_env (mk_itos a).
Proof.
  intros b a. eexists _, _. split; [vm_compute; reflexivity|].
  apply (@mk_str_itos_value default_env a _ BR_REWRITE2).
  - intros b' [= <-]. reflexivity.
  - vm_compute. reflexivity.
Defined.

Lemma mk_str_stoi_itos_numeral_witness :
  @mk_str_stoi default_host
     (rewritten (mk_itos (mk_int 2024)) (mk_str_itos (mk_int 2024)))
    = (BR_DONE, Some (mk_numeral 2024)) ∧
  @mk_str_stoi default_host
     (rewritten (mk_itos (mk_int (-5))) (mk_str_itos (mk_int (-5))))
    = (BR_DONE, Some (mk_numeral (-1))).
Proof.
  split.
  - exact (@mk_str_stoi_itos_numeral default_host default_host_sound 2024).
  - exact (@mk_str_stoi_itos_numeral default_host default_host_sound (-5)).
Defined.

Section StoiFacts.
Context `{HS : HostSound}.
Variable ρ : env.

Lemma seq_val_mk_concat_n (es : list expr) : seq_val ρ (mk_concat_n es) = seqs_val ρ es.
Proof.
  induction es as [|e [|e' es] IH].
  - reflexivity.
  - unfold seqs_val. cbn. rewrite app_nil_r. reflexivity.
  - change (mk_concat_n (e :: e' :: es)) with (mk_concat e (mk_concat_n (e' :: es))).
    rewrite seq_val_mk_concat, IH, (seqs_val_cons ρ e). reflexivity.
Qed.

Lemma get_sort_mk_concat_n (es : list expr) :
  Forall (λ e, get_sort e = SeqSort) es → get_sort (mk_concat_n es) = SeqSort.
Proof.
  destruct es as [|e [|e' es]]; intros Hs.
  - reflexivity.
  - apply Forall_inv in Hs. exact Hs.
  - reflexivity.
Qed.

Lemma seqs_val_units (s : zstring) :
  seqs_val ρ (map (λ c, mk_unit (mk_char c)) s) = s.
Proof.
  induction s as [|c s IH]; [reflexivity|].
  cbn [map]. rewrite seqs_val_cons, IH. reflexivity.
Qed.

Lemma get_concat_units_eq (e : expr) :
  get_concat_units e =
    match e with
    | app OP_SEQ_CONCAT [e1; e2] => get_concat_units e1 ++ get_concat_units e2
    | _ =>
        match is_string e with
        | Some s => map (λ c, mk_unit (mk_char c)) s
        | None => if is_empty e then [] else [e]
        end
    end.
Proof. destruct e; reflexivity. Qed.

Lemma get_concat_units_val (a : expr) : seqs_val ρ (get_concat_units a) = seq_val ρ a.
Proof.
  induction a as [d args IH|i srt] using expr_nested_ind.
  - assert (Hleaf :
      seqs_val ρ (match is_string (app d args) with
                  | Some s => map (λ c, mk_unit (mk_char c)) s
                  | None => if is_empty (app d args) then [] else [app d args]
                  end) = seq_val ρ (app d args)).
    { destruct (is_string (app d args)) as [s|] eqn:Es.
      - rewrite seqs_val_units. symmetry. apply (is_string_val ρ _ _ Es).
      - destruct (is_empty (app d args)) eqn:Ee.
        + symmetry. apply (is_empty_val ρ _ Ee).
        + unfold seqs_val. cbn [map concat]. apply app_nil_r. }
    rewrite get_concat_units_eq.
    destruct d; try exact Hleaf.
    destruct args as [|x [|y [|z args]]]; try exact Hleaf.
    rewrite seqs_val_app.
    pose proof (Forall_inv IH) as IHx. pose proof (Forall_inv (Forall_inv_tail IH)) as IHy.
    rewrite IHx, IHy. change (app OP_SEQ_CONCAT [x; y]) with (mk_concat x y).
    rewrite seq_val_mk_concat. reflexivity.
  - rewrite get_concat_units_eq. unfold seqs_val. cbn. apply app_nil_r.
Qed.

Lemma int_val_stoi (e : expr) : int_val ρ (mk_stoi e) = sem_stoi (seq_val ρ e).
Proof. reflexivity. Qed.

Lemma bool_val_ge_zero (e : expr) : bool_val ρ (mk_ge e zero) = (int_val ρ e >=? 0).
Proof. reflexivity. Qed.

Lemma bool_val_is_empty (e : expr) :
  get_sort e = SeqSort → bool_val ρ (mk_is_empty e) = bool_decide (seq_val ρ e = []).
Proof.
  intros Hs. unfold mk_is_empty. cbn [mk_eq bool_val]. rewrite Hs.
  apply bool_decide_ext. reflexivity.
Qed.

Lemma sem_stoi_literal (s : zstring) :
  sem_stoi s =
    if bool_decide (length (encode s) = 0%nat) then -1
    else if negb (forallb is_digit_code (encode s)) then -1
    else parse_decimal (encode s).
Proof.
  destruct (forallb is_digit_code s) eqn:Ed.
  - rewrite (encode_digits s Ed), Ed. cbn [negb]. unfold sem_stoi. rewrite Ed.
    destruct s; reflexivity.
  - rewrite (encode_other s Ed). cbn [negb].
    assert (Hs : sem_stoi s = -1).
    { unfold sem_stoi. rewrite Ed. case_bool_decide; reflexivity. }
    rewrite Hs. case_bool_decide; reflexivity.
Qed.

(** [mk_str_stoi], 2630-2711.  Whenever the rewrite fires on a term that is
    not a bit-vector conversion, the integer term it returns has the value
    of [str.to_int a] under every assignment: the parsed literal, the
    conditional on [str.from_int], the digit of a unit, the recursion on a
    sequence that ends in a unit, and the removal of a leading zero, all
    agree with the meaning of [str.to_int]. *)
Theorem mk_str_stoi_value (a r : expr) (st : br_status) :
  Forall (λ e, get_sort e = SeqSort) (get_concat_units a) →
  is_ubv2s a = None →
  mk_str_stoi a = (st, Some r) →
  int_val ρ r = sem_stoi (seq_val ρ a).
Proof.
  intros Hsorts Hbv. unfold mk_str_stoi.
  destruct (is_string a) as [s|] eqn:Es.
  { rewrite (is_string_val ρ a s Es), sem_stoi_literal.
    case_bool_decide; [intros [= _ <-]; reflexivity|].
    destruct (negb (forallb is_digit_code (encode s))); intros [= _ <-]; reflexivity. }
  destruct (is_itos a) as [b|] eqn:Ei.
  { intros [= _ <-]. apply is_app_of1_inv in Ei. subst a.
    change (seq_val ρ (app OP_STRING_ITOS [b])) with (sem_itos (int_val ρ b)).
    rewrite sem_stoi_itos. cbn [mk_ite int_val]. rewrite bool_val_ge_zero.
    rewrite Z.geb_leb. destruct (int_val ρ b <? 0) eqn:E.
    - apply Z.ltb_lt in E. replace (0 <=? int_val ρ b) with false; [reflexivity|].
      symmetry. apply Z.leb_gt. lia.
    - apply Z.ltb_ge in E. replace (0 <=? int_val ρ b) with true; [reflexivity|].
      symmetry. apply Z.leb_le. lia. }
  rewrite Hbv.
  destruct (is_ite a) as [[[c t] e]|] eqn:Eite.
  { intros [= _ <-]. apply is_app_of3_inv in Eite. subst a.
    cbn [mk_ite int_val seq_val]. rewrite !int_val_stoi.
    destruct (bool_val ρ c); reflexivity. }
  destruct (is_unit_const_char a) as [ch|] eqn:Eu.
  { unfold is_unit_const_char in Eu. destruct (is_unit a) as [u|] eqn:Eua; [|discriminate].
    apply (is_unit_val ρ) in Eua as [-> _]. apply (is_const_char_val ρ) in Eu as [-> _].
    unfold sem_stoi. cbn. unfold parse_decimal. cbn [fold_left].
    destruct (is_digit_code ch); intros [= _ <-]; cbn; [lia|reflexivity]. }
  rewrite <- (get_concat_units_val a).
  destruct (last (get_concat_units a)) as [back|] eqn:Elast.
  2:{ apply last_None in Elast. rewrite Elast. intros [= _ <-]. reflexivity. }
  pose proof (last_removelast _ _ Elast) as Hsplit.
  set (as_ := get_concat_units a) in *.
  destruct (is_unit_b back) eqn:Eback.
  - intros Heq. apply (f_equal snd) in Heq. cbn [snd] in Heq. apply (inj Some) in Heq. subst r.
    rewrite Hsplit at 4. rewrite seqs_val_snoc.
    pose proof (is_unit_b_val ρ back Eback) as Hlen.
    destruct (seq_val ρ back) as [|c [|c' B]] eqn:EB; try discriminate Hlen.
    rewrite sem_stoi_snoc.
    assert (Hhs : get_sort (mk_concat_n (removelast as_)) = SeqSort).
    { apply get_sort_mk_concat_n. rewrite Hsplit in Hsorts.
      apply Forall_app in Hsorts as [Hh _]. exact Hh. }
    cbn [mk_ite int_val]. rewrite (bool_val_is_empty _ Hhs), seq_val_mk_concat_n.
    rewrite !bool_val_ge_zero, !int_val_stoi, seq_val_mk_concat_n, EB.
    destruct (decide (seqs_val ρ (removelast as_) = [])) as [Eh|Eh];
      [rewrite !bool_decide_true by exact Eh; reflexivity
      |rewrite !bool_decide_false by exact Eh].
    destruct (sem_stoi [c] >=? 0); [|reflexivity].
    destruct (sem_stoi (seqs_val ρ (removelast as_)) >=? 0); [|reflexivity].
    cbn [mk_add mk_mul int_val mk_int]. rewrite !int_val_stoi, seq_val_mk_concat_n, EB. lia.
  - destruct (is_unit_const_char (default mk_empty (head as_))) as [ch|] eqn:Eh; [|discriminate].
    destruct (decide (ch = 48)) as [->|Hne].
    2:{ destruct ch as [|p|p]; try discriminate.
        do 6 (destruct p as [p|p|]; try discriminate).
        exfalso. apply Hne. reflexivity. }
    intros Heq. apply (f_equal snd) in Heq. cbn [snd] in Heq. apply (inj Some) in Heq. subst r.
    destruct as_ as [|e0 tl_] eqn:Eas; [discriminate Elast|].
    cbn [head default tail] in *. change (id e0) with e0 in Eh.
    unfold is_unit_const_char in Eh. destruct (is_unit e0) as [u|] eqn:Eu0; [|discriminate].
    apply (is_unit_val ρ) in Eu0 as [Hv0 _]. apply (is_const_char_val ρ) in Eh as [Hc0 _].
    rewrite seqs_val_cons, Hv0, Hc0.
    change ([48] ++ seqs_val ρ tl_) with (48 :: seqs_val ρ tl_). rewrite sem_stoi_zero_cons.
    assert (Hts : get_sort (mk_concat_n tl_) = SeqSort).
    { apply get_sort_mk_concat_n. apply Forall_inv_tail in Hsorts. exact Hsorts. }
    cbn [mk_ite int_val]. rewrite (bool_val_is_empty _ Hts), int_val_stoi, seq_val_mk_concat_n.
    destruct (decide (seqs_val ρ tl_ = [])) as [Et|Et];
      [rewrite !bool_decide_true by exact Et|rewrite !bool_decide_false by exact Et];
      reflexivity.
Qed.

End StoiFacts.

(** ** Equation reducer: every pass preserves the solutions *)

Section ReducerEquiv.
Context `{HS : HostSound}.
Variable ρ : env.

Lemma seq_elem_wf (e : expr) : seq_elem e → wf_elem e.
Proof. intros [Hw _]. exact Hw. Qed.

Lemma Forall_seq_elem_wf (es : list expr) : Forall seq_elem es → Forall wf_elem es.
Proof. intros Hf. apply (Forall_impl _ _ _ Hf). exact seq_elem_wf. Qed.

Lemma seq_elem_string (s : zstring) : s ≠ [] → seq_elem (mk_string s).
Proof.
  intros Hs. split; [apply wf_elem_string; exact Hs|]. split; [reflexivity|]. discriminate.
Qed.

Lemma eq_holds_char (a b : expr) :
  get_sort a = CharSort → eq_holds ρ (a, b) ↔ char_val ρ a = char_val ρ b.
Proof. intros Hs. unfold eq_holds. cbn. rewrite Hs. apply Z.eqb_eq. Qed.

Lemma eq_holds_seq (a b : expr) :
  get_sort a = SeqSort → eq_holds ρ (a, b) ↔ seq_val ρ a = seq_val ρ b.
Proof. intros Hs. unfold eq_holds. cbn. rewrite Hs. apply bool_decide_eq_true. Qed.

Lemma eq_holds_int (a b : expr) :
  get_sort a = IntSort → eq_holds ρ (a, b) ↔ int_val ρ a = int_val ρ b.
Proof. intros Hs. unfold eq_holds. cbn. rewrite Hs. apply Z.eqb_eq. Qed.

Lemma short_sides_sym (ls rs : list expr) : short_sides ρ ls rs → short_sides ρ rs ls.
Proof. intros [Hl Hr]. split; assumption. Qed.

Lemma short_sides_le (ls rs ls1 rs1 : list expr) :
  (length (seqs_val ρ ls1) ≤ length (seqs_val ρ ls))%nat →
  (length (seqs_val ρ rs1) ≤ length (seqs_val ρ rs))%nat →
  short_sides ρ ls rs → short_sides ρ ls1 rs1.
Proof. intros Hl Hr [Hsl Hsr]. split; lia. Qed.

Lemma pass_equiv_sym (ls rs : list expr) (eqs : list (expr * expr)) (o : reduce_outcome) :
  pass_equiv ρ ls rs eqs o → pass_equiv ρ rs ls eqs o.
Proof.
  destruct o as [|ls' rs' eqs']; cbn.
  - intros Hne Heq. apply Hne. symmetry. exact Heq.
  - intros (Hl & Hr & Hs & new & Heqs & Hiff). repeat (split; [assumption|]).
    exists new. split; [exact Heqs|]. rewrite <- Hiff. split; intros Heq; symmetry; exact Heq.
Qed.

Lemma pass_equiv_flip (ls rs : list expr) (eqs : list (expr * expr)) (o : reduce_outcome) :
  pass_equiv ρ rs ls eqs o → pass_equiv ρ ls rs eqs (flip_sides o).
Proof.
  destruct o as [|ls' rs' eqs']; cbn.
  - intros Hne Heq. apply Hne. symmetry. exact Heq.
  - intros (Hl & Hr & Hs & new & Heqs & Hiff).
    split; [exact Hr|]. split; [exact Hl|]. split; [apply short_sides_sym; exact Hs|].
    exists new. split; [exact Heqs|]. split.
    + intros Heq. symmetry in Heq. apply Hiff in Heq as [Heq' Hnew].
      split; [symmetry; exact Heq'|exact Hnew].
    + intros [Heq' Hnew]. symmetry. apply Hiff. split; [symmetry; exact Heq'|exact Hnew].
Qed.

(** A round that trades the equation for a smaller one and some pairs,
    then a pass. *)
Lemma pass_equiv_step (ls rs ls1 rs1 : list expr) (eqs added : list (expr * expr))
    (o : reduce_outcome) :
  (seqs_val ρ ls = seqs_val ρ rs ↔
   seqs_val ρ ls1 = seqs_val ρ rs1 ∧ Forall (eq_holds ρ) added) →
  pass_equiv ρ ls1 rs1 (eqs ++ added) o → pass_equiv ρ ls rs eqs o.
Proof.
  intros Hstep. destruct o as [|ls' rs' eqs']; cbn.
  - intros Hne Heq. apply Hstep in Heq as [Heq _]. exact (Hne Heq).
  - intros (Hl & Hr & Hs & new & Heqs & Hiff). repeat (split; [assumption|]).
    exists (added ++ new). split; [rewrite Heqs, app_assoc; reflexivity|].
    rewrite Hstep, Hiff, Forall_app. tauto.
Qed.

Lemma pass_equiv_same (ls rs : list expr) (eqs : list (expr * expr)) :
  Forall seq_elem ls → Forall seq_elem rs → short_sides ρ ls rs →
  pass_equiv ρ ls rs eqs (Reduced ls rs eqs).
Proof.
  intros Hl Hr Hs. cbn. repeat (split; [assumption|]).
  exists []. split; [rewrite app_nil_r; reflexivity|].
  split; [intros Heq; split; [exact Heq|constructor]|intros [Heq _]; exact Heq].
Qed.

Lemma short_sides_nil : short_sides ρ [] [].
Proof. split; cbn; lia. Qed.

Lemma pass_equiv_reset (ls rs : list expr) (eqs new : list (expr * expr)) :
  (seqs_val ρ ls = seqs_val ρ rs ↔ Forall (eq_holds ρ) new) →
  pass_equiv ρ ls rs eqs (Reduced [] [] (eqs ++ new)).
Proof.
  intros Hiff. cbn. split; [constructor|]. split; [constructor|].
  split; [apply short_sides_nil|]. exists new. split; [reflexivity|].
  rewrite Hiff. tauto.
Qed.

End ReducerEquiv.

Section ReducerBackEquiv.
Context `{HS : HostSound}.
Variable ρ : env.

Lemma snoc_eq_split (X Y s : list Z) (c : Z) :
  s ≠ [] →
  X ++ [c] = Y ++ s ↔ X = Y ++ take (length s - 1) s ∧ nth (length s - 1) s 0 = c.
Proof.
  intros Hne. rewrite (nonempty_snoc s 0 Hne) at 1. rewrite app_assoc. split.
  - intros Heq. apply app_inj_tail in Heq as [-> ->]. split; reflexivity.
  - intros [-> ->]. reflexivity.
Qed.

Lemma nth_drop_Z (k i : nat) (l : list Z) : nth i (drop k l) 0 = nth (k + i) l 0.
Proof. rewrite !nth_lookup, lookup_drop. reflexivity. Qed.

Lemma suffix_agree (s1 s2 : zstring) (m : nat) :
  suffix_clash s1 s2 m = false → (m ≤ length s1)%nat → (m ≤ length s2)%nat →
  drop (length s1 - m) s1 = drop (length s2 - m) s2.
Proof.
  unfold suffix_clash. intros Hc H1 H2.
  apply (nth_ext _ _ 0 0); [rewrite !length_drop; lia|].
  intros i Hi. rewrite length_drop in Hi. rewrite !nth_drop_Z.
  assert (Hin : In (m - 1 - i)%nat (seq 0 m)) by (apply in_seq; lia).
  pose proof (existsb_false_inv _ _ _ Hc Hin) as Hn. cbn beta in Hn.
  apply negb_false_iff, Z.eqb_eq in Hn. unfold zget in Hn.
  replace (length s1 - m + i)%nat with (length s1 - (m - 1 - i) - 1)%nat by lia.
  replace (length s2 - m + i)%nat with (length s2 - (m - 1 - i) - 1)%nat by lia.
  exact Hn.
Qed.

Lemma common_suffix_iff (X Y s1 s2 : zstring) (m : nat) :
  suffix_clash s1 s2 m = false → (m ≤ length s1)%nat → (m ≤ length s2)%nat →
  X ++ s1 = Y ++ s2 ↔ X ++ take (length s1 - m) s1 = Y ++ take (length s2 - m) s2.
Proof.
  intros Hc H1 H2. split.
  - intros Heq. apply common_suffix_take; assumption.
  - intros Heq. rewrite <- (take_drop (length s1 - m) s1), <- (take_drop (length s2 - m) s2).
    rewrite !app_assoc, Heq, (suffix_agree s1 s2 m Hc H1 H2). reflexivity.
Qed.

(** One round of [reduce_back], the sides already exchanged if need be. *)
Lemma reduce_back_round_equiv
    (rec : list expr → list expr → list (expr * expr) → option reduce_outcome)
    (ls0 rs0 : list expr) (l r : expr) (new_eqs : list (expr * expr)) (o : reduce_outcome) :
  (∀ ls rs eqs o, Forall seq_elem ls → Forall seq_elem rs → short_sides ρ ls rs →
     rec ls rs eqs = Some o → pass_equiv ρ ls rs eqs o) →
  Forall seq_elem (ls0 ++ [l]) → Forall seq_elem (rs0 ++ [r]) →
  short_sides ρ (ls0 ++ [l]) (rs0 ++ [r]) →
  (let ls := ls0 ++ [l] in
   let rs := rs0 ++ [r] in
   if expr_eqb l r then rec (removelast ls) (removelast rs) new_eqs
   else
     match is_unit l, is_unit r with
     | Some a, Some b =>
         if are_distinct a b then Some Unsat
         else rec (removelast ls) (removelast rs) (new_eqs ++ [(a, b)])
     | _, _ =>
     match is_unit l, is_string r with
     | Some a, Some s =>
         let ch := str_mk_char s (length s - 1) in
         let new_eqs := new_eqs ++ [(ch, a)] in
         let ls := removelast ls in
         if bool_decide (length s = 1%nat) then rec ls (removelast rs) new_eqs
         else
           let s2 := mk_string (zextract s 0 (length s - 1)) in
           rec ls (<[(length rs - 1)%nat := s2]> rs) new_eqs
     | _, _ =>
     match is_string l, is_string r with
     | Some s1, Some s2 =>
         let min_l := (length s1 `min` length s2)%nat in
         if suffix_clash s1 s2 min_l then Some Unsat
         else
           let ls := removelast ls in
           let rs := removelast rs in
           let ls :=
             if (min_l <? length s1)%nat
             then ls ++ [mk_string (zextract s1 0 (length s1 - min_l))] else ls in
           let rs :=
             if (min_l <? length s2)%nat
             then rs ++ [mk_string (zextract s2 0 (length s2 - min_l))] else rs in
           rec ls rs new_eqs
     | _, _ => Some (Reduced ls rs new_eqs)
     end end end) = Some o →
  pass_equiv ρ (ls0 ++ [l]) (rs0 ++ [r]) new_eqs o.
Proof.
  intros IH Hwl Hwr Hshort. cbn zeta. rewrite !removelast_last.
  pose proof Hwl as Hwl'. pose proof Hwr as Hwr'.
  apply Forall_app in Hwl as [Hwl0 Hwl1]. apply Forall_app in Hwr as [Hwr0 Hwr1].
  apply Forall_inv in Hwl1, Hwr1.
  assert (Hs0 : short_sides ρ ls0 rs0).
  { revert Hshort. apply short_sides_le; rewrite seqs_val_snoc, length_app; lia. }
  destruct (expr_eqb l r) eqn:Elr.
  { apply expr_eqb_eq in Elr. subst r. intros Hrec.
    apply (pass_equiv_step ρ _ _ ls0 rs0 _ []);
      [|rewrite app_nil_r; apply (IH _ _ _ _ Hwl0 Hwr0 Hs0 Hrec)].
    rewrite !seqs_val_snoc. split.
    - intros Heq. apply app_inv_tail in Heq. split; [exact Heq|constructor].
    - intros [Heq _]. rewrite Heq. reflexivity. }
  destruct (is_unit l) as [a|] eqn:Hul.
  - destruct (is_unit_val ρ l a Hul) as [Hlv _].
    pose proof (wf_elem_unit_sort l a (seq_elem_wf l Hwl1) Hul) as Hsa.
    destruct (is_unit r) as [b|] eqn:Hur.
    + destruct (is_unit_val ρ r b Hur) as [Hrv _].
      destruct (are_distinct a b) eqn:Hd.
      * intros [= <-]. cbn [pass_equiv]. rewrite !seqs_val_snoc, Hlv, Hrv. intros Heq.
        apply app_inj_tail in Heq as [_ Heq]. revert Heq.
        apply are_distinct_char; [exact Hd|exact Hsa].
      * intros Hrec.
        apply (pass_equiv_step ρ _ _ ls0 rs0 _ [(a, b)]);
          [|apply (IH _ _ _ _ Hwl0 Hwr0 Hs0 Hrec)].
        rewrite !seqs_val_snoc, Hlv, Hrv, Forall_singleton, (eq_holds_char ρ a b Hsa). split.
        -- intros Heq. apply app_inj_tail in Heq as [Heq1 Heq2]. split; assumption.
        -- intros [-> ->]. reflexivity.
    + destruct (is_string r) as [s|] eqn:Hsr.
      * pose proof (wf_elem_string_nonempty r s (seq_elem_wf r Hwr1) Hsr) as Hne.
        pose proof (is_string_val ρ r s Hsr) as Hrv.
        assert (Hch : eq_holds ρ (str_mk_char s (length s - 1), a) ↔
                      nth (length s - 1) s 0 = char_val ρ a).
        { apply (eq_holds_char ρ (str_mk_char s (length s - 1)) a). reflexivity. }
        destruct (bool_decide (length s = 1%nat)) eqn:Hlen.
        -- apply bool_decide_eq_true in Hlen. intros Hrec.
           apply (pass_equiv_step ρ _ _ ls0 rs0 _ [(str_mk_char s (length s - 1), a)]);
             [|apply (IH _ _ _ _ Hwl0 Hwr0 Hs0 Hrec)].
           rewrite !seqs_val_snoc, Hlv, Hrv, Forall_singleton, Hch, (snoc_eq_split _ _ s _ Hne).
           rewrite Hlen. cbn [Nat.sub]. rewrite take_0, app_nil_r. reflexivity.
        -- apply bool_decide_eq_false in Hlen. rewrite insert_last_snoc. intros Hrec.
           assert (Hlong : (2 ≤ length s)%nat).
           { destruct s as [|? [|? ?]]; cbn in *; [contradiction|lia|lia]. }
           assert (Hw : Forall seq_elem (rs0 ++ [mk_string (zextract s 0 (length s - 1))])).
           { apply Forall_app. split; [exact Hwr0|]. apply Forall_singleton.
             apply seq_elem_string. unfold zextract. rewrite drop_0.
             intros Ht. apply (f_equal length) in Ht. rewrite length_take in Ht.
             cbn in Ht. lia. }
           assert (Hv : seqs_val ρ (rs0 ++ [mk_string (zextract s 0 (length s - 1))]) =
                        seqs_val ρ rs0 ++ take (length s - 1) s).
           { rewrite seqs_val_snoc. unfold zextract. rewrite drop_0. reflexivity. }
           assert (Hs1 : short_sides ρ ls0 (rs0 ++ [mk_string (zextract s 0 (length s - 1))])).
           { revert Hshort. apply short_sides_le.
             - rewrite seqs_val_snoc, length_app. lia.
             - rewrite Hv, seqs_val_snoc, Hrv, !length_app, length_take. lia. }
           apply (pass_equiv_step ρ _ _ ls0 (rs0 ++ [mk_string (zextract s 0 (length s - 1))])
                    _ [(str_mk_char s (length s - 1), a)]);
             [|apply (IH _ _ _ _ Hwl0 Hw Hs1 Hrec)].
           rewrite Hv, !seqs_val_snoc, Hlv, Hrv, Forall_singleton, Hch.
           apply snoc_eq_split. exact Hne.
      * destruct (is_string l); intros [= <-]; apply pass_equiv_same; assumption.
  - destruct (is_string l) as [s1|] eqn:Hsl.
    + destruct (is_string r) as [s2|] eqn:Hsr.
      * pose proof (is_string_val ρ l s1 Hsl) as Hlv.
        pose proof (is_string_val ρ r s2 Hsr) as Hrv.
        destruct (suffix_clash s1 s2 (length s1 `min` length s2)) eqn:Hc.
        -- intros [= <-]. cbn [pass_equiv]. rewrite !seqs_val_snoc, Hlv, Hrv.
           apply suffix_clash_differ. exact Hc.
        -- intros Hrec.
           set (m := (length s1 `min` length s2)%nat) in *.
           set (ls1 := if (m <? length s1)%nat
                       then ls0 ++ [mk_string (zextract s1 0 (length s1 - m))] else ls0) in *.
           set (rs1 := if (m <? length s2)%nat
                       then rs0 ++ [mk_string (zextract s2 0 (length s2 - m))] else rs0) in *.
           assert (Hside : ∀ (es0 : list expr) (s : zstring), Forall seq_elem es0 →
                     (m ≤ length s)%nat →
                     let es1 := if (m <? length s)%nat
                                then es0 ++ [mk_string (zextract s 0 (length s - m))]
                                else es0 in
                     Forall seq_elem es1 ∧
                     seqs_val ρ es1 = seqs_val ρ es0 ++ take (length s - m) s).
           { intros es0 s Hw0 Hm. cbn zeta. destruct (m <? length s)%nat eqn:Hlt.
             - apply Nat.ltb_lt in Hlt. unfold zextract. rewrite drop_0. split.
               + apply Forall_app. split; [exact Hw0|]. apply Forall_singleton.
                 apply seq_elem_string. intros Ht. apply (f_equal length) in Ht.
                 rewrite length_take in Ht. cbn in Ht. lia.
               + rewrite seqs_val_snoc. reflexivity.
             - apply Nat.ltb_ge in Hlt. split; [exact Hw0|].
               replace (length s - m)%nat with 0%nat by lia. rewrite take_0, app_nil_r.
               reflexivity. }
           destruct (Hside ls0 s1 Hwl0 ltac:(lia)) as [Hw1 Hv1].
           destruct (Hside rs0 s2 Hwr0 ltac:(lia)) as [Hw2 Hv2].
           fold ls1 in Hw1, Hv1. fold rs1 in Hw2, Hv2.
           assert (Hs1 : short_sides ρ ls1 rs1).
           { revert Hshort. apply short_sides_le.
             - rewrite Hv1, seqs_val_snoc, Hlv, !length_app, length_take. lia.
             - rewrite Hv2, seqs_val_snoc, Hrv, !length_app, length_take. lia. }
           apply (pass_equiv_step ρ _ _ ls1 rs1 _ []);
             [|rewrite app_nil_r; apply (IH _ _ _ _ Hw1 Hw2 Hs1 Hrec)].
           rewrite !seqs_val_snoc, Hlv, Hrv, Hv1, Hv2.
           rewrite (common_suffix_iff _ _ s1 s2 m Hc ltac:(lia) ltac:(lia)).
           split; [intros Heq; split; [exact Heq|constructor]|intros [Heq _]; exact Heq].
      * intros [= <-]. apply pass_equiv_same; assumption.
    + intros [= <-]. apply pass_equiv_same; assumption.
Qed.

Lemma reduce_back_loop_equiv (fuel : nat) (ls rs : list expr) (eqs : list (expr * expr))
    (o : reduce_outcome) :
  Forall seq_elem ls → Forall seq_elem rs → short_sides ρ ls rs →
  reduce_back_loop fuel ls rs eqs = Some o → pass_equiv ρ ls rs eqs o.
Proof.
  revert ls rs eqs o. induction fuel as [|fuel IH]; intros ls rs eqs o Hwl Hwr Hs;
    [discriminate|].
  cbn [reduce_back_loop].
  destruct (last ls) as [l|] eqn:Hl; [|intros [= <-]; apply pass_equiv_same; assumption].
  destruct (last rs) as [r|] eqn:Hr; [|intros [= <-]; apply pass_equiv_same; assumption].
  apply last_Some in Hl as [ls0 ->]. apply last_Some in Hr as [rs0 ->].
  destruct (is_unit_b r && is_string_b l).
  - intros Hbody. apply pass_equiv_sym. revert Hbody.
    apply (reduce_back_round_equiv (reduce_back_loop fuel));
      [exact IH|exact Hwr|exact Hwl|apply short_sides_sym; exact Hs].
  - apply (reduce_back_round_equiv (reduce_back_loop fuel));
      [exact IH|exact Hwl|exact Hwr|exact Hs].
Qed.

End ReducerBackEquiv.

Section ReducerFrontEquiv.
Context `{HS : HostSound}.
Variable ρ : env.

Lemma cons_eq_split (X Y s : list Z) (c : Z) :
  s ≠ [] →
  c :: X = s ++ Y ↔ X = take (length s - 1) (drop 1 s) ++ Y ∧ nth 0 s 0 = c.
Proof.
  intros Hne. rewrite (nonempty_cons s 0 Hne) at 1. rewrite <- app_comm_cons. split.
  - intros [= -> ->]. split; reflexivity.
  - intros [-> ->]. reflexivity.
Qed.

Lemma prefix_agree (s1 s2 : zstring) (m : nat) :
  prefix_clash s1 s2 m = false → (m ≤ length s1)%nat → (m ≤ length s2)%nat →
  take m s1 = take m s2.
Proof.
  unfold prefix_clash. intros Hc H1 H2.
  apply (nth_ext _ _ 0 0); [rewrite !length_take; lia|].
  intros i Hi. rewrite length_take in Hi. rewrite !nth_lookup, !lookup_take_lt by lia.
  rewrite <- !nth_lookup.
  assert (Hin : In i (seq 0 m)) by (apply in_seq; lia).
  pose proof (existsb_false_inv _ _ _ Hc Hin) as Hn. cbn beta in Hn.
  apply negb_false_iff, Z.eqb_eq in Hn. exact Hn.
Qed.

Lemma common_prefix_iff (X Y s1 s2 : zstring) (m : nat) :
  prefix_clash s1 s2 m = false → (m ≤ length s1)%nat → (m ≤ length s2)%nat →
  s1 ++ X = s2 ++ Y ↔ drop m s1 ++ X = drop m s2 ++ Y.
Proof.
  intros Hc H1 H2. split.
  - intros Heq. apply common_prefix_drop; assumption.
  - intros Heq. rewrite <- (take_drop m s1), <- (take_drop m s2).
    rewrite <- !app_assoc, Heq, (prefix_agree s1 s2 m Hc H1 H2). reflexivity.
Qed.

Lemma Forall_seq_elem_insert (es : list expr) (h : nat) (s : zstring) :
  Forall seq_elem es → s ≠ [] → Forall seq_elem (<[h := mk_string s]> es).
Proof. intros Hw Hs. apply Forall_insert; [exact Hw|apply seq_elem_string; exact Hs]. Qed.

(** One round of [reduce_front], the sides already exchanged if need be. *)
Lemma reduce_front_round_equiv
    (rec : list expr → list expr → nat → nat → list (expr * expr) → option reduce_outcome)
    (ls rs : list expr) (head1 head2 : nat) (l r : expr)
    (new_eqs : list (expr * expr)) (o : reduce_outcome) :
  (∀ ls rs h1 h2 eqs o, Forall seq_elem ls → Forall seq_elem rs →
     short_sides ρ (drop h1 ls) (drop h2 rs) →
     rec ls rs h1 h2 eqs = Some o → pass_equiv ρ (drop h1 ls) (drop h2 rs) eqs o) →
  Forall seq_elem ls → Forall seq_elem rs →
  short_sides ρ (drop head1 ls) (drop head2 rs) →
  ls !! head1 = Some l → rs !! head2 = Some r →
  (if expr_eqb l r then rec ls rs (S head1) (S head2) new_eqs
   else
     match is_unit l, is_unit r with
     | Some a, Some b =>
         if are_distinct a b then Some Unsat
         else rec ls rs (S head1) (S head2) (new_eqs ++ [(a, b)])
     | _, _ =>
     match is_unit l, is_string r with
     | Some a, Some s =>
         let ch := str_mk_char s 0 in
         let new_eqs := new_eqs ++ [(ch, a)] in
         if bool_decide (length s = 1%nat) then rec ls rs (S head1) (S head2) new_eqs
         else
           let s2 := mk_string (zextract s 1 (length s - 1)) in
           rec ls (<[head2 := s2]> rs) (S head1) head2 new_eqs
     | _, _ =>
     match is_string l, is_string r with
     | Some s1, Some s2 =>
         let min_l := (length s1 `min` length s2)%nat in
         if prefix_clash s1 s2 min_l then Some Unsat
         else
           let '(ls, head1) :=
             if (min_l =? length s1)%nat then (ls, S head1)
             else (<[head1 := mk_string (zextract s1 min_l (length s1 - min_l))]> ls,
                   head1) in
           let '(rs, head2) :=
             if (min_l =? length s2)%nat then (rs, S head2)
             else (<[head2 := mk_string (zextract s2 min_l (length s2 - min_l))]> rs,
                   head2) in
           rec ls rs head1 head2 new_eqs
     | _, _ =>
         Some (Reduced (remove_leading head1 ls) (remove_leading head2 rs) new_eqs)
     end end end) = Some o →
  pass_equiv ρ (drop head1 ls) (drop head2 rs) new_eqs o.
Proof.
  intros IH Hwl Hwr Hshort Hl Hr. cbn zeta.
  pose proof (proj1 (Forall_lookup _ _) Hwl _ _ Hl) as Hwl1.
  pose proof (proj1 (Forall_lookup _ _) Hwr _ _ Hr) as Hwr1.
  assert (Hstop : pass_equiv ρ (drop head1 ls) (drop head2 rs) new_eqs
            (Reduced (remove_leading head1 ls) (remove_leading head2 rs) new_eqs)).
  { unfold remove_leading. apply pass_equiv_same; [apply Forall_drop|apply Forall_drop|];
      assumption. }
  unfold remove_leading in Hstop |- *.
  rewrite (drop_S ls l head1 Hl), (drop_S rs r head2 Hr) in Hshort.
  rewrite (drop_S ls l head1 Hl), (drop_S rs r head2 Hr) in Hstop.
  rewrite (drop_S ls l head1 Hl), (drop_S rs r head2 Hr).
  unfold short_sides in Hshort. rewrite !seqs_val_cons in Hshort.
  assert (Hs0 : short_sides ρ (drop (S head1) ls) (drop (S head2) rs)).
  { destruct Hshort as [H1 H2]. rewrite length_app in H1, H2. split; lia. }
  destruct (expr_eqb l r) eqn:Elr.
  { apply expr_eqb_eq in Elr. subst r. intros Hrec.
    apply (pass_equiv_step ρ _ _ (drop (S head1) ls) (drop (S head2) rs) _ []);
      [|rewrite app_nil_r; apply (IH _ _ _ _ _ _ Hwl Hwr Hs0 Hrec)].
    rewrite !seqs_val_cons. split.
    - intros Heq. apply app_inv_head in Heq. split; [exact Heq|constructor].
    - intros [Heq _]. rewrite Heq. reflexivity. }
  destruct (is_unit l) as [a|] eqn:Hul.
  - destruct (is_unit_val ρ l a Hul) as [Hlv _].
    pose proof (wf_elem_unit_sort l a (seq_elem_wf l Hwl1) Hul) as Hsa.
    destruct (is_unit r) as [b|] eqn:Hur.
    + destruct (is_unit_val ρ r b Hur) as [Hrv _].
      destruct (are_distinct a b) eqn:Hd.
      * intros [= <-]. cbn [pass_equiv]. rewrite !seqs_val_cons, Hlv, Hrv. intros Heq.
        injection Heq as Heq _. revert Heq. apply are_distinct_char; [exact Hd|exact Hsa].
      * intros Hrec.
        apply (pass_equiv_step ρ _ _ (drop (S head1) ls) (drop (S head2) rs) _ [(a, b)]);
          [|apply (IH _ _ _ _ _ _ Hwl Hwr Hs0 Hrec)].
        rewrite !seqs_val_cons, Hlv, Hrv, Forall_singleton, (eq_holds_char ρ a b Hsa). split.
        -- intros [= Heq1 Heq2]. split; assumption.
        -- intros [-> ->]. reflexivity.
    + destruct (is_string r) as [s|] eqn:Hsr.
      * pose proof (wf_elem_string_nonempty r s (seq_elem_wf r Hwr1) Hsr) as Hne.
        pose proof (is_string_val ρ r s Hsr) as Hrv.
        assert (Hch : eq_holds ρ (str_mk_char s 0, a) ↔ nth 0 s 0 = char_val ρ a).
        { apply (eq_holds_char ρ (str_mk_char s 0) a). reflexivity. }
        destruct (bool_decide (length s = 1%nat)) eqn:Hlen.
        -- apply bool_decide_eq_true in Hlen. intros Hrec.
           apply (pass_equiv_step ρ _ _ (drop (S head1) ls) (drop (S head2) rs) _
                    [(str_mk_char s 0, a)]);
             [|apply (IH _ _ _ _ _ _ Hwl Hwr Hs0 Hrec)].
           rewrite !seqs_val_cons, Hlv, Hrv, Forall_singleton, Hch.
           change ([char_val ρ a] ++ seqs_val ρ (drop (S head1) ls))
             with (char_val ρ a :: seqs_val ρ (drop (S head1) ls)).
           rewrite (cons_eq_split _ _ s _ Hne), Hlen. cbn [Nat.sub]. rewrite take_0.
           reflexivity.
        -- apply bool_decide_eq_false in Hlen. intros Hrec.
           assert (Hlong : (2 ≤ length s)%nat).
           { destruct s as [|? [|? ?]]; cbn in *; [contradiction|lia|lia]. }
           assert (Hs2 : zextract s 1 (length s - 1) ≠ []).
           { unfold zextract. intros Ht. apply (f_equal length) in Ht.
             rewrite length_take, length_drop in Ht. cbn in Ht. lia. }
           pose proof (Forall_seq_elem_insert rs head2 _ Hwr Hs2) as Hw.
           assert (Hs1 : short_sides ρ (drop (S head1) ls)
                           (drop head2 (<[head2 := mk_string (zextract s 1 (length s - 1))]> rs))).
           { rewrite (drop_insert_head rs head2 r _ Hr). unfold short_sides.
             rewrite seqs_val_cons. destruct Hshort as [H1 H2]. rewrite Hrv in H2. rewrite length_app in H1, H2.
             split; [lia|]. rewrite length_app. cbn [seq_val mk_string]. unfold zextract.
             rewrite length_take, length_drop. lia. }
           pose proof (IH _ _ _ _ _ _ Hwl Hw Hs1 Hrec) as Hok.
           rewrite (drop_insert_head rs head2 r _ Hr) in Hok.
           refine (pass_equiv_step ρ _ _ _ _ _ _ _ _ Hok).
           rewrite !seqs_val_cons, Hlv, Hrv, Forall_singleton, Hch.
           cbn [seq_val mk_string]. unfold zextract.
           change ([char_val ρ a] ++ seqs_val ρ (drop (S head1) ls))
             with (char_val ρ a :: seqs_val ρ (drop (S head1) ls)).
           apply cons_eq_split. exact Hne.
      * destruct (is_string l); intros [= <-]; exact Hstop.
  - destruct (is_string l) as [s1|] eqn:Hsl; [|intros [= <-]; exact Hstop].
    destruct (is_string r) as [s2|] eqn:Hsr; [|intros [= <-]; exact Hstop].
    pose proof (is_string_val ρ l s1 Hsl) as Hlv.
    pose proof (is_string_val ρ r s2 Hsr) as Hrv.
    destruct (prefix_clash s1 s2 (length s1 `min` length s2)) eqn:Hc.
    { intros [= <-]. cbn [pass_equiv]. rewrite !seqs_val_cons, Hlv, Hrv.
      apply prefix_clash_differ. exact Hc. }
    set (m := (length s1 `min` length s2)%nat) in *.
    assert (Hside : ∀ (es : list expr) (h : nat) (e : expr) (s : zstring),
              Forall seq_elem es → es !! h = Some e → (m ≤ length s)%nat →
              let p := if (m =? length s)%nat then (es, S h)
                       else (<[h := mk_string (zextract s m (length s - m))]> es, h) in
              Forall seq_elem p.1 ∧
              seqs_val ρ (drop p.2 p.1) = drop m s ++ seqs_val ρ (drop (S h) es)).
    { intros es h e s Hw He Hm. cbn zeta. destruct (m =? length s)%nat eqn:Hlt.
      - apply Nat.eqb_eq in Hlt. cbn [fst snd]. split; [exact Hw|].
        rewrite Hlt, drop_all. reflexivity.
      - apply Nat.eqb_neq in Hlt. cbn [fst snd].
        assert (Hd : zextract s m (length s - m) = drop m s).
        { unfold zextract. apply take_ge. rewrite length_drop. lia. }
        rewrite Hd. split.
        + apply Forall_seq_elem_insert; [exact Hw|]. intros Ht. apply (f_equal length) in Ht.
          rewrite length_drop in Ht. cbn in Ht. lia.
        + rewrite (drop_insert_head es h e _ He), seqs_val_cons. reflexivity. }
    destruct (Hside ls head1 l s1 Hwl Hl ltac:(lia)) as [Hw1 Hv1].
    destruct (Hside rs head2 r s2 Hwr Hr ltac:(lia)) as [Hw2 Hv2].
    destruct (if (m =? length s1)%nat then (ls, S head1)
              else (<[head1 := mk_string (zextract s1 m (length s1 - m))]> ls, head1))
      as [ls1 h1'].
    destruct (if (m =? length s2)%nat then (rs, S head2)
              else (<[head2 := mk_string (zextract s2 m (length s2 - m))]> rs, head2))
      as [rs1 h2'].
    cbn [fst snd] in *. intros Hrec.
    assert (Hs1 : short_sides ρ (drop h1' ls1) (drop h2' rs1)).
    { destruct Hshort as [H1 H2]. rewrite Hlv in H1. rewrite Hrv in H2.
      rewrite length_app in H1, H2. unfold short_sides. rewrite Hv1, Hv2.
      split; rewrite length_app, length_drop; lia. }
    refine (pass_equiv_step ρ _ _ _ _ _ [] _ _ _);
      [|rewrite app_nil_r; apply (IH _ _ _ _ _ _ Hw1 Hw2 Hs1 Hrec)].
    rewrite !seqs_val_cons, Hlv, Hrv, Hv1, Hv2.
    rewrite (common_prefix_iff _ _ s1 s2 m Hc ltac:(lia) ltac:(lia)).
    split; [intros Heq; split; [exact Heq|constructor]|intros [Heq _]; exact Heq].
Qed.

End ReducerFrontEquiv.

Section ReducerEndsEquiv.
Context `{HS : HostSound}.
Variable ρ : env.

Lemma reduce_front_loop_equiv (fuel : nat) (ls rs : list expr) (head1 head2 : nat)
    (eqs : list (expr * expr)) (o : reduce_outcome) :
  Forall seq_elem ls → Forall seq_elem rs →
  short_sides ρ (drop head1 ls) (drop head2 rs) →
  reduce_front_loop fuel ls rs head1 head2 eqs = Some o →
  pass_equiv ρ (drop head1 ls) (drop head2 rs) eqs o.
Proof.
  revert ls rs head1 head2 eqs o.
  induction fuel as [|fuel IH]; intros ls rs head1 head2 eqs o Hwl Hwr Hs; [discriminate|].
  cbn [reduce_front_loop].
  assert (Hstop : pass_equiv ρ (drop head1 ls) (drop head2 rs) eqs
            (Reduced (remove_leading head1 ls) (remove_leading head2 rs) eqs)).
  { apply pass_equiv_same; [apply Forall_drop|apply Forall_drop|]; assumption. }
  destruct (ls !! head1) as [l|] eqn:Hl; [|intros [= <-]; exact Hstop].
  destruct (rs !! head2) as [r|] eqn:Hr; [|intros [= <-]; exact Hstop].
  destruct (is_unit_b r && is_string_b l).
  - intros Hbody. apply pass_equiv_sym. revert Hbody.
    apply (reduce_front_round_equiv ρ (reduce_front_loop fuel)); try assumption.
    apply short_sides_sym. exact Hs.
  - apply (reduce_front_round_equiv ρ (reduce_front_loop fuel)); assumption.
Qed.



End ReducerEndsEquiv.

Section ReducerItosEquiv.
Context `{HS : HostSound}.
Variable ρ : env.

Lemma pass_ok_unsat (ls rs : list expr) (eqs : list (expr * expr)) :
  short_sides ρ ls rs → pass_ok ρ ls rs Unsat → pass_equiv ρ ls rs eqs Unsat.
Proof. intros [Hs _] Hok Heq. apply Hok. split; assumption. Qed.

Lemma sem_itos_eq_digits (n r : Z) :
  0 ≤ r → sem_itos n = zstring_of_int r ↔ n = r.
Proof.
  intros Hr. split.
  - unfold sem_itos. destruct (n <? 0) eqn:E.
    + intros Hnil. symmetry in Hnil. apply zstring_of_int_nonempty in Hnil. contradiction.
    + apply Z.ltb_ge in E. intros Heq. apply (f_equal parse_decimal) in Heq.
      rewrite !parse_decimal_zstring_of_int in Heq by assumption. exact Heq.
  - intros ->. unfold sem_itos. replace (r <? 0) with false; [reflexivity|].
    symmetry. apply Z.ltb_ge. exact Hr.
Qed.

Lemma reduce_itos_equiv (ls rs : list expr) (eqs : list (expr * expr)) :
  Forall seq_elem ls → Forall seq_elem rs → short_sides ρ ls rs →
  pass_equiv ρ ls rs eqs (reduce_itos ls rs eqs).
Proof.
  intros Hl Hr Hs.
  pose proof (reduce_itos_sound ρ ls rs eqs (Forall_seq_elem_wf _ Hl) (Forall_seq_elem_wf _ Hr))
    as Hok.
  destruct (reduce_itos ls rs eqs) as [|ls' rs' eqs'] eqn:E;
    [apply pass_ok_unsat; assumption|]. clear Hok.
  assert (Hsame : Reduced ls rs eqs = Reduced ls' rs' eqs' →
                  pass_equiv ρ ls rs eqs (Reduced ls' rs' eqs')).
  { intros [= <- <- <-]. apply pass_equiv_same; assumption. }
  revert E. unfold reduce_itos.
  destruct ls as [|l [|l' ls]]; try exact Hsame.
  destruct (is_itos l) as [n|] eqn:En; [|exact Hsame].
  destruct (is_string_vec rs) as [s|] eqn:Es; [|exact Hsame].
  cbn zeta. destruct (forallb is_digit_code (encode s)) eqn:Ed; cbn [negb]; [|discriminate].
  destruct ((1 <? length (encode s))%nat && (zget (encode s) 0 =? 48)); [discriminate|].
  case_bool_decide as Hcanon; [|exact Hsame].
  intros [= <- <- <-]. apply pass_equiv_reset.
  assert (Hds : forallb is_digit_code s = true).
  { destruct (forallb is_digit_code s) eqn:Eds; [reflexivity|].
    rewrite (encode_other s Eds) in Ed. discriminate. }
  rewrite (encode_digits s Hds) in Hcanon.
  rewrite (encode_digits s Hds).
  apply Forall_inv in Hl. destruct Hl as (_ & _ & Hn). specialize (Hn n En).
  rewrite Forall_singleton, (eq_holds_int ρ n _ Hn).
  rewrite (is_string_vec_val ρ rs s Es). apply is_app_of1_inv in En. subst l.
  unfold seqs_val. cbn [map concat]. rewrite app_nil_r.
  change (seq_val ρ (app OP_STRING_ITOS [n])) with (sem_itos (int_val ρ n)).
  change (int_val ρ (mk_numeral (parse_decimal s))) with (parse_decimal s).
  rewrite Hcanon at 1. apply sem_itos_eq_digits. apply parse_decimal_nonneg. exact Hds.
Qed.


End ReducerItosEquiv.

Section ReducerLengthEquiv.
Context `{HS : HostSound}.
Variable ρ : env.

Lemma set_empty_false (es : list expr) (eqs : list (expr * expr)) :
  set_empty es false eqs = Some (eqs ++ set_empty_added es).
Proof.
  revert eqs. induction es as [|e es IH]; intros eqs; cbn [set_empty set_empty_added flat_map].
  - rewrite app_nil_r. reflexivity.
  - fold (set_empty_added es). destruct (min_length e) as [bounded len].
    destruct (len >? 0); cbn [orb]; [apply IH|].
    destruct (bounded && (len =? 0)); [apply IH|].
    rewrite IH, <- app_assoc. reflexivity.
Qed.

Lemma set_empty_true (es : list expr) (eqs eqs' : list (expr * expr)) :
  set_empty es true eqs = Some eqs' → eqs' = eqs ++ set_empty_added es.
Proof.
  revert eqs. induction es as [|e es IH]; intros eqs; cbn [set_empty set_empty_added flat_map].
  - intros [= <-]. rewrite app_nil_r. reflexivity.
  - fold (set_empty_added es). destruct (min_length e) as [bounded len].
    destruct (len >? 0); cbn [orb]; [discriminate|].
    destruct (bounded && (len =? 0)); [apply IH|].
    intros Hs. rewrite (IH _ Hs), <- app_assoc. reflexivity.
Qed.

Lemma set_empty_added_holds (es : list expr) :
  Forall (eq_holds ρ) (set_empty_added es) ↔
  ∀ e, e ∈ es → settled e = false → seq_val ρ e = [].
Proof.
  induction es as [|e es IH]; cbn [set_empty_added flat_map].
  - split; [intros _ e He; apply elem_of_nil in He; contradiction|constructor].
  - fold (set_empty_added es). rewrite Forall_app, IH.
    assert (Hhead : Forall (eq_holds ρ)
              (let '(bounded, len) := min_length e in
               if (len >? 0) || (bounded && (len =? 0)) then [] else [(mk_empty, e)]) ↔
            (settled e = false → seq_val ρ e = [])).
    { unfold settled. destruct (min_length e) as [bounded len]. cbn [fst snd].
      destruct ((len >? 0) || (bounded && (len =? 0))).
      - split; [discriminate|constructor].
      - rewrite Forall_singleton, (eq_holds_seq ρ mk_empty e eq_refl).
        split; [intros Heq _; symmetry; exact Heq|intros Heq; symmetry; apply Heq; reflexivity]. }
    rewrite Hhead. split.
    + intros [Hh Ht] x Hx. apply elem_of_cons in Hx as [->|Hx]; [exact Hh|exact (Ht x Hx)].
    + intros Hall. split; [apply Hall; left|intros x Hx; apply Hall; right; exact Hx].
Qed.

Lemma visit_sum_cons (e : expr) (es : list expr) :
  visit_sum (e :: es) = (visit_val e).2 + visit_sum es.
Proof. reflexivity. Qed.

Lemma visit_sum_tight (es : list expr) :
  visit_sum es = Z.of_nat (length (seqs_val ρ es)) →
  ∀ e, e ∈ es → (visit_val e).2 = Z.of_nat (length (seq_val ρ e)).
Proof.
  induction es as [|x es IH]; intros Hsum e He; [apply elem_of_nil in He; contradiction|].
  rewrite visit_sum_cons, seqs_val_cons, length_app in Hsum.
  pose proof (visit_val_sound ρ x) as Hx. pose proof (visit_sum_sound ρ es) as Hes.
  apply elem_of_cons in He as [->|He]; [lia|]. apply IH; [lia|exact He].
Qed.

Lemma elem_length_le (es : list expr) (e : expr) :
  e ∈ es → (length (seq_val ρ e) ≤ length (seqs_val ρ es))%nat.
Proof.
  induction es as [|x es IH]; intros He; [apply elem_of_nil in He; contradiction|].
  rewrite seqs_val_cons, length_app. apply elem_of_cons in He as [->|He]; [lia|].
  specialize (IH He). lia.
Qed.

Lemma unsettled_empty (es : list expr) (e : expr) :
  Z.of_nat (length (seqs_val ρ es)) < 2 ^ 32 →
  visit_sum es = Z.of_nat (length (seqs_val ρ es)) →
  e ∈ es → ((min_length e).2 >? 0) = false → seq_val ρ e = [].
Proof.
  intros Hshort Hsum He Hz. pose proof (visit_sum_tight es Hsum e He) as Ht.
  pose proof (elem_length_le es e He) as Hle.
  rewrite min_length_spec in Hz. cbn [snd] in Hz. rewrite Ht in Hz.
  rewrite wrap32_small in Hz by lia. rewrite Z.gtb_ltb in Hz. apply Z.ltb_ge in Hz.
  destruct (seq_val ρ e); [reflexivity|cbn in Hz; lia].
Qed.

End ReducerLengthEquiv.

Section ReducerByLengthEquiv.
Context `{HS : HostSound}.
Variable ρ : env.

Lemma concat_non_empty_eq (es : list expr) :
  concat_non_empty es = mk_concat_n (List.filter kept_non_empty es).
Proof. reflexivity. Qed.

Lemma bounded_kept (e : expr) :
  wf_elem e → (visit_val e).1 = true → kept_non_empty e = true.
Proof.
  intros (Hc & He & _) Hb. unfold kept_non_empty. destruct e as [d args|i s]; [|discriminate Hb].
  rewrite visit_val_app in Hb.
  destruct (is_unit_b (app d args)); [reflexivity|]. rewrite He in Hb.
  unfold is_string_b. destruct (is_string (app d args)); [reflexivity|].
  unfold is_concat_b, is_app_of in Hc. rewrite Hc in Hb.
  unfold is_app_of. destruct (bool_decide (d = OP_ITE)); [reflexivity|discriminate Hb].
Qed.

Lemma dropped_unsettled (e : expr) :
  wf_elem e → kept_non_empty e = false → settled e = false.
Proof.
  intros (Hc & He & _) Hk. unfold kept_non_empty in Hk.
  apply orb_false_iff in Hk as [Hk Hite]. apply orb_false_iff in Hk as [Hu Hs].
  assert (Hv : visit_val e = (false, 0)).
  { destruct e as [d args|i s]; [|reflexivity]. rewrite visit_val_app, Hu, He.
    unfold is_string_b in Hs. destruct (is_string (app d args)); [discriminate|].
    unfold is_concat_b, is_app_of in Hc. rewrite Hc.
    unfold is_app_of in Hite. rewrite Hite. reflexivity. }
  unfold settled. rewrite min_length_spec, Hv. reflexivity.
Qed.

Lemma seqs_val_filter_kept (es : list expr) :
  (∀ e, e ∈ es → kept_non_empty e = false → seq_val ρ e = []) →
  seqs_val ρ (List.filter kept_non_empty es) = seqs_val ρ es.
Proof.
  induction es as [|x es IH]; intros Hd; [reflexivity|].
  cbn [List.filter]. destruct (kept_non_empty x) eqn:Ex.
  - rewrite !seqs_val_cons, IH; [reflexivity|]. intros e He. apply Hd. right. exact He.
  - rewrite seqs_val_cons, (Hd x ltac:(left) Ex), IH; [reflexivity|].
    intros e He. apply Hd. right. exact He.
Qed.

Lemma Forall_filter_seq_elem (es : list expr) :
  Forall seq_elem es → Forall (λ e, get_sort e = SeqSort) (List.filter kept_non_empty es).
Proof.
  induction 1 as [|x es Hx _ IH]; cbn [List.filter]; [constructor|].
  destruct (kept_non_empty x); [constructor; [apply Hx|exact IH]|exact IH].
Qed.

Lemma concat_non_empty_holds (A B : list expr) :
  Forall seq_elem A →
  eq_holds ρ (concat_non_empty A, concat_non_empty B) ↔
  seqs_val ρ (List.filter kept_non_empty A) = seqs_val ρ (List.filter kept_non_empty B).
Proof.
  intros HA. rewrite eq_holds_seq.
  - rewrite !concat_non_empty_eq, !seq_val_mk_concat_n. reflexivity.
  - rewrite concat_non_empty_eq. apply get_sort_mk_concat_n, Forall_filter_seq_elem. exact HA.
Qed.

(** A side whose length is known against a side of the same minimal
    length: they are equal exactly when the elements of the second that
    may be empty are empty and what is left of both is equal. *)
Lemma by_length_core (A B : list expr) :
  Forall seq_elem A → Forall seq_elem B → short_sides ρ A B →
  visit_all_bounded A = true → wrap32 (visit_sum A) = wrap32 (visit_sum B) →
  seqs_val ρ A = seqs_val ρ B ↔
  Forall (eq_holds ρ) (set_empty_added B) ∧
  seqs_val ρ (List.filter kept_non_empty A) = seqs_val ρ (List.filter kept_non_empty B).
Proof.
  intros HA HB [HsA HsB] Hbd Hlen.
  assert (HfA : seqs_val ρ (List.filter kept_non_empty A) = seqs_val ρ A).
  { apply seqs_val_filter_kept. intros e He Hk.
    assert (Hbe : (visit_val e).1 = true).
    { unfold visit_all_bounded in Hbd. rewrite forallb_forall in Hbd. apply Hbd.
      apply list_elem_of_In. exact He. }
    rewrite (bounded_kept e) in Hk; [discriminate| |exact Hbe].
    apply seq_elem_wf. exact (proj1 (Forall_forall _ _) HA e He). }
  pose proof (visit_sum_exact ρ A Hbd) as HexA.
  pose proof (visit_sum_sound ρ A) as HleA. pose proof (visit_sum_nonneg A) as H0A.
  pose proof (visit_sum_sound ρ B) as HleB. pose proof (visit_sum_nonneg B) as H0B.
  rewrite !wrap32_small in HexA by lia.
  rewrite (wrap32_small (visit_sum A)), (wrap32_small (visit_sum B)) in Hlen by lia.
  rewrite set_empty_added_holds, HfA. split.
  - intros Heq.
    assert (Hsum : visit_sum B = Z.of_nat (length (seqs_val ρ B))).
    { rewrite <- Heq. lia. }
    assert (Hempty : ∀ e, e ∈ B → settled e = false → seq_val ρ e = []).
    { intros e He Hst. apply (unsettled_empty ρ B e HsB Hsum He).
      unfold settled in Hst. apply orb_false_iff in Hst as [Hst _]. exact Hst. }
    split; [exact Hempty|]. rewrite Heq. symmetry. apply seqs_val_filter_kept.
    intros e He Hk. apply Hempty; [exact He|]. apply dropped_unsettled; [|exact Hk].
    apply seq_elem_wf. exact (proj1 (Forall_forall _ _) HB e He).
  - intros [Hempty Heq]. rewrite Heq. apply seqs_val_filter_kept.
    intros e He Hk. apply Hempty; [exact He|]. apply dropped_unsettled; [|exact Hk].
    apply seq_elem_wf. exact (proj1 (Forall_forall _ _) HB e He).
Qed.

Lemma reduce_by_length_equiv (ls rs : list expr) (eqs : list (expr * expr)) :
  Forall seq_elem ls → Forall seq_elem rs → short_sides ρ ls rs →
  pass_equiv ρ ls rs eqs (reduce_by_length ls rs eqs).
Proof.
  intros Hl Hr Hs.
  pose proof (reduce_by_length_sound ρ ls rs eqs (Forall_seq_elem_wf _ Hl)
                (Forall_seq_elem_wf _ Hr)) as Hok.
  destruct (reduce_by_length ls rs eqs) as [|ls' rs' eqs'] eqn:E;
    [apply pass_ok_unsat; assumption|]. clear Hok.
  assert (Hsame : Reduced ls rs eqs = Reduced ls' rs' eqs' →
                  pass_equiv ρ ls rs eqs (Reduced ls' rs' eqs')).
  { intros [= <- <- <-]. apply pass_equiv_same; assumption. }
  revert E. unfold reduce_by_length.
  destruct (bool_decide (ls = []) && bool_decide (rs = [])); [exact Hsame|].
  rewrite !min_length_vec_spec.
  destruct (visit_all_bounded ls && (wrap32 (visit_sum ls) <? wrap32 (visit_sum rs)));
    [discriminate|].
  destruct (visit_all_bounded rs && (wrap32 (visit_sum rs) <? wrap32 (visit_sum ls)));
    [discriminate|].
  destruct (visit_all_bounded ls && (wrap32 (visit_sum ls) =? wrap32 (visit_sum rs)) &&
            (wrap32 (visit_sum ls) >? 0) && has_var rs) eqn:E1.
  { rewrite set_empty_false. intros [= <- <- <-]. rewrite <- app_assoc.
    apply pass_equiv_reset.
    rewrite !andb_true_iff in E1. destruct E1 as [[[Hbd Hlen] _] _].
    apply Z.eqb_eq in Hlen.
    rewrite Forall_app, Forall_singleton, (concat_non_empty_holds ls rs Hl).
    apply by_length_core; assumption. }
  destruct (visit_all_bounded rs && (wrap32 (visit_sum ls) =? wrap32 (visit_sum rs)) &&
            (wrap32 (visit_sum ls) >? 0) && has_var ls) eqn:E2; [|exact Hsame].
  rewrite set_empty_false. intros [= <- <- <-]. rewrite <- app_assoc.
  apply pass_equiv_reset.
  rewrite !andb_true_iff in E2. destruct E2 as [[[Hbd Hlen] _] _].
  apply Z.eqb_eq in Hlen. symmetry in Hlen.
  rewrite Forall_app, Forall_singleton, (concat_non_empty_holds ls rs Hl).
  pose proof (by_length_core rs ls Hr Hl (short_sides_sym ρ _ _ Hs) Hbd Hlen) as Hcore.
  split.
  - intros Heq. symmetry in Heq. apply Hcore in Heq as [Hadd Hf]. split; [exact Hadd|].
    symmetry. exact Hf.
  - intros [Hadd Hf]. symmetry. apply Hcore. split; [exact Hadd|symmetry; exact Hf].
Qed.

(** [reduce_by_length], 6043-6071, with [set_empty] and
    [concat_non_empty], 5750-5782.  The pass preserves the solutions: it
    reports none only when the lengths cannot agree, and when it replaces
    the equation (one side of known length, the other of the same minimal
    length) by the equations that empty the variable elements plus the
    equation of what is left, these hold exactly when the equation between
    the two sides does. *)
Theorem reduce_by_length_solutions (ls rs : list expr) (eqs : list (expr * expr)) :
  Forall seq_elem ls → Forall seq_elem rs → short_sides ρ ls rs →
  pass_equiv ρ ls rs eqs (reduce_by_length ls rs eqs).
Proof. apply reduce_by_length_equiv. Qed.

End ReducerByLengthEquiv.

Section ReducerSubsequenceEquiv.
Context `{HS : HostSound}.
Variable ρ : env.

Lemma bounded_zero_empty (y : expr) :
  min_length y = (true, 0) → Z.of_nat (length (seq_val ρ y)) < 2 ^ 32 → seq_val ρ y = [].
Proof.
  intros Hmin Hshort. rewrite min_length_spec in Hmin. injection Hmin as Hb Hz.
  pose proof (visit_val_exact ρ y Hb) as Hex. rewrite Hz in Hex.
  rewrite wrap32_small in Hex by lia.
  destruct (seq_val ρ y); [reflexivity|cbn in Hex; lia].
Qed.

Lemma subsequence_keep_spec (rs : list expr) (i : nat) (rpos : gset nat)
    (eqs eqs1 : list (expr * expr)) (kept : list expr) :
  Forall seq_elem rs →
  subsequence_keep rs i rpos eqs = Some (kept, eqs1) →
  ∃ added, eqs1 = eqs ++ added ∧ Forall seq_elem kept ∧
    (length (seqs_val ρ kept) ≤ length (seqs_val ρ rs))%nat ∧
    (length kept ≤ length rs)%nat ∧
    (length kept = length rs → kept = rs ∧ added = []) ∧
    (taken_length ρ rs i rpos = length (seqs_val ρ rs) →
     seqs_val ρ kept = seqs_val ρ rs ∧ Forall (eq_holds ρ) added) ∧
    (Z.of_nat (length (seqs_val ρ rs)) < 2 ^ 32 → Forall (eq_holds ρ) added →
     seqs_val ρ kept = seqs_val ρ rs).
Proof.
  revert i eqs eqs1 kept. induction rs as [|y rs IH]; intros i eqs eqs1 kept Hw.
  - intros [= <- <-]. exists []. rewrite app_nil_r.
    repeat split; try reflexivity; try constructor; lia.
  - pose proof (Forall_inv Hw) as Hy. pose proof (Forall_inv_tail Hw) as Hw'.
    cbn [subsequence_keep taken_length]. case_bool_decide as Hin.
    + destruct (subsequence_keep rs (S i) rpos eqs) as [[kept' eqs']|] eqn:Hk; [|discriminate].
      cbn [fmap option_fmap option_map fst snd]. intros [= <- <-].
      destruct (IH _ _ _ _ Hw' Hk) as (added & He & Hwk & Hlen & Hcnt & Hall & Hfw & Hbw).
      exists added. rewrite !seqs_val_cons, !length_app. cbn [length].
      split; [exact He|]. split; [constructor; assumption|].
      split; [lia|]. split; [lia|]. split; [|split].
      * intros Hl. destruct Hall as [-> ->]; [lia|]. split; reflexivity.
      * intros Ht. destruct Hfw as [Hv Ha]; [lia|]. rewrite Hv. split; [reflexivity|exact Ha].
      * intros Hs Ha. rewrite Hbw; [reflexivity|lia|exact Ha].
    + destruct (set_empty [y] true eqs) as [eqs2|] eqn:Hse; [|discriminate].
      intros Hk. pose proof (set_empty_true _ _ _ Hse) as He2.
      destruct (IH _ _ _ _ Hw' Hk) as (added & He & Hwk & Hlen & Hcnt & Hall & Hfw & Hbw).
      exists (set_empty_added [y] ++ added). rewrite !seqs_val_cons, !length_app. cbn [length].
      split; [rewrite He, He2, app_assoc; reflexivity|]. split; [exact Hwk|].
      split; [lia|]. split; [lia|]. split; [lia|].
      pose proof (taken_length_le ρ rs (S i) rpos) as Htl.
      assert (Hyadd : Forall (eq_holds ρ) (set_empty_added [y]) ↔
                      (settled y = false → seq_val ρ y = [])).
      { rewrite set_empty_added_holds. split.
        - intros Hall' Hst. apply Hall'; [left|exact Hst].
        - intros Hy' e He' Hst. apply list_elem_of_singleton in He'. subst e. exact (Hy' Hst). }
      split.
      * intros Ht. assert (Hy0 : seq_val ρ y = []).
        { destruct (seq_val ρ y); [reflexivity|cbn in Ht; lia]. }
        rewrite Hy0 in Ht |- *. cbn in Ht. destruct Hfw as [Hv Ha]; [lia|].
        split; [exact Hv|]. apply Forall_app. split; [|exact Ha].
        apply Hyadd. intros _. exact Hy0.
      * intros Hs Ha. apply Forall_app in Ha as [Hay Ha].
        assert (Hy0 : seq_val ρ y = []).
        { destruct (settled y) eqn:Hst; [|apply Hyadd; [exact Hay|reflexivity]].
          cbn [set_empty] in Hse. unfold settled in Hst.
          destruct (min_length y) as [bd len] eqn:Hmin. cbn [fst snd] in Hst.
          destruct (len >? 0); [discriminate Hse|]. cbn [orb] in Hst.
          apply andb_true_iff in Hst as [-> Hz]. apply Z.eqb_eq in Hz. subst len.
          apply bounded_zero_empty; [exact Hmin|lia]. }
        rewrite Hy0. apply Hbw; [lia|exact Ha].
Qed.

Lemma reduce_subsequence_equiv (ls rs : list expr) (eqs : list (expr * expr)) :
  Forall seq_elem ls → Forall seq_elem rs → short_sides ρ ls rs →
  pass_equiv ρ ls rs eqs (reduce_subsequence ls rs eqs).
Proof.
  assert (Hcore : ∀ ls rs, Forall seq_elem ls → Forall seq_elem rs → short_sides ρ ls rs →
            pass_equiv ρ ls rs eqs
              (if (length ls =? length rs)%nat then Reduced ls rs eqs
               else if bool_decide (ls = []) && (length rs =? 1)%nat then Reduced ls rs eqs
               else
                 match subsequence_match ls rs ∅ with
                 | None => Reduced ls rs eqs
                 | Some rpos =>
                     match subsequence_keep rs 0 rpos eqs with
                     | None => Unsat
                     | Some (kept, eqs) =>
                         if (length kept =? length rs)%nat then Reduced ls rs eqs
                         else if bool_decide (ls = []) then Reduced ls kept eqs
                         else Reduced [] [] (eqs ++ [(mk_concat_n ls, mk_concat_n kept)])
                     end
                 end)).
  { clear ls rs. intros ls rs Hwl Hwr Hs.
    destruct (length ls =? length rs)%nat; [apply pass_equiv_same; assumption|].
    destruct (bool_decide (ls = []) && (length rs =? 1)%nat);
      [apply pass_equiv_same; assumption|].
    destruct (subsequence_match ls rs ∅) as [rpos|] eqn:Hm;
      [|apply pass_equiv_same; assumption].
    pose proof (subsequence_match_taken ρ _ _ _ _ Hm) as Ht.
    rewrite taken_length_empty in Ht. cbn [Nat.add] in Ht.
    destruct (subsequence_keep rs 0 rpos eqs) as [[kept eqs1]|] eqn:Hk.
    - destruct (subsequence_keep_spec _ _ _ _ _ _ Hwr Hk)
        as (added & He & Hwk & Hlen & Hcnt & Hall & Hfw & Hbw).
      assert (Hiff : seqs_val ρ ls = seqs_val ρ rs ↔
                     seqs_val ρ ls = seqs_val ρ kept ∧ Forall (eq_holds ρ) added).
      { split.
        - intros Heq. destruct Hfw as [Hv Ha]; [rewrite Ht, Heq; reflexivity|].
          split; [rewrite Hv; exact Heq|exact Ha].
        - intros [Heq Ha]. rewrite Heq. apply Hbw; [apply Hs|exact Ha]. }
      destruct (length kept =? length rs)%nat eqn:Hkl.
      { apply Nat.eqb_eq in Hkl. destruct (Hall Hkl) as [_ ->]. rewrite app_nil_r in He.
        subst eqs1. apply pass_equiv_same; assumption. }
      destruct (bool_decide (ls = [])) eqn:Hnil.
      + cbn [pass_equiv]. split; [exact Hwl|]. split; [exact Hwk|].
        split; [destruct Hs as [H1 H2]; split; [exact H1|lia]|].
        exists added. split; [exact He|exact Hiff].
      + subst eqs1. rewrite <- app_assoc. apply pass_equiv_reset.
        rewrite Forall_app, Forall_singleton, Hiff.
        rewrite eq_holds_seq, !seq_val_mk_concat_n; [tauto|].
        apply get_sort_mk_concat_n. apply (Forall_impl _ _ _ Hwl). intros e He. apply He.
    - cbn [pass_equiv]. intros Heq.
      pose proof (subsequence_keep_none ρ _ _ _ _ Hk) as Hlt. rewrite Heq in Ht. lia. }
  intros Hwl Hwr Hs. unfold reduce_subsequence.
  destruct (length rs <? length ls)%nat.
  - apply pass_equiv_sym. apply Hcore; [assumption|assumption|apply short_sides_sym; exact Hs].
  - apply Hcore; assumption.
Qed.

(** [reduce_subsequence], 6162-6213.  The pass preserves the solutions:
    it reports none only when an element that must be dropped cannot be
    empty, and the equations it leaves or adds (the elements of the longer
    side that found no partner are empty, the shorter side equals the
    partners kept) hold exactly when the equation it was given does. *)
Theorem reduce_subsequence_solutions (ls rs : list expr) (eqs : list (expr * expr)) :
  Forall seq_elem ls → Forall seq_elem rs → short_sides ρ ls rs →
  pass_equiv ρ ls rs eqs (reduce_subsequence ls rs eqs).
Proof. apply reduce_subsequence_equiv. Qed.

End ReducerSubsequenceEquiv.

Section ReduceEqEquiv.
Context `{HS : HostSound}.
Variable ρ : env.

(** [reduce_value_clash], 6104-6135.  The pass answers [false] only when
    the equation has no solution: after the common elements are struck out,
    a side is left with unit values only, none of which occurs on the other
    side, so the two concatenations differ under every assignment. *)
Theorem reduce_value_clash_no_solution (ls rs : list expr) (eqs : list (expr * expr)) :
  Forall wf_elem ls → Forall wf_elem rs →
  reduce_value_clash ls rs eqs = false → seqs_val ρ ls ≠ seqs_val ρ rs.
Proof. apply reduce_value_clash_sound. Qed.

(** [reduce_non_overlap] and [non_overlap], 4436-4470 and 6077-6094.  The
    pass answers [false] only when the equation has no solution: a run of
    units of the left side fits at no position of the right side, which is
    all units, so the two concatenations differ under every assignment. *)
Theorem reduce_non_overlap_no_solution (ls rs : list expr) (eqs : list (expr * expr)) :
  reduce_non_overlap ls rs eqs = false → seqs_val ρ ls ≠ seqs_val ρ rs.
Proof. apply reduce_non_overlap_sound. Qed.

Lemma check_pass_equiv (ok : bool) (ls rs : list expr) (eqs : list (expr * expr))
    (o : reduce_outcome) :
  Forall seq_elem ls → Forall seq_elem rs → short_sides ρ ls rs →
  (ok = false → seqs_val ρ ls ≠ seqs_val ρ rs) →
  check_pass ok ls rs eqs = Some o → pass_equiv ρ ls rs eqs o.
Proof.
  intros Hl Hr Hs Hne. unfold check_pass. destruct ok; intros [= <-].
  - apply pass_equiv_same; assumption.
  - cbn [pass_equiv]. apply Hne. reflexivity.
Qed.

Lemma and_then_equiv (ls rs : list expr) (eqs : list (expr * expr))
    (x : option reduce_outcome)
    (f : list expr → list expr → list (expr * expr) → option reduce_outcome)
    (o : reduce_outcome) :
  (∀ o1, x = Some o1 → pass_equiv ρ ls rs eqs o1) →
  (∀ ls1 rs1 eqs1 o', Forall seq_elem ls1 → Forall seq_elem rs1 → short_sides ρ ls1 rs1 →
     f ls1 rs1 eqs1 = Some o' → pass_equiv ρ ls1 rs1 eqs1 o') →
  and_then x f = Some o → pass_equiv ρ ls rs eqs o.
Proof.
  intros Hx Hf. destruct x as [[|ls1 rs1 eqs1]|]; cbn [and_then]; [| |discriminate].
  - intros [= <-]. apply Hx. reflexivity.
  - intros Ho. destruct (Hx _ eq_refl) as (Hl1 & Hr1 & Hs1 & new1 & He1 & Hiff1).
    pose proof (Hf _ _ _ _ Hl1 Hr1 Hs1 Ho) as Hnext. rewrite He1 in Hnext.
    exact (pass_equiv_step ρ _ _ _ _ _ _ _ Hiff1 Hnext).
Qed.

Lemma remove_empty_and_concats_seq (es : list expr) :
  Forall flat_seq_elem es →
  Forall seq_elem (remove_empty_and_concats es) ∧
  seqs_val ρ (remove_empty_and_concats es) = seqs_val ρ es.
Proof.
  intros Hf.
  assert (Hflat : Forall flat_elem es).
  { apply (Forall_impl _ _ _ Hf). intros e He. apply He. }
  destruct (remove_empty_and_concats_flat ρ es Hflat) as [Hwf Hv]. split; [|exact Hv].
  assert (Hnc : existsb is_concat_b es = false).
  { apply not_true_is_false. intros Hex. apply existsb_exists in Hex as (e & He & Hc).
    apply list_elem_of_In in He. pose proof (proj1 (Forall_forall _ _) Hflat e He) as [Hn _].
    congruence. }
  unfold remove_empty_and_concats in *. rewrite Hnc in *.
  apply Forall_forall. intros e He.
  pose proof (proj1 (Forall_forall _ _) Hwf e He) as Hwe.
  apply list_elem_of_In, filter_In in He as [He _]. apply list_elem_of_In in He.
  destruct (proj1 (Forall_forall _ _) Hf e He) as (_ & Hsort & Hitos).
  split; [exact Hwe|]. split; assumption.
Qed.

Lemma reduce_eq_passes_equiv (ls rs : list expr) (eqs : list (expr * expr))
    (o : reduce_outcome) :
  Forall flat_seq_elem ls → Forall flat_seq_elem rs → short_sides ρ ls rs →
  reduce_eq_passes ls rs eqs = Some o → pass_equiv ρ ls rs eqs o.
Proof.
  intros Hfl Hfr Hs. unfold reduce_eq_passes.
  destruct (remove_empty_and_concats_seq ls Hfl) as [Hwl Hvl].
  destruct (remove_empty_and_concats_seq rs Hfr) as [Hwr Hvr].
  set (ls0 := remove_empty_and_concats ls) in *.
  set (rs0 := remove_empty_and_concats rs) in *.
  assert (Hs0 : short_sides ρ ls0 rs0).
  { unfold short_sides. rewrite Hvl, Hvr. exact Hs. }
  intros Hrun.
  assert (Hok : pass_equiv ρ ls0 rs0 eqs o).
  { revert Hrun. apply and_then_equiv.
    { intros o1. apply reduce_back_loop_equiv; assumption. }
    intros ls1 rs1 eqs1 o1 Hw1 Hw1' Hs1. apply and_then_equiv.
    { intros o2. apply (reduce_front_loop_equiv ρ _ ls1 rs1 0 0); assumption. }
    intros ls2 rs2 eqs2 o2 Hw2 Hw2' Hs2. apply and_then_equiv.
    { intros o3 [= <-]. apply reduce_itos_equiv; assumption. }
    intros ls3 rs3 eqs3 o3 Hw3 Hw3' Hs3. apply and_then_equiv.
    { intros o4 [= <-]. apply pass_equiv_flip. apply reduce_itos_equiv;
        [assumption|assumption|apply short_sides_sym; assumption]. }
    intros ls4 rs4 eqs4 o4 Hw4 Hw4' Hs4. apply and_then_equiv.
    { intros o5. apply check_pass_equiv; try assumption.
      apply reduce_value_clash_sound; apply Forall_seq_elem_wf; assumption. }
    intros ls5 rs5 eqs5 o5 Hw5 Hw5' Hs5. apply and_then_equiv.
    { intros o6 [= <-]. apply reduce_by_length_equiv; assumption. }
    intros ls6 rs6 eqs6 o6 Hw6 Hw6' Hs6. apply and_then_equiv.
    { intros o7 [= <-]. apply reduce_subsequence_equiv; assumption. }
    intros ls7 rs7 eqs7 o7 Hw7 Hw7' Hs7. apply and_then_equiv.
    { intros o8. apply check_pass_equiv; try assumption. apply reduce_non_overlap_sound. }
    intros ls8 rs8 eqs8 o8 Hw8 Hw8' Hs8. apply check_pass_equiv; try assumption.
    intros Hno Heq. symmetry in Heq. revert Heq. apply (reduce_non_overlap_sound ρ _ _ eqs8).
    exact Hno. }
  destruct o as [|ls' rs' eqs']; cbn [pass_equiv] in *; rewrite <- Hvl, <- Hvr; exact Hok.
Qed.

(** [reduce_eq], 5640-5659.  The reducer preserves the solutions of the
    equation.  On well-sorted flattened sides, under an assignment that
    keeps both sides shorter than [2^32]: when it returns [false] the
    equation does not hold; when it returns [true], the equations it has
    added to [eqs], together with the equation of the two sides it leaves,
    hold exactly when the equation it was given holds. *)
Theorem reduce_eq_solutions (ls rs : list expr) (eqs : list (expr * expr)) :
  Forall flat_seq_elem ls → Forall flat_seq_elem rs → short_sides ρ ls rs →
  ∃ o change, reduce_eq ls rs eqs = Some (o, change) ∧
    match o with
    | Unsat => seqs_val ρ ls ≠ seqs_val ρ rs
    | Reduced ls' rs' eqs' =>
        ∃ new, eqs' = eqs ++ new ∧
          (seqs_val ρ ls = seqs_val ρ rs ↔
           seqs_val ρ ls' = seqs_val ρ rs' ∧ Forall (eq_holds ρ) new)
    end.
Proof.
  intros Hfl Hfr Hs. unfold reduce_eq.
  destruct (reduce_eq_passes_total ls rs eqs) as [o Ho]. rewrite Ho.
  pose proof (reduce_eq_passes_equiv ls rs eqs o Hfl Hfr Hs Ho) as Hok.
  destruct o as [|ls' rs' eqs'].
  - exists Unsat, false. split; [reflexivity|exact Hok].
  - eexists (Reduced ls' rs' eqs'), _. split; [reflexivity|].
    destruct Hok as (_ & _ & _ & Hnew). exact Hnew.
Qed.

End ReduceEqEquiv.

(** ** The reducer at work on the reference host *)

Lemma seq_elem_symbol (n : Z) : seq_elem (app (OP_UNINTERPRETED n SeqSort) []).
Proof.
  split; [|split; [reflexivity|discriminate]].
  split; [reflexivity|]. split; [reflexivity|discriminate].
Qed.

Lemma seq_elem_unit (a : expr) : get_sort a = CharSort → seq_elem (mk_unit a).
Proof.
  intros Ha. split; [|split; [reflexivity|discriminate]].
  split; [reflexivity|]. split; [reflexivity|]. intros _. exists a. split; [reflexivity|exact Ha].
Qed.

Lemma seq_elem_itos (n : expr) : get_sort n = IntSort → seq_elem (mk_itos n).
Proof.
  intros Hn. split; [|split; [reflexivity|intros n' [= <-]; exact Hn]].
  split; [reflexivity|]. split; [reflexivity|discriminate].
Qed.

Lemma seq_elem_flat (e : expr) : seq_elem e → flat_seq_elem e.
Proof.
  intros ((Hc & _ & Hu) & Hs & Hi). split; [|split; assumption]. split; assumption.
Qed.

Ltac seq_elems :=
  repeat (match goal with |- Forall _ _ => constructor end);
  first [apply seq_elem_symbol | apply seq_elem_unit; reflexivity
        | apply seq_elem_string; discriminate | apply seq_elem_itos; reflexivity].

Lemma mk_str_stoi_value_witness :
  let x := app (OP_UNINTERPRETED 1 SeqSort) [] in
  let a := mk_concat x (mk_string [52; 50]) in
  ∃ st r, @mk_str_stoi default_host a = (st, Some r) ∧
          int_val default_env r = sem_stoi (seq_val default_env a).
Proof.
  intros x a. eexists _, _. split; [vm_compute; reflexivity|].
  apply (@mk_str_stoi_value default_host default_host_sound default_env a _ BR_REWRITE_FULL).
  - repeat constructor.
  - reflexivity.
  - vm_compute. reflexivity.
Defined.




Lemma reduce_by_length_solutions_witness :
  let x := app (OP_UNINTERPRETED 1 SeqSort) [] in
  let ls := [mk_string [97; 98]] in
  let rs := [mk_unit (var 0 CharSort); x; mk_unit (var 1 CharSort)] in
  reduce_by_length ls rs [] =
    Reduced [] [] [(mk_empty, x);
                   (mk_string [97; 98],
                    mk_concat (mk_unit (var 0 CharSort)) (mk_unit (var 1 CharSort)))] ∧
  pass_equiv default_env ls rs [] (reduce_by_length ls rs []).
Proof.
  intros x ls rs. split; [vm_compute; reflexivity|].
  apply (reduce_by_length_solutions default_env ls rs []).
  - seq_elems.
  - seq_elems.
  - vm_compute. split; reflexivity.
Defined.

Lemma reduce_subsequence_solutions_witness :
  let x := app (OP_UNINTERPRETED 1 SeqSort) [] in
  let y := app (OP_UNINTERPRETED 2 SeqSort) [] in
  let ls := [x; mk_unit (var 0 CharSort)] in
  let rs := [x; y; mk_unit (var 1 CharSort)] in
  reduce_subsequence ls rs [] =
    Reduced [] [] [(mk_empty, y);
                   (mk_concat x (mk_unit (var 0 CharSort)),
                    mk_concat x (mk_unit (var 1 CharSort)))] ∧
  pass_equiv default_env ls rs [] (reduce_subsequence ls rs []).
Proof.
  intros x y ls rs. split; [vm_compute; reflexivity|].
  apply (@reduce_subsequence_solutions default_host default_host_sound default_env ls rs []).
  - seq_elems.
  - seq_elems.
  - vm_compute. split; reflexivity.
Defined.

Lemma reduce_value_clash_no_solution_witness :
  let u c := mk_unit (mk_char c) in
  let ls := [u 97; u 98] in
  let rs := [u 98; u 99] in
  @reduce_value_clash default_host ls rs [] = false ∧
  seqs_val default_env ls ≠ seqs_val default_env rs.
Proof.
  intros u ls rs. split; [vm_compute; reflexivity|].
  apply (@reduce_value_clash_no_solution default_host default_host_sound default_env ls rs []).
  - apply Forall_seq_elem_wf. seq_elems.
  - apply Forall_seq_elem_wf. seq_elems.
  - vm_compute. reflexivity.
Defined.

Lemma reduce_non_overlap_no_solution_witness :
  let x := app (OP_UNINTERPRETED 1 SeqSort) [] in
  let y := app (OP_UNINTERPRETED 2 SeqSort) [] in
  let u c := mk_unit (mk_char c) in
  let ls := [x; u 97; u 98; y] in
  let rs := [u 99; u 100; u 101] in
  @reduce_non_overlap default_host ls rs [] = false ∧
  seqs_val default_env ls ≠ seqs_val default_env rs.
Proof.
  intros x y u ls rs. split; [vm_compute; reflexivity|].
  apply (@reduce_non_overlap_no_solution default_host default_host_sound default_env ls rs []).
  vm_compute. reflexivity.
Defined.

Lemma reduce_eq_solutions_witness :
  let x := app (OP_UNINTERPRETED 1 SeqSort) [] in
  let ls := [mk_string [97]; x; mk_empty; mk_unit (var 0 CharSort)] in
  let rs := [mk_string [97; 98; 99]] in
  @reduce_eq default_host ls rs []
    = Some (Reduced [x] [mk_string [98]] [(mk_char 99, var 0 CharSort)], true) ∧
  ∃ o change, @reduce_eq default_host ls rs [] = Some (o, change) ∧
    match o with
    | Unsat => seqs_val default_env ls ≠ seqs_val default_env rs
    | Reduced ls' rs' eqs' =>
        ∃ new, eqs' = [] ++ new ∧
          (seqs_val default_env ls = seqs_val default_env rs ↔
           seqs_val default_env ls' = seqs_val default_env rs' ∧
           Forall (eq_holds default_env) new)
    end.
Proof.
  intros x ls rs. split; [vm_compute; reflexivity|].
  apply (@reduce_eq_solutions default_host default_host_sound default_env ls rs []).
  - repeat (match goal with |- Forall _ _ => constructor end);
      try (apply seq_elem_flat;
           first [apply seq_elem_symbol | apply seq_elem_unit; reflexivity
                 | apply seq_elem_string; discriminate]).
    split; [split; [reflexivity|discriminate]|split; [reflexivity|discriminate]].
  - repeat (match goal with |- Forall _ _ => constructor end).
    apply seq_elem_flat, seq_elem_string. discriminate.
  - vm_compute. split; reflexivity.
Defined.

(** ** Path conditions: ranges of characters and implications *)

Section RangeFacts.
Context `{H : Host}.

Lemma in_ranges_cons (c lo1 hi1 : Z) (rest : list (Z * Z)) :
  in_ranges c ((lo1, hi1) :: rest) ↔ lo1 ≤ c ≤ hi1 ∨ in_ranges c rest.
Proof. unfold in_ranges. rewrite Exists_cons. reflexivity. Qed.

Lemma in_ranges_nil (c : Z) : ¬ in_ranges c [].
Proof. unfold in_ranges. intros Hx. apply Exists_nil in Hx. exact Hx. Qed.

Lemma in_ranges_app (c : Z) (xs ys : list (Z * Z)) :
  in_ranges c (xs ++ ys) ↔ in_ranges c xs ∨ in_ranges c ys.
Proof. unfold in_ranges. apply Exists_app. Qed.

Lemma in_ranges_sorted_lower (c lo1 hi1 : Z) (rest : list (Z * Z)) :
  ranges_sorted ((lo1, hi1) :: rest) → in_ranges c rest → lo1 ≤ c.
Proof.
  intros [Hall _] Hin.
  unfold in_ranges in Hin. apply Exists_exists in Hin as ([lo2 hi2] & Hmem & Hc).
  pose proof (proj1 (Forall_forall _ _) Hall _ Hmem) as Hle. cbn in *. lia.
Qed.

Lemma intersect_in (lo hi c : Z) (ranges : list (Z * Z)) :
  ranges_sorted ranges →
  in_ranges c (intersect lo hi ranges) ↔ lo ≤ c ≤ hi ∧ in_ranges c ranges.
Proof.
  induction ranges as [|[lo1 hi1] rest IH]; intros Hs; cbn [intersect].
  - split; [intros Hin; apply in_ranges_nil in Hin; contradiction|].
    intros [_ Hin]. apply in_ranges_nil in Hin. contradiction.
  - pose proof (proj2 Hs) as Hs'. specialize (IH Hs').
    destruct (hi <? lo1) eqn:E1.
    + apply Z.ltb_lt in E1. split; [intros Hin; apply in_ranges_nil in Hin; contradiction|].
      intros [Hc Hin]. exfalso. apply in_ranges_cons in Hin as [Hin|Hin]; [lia|].
      pose proof (in_ranges_sorted_lower c lo1 hi1 rest Hs Hin). lia.
    + apply Z.ltb_ge in E1. destruct (hi1 >=? lo) eqn:E2.
      * rewrite Z.geb_leb in E2. apply Z.leb_le in E2. rewrite !in_ranges_cons, IH.
        split.
        -- intros [Hx|[Hx Hy]]; [split; [lia|left; lia]|split; [exact Hx|right; exact Hy]].
        -- intros [Hx [Hy|Hy]]; [left; lia|right; split; assumption].
      * rewrite Z.geb_leb in E2. apply Z.leb_gt in E2. rewrite in_ranges_cons, IH.
        split.
        -- intros [Hx Hy]. split; [exact Hx|right; exact Hy].
        -- intros [Hx [Hy|Hy]]; [lia|split; assumption].
Qed.

Lemma intersect_bounds (lo hi : Z) (ranges : list (Z * Z)) :
  Forall (λ p, lo ≤ p.1 ∧ p.2 ≤ hi) (intersect lo hi ranges).
Proof.
  induction ranges as [|[lo1 hi1] rest IH]; cbn [intersect]; [constructor|].
  destruct (hi <? lo1); [constructor|]. destruct (hi1 >=? lo); [|exact IH].
  constructor; [cbn; lia|exact IH].
Qed.

Lemma intersect_lower_le (lo hi : Z) (ranges : list (Z * Z)) :
  lo ≤ hi → Forall (λ p : Z * Z, p.1 ≤ hi) (intersect lo hi ranges).
Proof.
  intros Hlh. induction ranges as [|[lo1 hi1] rest IH]; cbn [intersect]; [constructor|].
  destruct (hi <? lo1) eqn:E1; [constructor|]. apply Z.ltb_ge in E1.
  destruct (hi1 >=? lo); [|exact IH]. constructor; [cbn; lia|exact IH].
Qed.

Lemma intersect_sorted (lo hi : Z) (ranges : list (Z * Z)) :
  ranges_sorted ranges → ranges_sorted (intersect lo hi ranges).
Proof.
  induction ranges as [|[lo1 hi1] rest IH]; intros Hs; cbn [intersect]; [exact I|].
  destruct Hs as [Hall Hs']. specialize (IH Hs').
  destruct (hi <? lo1); [exact I|]. destruct (hi1 >=? lo); [|exact IH].
  split; [|exact IH].
  assert (Hge : Forall (λ q : Z * Z, lo1 ≤ q.1 ∧ lo ≤ q.1) (intersect lo hi rest)).
  { clear IH Hs'. induction rest as [|[lo2 hi2] rest IH]; cbn [intersect]; [constructor|].
    pose proof (Forall_inv Hall) as H2. pose proof (Forall_inv_tail Hall) as Hall'. cbn in H2.
    destruct (hi <? lo2); [constructor|]. destruct (hi2 >=? lo); [|exact (IH Hall')].
    constructor; [cbn; lia|exact (IH Hall')]. }
  apply (Forall_impl _ _ _ Hge). intros [lo2 hi2] [H1 H2]. cbn in *. lia.
Qed.

Lemma intersect_nonempty (lo hi : Z) (ranges : list (Z * Z)) :
  lo ≤ hi → Forall (λ p, p.1 ≤ p.2) ranges →
  Forall (λ p, p.1 ≤ p.2) (intersect lo hi ranges).
Proof.
  intros Hlh. induction ranges as [|[lo1 hi1] rest IH]; intros Hn; cbn [intersect];
    [constructor|].
  pose proof (Forall_inv Hn) as H1. pose proof (Forall_inv_tail Hn) as Hn'. cbn in H1.
  destruct (hi <? lo1) eqn:E1; [constructor|]. apply Z.ltb_ge in E1.
  destruct (hi1 >=? lo) eqn:E2; [|exact (IH Hn')].
  rewrite Z.geb_leb in E2. apply Z.leb_le in E2.
  constructor; [cbn; lia|exact (IH Hn')].
Qed.

(** [intersect], 5199-5210.  On ranges sorted by their lower bounds the
    result holds exactly the characters of the ranges that lie in
    [[lo, hi]]; it is sorted again, and no range of it is empty when none
    was and [lo <= hi], so that it is the empty vector exactly when no
    character is left. *)
Theorem intersect_spec (lo hi : Z) (ranges : list (Z * Z)) :
  ranges_sorted ranges →
  (∀ c, in_ranges c (intersect lo hi ranges) ↔ lo ≤ c ≤ hi ∧ in_ranges c ranges) ∧
  ranges_sorted (intersect lo hi ranges) ∧
  (lo ≤ hi → Forall (λ p, p.1 ≤ p.2) ranges →
   (intersect lo hi ranges = [] ↔ ∀ c, ¬ (lo ≤ c ≤ hi ∧ in_ranges c ranges))).
Proof.
  intros Hs. split; [intros c; apply intersect_in; exact Hs|].
  split; [apply intersect_sorted; exact Hs|].
  intros Hlh Hn. split.
  - intros Hnil c Hc. apply (intersect_in lo hi c ranges Hs) in Hc. rewrite Hnil in Hc.
    apply in_ranges_nil in Hc. exact Hc.
  - intros Hnone. pose proof (intersect_nonempty lo hi ranges Hlh Hn) as Hne.
    destruct (intersect lo hi ranges) as [|[lo1 hi1] rest] eqn:E; [reflexivity|].
    exfalso. apply (Hnone lo1). apply (intersect_in lo hi lo1 ranges Hs). rewrite E.
    apply in_ranges_cons. left. apply Forall_inv in Hne. cbn in Hne. lia.
Qed.

(** The lambda [exclude_range] of [elim_condition], 5228-5247.  On sorted
    ranges within the alphabet, and for [0 <= lower <= upper <= max_char],
    the result holds exactly the characters of the ranges outside
    [[lower, upper]], and it is sorted again. *)
Theorem exclude_range_spec (lower upper : Z) (ranges : list (Z * Z)) :
  ranges_sorted ranges → Forall (λ p, 0 ≤ p.1 ∧ p.2 ≤ max_char) ranges →
  0 ≤ lower → lower ≤ upper → upper ≤ max_char →
  (∀ c, in_ranges c (exclude_range lower upper ranges) ↔
        in_ranges c ranges ∧ ¬ (lower ≤ c ≤ upper)) ∧
  ranges_sorted (exclude_range lower upper ranges).
Proof.
  intros Hs Hb Hl Hlu Hu.
  assert (Hin : ∀ c, in_ranges c ranges → 0 ≤ c ≤ max_char).
  { intros c Hc. unfold in_ranges in Hc. apply Exists_exists in Hc as (p & Hp & Hc).
    pose proof (proj1 (Forall_forall _ _) Hb p Hp) as Hp'. cbv beta in Hp', Hc. lia. }
  unfold exclude_range. destruct (lower =? 0) eqn:E0.
  - apply Z.eqb_eq in E0. destruct (upper =? max_char) eqn:E1.
    + apply Z.eqb_eq in E1. split; [|exact I]. intros c. split.
      * intros Hc. apply in_ranges_nil in Hc. contradiction.
      * intros [Hc Hout]. specialize (Hin c Hc). lia.
    + split; [|apply intersect_sorted; exact Hs]. intros c. rewrite (intersect_in _ _ _ _ Hs).
      split; [intros [Hc Hr]; split; [exact Hr|lia]|].
      intros [Hr Hout]. specialize (Hin c Hr). split; [lia|exact Hr].
  - apply Z.eqb_neq in E0. destruct (upper =? max_char) eqn:E1.
    + apply Z.eqb_eq in E1. split; [|apply intersect_sorted; exact Hs].
      intros c. rewrite (intersect_in _ _ _ _ Hs).
      split; [intros [Hc Hr]; split; [exact Hr|lia]|].
      intros [Hr Hout]. specialize (Hin c Hr). split; [lia|exact Hr].
    + apply Z.eqb_neq in E1. split.
      * intros c. rewrite in_ranges_app, !(intersect_in _ _ _ _ Hs). split.
        -- intros [[Hc Hr]|[Hc Hr]]; (split; [exact Hr|lia]).
        -- intros [Hr Hout]. specialize (Hin c Hr).
           destruct (decide (c < lower)); [left|right]; (split; [lia|exact Hr]).
      * pose proof (intersect_sorted 0 (lower - 1) ranges Hs) as HsA.
        pose proof (intersect_lower_le 0 (lower - 1) ranges ltac:(lia)) as HbA.
        pose proof (intersect_sorted (upper + 1) max_char ranges Hs) as HsB.
        pose proof (intersect_bounds (upper + 1) max_char ranges) as HbB.
        revert HsA HbA. generalize (intersect 0 (lower - 1) ranges) as A.
        induction A as [|[a1 a2] A IH]; intros HsA HbA; [exact HsB|].
        rewrite <- app_comm_cons. destruct HsA as [HallA HsA].
        pose proof (Forall_inv HbA) as Hb1. apply Forall_inv_tail in HbA.
        split; [|apply IH; [exact HsA|exact HbA]].
        apply Forall_app. split; [exact HallA|].
        apply (Forall_impl _ _ _ HbB). intros [b1 b2] [Hb2 _]. cbn in *. lia.
Qed.

End RangeFacts.

Lemma intersect_spec_witness :
  let ranges := [(0, 47); (58, 64); (91, 196607)] in
  ranges_sorted ranges ∧
  @intersect 60 100 ranges = [(60, 64); (91, 100)] ∧
  (∀ c, in_ranges c [(60, 64); (91, 100)] ↔ 60 ≤ c ≤ 100 ∧ in_ranges c ranges).
Proof.
  intros ranges.
  assert (Hs : ranges_sorted ranges).
  { cbn. repeat split; repeat constructor; cbn; lia. }
  split; [exact Hs|]. split; [reflexivity|].
  exact (proj1 (intersect_spec 60 100 ranges Hs)).
Defined.

Lemma exclude_range_spec_witness :
  let ranges := [(0, 196607)] in
  @exclude_range default_host 48 57 ranges = [(0, 47); (58, 196607)] ∧
  (∀ c, in_ranges c [(0, 47); (58, 196607)] ↔ in_ranges c ranges ∧ ¬ (48 ≤ c ≤ 57)).
Proof.
  intros ranges. split; [reflexivity|].
  refine (proj1 (@exclude_range_spec default_host 48 57 ranges _ _ _ _ _)).
  - cbn. repeat split; constructor.
  - repeat constructor; cbn; lia.
  - lia.
  - lia.
  - cbn. lia.
Defined.

(** ** Implication between the conditions of derivatives *)

Section PredFacts.
Context `{H : Host}.
Variable ρ : env.

Lemma lt_char_val (ch1 ch2 : expr) :
  lt_char ch1 ch2 = true → char_val ρ ch1 < char_val ρ ch2.
Proof.
  unfold lt_char. destruct (is_const_char ch1) as [u1|] eqn:E1; [|discriminate].
  destruct (is_const_char ch2) as [u2|] eqn:E2; [|discriminate].
  destruct (is_const_char_val ρ _ _ E1) as [-> _].
  destruct (is_const_char_val ρ _ _ E2) as [-> _]. apply Z.ltb_lt.
Qed.

Lemma le_char_val (ch1 ch2 : expr) :
  le_char ch1 ch2 = true → char_val ρ ch1 ≤ char_val ρ ch2.
Proof.
  unfold le_char, eq_char. intros Hle. apply orb_true_iff in Hle as [Heq|Hlt].
  - apply expr_eqb_eq in Heq. subst ch2. lia.
  - apply lt_char_val in Hlt. lia.
Qed.

Lemma is_not_val (a nota : expr) :
  is_not a = Some nota → bool_val ρ a = negb (bool_val ρ nota).
Proof. intros Ha. apply is_app_of1_inv in Ha. subst a. reflexivity. Qed.

Lemma is_char_le_val (a ch1 ch2 : expr) :
  is_char_le a = Some (ch1, ch2) → bool_val ρ a = (char_val ρ ch1 <=? char_val ρ ch2).
Proof. intros Ha. apply is_app_of2_inv in Ha. subst a. reflexivity. Qed.

Lemma pred_implies_holds (fuel : nat) (a b : expr) :
  pred_implies fuel a b = true → bool_val ρ a = true → bool_val ρ b = true.
Proof.
  revert a b. induction fuel as [|fuel IH]; intros a b; [discriminate|].
  cbn [pred_implies].
  destruct (is_not a) as [nota|] eqn:Ena.
  - rewrite (is_not_val a nota Ena).
    destruct (is_not b) as [notb|] eqn:Enb.
    + rewrite (is_not_val b notb Enb). intros Hp Ha.
      specialize (IH notb nota Hp).
      destruct (bool_val ρ notb); [|reflexivity].
      rewrite (IH eq_refl) in Ha. discriminate.
    + assert (Hna : is_char_le a = None).
      { destruct (is_char_le a) as [[x y]|] eqn:E; [|reflexivity].
        apply is_app_of1_inv in Ena. apply is_app_of2_inv in E. congruence. }
      rewrite Hna. cbn [mbind option_bind].
      destruct (is_char_le b) as [[chb1 chb2]|] eqn:Eb; [|discriminate].
      destruct (is_char_le nota) as [[cha1 cha2]|] eqn:Ea; [|discriminate].
      rewrite (is_char_le_val b _ _ Eb), (is_char_le_val nota _ _ Ea).
      intros Hp Ha. apply andb_true_iff in Hp as [H1 H2].
      apply le_char_val in H1, H2. apply negb_true_iff, Z.leb_gt in Ha.
      apply Z.leb_le. lia.
  - destruct (is_char_le a) as [[cha1 cha2]|] eqn:Ea.
    + rewrite (is_char_le_val a _ _ Ea).
      destruct (is_char_le b) as [[chb1 chb2]|] eqn:Eb.
      * rewrite (is_char_le_val b _ _ Eb). intros Hp Ha.
        apply andb_true_iff in Hp as [H1 H2]. apply le_char_val in H1, H2.
        apply Z.leb_le in Ha. apply Z.leb_le. lia.
      * destruct (is_not b) as [notb|] eqn:Enb; cbn [mbind option_bind];
          [|discriminate].
        destruct (is_char_le notb) as [[chb1 chb2]|] eqn:Eb'; [|discriminate].
        rewrite (is_not_val b notb Enb), (is_char_le_val notb _ _ Eb').
        intros Hp Ha. apply Z.leb_le in Ha. apply negb_true_iff, Z.leb_gt.
        apply orb_true_iff in Hp as [Hp|Hp]; apply andb_true_iff in Hp as [H1 H2].
        -- apply le_char_val in H1. apply lt_char_val in H2. lia.
        -- apply lt_char_val in H1. apply le_char_val in H2. lia.
    + destruct (is_not b) as [notb|]; cbn [mbind option_bind];
        [destruct (is_char_le notb) as [[? ?]|]|];
        destruct (is_char_le b) as [[? ?]|]; discriminate.
Qed.

(** [pred_implies], 3853-3879, with [lt_char] and [le_char], 3826-3841.
    A positive answer is right: whenever [pred_implies a b] holds, every
    assignment that makes the condition [a] true makes [b] true. *)
Theorem pred_implies_sound (fuel : nat) (a b : expr) :
  pred_implies fuel a b = true → bool_val ρ a = true → bool_val ρ b = true.
Proof. apply pred_implies_holds. Qed.

End PredFacts.

Lemma pred_implies_sound_witness :
  let a := mk_not (app OP_CHAR_LE [mk_char 65; mk_char 57]) in
  let b := app OP_CHAR_LE [mk_char 48; mk_char 65] in
  pred_implies 2 a b = true ∧ bool_val default_env a = true ∧
  bool_val default_env b = true.
Proof.
  intros a b. split; [reflexivity|]. split; [reflexivity|].
  apply (pred_implies_sound default_env 2 a b); reflexivity.
Defined.

(** ** Languages of the regex constructors and simplifiers *)

Section RegexLangFacts.
Context `{H : Host}.
Variable ρ : env.

Lemma lang_is_epsilon (r : expr) (w : list Z) :
  re.is_epsilon r = true → lang ρ r w ↔ w = [].
Proof.
  unfold re.is_epsilon. destruct (re.is_to_re r) as [s|] eqn:Ht; [|discriminate].
  intros He. apply is_app_of1_inv in Ht. subst r. cbn [lang].
  rewrite (is_empty_val ρ s He). reflexivity.
Qed.

Lemma lang_is_empty (r : expr) (w : list Z) : re.is_empty r = true → ¬ lang ρ r w.
Proof. intros He. apply is_app_of_inv in He as [args ->]. intros Hw. exact Hw. Qed.

Lemma lang_is_full_seq (r : expr) (w : list Z) : re.is_full_seq r = true → lang ρ r w.
Proof. intros He. apply is_app_of_inv in He as [args ->]. exact I. Qed.

Lemma lang_is_full_char (r : expr) (w : list Z) :
  re.is_full_char r = true → lang ρ r w ↔ length w = 1%nat.
Proof. intros He. apply is_app_of_inv in He as [args ->]. reflexivity. Qed.

Lemma concat_singletons (w : list Z) : concat (map (λ c, [c]) w) = w.
Proof. induction w as [|c w IH]; [reflexivity|]. cbn. rewrite IH. reflexivity. Qed.

Lemma lang_dot_plus (w : list Z) : lang ρ (re.mk_plus re.mk_full_char) w ↔ w ≠ [].
Proof.
  cbn [lang re.mk_plus re.mk_full_char]. unfold lang_iter. split.
  - intros (ws & -> & Hall & Hn). destruct ws as [|u ws]; [cbn in Hn; lia|].
    apply Forall_inv in Hall. destruct u; [discriminate|]. discriminate.
  - intros Hne. exists (map (λ c, [c]) w). rewrite concat_singletons.
    split; [reflexivity|]. split.
    + apply Forall_forall. intros u Hu. apply list_elem_of_fmap in Hu as (c & -> & _).
      reflexivity.
    + rewrite length_map. destruct w; [congruence|]. cbn. lia.
Qed.

Lemma mk_regex_concat_eq (r s : expr) :
  mk_regex_concat r s =
  if re.is_epsilon r || re.is_empty s then s
  else if re.is_epsilon s || re.is_empty r then r
  else if re.is_full_seq r && re.is_full_seq s then r
  else if re.is_full_char r && re.is_full_seq s then re.mk_plus re.mk_full_char
  else if re.is_full_seq r && re.is_full_char s then re.mk_plus re.mk_full_char
  else
    match re.is_concat r with
    | Some (r1, r2) => mk_regex_concat r1 (mk_regex_concat r2 s)
    | None => re.mk_concat r s
    end.
Proof.
  destruct r as [d args|]; [|reflexivity].
  destruct args as [|x1 [|x2 [|x3 l]]]; destruct d; reflexivity.
Qed.

Lemma mk_regex_concat_step (r : expr) :
  (∀ r1 r2, re.is_concat r = Some (r1, r2) →
     ∀ s w, lang ρ (mk_regex_concat r2 s) w ↔ ∃ u v, w = u ++ v ∧ lang ρ r2 u ∧ lang ρ s v) →
  (∀ r1 r2, re.is_concat r = Some (r1, r2) →
     ∀ s w, lang ρ (mk_regex_concat r1 s) w ↔ ∃ u v, w = u ++ v ∧ lang ρ r1 u ∧ lang ρ s v) →
  ∀ s w, lang ρ (mk_regex_concat r s) w ↔ ∃ u v, w = u ++ v ∧ lang ρ r u ∧ lang ρ s v.
Proof.
  intros IH2 IH1 s w. rewrite mk_regex_concat_eq.
  destruct (re.is_epsilon r) eqn:Eer.
  { cbn [orb]. split.
    - intros Hw. exists [], w. split; [reflexivity|]. split; [|exact Hw].
      apply (lang_is_epsilon _ _ Eer). reflexivity.
    - intros (u & v & -> & Hu & Hv). apply (lang_is_epsilon _ _ Eer) in Hu. subst u.
      exact Hv. }
  destruct (re.is_empty s) eqn:Ees.
  { cbn [orb]. split.
    - intros Hw. exfalso. exact (lang_is_empty _ _ Ees Hw).
    - intros (u & v & -> & Hu & Hv). exfalso. exact (lang_is_empty _ _ Ees Hv). }
  cbn [orb].
  destruct (re.is_epsilon s) eqn:Ees'.
  { cbn [orb]. split.
    - intros Hw. exists w, []. rewrite app_nil_r. split; [reflexivity|].
      split; [exact Hw|]. apply (lang_is_epsilon _ _ Ees'). reflexivity.
    - intros (u & v & -> & Hu & Hv). apply (lang_is_epsilon _ _ Ees') in Hv. subst v.
      rewrite app_nil_r. exact Hu. }
  destruct (re.is_empty r) eqn:Eer'.
  { cbn [orb]. split.
    - intros Hw. exfalso. exact (lang_is_empty _ _ Eer' Hw).
    - intros (u & v & -> & Hu & Hv). exfalso. exact (lang_is_empty _ _ Eer' Hu). }
  cbn [orb].
  destruct (re.is_full_seq r) eqn:Efr.
  { cbn [andb]. destruct (re.is_full_seq s) eqn:Efs.
    - split.
      + intros Hw. exists w, []. rewrite app_nil_r. split; [reflexivity|].
        split; [exact Hw|]. apply lang_is_full_seq. exact Efs.
      + intros _. apply lang_is_full_seq. exact Efr.
    - assert (Hfc : re.is_full_char r = false).
      { apply is_app_of_inv in Efr as [args' ->]. reflexivity. }
      rewrite Hfc. cbn [andb]. destruct (re.is_full_char s) eqn:Ecs.
      + rewrite lang_dot_plus. split.
        * intros Hne.
          exists (take (length w - 1) w), [nth (length w - 1) w 0].
          split; [exact (nonempty_snoc w 0 Hne)|].
          split; [apply lang_is_full_seq; exact Efr|].
          apply (lang_is_full_char _ _ Ecs). reflexivity.
        * intros (u & v & -> & _ & Hv). apply (lang_is_full_char _ _ Ecs) in Hv.
          destruct v; [discriminate|]. intros Hnil. apply app_eq_nil in Hnil as [_ Hnil].
          discriminate.
      + assert (Hnc : re.is_concat r = None).
        { apply is_app_of_inv in Efr as [args' ->].
          destruct args' as [|x1 [|x2 [|x3 l]]]; reflexivity. }
        rewrite Hnc. cbn. reflexivity. }
  cbn [andb].
  destruct (re.is_full_char r) eqn:Ecr.
  { cbn [andb]. destruct (re.is_full_seq s) eqn:Efs.
    - rewrite lang_dot_plus. split.
      + intros Hne. destruct w as [|c w]; [congruence|].
        exists [c], w. split; [reflexivity|].
        split; [apply (lang_is_full_char _ _ Ecr); reflexivity|].
        apply lang_is_full_seq. exact Efs.
      + intros (u & v & -> & Hu & _). apply (lang_is_full_char _ _ Ecr) in Hu.
        destruct u; [discriminate|]. discriminate.
    - assert (Hnc : re.is_concat r = None).
      { apply is_app_of_inv in Ecr as [args' ->].
        destruct args' as [|x1 [|x2 [|x3 l]]]; reflexivity. }
      rewrite Hnc. cbn. reflexivity. }
  cbn [andb].
  destruct (re.is_concat r) as [[r1 r2]|] eqn:Ec; [|cbn; reflexivity].
  specialize (IH1 r1 r2 eq_refl). specialize (IH2 r1 r2 eq_refl).
  apply is_app_of2_inv in Ec. subst r.
  rewrite IH1. cbn [lang]. split.
  - intros (u & v & -> & Hu & Hv). apply IH2 in Hv as (v1 & v2 & -> & Hv1 & Hv2).
    exists (u ++ v1), v2. rewrite app_assoc. split; [reflexivity|].
    split; [|exact Hv2]. exists u, v1. auto.
  - intros (u & v & -> & (u1 & u2 & -> & Hu1 & Hu2) & Hv).
    exists u1, (u2 ++ v). rewrite app_assoc. split; [reflexivity|].
    split; [exact Hu1|]. apply IH2. exists u2, v. auto.
Qed.

Lemma mk_regex_concat_lang (r : expr) :
  ∀ s w, lang ρ (mk_regex_concat r s) w ↔ ∃ u v, w = u ++ v ∧ lang ρ r u ∧ lang ρ s v.
Proof.
  induction r as [d args IH|i srt] using expr_nested_ind; apply mk_regex_concat_step;
    try discriminate.
  - intros r1 r2 Hc. unfold re.is_concat in Hc. apply is_app_of2_inv in Hc.
    injection Hc as -> ->. exact (Forall_inv (Forall_inv_tail IH)).
  - intros r1 r2 Hc. unfold re.is_concat in Hc. apply is_app_of2_inv in Hc.
    injection Hc as -> ->. exact (Forall_inv IH).
Qed.

(** [mk_regex_concat], 3730-3770.  Whichever law fires (unit, zero,
    [.*.*], [..*], [.*.], re-association to the right), the regex built
    denotes the concatenation of the languages of the two arguments. *)
Theorem mk_regex_concat_language (r s : expr) (w : list Z) :
  lang ρ (mk_regex_concat r s) w ↔ lang ρ (re.mk_concat r s) w.
Proof. rewrite mk_regex_concat_lang. reflexivity. Qed.

(** [mk_re_complement], 4917-4944.  Whenever it rewrites, the regex it
    returns denotes the complement of the language of its argument: the
    two De Morgan laws, the complements of the empty and the full
    language, the double complement, and [.+] for the complement of the
    empty word. *)
Theorem mk_re_complement_language (a r : expr) (st : br_status) (w : list Z) :
  mk_re_complement a = (st, Some r) → lang ρ r w ↔ ¬ lang ρ a w.
Proof.
  unfold mk_re_complement.
  destruct (re.is_intersection a) as [[e1 e2]|] eqn:Ei.
  { apply is_app_of2_inv in Ei. subst a. intros [= _ <-]. cbn [lang re.mk_union re.mk_complement].
    split; [tauto|]. intros Hn. destruct (classic (lang ρ e1 w)); tauto. }
  destruct (re.is_union a) as [[e1 e2]|] eqn:Eu.
  { apply is_app_of2_inv in Eu. subst a. intros [= _ <-]. cbn [lang re.mk_inter re.mk_complement].
    tauto. }
  destruct (re.is_empty a) eqn:Ee.
  { intros [= _ <-]. pose proof (lang_is_empty a w Ee). cbn. tauto. }
  destruct (re.is_full_seq a) eqn:Ef.
  { intros [= _ <-]. pose proof (lang_is_full_seq a w Ef). cbn. tauto. }
  destruct (re.is_complement a) as [e1|] eqn:Ec.
  { apply is_app_of1_inv in Ec. subst a. intros [= _ <-]. cbn [lang].
    split; [tauto|]. apply NNPP. }
  destruct (re.is_epsilon a) eqn:Ep; [|discriminate].
  intros [= _ <-]. rewrite lang_dot_plus, (lang_is_epsilon a w Ep). reflexivity.
Qed.

End RegexLangFacts.

Lemma mk_re_complement_language_witness :
  let x := var 0 ReSort in
  let a := re.mk_inter (re.mk_to_re (mk_string [97])) x in
  ∃ r, mk_re_complement a = (BR_REWRITE2, Some r) ∧
       ∀ w, lang default_env r w ↔ ¬ lang default_env a w.
Proof.
  intros x a. eexists. split; [reflexivity|].
  intros w. apply (mk_re_complement_language default_env a _ BR_REWRITE2 w). reflexivity.
Defined.

(** ** Reversal *)

Section RegexReverseFacts.
Context `{H : Host}.
Variable ρ : env.

Lemma lang_iter_ext (L L' : list Z → Prop) (ok : nat → Prop) (w : list Z) :
  (∀ u, L u ↔ L' u) → lang_iter L ok w ↔ lang_iter L' ok w.
Proof.
  intros HL. unfold lang_iter. split; intros (ws & Hw & Hall & Hok); exists ws;
    (split; [exact Hw|]); (split; [|exact Hok]);
    apply (Forall_impl _ _ _ Hall); intros u; apply HL.
Qed.

Lemma rev_concat (ws : list (list Z)) : rev (concat ws) = concat (rev (map (@rev Z) ws)).
Proof.
  induction ws as [|u ws IH]; [reflexivity|]. cbn [concat map]. rewrite rev_app_distr, IH.
  cbn [rev]. rewrite concat_app. cbn [concat]. rewrite app_nil_r. reflexivity.
Qed.

Lemma lang_iter_rev (L : list Z → Prop) (ok : nat → Prop) (w : list Z) :
  lang_iter L ok (rev w) ↔ lang_iter (λ u, L (rev u)) ok w.
Proof.
  unfold lang_iter. split; intros (ws & Hw & Hall & Hok); exists (rev (map (@rev Z) ws)).
  - split; [rewrite <- rev_concat, <- Hw, rev_involutive; reflexivity|].
    rewrite length_rev, length_map. split; [|exact Hok].
    apply Forall_rev, Forall_fmap. apply (Forall_impl _ _ _ Hall). intros u Hu. cbn.
    rewrite rev_involutive. exact Hu.
  - split; [rewrite <- rev_concat, <- Hw; reflexivity|].
    rewrite length_rev, length_map. split; [|exact Hok].
    apply Forall_rev, Forall_fmap. apply (Forall_impl _ _ _ Hall). intros u Hu. exact Hu.
Qed.

Lemma lang_is_dot_plus (r : expr) (w : list Z) :
  re.is_dot_plus r = true → lang ρ r w ↔ w ≠ [].
Proof.
  unfold re.is_dot_plus. destruct (re.is_plus r) as [s|] eqn:Ep.
  { intros Hs. apply is_app_of1_inv in Ep. subst r.
    apply is_app_of_inv in Hs as [args ->]. rewrite <- (lang_dot_plus ρ w). cbn [lang].
    apply lang_iter_ext. intros u. reflexivity. }
  destruct (re.is_concat r) as [[s t]|] eqn:Ec; [|discriminate].
  apply is_app_of2_inv in Ec. subst r. intros Hst. cbn [lang].
  apply orb_true_iff in Hst as [Hst|Hst]; apply andb_true_iff in Hst as [Hc Hf].
  - split.
    + intros (u & v & -> & Hu & _). apply (lang_is_full_char ρ _ _ Hc) in Hu.
      destruct u; discriminate.
    + intros Hne. destruct w as [|c w]; [congruence|]. exists [c], w.
      split; [reflexivity|]. split; [apply (lang_is_full_char ρ _ _ Hc); reflexivity|].
      apply lang_is_full_seq. exact Hf.
  - split.
    + intros (u & v & -> & _ & Hv). apply (lang_is_full_char ρ _ _ Hc) in Hv.
      destruct v; [discriminate|]. intros Hnil. apply app_eq_nil in Hnil as [_ Hnil].
      discriminate.
    + intros Hne. exists (take (length w - 1) w), [nth (length w - 1) w 0].
      split; [exact (nonempty_snoc w 0 Hne)|].
      split; [apply lang_is_full_seq; exact Hf|].
      apply (lang_is_full_char ρ _ _ Hc). reflexivity.
Qed.

Lemma rev_nil_iff (w : list Z) : rev w = [] ↔ w = [].
Proof.
  split; [|intros ->; reflexivity]. intros Hr. apply (f_equal (@rev Z)) in Hr.
  rewrite rev_involutive in Hr. exact Hr.
Qed.

Lemma rev_length_one (w : list Z) : length w = 1%nat → rev w = w.
Proof. destruct w as [|c [|d w]]; try discriminate. reflexivity. Qed.

Lemma mk_regex_reverse_eq (r : expr) :
  mk_regex_reverse r =
  if re.is_empty r || re.is_range_b r || re.is_epsilon r || re.is_full_seq r ||
     re.is_full_char r || re.is_dot_plus r || re.is_of_pred_b r
  then r
  else if re.is_to_re_b r then re.mk_reverse r
  else match re.is_reverse r with Some r1 => r1 | None =>
  match re.is_concat r with
  | Some (r1, r2) => mk_regex_concat (mk_regex_reverse r2) (mk_regex_reverse r1)
  | None =>
  match is_ite r with
  | Some (c, r1, r2) => mk_ite c (mk_regex_reverse r1) (mk_regex_reverse r2)
  | None =>
  match re.is_union r with
  | Some (r1, r2) => re.mk_union (mk_regex_reverse r1) (mk_regex_reverse r2)
  | None =>
  match re.is_intersection r with
  | Some (r1, r2) => re.mk_inter (mk_regex_reverse r1) (mk_regex_reverse r2)
  | None =>
  match re.is_diff r with
  | Some (r1, r2) => re.mk_diff (mk_regex_reverse r1) (mk_regex_reverse r2)
  | None =>
  match re.is_star r with Some r1 => re.mk_star (mk_regex_reverse r1) | None =>
  match re.is_plus r with Some r1 => re.mk_plus (mk_regex_reverse r1) | None =>
  match re.is_loop1 r with
  | Some (r1, lo) => re.mk_loop (mk_regex_reverse r1) lo
  | None =>
  match re.is_loop2 r with
  | Some (r1, lo, hi) => re.mk_loop_proper (mk_regex_reverse r1) lo hi
  | None =>
  match re.is_opt r with Some r1 => re.mk_opt (mk_regex_reverse r1) | None =>
  match re.is_complement r with
  | Some r1 => re.mk_complement (mk_regex_reverse r1)
  | None => re.mk_reverse r
  end end end end end end end end end end end end.
Proof.
  destruct r as [d args|]; [|reflexivity].
  destruct args as [|x1 [|x2 [|x3 [|x4 l]]]]; destruct d; try reflexivity.
  all: match goal with |- context [OP_RE_LOOP ?ps] =>
         destruct ps as [|p1 [|p2 [|p3 ps']]] end; try reflexivity.
  all: cbn; repeat match goal with |- context [if ?b then _ else _] => destruct b end;
    reflexivity.
Qed.

Lemma re_arity_ok_args (r x : expr) :
  re_arity_ok r = true → x ∈ get_args r → re_arity_ok x = true.
Proof.
  destruct r as [d args|]; [|intros _ Hx; cbn in Hx; apply elem_of_nil in Hx; contradiction].
  intros Hok Hx. cbn [get_args] in Hx.
  assert (Hall : forallb re_arity_ok args = true).
  { destruct d; try exact Hok; destruct args as [|x1 [|x2 [|x3 l]]];
      first [exact Hok | discriminate Hok]. }
  rewrite forallb_forall in Hall. apply Hall. apply list_elem_of_In. exact Hx.
Qed.

Lemma is_loop1_inv (r r1 : expr) (lo : Z) :
  re.is_loop1 r = Some (r1, lo) → ∃ lo0, r = app (OP_RE_LOOP [lo0]) [r1] ∧ lo = wrap32 lo0.
Proof.
  destruct r as [d args|]; [|discriminate]. destruct d; try discriminate.
  match goal with |- context [OP_RE_LOOP ?l] => destruct l as [|lo0 [|? ?]] end;
    try discriminate.
  destruct args as [|b [|? ?]]; try discriminate. intros [= <- <-]. eauto.
Qed.

Lemma is_loop2_inv (r r1 : expr) (lo hi : Z) :
  re.is_loop2 r = Some (r1, lo, hi) →
  ∃ lo0 hi0, r = app (OP_RE_LOOP [lo0; hi0]) [r1] ∧ lo = wrap32 lo0 ∧ hi = wrap32 hi0.
Proof.
  destruct r as [d args|]; [|discriminate]. destruct d; try discriminate.
  match goal with |- context [OP_RE_LOOP ?l] => destruct l as [|lo0 [|hi0 [|? ?]]] end;
    try discriminate.
  destruct args as [|b [|? ?]]; try discriminate. intros [= <- <- <-]. eauto.
Qed.

Lemma lang_iter_one (L : list Z → Prop) (w : list Z) :
  lang_iter L (λ n, 1 ≤ Z.of_nat n ≤ 1) w ↔ L w.
Proof.
  unfold lang_iter. split.
  - intros (ws & -> & Hall & Hn). destruct ws as [|u [|v ws]]; cbn in Hn; try lia.
    cbn. rewrite app_nil_r. exact (Forall_inv Hall).
  - intros Hw. exists [w]. cbn. rewrite app_nil_r. split; [reflexivity|].
    split; [constructor; [exact Hw|constructor]|lia].
Qed.

Lemma lang_iter_zero (L : list Z → Prop) (w : list Z) :
  lang_iter L (λ n, 0 ≤ Z.of_nat n ≤ 0) w ↔ w = [].
Proof.
  unfold lang_iter. split.
  - intros (ws & -> & Hall & Hn). destruct ws as [|u ws]; cbn in Hn; [reflexivity|lia].
  - intros ->. exists []. split; [reflexivity|]. split; [constructor|cbn; lia].
Qed.

Ltac arg_in := cbn [get_args]; apply list_elem_of_In; cbn; tauto.

Lemma mk_regex_reverse_step (r : expr) :
  (∀ x, x ∈ get_args r → re_arity_ok x = true →
        ∀ w, lang ρ (mk_regex_reverse x) w ↔ lang ρ x (rev w)) →
  re_arity_ok r = true → ∀ w, lang ρ (mk_regex_reverse r) w ↔ lang ρ r (rev w).
Proof.
  intros IH0 Hok w.
  assert (IH : ∀ x, x ∈ get_args r → ∀ w, lang ρ (mk_regex_reverse x) w ↔ lang ρ x (rev w)).
  { intros x Hx. apply IH0; [exact Hx|]. exact (re_arity_ok_args r x Hok Hx). }
  clear IH0. rewrite mk_regex_reverse_eq.
  destruct (re.is_empty r) eqn:E1.
  { cbn [orb]. split; intros Hw; exfalso; exact (lang_is_empty ρ _ _ E1 Hw). }
  destruct (re.is_range_b r) eqn:E2.
  { cbn [orb]. apply is_app_of_inv in E2 as [args ->].
    destruct args as [|lo [|hi [|? ?]]]; try discriminate Hok. cbn [lang].
    split; intros (c & l & h & Hw & Hr); exists c, l, h; (split; [|exact Hr]).
    - rewrite Hw. reflexivity.
    - apply (f_equal (@rev Z)) in Hw. rewrite rev_involutive in Hw. exact Hw. }
  destruct (re.is_epsilon r) eqn:E3.
  { cbn [orb]. rewrite !(lang_is_epsilon ρ r _ E3). symmetry. apply rev_nil_iff. }
  destruct (re.is_full_seq r) eqn:E4.
  { cbn [orb]. split; intros _; apply lang_is_full_seq; exact E4. }
  destruct (re.is_full_char r) eqn:E5.
  { cbn [orb]. rewrite !(lang_is_full_char ρ r _ E5), length_rev. reflexivity. }
  destruct (re.is_dot_plus r) eqn:E6.
  { cbn [orb]. rewrite !(lang_is_dot_plus r _ E6), rev_nil_iff. reflexivity. }
  destruct (re.is_of_pred_b r) eqn:E7.
  { cbn [orb]. apply is_app_of_inv in E7 as [args ->].
    destruct args as [|p [|? ?]]; try discriminate Hok. cbn [lang].
    split; intros (c & Hw & Hp); exists c; (split; [|exact Hp]).
    - rewrite Hw. reflexivity.
    - apply (f_equal (@rev Z)) in Hw. rewrite rev_involutive in Hw. exact Hw. }
  cbn [orb].
  destruct (re.is_to_re_b r); [reflexivity|].
  destruct (re.is_reverse r) as [r1|] eqn:Er.
  { apply is_app_of1_inv in Er. subst r. cbn [lang]. rewrite rev_involutive. reflexivity. }
  destruct (re.is_concat r) as [[r1 r2]|] eqn:Ec.
  { apply is_app_of2_inv in Ec. subst r. rewrite mk_regex_concat_lang. cbn [lang]. split.
    - intros (u & v & -> & Hu & Hv). exists (rev v), (rev u).
      rewrite rev_app_distr. split; [reflexivity|]. split.
      + apply IH; [arg_in|exact Hv].
      + apply IH; [arg_in|exact Hu].
    - intros (u & v & Hw & Hu & Hv). exists (rev v), (rev u). split.
      + rewrite <- rev_app_distr, <- Hw, rev_involutive. reflexivity.
      + split; (apply IH; [arg_in|]); rewrite rev_involutive; assumption. }
  destruct (is_ite r) as [[[c r1] r2]|] eqn:Ei.
  { apply is_app_of3_inv in Ei. subst r. cbn [lang mk_ite].
    destruct (bool_val ρ c); apply IH; arg_in. }
  destruct (re.is_union r) as [[r1 r2]|] eqn:Eu.
  { apply is_app_of2_inv in Eu. subst r. cbn [lang re.mk_union].
    rewrite (IH r1), (IH r2) by arg_in. reflexivity. }
  destruct (re.is_intersection r) as [[r1 r2]|] eqn:En.
  { apply is_app_of2_inv in En. subst r. cbn [lang re.mk_inter].
    rewrite (IH r1), (IH r2) by arg_in. reflexivity. }
  destruct (re.is_diff r) as [[r1 r2]|] eqn:Ed.
  { apply is_app_of2_inv in Ed. subst r. cbn [lang re.mk_diff].
    rewrite (IH r1), (IH r2) by arg_in. reflexivity. }
  destruct (re.is_star r) as [r1|] eqn:Es.
  { apply is_app_of1_inv in Es. subst r. cbn [lang re.mk_star].
    rewrite lang_iter_rev. apply lang_iter_ext. intros u. apply IH. arg_in. }
  destruct (re.is_plus r) as [r1|] eqn:Ep.
  { apply is_app_of1_inv in Ep. subst r. cbn [lang re.mk_plus].
    rewrite lang_iter_rev. apply lang_iter_ext. intros u. apply IH. arg_in. }
  destruct (re.is_loop1 r) as [[r1 lo]|] eqn:El1.
  { apply is_loop1_inv in El1 as (lo0 & -> & ->). cbn [lang re.mk_loop].
    rewrite lang_iter_rev, wrap32_idemp. apply lang_iter_ext. intros u. apply IH. arg_in. }
  destruct (re.is_loop2 r) as [[[r1 lo] hi]|] eqn:El2.
  { apply is_loop2_inv in El2 as (lo0 & hi0 & -> & -> & ->). cbn [lang].
    rewrite lang_iter_rev. unfold re.mk_loop_proper.
    assert (IH1 : ∀ u, lang ρ (mk_regex_reverse r1) u ↔ lang ρ r1 (rev u)).
    { intros u. apply IH. arg_in. }
    destruct ((wrap32 lo0 =? 0) && (wrap32 hi0 =? 0)) eqn:E00.
    { apply andb_true_iff in E00 as [Ha Hb]. apply Z.eqb_eq in Ha, Hb. rewrite Ha, Hb.
      rewrite lang_iter_zero. apply lang_is_epsilon. reflexivity. }
    destruct ((wrap32 lo0 =? 1) && (wrap32 hi0 =? 1)) eqn:E11.
    { apply andb_true_iff in E11 as [Ha Hb]. apply Z.eqb_eq in Ha, Hb. rewrite Ha, Hb.
      rewrite lang_iter_one. apply IH1. }
    cbn [lang re.mk_loop2]. rewrite !wrap32_idemp. apply lang_iter_ext. exact IH1. }
  destruct (re.is_opt r) as [r1|] eqn:Eo.
  { apply is_app_of1_inv in Eo. subst r. cbn [lang re.mk_opt].
    rewrite rev_nil_iff, (IH r1) by arg_in. reflexivity. }
  destruct (re.is_complement r) as [r1|] eqn:Em.
  { apply is_app_of1_inv in Em. subst r. cbn [lang re.mk_complement].
    rewrite (IH r1) by arg_in. reflexivity. }
  reflexivity.
Qed.

Lemma mk_regex_reverse_lang (r : expr) :
  re_arity_ok r = true → ∀ w, lang ρ (mk_regex_reverse r) w ↔ lang ρ r (rev w).
Proof.
  induction r as [d args IH|i srt] using expr_nested_ind; apply mk_regex_reverse_step.
  - intros x Hx. cbn [get_args] in Hx. exact (proj1 (Forall_forall _ _) IH x Hx).
  - intros x Hx. cbn in Hx. apply elem_of_nil in Hx. contradiction.
Qed.

(** [mk_regex_reverse], 3690-3728.  On a term that respects the arities
    of ranges and predicate regexes, the regex built accepts exactly the
    reversals of the words of the argument: the leaves it keeps are closed
    under reversal, and pushing the reversal through every other
    constructor (swapping the sides of a concatenation) preserves it. *)
Theorem mk_regex_reverse_language (r : expr) (w : list Z) :
  re_arity_ok r = true → lang ρ (mk_regex_reverse r) w ↔ lang ρ r (rev w).
Proof. intros Hok. apply mk_regex_reverse_lang. exact Hok. Qed.

End RegexReverseFacts.

Lemma mk_regex_reverse_language_witness :
  let ab := re.mk_to_re (mk_string [97; 98]) in
  let r := re.mk_concat ab (re.mk_star (re.mk_range (mk_string [48]) (mk_string [57]))) in
  mk_regex_reverse r =
    re.mk_concat (re.mk_star (re.mk_range (mk_string [48]) (mk_string [57])))
                 (re.mk_reverse ab) ∧
  ∀ w, lang default_env (mk_regex_reverse r) w ↔ lang default_env r (rev w).
Proof.
  intros ab r. split; [reflexivity|].
  intros w. apply (mk_regex_reverse_language default_env r w). reflexivity.
Defined.

(** ** Normalized unions and intersections *)

Section SubsetFacts.
Context `{HS : HostSound}.
Variable ρ : env.
Hypothesis info_not_nullable : ∀ r, info_nullable r = l_false → ¬ lang ρ r [].

Lemma lang_loop2_mono (r : expr) (la ua lb ub : Z) (w : list Z) :
  lb ≤ la → ua ≤ ub →
  lang_iter (lang ρ r) (λ n, la ≤ Z.of_nat n ≤ ua) w →
  lang_iter (lang ρ r) (λ n, lb ≤ Z.of_nat n ≤ ub) w.
Proof.
  intros Hl Hu (ws & Hw & Hall & Hn). exists ws. split; [exact Hw|].
  split; [exact Hall|lia].
Qed.

Lemma is_concat3_inv (r a b c : expr) :
  is_concat3 r = Some (a, b, c) → r = re.mk_concat a (re.mk_concat b c).
Proof.
  unfold is_concat3. destruct (re.is_concat r) as [[x y]|] eqn:E1; [|discriminate].
  destruct (re.is_concat y) as [[y1 y2]|] eqn:E2; [|discriminate].
  intros [= <- <- <-]. apply is_app_of2_inv in E1, E2. subst. reflexivity.
Qed.

Lemma is_subset_loop_sound (fuel : nat) (r1 r2 : expr) :
  is_subset_loop fuel r1 r2 = true → ∀ w, lang ρ r1 w → lang ρ r2 w.
Proof.
  revert r1 r2. induction fuel as [|fuel IH]; intros r1 r2; [discriminate|].
  cbn [is_subset_loop].
  destruct (expr_eqb r1 r2) eqn:Eeq.
  { apply expr_eqb_eq in Eeq. subst r2. intros _ w Hw. exact Hw. }
  destruct (re.is_full_seq r2) eqn:Efs.
  { intros _ w _. apply lang_is_full_seq. exact Efs. }
  destruct (re.is_dot_plus r2 && bool_decide (info_nullable r1 = l_false)) eqn:Edp.
  { apply andb_true_iff in Edp as [Hdp Hn]. apply bool_decide_eq_true in Hn.
    intros _ w Hw. apply (lang_is_dot_plus ρ r2 w Hdp). intros ->.
    exact (info_not_nullable r1 Hn Hw). }
  destruct (is_concat3 r1) as [[[ra1 ra2] ra3]|] eqn:E3a;
    [destruct (is_concat3 r2) as [[[rb1 rb2] rb3]|] eqn:E3b;
       [destruct (expr_eqb ra1 rb1 && expr_eqb ra2 rb2) eqn:E12|]|].
  { intros Hs w Hw. apply is_concat3_inv in E3a, E3b. subst r1 r2.
    apply andb_true_iff in E12 as [Ha Hb]. apply expr_eqb_eq in Ha, Hb. subst rb1 rb2.
    cbn [lang re.mk_concat] in *.
    destruct Hw as (u & v & -> & Hu & (v1 & v2 & -> & Hv1 & Hv2)).
    exists u, (v1 ++ v2). split; [reflexivity|]. split; [exact Hu|].
    exists v1, v2. split; [reflexivity|]. split; [exact Hv1|]. exact (IH _ _ Hs _ Hv2). }
  all: destruct (re.is_concat r1) as [[ca1 ca2]|] eqn:Eca;
    [destruct (re.is_concat r2) as [[cb1 cb2]|] eqn:Ecb|].
  all: try (destruct (re.is_full_seq cb1) eqn:Efb;
    [intros Hs w Hw; pose proof Eca as Eca'; pose proof Ecb as Ecb';
     apply is_app_of2_inv in Eca', Ecb'; subst r1 r2; cbn [lang] in *;
     destruct Hw as (u & v & -> & Hu & Hv);
     destruct (IH _ _ Hs _ Hv) as (v1 & v2 & -> & Hv1 & Hv2);
     exists (u ++ v1), v2; rewrite app_assoc; split; [reflexivity|];
     split; [apply lang_is_full_seq; exact Efb|exact Hv2]|]).
  all: try (destruct (re.is_loop2 ca1) as [[[la3 la] ua]|] eqn:Ela;
    [destruct (re.is_loop2 cb1) as [[[lb3 lb] ub]|] eqn:Elb;
       [destruct (expr_eqb la3 lb3 && (lb <=? la) && (ua <=? ub)) eqn:Ebd|]|]).
  all: try (match goal with
    | Ebd : (expr_eqb _ _ && _ && _) = true |- _ =>
        intros Hs w Hw; apply is_app_of2_inv in Eca, Ecb; subst r1 r2;
        apply andb_true_iff in Ebd as [Ebd Hub]; apply andb_true_iff in Ebd as [Hb3 Hlb];
        apply expr_eqb_eq in Hb3; subst lb3; apply Z.leb_le in Hub, Hlb;
        apply is_loop2_inv in Ela as (la0 & ua0 & -> & -> & ->);
        apply is_loop2_inv in Elb as (lb0 & ub0 & -> & -> & ->);
        cbn [lang] in *; destruct Hw as (u & v & -> & Hu & Hv); exists u, v;
        split; [reflexivity|];
        split; [exact (lang_loop2_mono _ _ _ _ _ _ Hlb Hub Hu)|exact (IH _ _ Hs _ Hv)]
    end).
  all: destruct (re.is_loop2 r1) as [[[xa3 la'] ua']|] eqn:El1; [|discriminate].
  all: destruct (re.is_loop2 r2) as [[[xb3 lb'] ub']|] eqn:El2; [|discriminate].
  all: intros Hbd w Hw;
    apply andb_true_iff in Hbd as [Hbd Hub]; apply andb_true_iff in Hbd as [Hb3 Hlb];
    apply expr_eqb_eq in Hb3; subst xb3; apply Z.leb_le in Hub, Hlb;
    apply is_loop2_inv in El1 as (la0 & ua0 & -> & -> & ->);
    apply is_loop2_inv in El2 as (lb0 & ub0 & -> & -> & ->);
    cbn [lang] in *; exact (lang_loop2_mono _ _ _ _ _ _ Hlb Hub Hw).
Qed.

Lemma is_subset_fuel_sound (fuel : nat) (r1 r2 : expr) :
  is_subset_fuel fuel r1 r2 = true → ∀ w, lang ρ r1 w → lang ρ r2 w.
Proof.
  revert r1 r2. induction fuel as [|fuel IH]; intros r1 r2; [discriminate|].
  cbn [is_subset_fuel].
  destruct (re.is_complement r1) as [ra1|] eqn:E1;
    [destruct (re.is_complement r2) as [rb1|] eqn:E2|];
    try apply is_subset_loop_sound.
  intros Hs w Hw. apply is_app_of1_inv in E1, E2. subst r1 r2. cbn [lang] in *.
  intros Hb. apply Hw. exact (IH _ _ Hs _ Hb).
Qed.

Lemma is_subset_lang (r1 r2 : expr) (w : list Z) :
  is_subset r1 r2 = true → lang ρ r1 w → lang ρ r2 w.
Proof. intros Hs. exact (is_subset_fuel_sound _ r1 r2 Hs w). Qed.

(** [is_subset], 4830-4876.  A positive answer is right: when the regex
    info never calls a nullable regex non-nullable, [is_subset r1 r2]
    holds only if every word of [r1] is a word of [r2]. *)
Theorem is_subset_sound (r1 r2 : expr) (w : list Z) :
  is_subset r1 r2 = true → lang ρ r1 w → lang ρ r2 w.
Proof. apply is_subset_lang. Qed.

End SubsetFacts.

Section MergeFacts.
Context `{HS : HostSound}.
Variable ρ : env.
Hypothesis info_not_nullable : ∀ r, info_nullable r = l_false → ¬ lang ρ r [].

Lemma are_complements_lang (a b : expr) (w : list Z) :
  are_complements a b = true → (lang ρ a w ↔ ¬ lang ρ b w).
Proof.
  unfold are_complements. intros Hc. apply orb_true_iff in Hc as [Hc|Hc].
  - destruct (re.is_complement a) as [r|] eqn:E; [|discriminate].
    apply is_app_of1_inv in E. apply expr_eqb_eq in Hc. subst. reflexivity.
  - destruct (re.is_complement b) as [r|] eqn:E; [|discriminate].
    apply is_app_of1_inv in E. apply expr_eqb_eq in Hc. subst. cbn [lang].
    split; [tauto|apply NNPP].
Qed.

Lemma merge_compare_zero (x y : expr) : (merge_compare x y =? 0) = true → x = y.
Proof.
  unfold merge_compare. destruct (expr_eqb x y) eqn:E; [intros _; apply expr_eqb_eq, E|].
  match goal with |- context [if ?b then _ else _] => destruct b end; discriminate.
Qed.

Lemma union_compose_lang (a b : expr) (w : list Z) :
  lang ρ (union_compose a b) w ↔ lang ρ a w ∨ lang ρ b w.
Proof.
  unfold union_compose. destruct (is_subset a b) eqn:E1.
  { pose proof (is_subset_lang ρ info_not_nullable a b w E1). tauto. }
  destruct (is_subset b a) eqn:E2.
  { pose proof (is_subset_lang ρ info_not_nullable b a w E2). tauto. }
  reflexivity.
Qed.

Lemma inter_compose_lang (a b : expr) (w : list Z) :
  lang ρ (inter_compose a b) w ↔ lang ρ a w ∧ lang ρ b w.
Proof.
  unfold inter_compose. destruct (is_subset a b) eqn:E1.
  { pose proof (is_subset_lang ρ info_not_nullable a b w E1). tauto. }
  destruct (is_subset b a) eqn:E2.
  { pose proof (is_subset_lang ρ info_not_nullable b a w E2). tauto. }
  reflexivity.
Qed.

Lemma join_fold_ext (disj : bool) (prefix : list expr) (w : list Z) (P Q : Prop) :
  (P ↔ Q) →
  foldr (λ a acc, lang_join disj (lang ρ a w) acc) P prefix ↔
  foldr (λ a acc, lang_join disj (lang ρ a w) acc) Q prefix.
Proof.
  intros HPQ. induction prefix as [|a prefix IH]; [exact HPQ|].
  cbn [foldr]. unfold lang_join. destruct disj; tauto.
Qed.

Lemma join_fold_top (disj : bool) (prefix : list expr) (w : list Z) :
  foldr (λ a acc, lang_join disj (lang ρ a w) acc) (disj = true) prefix ↔ disj = true.
Proof.
  induction prefix as [|a prefix IH]; [reflexivity|].
  cbn [foldr]. unfold lang_join. destruct disj; [tauto|].
  split; [intros [_ Hf]; apply IH; exact Hf|discriminate].
Qed.

Lemma composeresult_lang (disj : bool) (compose : expr → expr → expr) :
  (∀ a b w, lang ρ (compose a b) w ↔ lang_join disj (lang ρ a w) (lang ρ b w)) →
  ∀ prefix suffix w,
    lang ρ (composeresult compose prefix suffix) w ↔
    foldr (λ a acc, lang_join disj (lang ρ a w) acc) (lang ρ suffix w) prefix.
Proof.
  intros Hcompose prefix suffix w. unfold composeresult.
  induction prefix as [|a prefix IH]; [reflexivity|].
  cbn [foldr]. rewrite Hcompose. unfold lang_join. destruct disj; tauto.
Qed.

Lemma merge_regex_sets_loop_lang (disj : bool) (unit : expr)
    (test : expr → option (expr * expr)) (compose : expr → expr → expr) :
  (∀ w, lang ρ unit w ↔ disj = true) →
  (∀ r a r', test r = Some (a, r') →
     (expr_size r' < expr_size r)%nat ∧
     ∀ w, lang ρ r w ↔ lang_join disj (lang ρ a w) (lang ρ r' w)) →
  (∀ a b w, lang ρ (compose a b) w ↔ lang_join disj (lang ρ a w) (lang ρ b w)) →
  ∀ fuel ar br prefix, (expr_size ar + expr_size br ≤ fuel)%nat →
  ∃ r, merge_regex_sets_loop unit test compose fuel ar br prefix = Some r ∧
       ∀ w, lang ρ r w ↔
            foldr (λ a acc, lang_join disj (lang ρ a w) acc)
                  (lang_join disj (lang ρ ar w) (lang ρ br w)) prefix.
Proof.
  intros Hunit Htest Hcompose.
  induction fuel as [|fuel IH]; intros ar br prefix Hsz.
  { pose proof (expr_size_pos ar). lia. }
  assert (Hcomp : ∀ x y w, are_complements x y = true →
            lang_join disj (lang ρ x w) (lang ρ y w) ↔ disj = true).
  { intros x y w Hc. pose proof (are_complements_lang x y w Hc).
    pose proof (classic (lang ρ y w)). unfold lang_join.
    destruct disj; [tauto|]. split; [tauto|discriminate]. }
  assert (Hone : ∀ x y a x1, (expr_size x + expr_size y ≤ S fuel)%nat →
            test x = Some (a, x1) →
            ∃ r,
              (if are_complements a y then Some unit
               else
                 let c := merge_compare a y in
                 if c =? 0 then Some (composeresult compose prefix x)
                 else if c =? -1
                      then merge_regex_sets_loop unit test compose fuel x1 y (prefix ++ [a])
                      else Some (composeresult compose (prefix ++ [y]) x)) = Some r ∧
              ∀ w, lang ρ r w ↔
                   foldr (λ a acc, lang_join disj (lang ρ a w) acc)
                         (lang_join disj (lang ρ x w) (lang ρ y w)) prefix).
  { intros x y a x1 Hxy Hx. destruct (Htest x a x1 Hx) as [Hlt Hxl].
    destruct (are_complements a y) eqn:Ec.
    { eexists. split; [reflexivity|]. intros w. rewrite Hunit.
      rewrite <- (join_fold_top disj prefix w) at 1. apply join_fold_ext.
      pose proof (Hcomp a y w Ec) as Hay. specialize (Hxl w). revert Hay Hxl.
      unfold lang_join. destruct disj; [tauto|].
      intros Hay Hxl. split; [discriminate|]. intros [Hx' Hy]. apply Hay. tauto. }
    cbn zeta. destruct (merge_compare a y =? 0) eqn:E0.
    { apply merge_compare_zero in E0. subst y. eexists. split; [reflexivity|].
      intros w. rewrite (composeresult_lang disj compose Hcompose).
      apply join_fold_ext. specialize (Hxl w). revert Hxl. unfold lang_join.
      destruct disj; tauto. }
    destruct (merge_compare a y =? -1).
    { destruct (IH x1 y (prefix ++ [a]) ltac:(lia)) as (r & Hr & Hl).
      exists r. split; [exact Hr|]. intros w. rewrite Hl, foldr_app. cbn [foldr].
      apply join_fold_ext. specialize (Hxl w). revert Hxl. unfold lang_join.
      destruct disj; tauto. }
    eexists. split; [reflexivity|]. intros w.
    rewrite (composeresult_lang disj compose Hcompose), foldr_app. cbn [foldr].
    apply join_fold_ext. unfold lang_join. destruct disj; tauto. }
  cbn [merge_regex_sets_loop].
  destruct (expr_eqb ar br) eqn:Eeq.
  { apply expr_eqb_eq in Eeq. subst br. eexists. split; [reflexivity|].
    intros w. rewrite (composeresult_lang disj compose Hcompose).
    apply join_fold_ext. unfold lang_join. destruct disj; tauto. }
  destruct (are_complements ar br) eqn:Ecp.
  { eexists. split; [reflexivity|]. intros w. rewrite Hunit.
    rewrite <- (join_fold_top disj prefix w) at 1. apply join_fold_ext.
    symmetry. apply Hcomp. exact Ecp. }
  destruct (test br) as [[b br1]|] eqn:Etb; destruct (test ar) as [[a ar1]|] eqn:Eta;
    cbn beta iota; rewrite ?Etb, ?Eta.
  - destruct (Htest ar a ar1 Eta) as [Hlta Hal]. destruct (Htest br b br1 Etb) as [Hltb Hbl].
    destruct (are_complements a b) eqn:Ec.
    { eexists. split; [reflexivity|]. intros w. rewrite Hunit.
      rewrite <- (join_fold_top disj prefix w) at 1. apply join_fold_ext.
      pose proof (Hcomp a b w Ec) as Hab. specialize (Hal w). specialize (Hbl w).
      revert Hab Hal Hbl. unfold lang_join. destruct disj; [tauto|].
      intros Hab Hal Hbl. split; [discriminate|]. intros [Hx Hy]. apply Hab. tauto. }
    cbn zeta. destruct (merge_compare a b =? 0) eqn:E0.
    { apply merge_compare_zero in E0. subst b.
      destruct (IH ar1 br1 (prefix ++ [a]) ltac:(lia)) as (r & Hr & Hl).
      exists r. split; [exact Hr|]. intros w. rewrite Hl, foldr_app. cbn [foldr].
      apply join_fold_ext. specialize (Hal w). specialize (Hbl w). revert Hal Hbl.
      unfold lang_join. destruct disj; tauto. }
    destruct (merge_compare a b =? -1).
    { destruct (IH ar1 br (prefix ++ [a]) ltac:(lia)) as (r & Hr & Hl).
      exists r. split; [exact Hr|]. intros w. rewrite Hl, foldr_app. cbn [foldr].
      apply join_fold_ext. specialize (Hal w). revert Hal.
      unfold lang_join. destruct disj; tauto. }
    destruct (IH ar br1 (prefix ++ [b]) ltac:(lia)) as (r & Hr & Hl).
    exists r. split; [exact Hr|]. intros w. rewrite Hl, foldr_app. cbn [foldr].
    apply join_fold_ext. specialize (Hbl w). revert Hbl.
    unfold lang_join. destruct disj; tauto.
  - destruct (Hone br ar b br1 ltac:(lia) Etb) as (r & Hr & Hl).
    exists r. split; [exact Hr|]. intros w. rewrite Hl. apply join_fold_ext.
    unfold lang_join. destruct disj; tauto.
  - exact (Hone ar br a ar1 Hsz Eta).
  - destruct (merge_compare ar br =? -1); eexists; (split; [reflexivity|]); intros w;
      rewrite (composeresult_lang disj compose Hcompose), foldr_app; cbn [foldr];
      apply join_fold_ext; unfold lang_join; destruct disj; tauto.
Qed.

Lemma merge_regex_sets_lang (disj : bool) (unit : expr)
    (test : expr → option (expr * expr)) (compose : expr → expr → expr) :
  (∀ w, lang ρ unit w ↔ disj = true) →
  (∀ r a r', test r = Some (a, r') →
     (expr_size r' < expr_size r)%nat ∧
     ∀ w, lang ρ r w ↔ lang_join disj (lang ρ a w) (lang ρ r' w)) →
  (∀ a b w, lang ρ (compose a b) w ↔ lang_join disj (lang ρ a w) (lang ρ b w)) →
  ∀ r1 r2 w, lang ρ (merge_regex_sets unit test compose r1 r2) w ↔
             lang_join disj (lang ρ r1 w) (lang ρ r2 w).
Proof.
  intros Hunit Htest Hcompose r1 r2 w. unfold merge_regex_sets.
  destruct (merge_regex_sets_loop_lang disj unit test compose Hunit Htest Hcompose
              (expr_size r1 + expr_size r2) r1 r2 [] ltac:(lia)) as (r & -> & Hl).
  cbn [default]. rewrite Hl. reflexivity.
Qed.

End MergeFacts.

Section NormalizeLangFacts.
Context `{HS : HostSound}.
Variable ρ : env.
Hypothesis info_not_nullable : ∀ r, info_nullable r = l_false → ¬ lang ρ r [].

Lemma info_min_length_nonempty (r : expr) (w : list Z) :
  (info_min_length r >? 0) = true → lang ρ r w → w ≠ [].
Proof.
  intros Hpos Hw ->. apply info_min_length_sound in Hw. cbn in Hw. lia.
Qed.

Lemma mk_regex_union_normalize_lang (r1 r2 : expr) (w : list Z) :
  lang ρ (mk_regex_union_normalize r1 r2) w ↔ lang ρ r1 w ∨ lang ρ r2 w.
Proof.
  unfold mk_regex_union_normalize.
  destruct (expr_eqb r1 r2) eqn:Eeq.
  { apply expr_eqb_eq in Eeq. subst r2. cbn [orb]. tauto. }
  destruct (re.is_empty r2) eqn:Ee2.
  { cbn [orb]. pose proof (lang_is_empty ρ r2 w Ee2). tauto. }
  destruct (re.is_full_seq r1) eqn:Ef1.
  { cbn [orb]. pose proof (lang_is_full_seq ρ r1 w Ef1). tauto. }
  cbn [orb].
  destruct (re.is_empty r1) eqn:Ee1.
  { cbn [orb]. pose proof (lang_is_empty ρ r1 w Ee1). tauto. }
  destruct (re.is_full_seq r2) eqn:Ef2.
  { cbn [orb]. pose proof (lang_is_full_seq ρ r2 w Ef2). tauto. }
  cbn [orb].
  destruct (re.is_dot_plus r1 && (info_min_length r2 >? 0)) eqn:Ed1.
  { apply andb_true_iff in Ed1 as [Hd Hm].
    pose proof (info_min_length_nonempty r2 w Hm). pose proof (lang_is_dot_plus ρ r1 w Hd).
    tauto. }
  destruct (re.is_dot_plus r2 && (info_min_length r1 >? 0)) eqn:Ed2.
  { apply andb_true_iff in Ed2 as [Hd Hm].
    pose proof (info_min_length_nonempty r1 w Hm). pose proof (lang_is_dot_plus ρ r2 w Hd).
    tauto. }
  apply (merge_regex_sets_lang ρ true).
  - intros u. cbn. tauto.
  - intros r a r' Hr. apply is_app_of2_inv in Hr. subst r. split; [|reflexivity].
    rewrite expr_size_app, !exprs_size_cons. lia.
  - intros a b u. apply union_compose_lang. exact info_not_nullable.
Qed.

Lemma mk_regex_inter_normalize_lang (r1 r2 : expr) (w : list Z) :
  (info_nullable r1 = l_true → lang ρ r1 []) →
  (info_nullable r2 = l_true → lang ρ r2 []) →
  lang ρ (mk_regex_inter_normalize r1 r2) w ↔ lang ρ r1 w ∧ lang ρ r2 w.
Proof.
  intros Hn1 Hn2.
  assert (Hgen : ∀ x y, (info_nullable y = l_true → lang ρ y []) →
            lang ρ
              (if expr_eqb x y || re.is_empty x || re.is_full_seq y then x
               else if re.is_empty y || re.is_full_seq x then y
               else if re.is_epsilon x then
                 match info_nullable y with
                 | l_true => x
                 | l_false => re.mk_empty
                 | l_undef =>
                     merge_regex_sets re.mk_empty re.is_intersection inter_compose x y
                 end
               else if re.is_dot_plus x && (info_min_length y >? 0) then y
               else if re.is_dot_plus y && (info_min_length x >? 0) then x
               else merge_regex_sets re.mk_empty re.is_intersection inter_compose x y) w ↔
            lang ρ x w ∧ lang ρ y w).
  { intros x y Hny.
    assert (Hmerge : lang ρ
              (merge_regex_sets re.mk_empty re.is_intersection inter_compose x y) w ↔
              lang ρ x w ∧ lang ρ y w).
    { apply (merge_regex_sets_lang ρ false).
      - intros u. cbn. split; [tauto|discriminate].
      - intros r a r' Hr. apply is_app_of2_inv in Hr. subst r. split; [|reflexivity].
        rewrite expr_size_app, !exprs_size_cons. lia.
      - intros a b u. apply inter_compose_lang. exact info_not_nullable. }
    destruct (expr_eqb x y) eqn:Eeq.
    { apply expr_eqb_eq in Eeq. subst y. cbn [orb]. tauto. }
    destruct (re.is_empty x) eqn:Ee1.
    { cbn [orb]. pose proof (lang_is_empty ρ x w Ee1). tauto. }
    destruct (re.is_full_seq y) eqn:Ef2.
    { cbn [orb]. pose proof (lang_is_full_seq ρ y w Ef2). tauto. }
    cbn [orb].
    destruct (re.is_empty y) eqn:Ee2.
    { cbn [orb]. pose proof (lang_is_empty ρ y w Ee2). tauto. }
    destruct (re.is_full_seq x) eqn:Ef1.
    { cbn [orb]. pose proof (lang_is_full_seq ρ x w Ef1). tauto. }
    cbn [orb].
    destruct (re.is_epsilon x) eqn:Ep.
    { pose proof (lang_is_epsilon ρ x w Ep) as Hx.
      destruct (info_nullable y) eqn:En; [| exact Hmerge |].
      - pose proof (info_not_nullable y En) as Hy. cbn [lang re.mk_empty].
        split; [contradiction|]. intros [Hw Hyw]. apply Hx in Hw. subst w. exact (Hy Hyw).
      - specialize (Hny eq_refl). split; [|tauto].
        intros Hw. split; [exact Hw|]. apply Hx in Hw. subst w. exact Hny. }
    destruct (re.is_dot_plus x && (info_min_length y >? 0)) eqn:Ed1.
    { apply andb_true_iff in Ed1 as [Hd Hm].
      pose proof (info_min_length_nonempty y w Hm). pose proof (lang_is_dot_plus ρ x w Hd).
      tauto. }
    destruct (re.is_dot_plus y && (info_min_length x >? 0)) eqn:Ed2.
    { apply andb_true_iff in Ed2 as [Hd Hm].
      pose proof (info_min_length_nonempty x w Hm). pose proof (lang_is_dot_plus ρ y w Hd).
      tauto. }
    exact Hmerge. }
  unfold mk_regex_inter_normalize. destruct (re.is_epsilon r2).
  - rewrite (Hgen r2 r1 Hn1). tauto.
  - exact (Hgen r1 r2 Hn2).
Qed.

(** [mk_regex_union_normalize] and [mk_regex_inter_normalize], 3537-3585,
    with [merge_regex_sets], 3587-3688.  When the regex info never calls a
    nullable regex non-nullable (nor, for the two arguments of the
    intersection, a non-nullable one nullable), the normalized union
    denotes the union of the two languages and the normalized
    intersection their intersection; the merge always runs to its end. *)
Theorem mk_regex_normalize_language (r1 r2 : expr) (w : list Z) :
  (lang ρ (mk_regex_union_normalize r1 r2) w ↔ lang ρ r1 w ∨ lang ρ r2 w) ∧
  ((info_nullable r1 = l_true → lang ρ r1 []) →
   (info_nullable r2 = l_true → lang ρ r2 []) →
   (lang ρ (mk_regex_inter_normalize r1 r2) w ↔ lang ρ r1 w ∧ lang ρ r2 w)).
Proof.
  split; [apply mk_regex_union_normalize_lang|apply mk_regex_inter_normalize_lang].
Qed.

End NormalizeLangFacts.

Lemma default_info_not_nullable (r : expr) :
  default_info_nullable r = l_false → ¬ lang default_env r [].
Proof.
  destruct r as [d args|]; [|discriminate].
  destruct (re.is_to_re_b (app d args)) eqn:Et.
  - unfold re.is_to_re_b in Et. apply is_app_of_inv in Et as [args' [= -> ->]].
    cbn [default_info_nullable].
    destruct args' as [|s [|? ?]]; try discriminate.
    destruct (is_string s) as [u|] eqn:Es.
    + case_bool_decide; [discriminate|]. intros _. cbn [lang]. intros Hw.
      rewrite (is_string_val default_env s u Es) in Hw. congruence.
    + destruct (is_app_of s OP_SEQ_EMPTY); discriminate.
  - destruct d; try discriminate; intros _;
      destruct args as [|x1 [|x2 [|x3 l]]]; cbn; try tauto; try discriminate.
    intros (c & l' & h & Hw & _). discriminate.
Qed.

Lemma is_subset_sound_witness :
  let r1 := re.mk_to_re (mk_string [97]) in
  let r2 := re.mk_plus re.mk_full_char in
  @is_subset default_host r1 r2 = true ∧ lang default_env r1 [97] ∧
  lang default_env r2 [97].
Proof.
  intros r1 r2. split; [reflexivity|]. split; [reflexivity|].
  apply (@is_subset_sound default_host default_env default_info_not_nullable r1 r2 [97]);
    reflexivity.
Defined.

Lemma mk_regex_normalize_language_witness :
  let a := re.mk_to_re (mk_string [97]) in
  let b := re.mk_to_re (mk_string [98]) in
  let c := re.mk_to_re (mk_string [99]) in
  let r1 := re.mk_union a c in
  let r2 := re.mk_union b c in
  (lang default_env (@mk_regex_union_normalize default_host r1 r2) [99] ↔
   lang default_env r1 [99] ∨ lang default_env r2 [99]) ∧
  (lang default_env (@mk_regex_inter_normalize default_host r1 r2) [99] ↔
   lang default_env r1 [99] ∧ lang default_env r2 [99]).
Proof.
  intros a b c r1 r2.
  destruct (@mk_regex_normalize_language default_host default_host_sound default_env
              default_info_not_nullable r1 r2 [99]) as [Hu Hi].
  split; [exact Hu|]. apply Hi; discriminate.
Defined.

(** ** Nullability *)

Section NullableFacts.
Context `{HS : HostSound}.
Variable ρ : env.
Hypothesis br_mk_ite_sound : ∀ c a b,
  bool_val ρ (br_mk_ite c a b) = if bool_val ρ c then bool_val ρ a else bool_val ρ b.

Lemma is_nullable_eq (r : expr) :
  is_nullable r =
  match re.is_concat r, re.is_intersection r with
  | Some (r1, r2), _ | None, Some (r1, r2) => br_mk_and (is_nullable r1) (is_nullable r2)
  | None, None =>
  match re.is_union r, re.is_antimirov_union r with
  | Some (r1, r2), _ | None, Some (r1, r2) => br_mk_or (is_nullable r1) (is_nullable r2)
  | None, None =>
  match re.is_diff r with
  | Some (r1, r2) => br_mk_and (br_mk_not (is_nullable r2)) (is_nullable r1)
  | None =>
  if re.is_star_b r || re.is_opt_b r || re.is_full_seq r || re.is_epsilon r ||
     match re.is_loop1 r with Some (_, lo) => lo =? 0 | None => false end ||
     match re.is_loop2 r with Some (_, lo, _) => lo =? 0 | None => false end
  then mk_true
  else if re.is_full_char r || re.is_empty r || re.is_of_pred_b r || re.is_range_b r
  then mk_false
  else
  match re.is_plus r with Some r1 => is_nullable r1 | None =>
  match re.is_loop1 r with Some (r1, _) => is_nullable r1 | None =>
  match re.is_loop2 r with Some (r1, _, _) => is_nullable r1 | None =>
  match re.is_reverse r with Some r1 => is_nullable r1 | None =>
  match re.is_complement r with Some r1 => br_mk_not (is_nullable r1) | None =>
  match re.is_to_re r with Some r1 => is_nullable r1 | None =>
  match is_ite r with
  | Some (c, r1, r2) => br_mk_ite c (is_nullable r1) (is_nullable r2)
  | None =>
  if bool_decide (get_sort r = ReSort) then is_nullable_symbolic_regex r
  else
  match is_concat r with
  | Some (r1, r2) => br_mk_and (is_nullable r1) (is_nullable r2)
  | None =>
  if is_empty r then mk_true
  else if is_unit_b r then mk_false
  else
    match is_string r with
    | Some s1 => mk_bool_val (bool_decide (length s1 = 0%nat))
    | None => mk_eq mk_empty r
    end
  end end end end end end end end end end end.
Proof.
  destruct r as [d args|]; [|reflexivity].
  destruct args as [|x1 [|x2 [|x3 [|x4 l]]]]; destruct d; try reflexivity.
  all: try match goal with |- context [OP_RE_LOOP ?ps] =>
             destruct ps as [|p1 [|p2 [|p3 ps']]] end; try reflexivity.
  cbn [is_nullable]. change (re.is_epsilon (app OP_SEQ_TO_RE [x1])) with (is_empty x1).
  destruct (is_empty x1); reflexivity.
  all: cbn;
    match goal with |- context [wrap32 ?p =? 0] => destruct (wrap32 p =? 0) end;
    reflexivity.
Qed.

Lemma lang_iter_nil (L : list Z → Prop) (ok : nat → Prop) :
  lang_iter L ok [] ↔ ok 0%nat ∨ (L [] ∧ ∃ n, ok n).
Proof.
  unfold lang_iter. split.
  - intros (ws & Hw & Hall & Hok). destruct ws as [|u ws]; [left; exact Hok|].
    right. symmetry in Hw. cbn [concat] in Hw. apply app_eq_nil in Hw as [-> _].
    split; [exact (Forall_inv Hall)|]. eauto.
  - intros [Hok|[HL [n Hok]]].
    + exists []. split; [reflexivity|]. split; [constructor|exact Hok].
    + exists (replicate n []). split.
      * clear Hok. induction n as [|n IH]; [reflexivity|exact IH].
      * split; [apply Forall_replicate; exact HL|]. rewrite length_replicate. exact Hok.
Qed.

Lemma nullable_decided_other (r : expr) :
  re.is_concat r = None → re.is_intersection r = None → re.is_union r = None →
  re.is_antimirov_union r = None → re.is_diff r = None →
  re.is_star_b r = false → re.is_opt_b r = false → re.is_full_seq r = false →
  re.is_loop1 r = None → re.is_loop2 r = None →
  re.is_full_char r = false → re.is_empty r = false → re.is_of_pred_b r = false →
  re.is_range_b r = false →
  re.is_plus r = None → re.is_reverse r = None → re.is_complement r = None →
  re.is_to_re r = None → is_ite r = None → is_concat r = None →
  nullable_decided r = bool_decide (get_sort r = SeqSort).
Proof.
  destruct r as [d args|]; [|reflexivity].
  destruct args as [|x1 [|x2 [|x3 [|x4 l]]]]; destruct d; intros; try reflexivity.
  all: try match goal with |- context [OP_RE_LOOP ?ps] =>
             destruct ps as [|p1 [|p2 [|p3 ps']]] end; try reflexivity.
  all: exfalso;
    match goal with
    | Hx : ?t = false |- _ =>
        assert (Ht : t = true) by reflexivity; rewrite Ht in Hx; discriminate Hx
    | Hx : ?t = None |- _ =>
        assert (Ht : ∃ v, t = Some v) by (eexists; reflexivity);
        destruct Ht as [v Ht]; rewrite Ht in Hx; discriminate Hx
    end.
Qed.

Ltac sub_arg := cbn [get_args]; apply list_elem_of_In; cbn; tauto.

Ltac split_ok Hok :=
  cbn [nullable_decided] in Hok;
  repeat match type of Hok with
         | (_ && _) = true =>
             let Hl := fresh "Hok" in apply andb_true_iff in Hok as [Hok Hl]
         end;
  repeat match goal with
         | Hb : bool_decide _ = true |- _ => apply bool_decide_eq_true in Hb
         end.

Lemma is_nullable_step (r : expr) :
  (∀ x, x ∈ get_args r → nullable_decided x = true →
        (get_sort x = ReSort → (bool_val ρ (is_nullable x) = true ↔ lang ρ x [])) ∧
        (get_sort x = SeqSort → (bool_val ρ (is_nullable x) = true ↔ seq_val ρ x = []))) →
  nullable_decided r = true →
  (get_sort r = ReSort → (bool_val ρ (is_nullable r) = true ↔ lang ρ r [])) ∧
  (get_sort r = SeqSort → (bool_val ρ (is_nullable r) = true ↔ seq_val ρ r = [])).
Proof.
  intros IH Hok. rewrite is_nullable_eq.
  assert (Hcat : ∀ a b : list Z, [] = a ++ b ↔ a = [] ∧ b = []).
  { intros a b. split; [intros Hab; symmetry in Hab; apply app_eq_nil in Hab; exact Hab|].
    intros [-> ->]. reflexivity. }
  destruct (re.is_concat r) as [[r1 r2]|] eqn:Ecat.
  { apply is_app_of2_inv in Ecat. subst r. split_ok Hok.
    destruct (IH r1 ltac:(sub_arg) Hok1) as [I1 _]. destruct (IH r2 ltac:(sub_arg) Hok0) as [I2 _].
    split; [intros _|discriminate]. rewrite br_mk_and_sound, andb_true_iff, (I1 Hok), (I2 Hok2).
    cbn [lang]. split.
    - intros [H1 H2]. exists [], []. auto.
    - intros (u & v & Huv & Hu & Hv). apply Hcat in Huv as [-> ->]. auto. }
  destruct (re.is_intersection r) as [[r1 r2]|] eqn:Eint.
  { apply is_app_of2_inv in Eint. subst r. split_ok Hok.
    destruct (IH r1 ltac:(sub_arg) Hok1) as [I1 _]. destruct (IH r2 ltac:(sub_arg) Hok0) as [I2 _].
    split; [intros _|discriminate]. rewrite br_mk_and_sound, andb_true_iff, (I1 Hok), (I2 Hok2).
    reflexivity. }
  destruct (re.is_union r) as [[r1 r2]|] eqn:Euni.
  { apply is_app_of2_inv in Euni. subst r. split_ok Hok.
    destruct (IH r1 ltac:(sub_arg) Hok1) as [I1 _]. destruct (IH r2 ltac:(sub_arg) Hok0) as [I2 _].
    split; [intros _|discriminate]. rewrite br_mk_or_sound, orb_true_iff, (I1 Hok), (I2 Hok2).
    reflexivity. }
  destruct (re.is_antimirov_union r) as [[r1 r2]|] eqn:Eanti.
  { apply is_app_of2_inv in Eanti. subst r. split_ok Hok.
    destruct (IH r1 ltac:(sub_arg) Hok1) as [I1 _]. destruct (IH r2 ltac:(sub_arg) Hok0) as [I2 _].
    split; [intros _|discriminate]. rewrite br_mk_or_sound, orb_true_iff, (I1 Hok), (I2 Hok2).
    reflexivity. }
  destruct (re.is_diff r) as [[r1 r2]|] eqn:Ediff.
  { apply is_app_of2_inv in Ediff. subst r. split_ok Hok.
    destruct (IH r1 ltac:(sub_arg) Hok1) as [I1 _]. destruct (IH r2 ltac:(sub_arg) Hok0) as [I2 _].
    split; [intros _|discriminate].
    rewrite br_mk_and_sound, br_mk_not_sound, andb_true_iff, negb_true_iff, (I1 Hok).
    cbn [lang]. rewrite <- (I2 Hok2). destruct (bool_val ρ (is_nullable r2)).
    - split; [intros [Hx _]; discriminate|intros [_ Hx]; exfalso; apply Hx; reflexivity].
    - split; [intros [_ Hx]; split; [exact Hx|discriminate]|intros [Hx _]; auto]. }
  destruct (re.is_star_b r) eqn:Estar.
  { cbn [orb]. apply is_app_of_inv in Estar as [args ->].
    destruct args as [|x [|? ?]]; try discriminate Hok.
    split; [intros _|intros Hs; discriminate Hs]. cbn [lang].
    split; [intros _|reflexivity]. apply lang_iter_nil. left. exact I. }
  destruct (re.is_opt_b r) eqn:Eopt.
  { cbn [orb]. apply is_app_of_inv in Eopt as [args ->].
    destruct args as [|x [|? ?]]; try discriminate Hok.
    split; [intros _|intros Hs; discriminate Hs]. cbn [lang].
    split; [intros _; left|]; reflexivity. }
  destruct (re.is_full_seq r) eqn:Efs.
  { cbn [orb]. split; [intros _|].
    - split; [intros _; apply lang_is_full_seq; exact Efs|reflexivity].
    - apply is_app_of_inv in Efs as [args ->]. intros Hs. discriminate Hs. }
  destruct (re.is_epsilon r) eqn:Eeps.
  { cbn [orb]. split; [intros _|].
    - rewrite (lang_is_epsilon ρ r [] Eeps). split; reflexivity.
    - unfold re.is_epsilon in Eeps. destruct (re.is_to_re r) as [s|] eqn:Et; [|discriminate].
      apply is_app_of1_inv in Et. subst r. intros Hs. discriminate Hs. }
  cbn [orb].
  destruct (re.is_loop1 r) as [[l1 lo1]|] eqn:El1.
  { apply is_loop1_inv in El1 as (lo0 & -> & ->). pose proof (wrap32_range lo0) as Hr.
    split; [intros _|intros Hs; discriminate Hs]. cbn [lang]. rewrite lang_iter_nil.
    destruct (wrap32 lo0 =? 0) eqn:E0.
    - apply Z.eqb_eq in E0. cbn [orb]. split; [intros _; left; cbn; lia|reflexivity].
    - apply Z.eqb_neq in E0. cbn [orb]. cbn [nullable_decided] in Hok.
      apply orb_true_iff in Hok as [Hok|Hok]; [apply Z.eqb_eq in Hok; lia|].
      apply andb_true_iff in Hok as [Hs Hok]. apply bool_decide_eq_true in Hs.
      destruct (IH l1 ltac:(sub_arg) Hok) as [I1 _]. rewrite (I1 Hs). split.
      + intros Hn. right. split; [exact Hn|]. exists (Z.to_nat (wrap32 lo0)). lia.
      + intros [Hz|[Hn _]]; [cbn in Hz; lia|exact Hn]. }
  destruct (re.is_loop2 r) as [[[l2 lo2] hi2]|] eqn:El2.
  { apply is_loop2_inv in El2 as (lo0 & hi0 & -> & -> & ->).
    pose proof (wrap32_range lo0) as Hr. pose proof (wrap32_range hi0) as Hr'.
    split; [intros _|intros Hs; discriminate Hs]. cbn [lang]. rewrite lang_iter_nil.
    destruct (wrap32 lo0 =? 0) eqn:E0.
    - apply Z.eqb_eq in E0. cbn [orb]. split; [intros _; left; cbn; lia|reflexivity].
    - apply Z.eqb_neq in E0. cbn [orb]. cbn [nullable_decided] in Hok.
      apply orb_true_iff in Hok as [Hok|Hok]; [apply Z.eqb_eq in Hok; lia|].
      apply andb_true_iff in Hok as [Hok Hnd]. apply andb_true_iff in Hok as [Hle Hs].
      apply bool_decide_eq_true in Hs. apply Z.leb_le in Hle.
      destruct (IH l2 ltac:(sub_arg) Hnd) as [I1 _]. rewrite (I1 Hs). split.
      + intros Hn. right. split; [exact Hn|]. exists (Z.to_nat (wrap32 lo0)). lia.
      + intros [Hz|[Hn _]]; [cbn in Hz; lia|exact Hn]. }
  cbn [orb].
  destruct (re.is_full_char r) eqn:Efc.
  { cbn [orb]. apply is_app_of_inv in Efc as [args ->].
    split; [intros _|intros Hs; discriminate Hs]. cbn. split; discriminate. }
  destruct (re.is_empty r) eqn:Eemp.
  { cbn [orb]. apply is_app_of_inv in Eemp as [args ->].
    split; [intros _|intros Hs; discriminate Hs]. cbn. split; [discriminate|tauto]. }
  destruct (re.is_of_pred_b r) eqn:Epred.
  { cbn [orb]. apply is_app_of_inv in Epred as [args ->].
    destruct args as [|x [|? ?]]; try discriminate Hok.
    split; [intros _|intros Hs; discriminate Hs]. cbn.
    split; [discriminate|intros (c & Hc & _); discriminate Hc]. }
  destruct (re.is_range_b r) eqn:Erng.
  { cbn [orb]. apply is_app_of_inv in Erng as [args ->].
    destruct args as [|x [|y [|? ?]]]; try discriminate Hok.
    split; [intros _|intros Hs; discriminate Hs]. cbn.
    split; [discriminate|intros (c & l & h & Hc & _); discriminate Hc]. }
  cbn [orb].
  destruct (re.is_plus r) as [r1|] eqn:Eplus.
  { apply is_app_of1_inv in Eplus. subst r. split_ok Hok.
    destruct (IH r1 ltac:(sub_arg) Hok0) as [I1 _].
    split; [intros _|intros Hs; discriminate Hs]. cbn [lang].
    rewrite lang_iter_nil, (I1 Hok). split.
    - intros Hn. right. split; [exact Hn|]. exists 1%nat. lia.
    - intros [Hz|[Hn _]]; [lia|exact Hn]. }
  destruct (re.is_reverse r) as [r1|] eqn:Erev.
  { apply is_app_of1_inv in Erev. subst r. split_ok Hok.
    destruct (IH r1 ltac:(sub_arg) Hok0) as [I1 _].
    split; [intros _|intros Hs; discriminate Hs]. cbn [lang rev]. exact (I1 Hok). }
  destruct (re.is_complement r) as [r1|] eqn:Ecomp.
  { apply is_app_of1_inv in Ecomp. subst r. split_ok Hok.
    destruct (IH r1 ltac:(sub_arg) Hok0) as [I1 _].
    split; [intros _|intros Hs; discriminate Hs]. cbn [lang].
    rewrite br_mk_not_sound, negb_true_iff, <- (I1 Hok).
    destruct (bool_val ρ (is_nullable r1)); split; congruence. }
  destruct (re.is_to_re r) as [s|] eqn:Etore.
  { apply is_app_of1_inv in Etore. subst r. split_ok Hok.
    destruct (IH s ltac:(sub_arg) Hok0) as [_ I2].
    split; [intros _|intros Hs; discriminate Hs]. cbn [lang]. rewrite (I2 Hok).
    split; congruence. }
  destruct (is_ite r) as [[[c r1] r2]|] eqn:Eite.
  { apply is_app_of3_inv in Eite. subst r. split_ok Hok.
    destruct (IH r1 ltac:(sub_arg) Hok1) as [I1 J1].
    destruct (IH r2 ltac:(sub_arg) Hok0) as [I2 J2].
    rewrite br_mk_ite_sound. cbn [get_sort get_sort_of_kind lang seq_val].
    split; intros Hs; destruct (bool_val ρ c); auto.
    - apply I2. congruence.
    - apply J2. congruence. }
  destruct (is_concat r) as [[s1 s2]|] eqn:Esc.
  { apply is_app_of2_inv in Esc. subst r. rewrite bool_decide_false by discriminate.
    split_ok Hok.
    destruct (IH s1 ltac:(sub_arg) Hok1) as [_ J1].
    destruct (IH s2 ltac:(sub_arg) Hok0) as [_ J2].
    split; [intros Hs; discriminate Hs|intros _].
    rewrite br_mk_and_sound, andb_true_iff, (J1 Hok), (J2 Hok2).
    change (seq_val ρ (app OP_SEQ_CONCAT [s1; s2]))
      with (seq_val ρ s1 ++ seq_val ρ s2 ++ []).
    rewrite app_nil_r. split; [intros [-> ->]; reflexivity|apply app_eq_nil]. }
  rewrite (nullable_decided_other r) in Hok by assumption.
  apply bool_decide_eq_true in Hok. rewrite bool_decide_false by congruence.
  split; [congruence|intros _].
  destruct (is_empty r) eqn:Ese.
  { rewrite (is_empty_val ρ r Ese). split; reflexivity. }
  destruct (is_unit_b r) eqn:Eun.
  { apply is_app_of_inv in Eun as [args ->]. cbn. split; discriminate. }
  destruct (is_string r) as [s1|] eqn:Estr.
  { rewrite (is_string_val ρ r s1 Estr). destruct s1 as [|c s1].
    - rewrite bool_decide_true by reflexivity. split; reflexivity.
    - rewrite bool_decide_false by discriminate. cbn. split; discriminate. }
  cbn [bool_val mk_eq get_sort get_sort_of_kind mk_empty]. rewrite bool_decide_eq_true.
  change (seq_val ρ mk_empty) with (@nil Z). split; congruence.
Qed.

Lemma is_nullable_decides (r : expr) :
  nullable_decided r = true →
  (get_sort r = ReSort → (bool_val ρ (is_nullable r) = true ↔ lang ρ r [])) ∧
  (get_sort r = SeqSort → (bool_val ρ (is_nullable r) = true ↔ seq_val ρ r = [])).
Proof.
  induction r as [d args IH|i srt] using expr_nested_ind; apply is_nullable_step.
  - intros x Hx. cbn [get_args] in Hx. exact (proj1 (Forall_forall _ _) IH x Hx).
  - intros x Hx. cbn in Hx. apply elem_of_nil in Hx. contradiction.
Qed.

(** [is_nullable_rec], 2904-2971.  On a regex it decides by itself (one
    with no symbolic part, arities and sorts respected, loop bounds in
    order), the formula [is_nullable] returns is true under an assignment
    exactly when the empty word is in the language of the regex; on such
    a sequence term, exactly when the sequence is empty. *)
Theorem is_nullable_sound (r : expr) :
  nullable_decided r = true →
  (get_sort r = ReSort → (bool_val ρ (is_nullable r) = true ↔ lang ρ r [])) ∧
  (get_sort r = SeqSort → (bool_val ρ (is_nullable r) = true ↔ seq_val ρ r = [])).
Proof. apply is_nullable_decides. Qed.

End NullableFacts.

Lemma default_br_mk_ite_sound (ρ : env) (c a b : expr) :
  bool_val ρ (default_br_mk_ite c a b) =
  if bool_val ρ c then bool_val ρ a else bool_val ρ b.
Proof.
  unfold default_br_mk_ite.
  destruct (is_true c) eqn:Ht; [rewrite (is_true_val ρ c Ht); reflexivity|].
  destruct (is_false c) eqn:Hf; [rewrite (is_false_val ρ c Hf); reflexivity|].
  destruct (expr_eqb a b) eqn:E; [|reflexivity].
  apply expr_eqb_eq in E. subst b. destruct (bool_val ρ c); reflexivity.
Qed.

Lemma is_nullable_sound_witness :
  let a := re.mk_to_re (mk_string [97]) in
  let r := re.mk_concat (re.mk_star a) (re.mk_union a (re.mk_to_re mk_empty)) in
  nullable_decided r = true ∧ get_sort r = ReSort ∧
  (bool_val default_env (@is_nullable default_host r) = true ↔ lang default_env r []).
Proof.
  intros a r. split; [reflexivity|]. split; [reflexivity|].
  apply (proj1 (@is_nullable_sound default_host default_host_sound default_env
                  (default_br_mk_ite_sound default_env) r eq_refl)).
  reflexivity.
Defined.
